(** * Majority-system ranking (src/utils/scoring.ts): model and verification

    The judges' marks are JavaScript numbers, that is IEEE 754 binary64
    values; they are modelled by Rocq's primitive floats, which are the same
    format, so that every sum and comparison of marks evaluates bit for bit
    as the program does (2.3 + 2.9 < 2.5 + 2.7 holds here as it does there).

    Vote counts (the results 1, 0.5 and 0 of the per-judge comparison, the
    pair scores, the majority victories and the two comparison sums of the
    tie-break) only ever hold multiples of one half far below 2^53, on which
    binary64 addition and subtraction are exact: they are modelled by
    rationals [Q], compared with [Qeq].

    After the ranking come the reduction of the head-to-head lists to the
    network that is drawn (components/HeadToHeadNetwork/buildGraph.ts), the
    parser of the typed input (src/utils/parser.ts) and the hook that runs
    the parser and the ranking (src/hooks/useScoreCalculation.ts). *)

From Stdlib Require Import ZArith QArith Floats Lia Lqa Permutation Sorted.
From Stdlib Require Import Ascii.
From Stdlib Require DecimalString DecimalNat.
From stdpp Require Import gmap strings list.

Set Warnings "-inexact-float".

(* ===================================================================== *)
(** * Part I: definitions *)
(* ===================================================================== *)

(** ** JavaScript numbers and arrays *)

(** [x > y] on numbers. *)
Definition gt (x y : float) : bool := (y <? x)%float.

(** [x !== y] on numbers ([NaN !== NaN] is true, [0 !== -0] is false). *)
Definition strictNe (x y : float) : bool := negb (x =? y)%float.

(** A vote count taken from an array length or a loop bound. *)
Definition ofNat (n : nat) : Q := inject_Z (Z.of_nat n).

(** [Math.round]: the nearest integer, a tie going towards +infinity;
    zeros, infinities, NaN and integral values are returned unchanged, and a
    negative value that rounds to zero gives -0. *)
Definition Math_round (x : float) : float :=
  match Prim2SF x with
  | S754_finite s m e =>
      if (0 <=? e)%Z then x
      else
        let d := (2 ^ (- e))%Z in
        let q := (Z.pos m / d)%Z in
        let r := (Z.pos m mod d)%Z in
        let up := if s then (d <? 2 * r)%Z else (d <=? 2 * r)%Z in
        let n := if up then (q + 1)%Z else q in
        let y := of_uint63 (Uint63.of_Z n) in
        if s then (- y)%float else y
  | _ => x
  end.

(** [arr[i] ?? 0] on an array of [number | null]: a null entry and an index
    past the end both give 0. *)
Definition orZero (arr : list (option float)) (i : nat) : float :=
  match arr !! i with
  | Some (Some x) => x
  | _ => 0%float
  end.

(** [totals[i] ?? 0] on an array of numbers. *)
Definition numOrZero (arr : list float) (i : nat) : float :=
  match arr !! i with
  | Some x => x
  | None => 0%float
  end.

Definition notNull (s : option float) : bool :=
  match s with Some _ => true | None => false end.

(** [arr.filter(s => s !== null).length] *)
Definition countNonNull (arr : list (option float)) : nat :=
  length (List.filter notNull arr).

(** ** Data model *)

Record SkaterScores := mkSkater {
  name : string;
  aScores : list (option float);
  bScores : list (option float)
}.

Record HeadToHeadResult := mkH2H {
  opponent : string;
  won : bool;
  skaterVotes : nat;
  opponentVotes : nat
}.

Inductive TieBreakLevel :=
  | direct_comparison
  | b_score_sum
  | comparison_all
  | total_score.

(** A tie-break value is a comparison sum (levels 1 and 3) or a sum of
    marks (levels 2 and 4). *)
Inductive TieBreakValue :=
  | Votes (q : Q)
  | Marks (f : float).

(** [SkaterResult extends SkaterScores]: the spread [...skater] is the field
    [scores]; the four optional fields are absent when [None]. *)
Record SkaterResult := mkResult {
  scores : SkaterScores;
  totalScore : float;
  rank : nat;
  majorityVictories : Q;
  tieBreakLevel : option TieBreakLevel;
  tieBreakValue : option TieBreakValue;
  tieBreakInfo : option (list (TieBreakLevel * TieBreakValue));
  headToHeadResults : option (list HeadToHeadResult)
}.

(** ** Score normalizer *)

(** The number of judges of a skater: the larger of the two counts of
    non-null marks. *)
Definition effectiveCount (skater : SkaterScores) : nat :=
  Nat.max (countNonNull (aScores skater)) (countNonNull (bScores skater)).

Definition calculateJudgeTotals (skater : SkaterScores) : list float :=
  let numJudges := effectiveCount skater in
  List.map (fun i => (orZero (aScores skater) i + orZero (bScores skater) i)%float)
           (seq 0 numJudges).

Definition calculateTotalScore (skater : SkaterScores) : float :=
  let totals := calculateJudgeTotals skater in
  fold_left (fun sum total => (sum + total)%float) totals 0%float.

Definition roundToOneDecimal (num : float) : float :=
  (Math_round (num * 10) / 10)%float.

(** ** Pairwise judge comparator *)

Definition compareSkatersByJudge
    (skater1Total skater1BScore skater2Total skater2BScore : float) : Q :=
  if gt skater1Total skater2Total then 1%Q
  else if gt skater2Total skater1Total then 0%Q
  else if gt skater1BScore skater2BScore then 1%Q
  else if gt skater2BScore skater1BScore then 0%Q
  else (1 # 2)%Q.

(** The comparison of two skaters by judge [i], as [pairwiseComparison]
    sets it up. *)
Definition judgeVote (skater1 skater2 : SkaterScores) (i : nat) : Q :=
  let total1 := numOrZero (calculateJudgeTotals skater1) i in
  let total2 := numOrZero (calculateJudgeTotals skater2) i in
  let bScore1 := orZero (bScores skater1) i in
  let bScore2 := orZero (bScores skater2) i in
  compareSkatersByJudge total1 bScore1 total2 bScore2.

Definition pairwiseComparison (skater1 skater2 : SkaterScores) : Q :=
  let totals1 := calculateJudgeTotals skater1 in
  let totals2 := calculateJudgeTotals skater2 in
  let numJudges := Nat.max (length totals1) (length totals2) in
  fold_left (fun score i => (score + judgeVote skater1 skater2 i)%Q)
            (seq 0 numJudges) 0%Q.

(** ** Head-to-head reporter *)

(** One iteration of the judge loop of [calculateHeadToHeadDetails]: the
    pair is (skaterVotes, opponentVotes). *)
Definition countVote (skater opponent : SkaterScores)
    (votes : nat * nat) (judgeIdx : nat) : nat * nat :=
  let skaterTotal :=
    (orZero (aScores skater) judgeIdx + orZero (bScores skater) judgeIdx)%float in
  let skaterBScore := orZero (bScores skater) judgeIdx in
  let opponentTotal :=
    (orZero (aScores opponent) judgeIdx + orZero (bScores opponent) judgeIdx)%float in
  let opponentBScore := orZero (bScores opponent) judgeIdx in
  let result :=
    compareSkatersByJudge skaterTotal skaterBScore opponentTotal opponentBScore in
  if Qeq_bool result 1 then (S (fst votes), snd votes)
  else if Qeq_bool result 0 then (fst votes, S (snd votes))
  else votes.

(** The body of the opponent loop, for an opponent that is not skipped. *)
Definition headToHead (skater opponent : SkaterScores) : HeadToHeadResult :=
  let numJudges :=
    Nat.max
      (Nat.max (countNonNull (aScores skater)) (countNonNull (bScores skater)))
      (Nat.max (countNonNull (aScores opponent)) (countNonNull (bScores opponent))) in
  let votes := fold_left (countVote skater opponent) (seq 0 numJudges) (0, 0) in
  {| opponent := name opponent;
     won := snd votes <? fst votes;
     skaterVotes := fst votes;
     opponentVotes := snd votes |}.

Definition calculateHeadToHeadDetails
    (skater : SkaterScores) (allSkaters : list SkaterScores) : list HeadToHeadResult :=
  flat_map
    (fun opponent =>
       if String.eqb (name opponent) (name skater) then []
       else [headToHead skater opponent])
    allSkaters.

(** ** Majority evaluator *)

#[global] Instance Q_inhabited : Inhabited Q := populate 0%Q.
#[global] Instance float_inhabited : Inhabited float := populate 0%float.

(** [x > y] on vote counts. *)
Definition Qgtb (x y : Q) : bool := negb (Qle_bool x y).

(** The loop nest [for (i = 0 ..) for (j = i + 1 ..) body(l[i], l[j])]
    threading a state. *)
Fixpoint forEachPair {S A : Type} (body : S -> A -> A -> S)
    (l : list A) (st : S) : S :=
  match l with
  | [] => st
  | x1 :: rest =>
      forEachPair body rest (fold_left (fun st x2 => body st x1 x2) rest st)
  end.

(** [for (const skater of skaters) m.set(skater.name, 0)] *)
Definition initScores (skaters : list SkaterScores) : gmap string Q :=
  fold_left (fun m skater => <[name skater := 0%Q]> m) skaters ∅.

(** The body of the pair loop of [calculateMajorityVictories]; [m.get(k)!]
    is the total lookup [m !!! k]. *)
Definition awardVictory (victories : gmap string Q)
    (skater1 skater2 : SkaterScores) : gmap string Q :=
  let score1 := pairwiseComparison skater1 skater2 in
  let numJudges :=
    Nat.max (length (calculateJudgeTotals skater1))
            (length (calculateJudgeTotals skater2)) in
  let score2 := (ofNat numJudges - score1)%Q in
  if Qgtb score1 score2 then
    <[name skater1 := (victories !!! name skater1 + 1)%Q]> victories
  else if Qgtb score2 score1 then
    <[name skater2 := (victories !!! name skater2 + 1)%Q]> victories
  else
    let victories :=
      <[name skater1 := (victories !!! name skater1 + (1 # 2))%Q]> victories in
    <[name skater2 := (victories !!! name skater2 + (1 # 2))%Q]> victories.

Definition calculateMajorityVictories (skaters : list SkaterScores)
    : gmap string Q :=
  forEachPair awardVictory skaters (initScores skaters).

(** ** Tie-break criteria *)

(** [arr.filter(s => s !== null)] as an array of numbers. *)
Definition nonNull (arr : list (option float)) : list float :=
  flat_map (fun s => match s with Some x => [x] | None => [] end) arr.

Definition calculateBScoreSum (skater : SkaterScores) : float :=
  fold_left (fun sum score => (sum + score)%float) (nonNull (bScores skater)) 0%float.

Definition addDirect (comparisonScores : gmap string Q)
    (skater1 skater2 : SkaterScores) : gmap string Q :=
  let score1 := pairwiseComparison skater1 skater2 in
  let numJudges :=
    Nat.max (length (calculateJudgeTotals skater1))
            (length (calculateJudgeTotals skater2)) in
  let score2 := (ofNat numJudges - score1)%Q in
  let comparisonScores :=
    <[name skater1 := (comparisonScores !!! name skater1 + score1)%Q]> comparisonScores in
  <[name skater2 := (comparisonScores !!! name skater2 + score2)%Q]> comparisonScores.

Definition tieBreakByDirectComparison (tiedSkaters : list SkaterScores)
    : gmap string Q :=
  forEachPair addDirect tiedSkaters (initScores tiedSkaters).

(** The inner loop of [tieBreakByComparisonWithAll]. *)
Definition scoreAgainstAll (tiedSkater : SkaterScores)
    (allSkaters : list SkaterScores) : Q :=
  fold_left
    (fun totalScore otherSkater =>
       if String.eqb (name tiedSkater) (name otherSkater) then totalScore
       else (totalScore + pairwiseComparison tiedSkater otherSkater)%Q)
    allSkaters 0%Q.

Definition tieBreakByComparisonWithAll
    (tiedSkaters allSkaters : list SkaterScores) : gmap string Q :=
  fold_left
    (fun m tiedSkater =>
       <[name tiedSkater := scoreAgainstAll tiedSkater allSkaters]> m)
    tiedSkaters (initScores tiedSkaters).

(** ** [Array.prototype.sort]

    The sort reads only the sign of what the comparator returns, a NaN
    counting as 0.  It is stable, and for a consistent comparator (one that
    orders the elements by a total preorder) every stable sort returns the
    same array: the model is the stable insertion sort, which is then the
    array that the program gets from any engine ([sortedBy_unique],
    [byVictories_sort_unique] and [tiedGroup_sort_unique] in Part II).

    The comparator of the first sort is consistent on every input.  The
    comparator of the cascade is consistent when no sum of artistic marks
    and no rounded total of the tied group is NaN.  With a NaN among them it
    is not (a NaN difference reads as 0 against every other value), the
    language then leaves the order to the engine, and the insertion sort is
    one such order, not that of every engine.  So a property that depends on
    the order inside a tied group is stated for inputs without NaN sums; the
    properties stated for all inputs hold for every order of the group. *)

Definition signQ (v : Q) : comparison := (v ?= 0)%Q.

Definition signF (v : float) : comparison :=
  if (v <? 0)%float then Lt else if (0 <? v)%float then Gt else Eq.

Fixpoint insertSorted {A : Type} (cmp : A -> A -> comparison)
    (x : A) (l : list A) : list A :=
  match l with
  | [] => [x]
  | y :: l' =>
      match cmp x y with
      | Gt => y :: insertSorted cmp x l'
      | _ => x :: l
      end
  end.

Definition jsSort {A : Type} (cmp : A -> A -> comparison) (l : list A) : list A :=
  fold_right (insertSorted cmp) [] l.

(** The elements of [new Set(values)], in insertion order, for an equality
    test on the values. *)
Definition distinctValues {A : Type} (same : A -> A -> bool) (l : list A) : list A :=
  fold_left (fun seen x => if existsb (same x) seen then seen else seen ++ [x]) l [].

(** SameValueZero on numbers, the equality of [Set]. *)
Definition sameValueZero (x y : float) : bool :=
  (x =? y)%float || (is_nan x && is_nan y).

(** ** Rank assigner *)

Definition setRank (r : SkaterResult) (n : nat) : SkaterResult :=
  {| scores := scores r; totalScore := totalScore r; rank := n;
     majorityVictories := majorityVictories r;
     tieBreakLevel := tieBreakLevel r; tieBreakValue := tieBreakValue r;
     tieBreakInfo := tieBreakInfo r;
     headToHeadResults := headToHeadResults r |}.

Definition setVictories (r : SkaterResult) (mv : Q)
    (h2h : list HeadToHeadResult) : SkaterResult :=
  {| scores := scores r; totalScore := totalScore r; rank := rank r;
     majorityVictories := mv;
     tieBreakLevel := tieBreakLevel r; tieBreakValue := tieBreakValue r;
     tieBreakInfo := tieBreakInfo r;
     headToHeadResults := Some h2h |}.

Definition setTieBreak (r : SkaterResult) (level : TieBreakLevel)
    (value : TieBreakValue) : SkaterResult :=
  {| scores := scores r; totalScore := totalScore r; rank := rank r;
     majorityVictories := majorityVictories r;
     tieBreakLevel := Some level; tieBreakValue := Some value;
     tieBreakInfo := tieBreakInfo r;
     headToHeadResults := headToHeadResults r |}.

Definition setTieBreakInfo (r : SkaterResult)
    (info : list (TieBreakLevel * TieBreakValue)) : SkaterResult :=
  {| scores := scores r; totalScore := totalScore r; rank := rank r;
     majorityVictories := majorityVictories r;
     tieBreakLevel := tieBreakLevel r; tieBreakValue := tieBreakValue r;
     tieBreakInfo := Some info;
     headToHeadResults := headToHeadResults r |}.

(** The name of a result, [r.name]. *)
Definition rname (r : SkaterResult) : string := name (scores r).

(** The comparator of the first sort, by majority victories descending. *)
Definition byVictories (a b : SkaterResult) : comparison :=
  if negb (Qeq_bool (majorityVictories b) (majorityVictories a)) then
    signQ (majorityVictories b - majorityVictories a)
  else Eq.

(** The three criteria maps of a tied group and the comparator of
    [tiedGroup.sort]. *)
Record Criteria := mkCriteria {
  comparisonScores : gmap string Q;
  bScoreSums : gmap string float;
  comparisonWithAll : gmap string Q
}.

Definition cascade (c : Criteria) (a b : SkaterResult) : comparison :=
  let compA := comparisonScores c !!! rname a in
  let compB := comparisonScores c !!! rname b in
  if negb (Qeq_bool compB compA) then signQ (compB - compA)
  else
    let bSumA := bScoreSums c !!! rname a in
    let bSumB := bScoreSums c !!! rname b in
    if strictNe bSumB bSumA then signF (bSumB - bSumA)
    else
      let compAllA := comparisonWithAll c !!! rname a in
      let compAllB := comparisonWithAll c !!! rname b in
      if negb (Qeq_bool compAllB compAllA) then signQ (compAllB - compAllA)
      else signF (totalScore b - totalScore a).

(** The "backward compatibility fields": the first criterion on which
    [current] and [compareWith] differ. *)
Definition setSummary (c : Criteria) (current compareWith : SkaterResult)
    : SkaterResult :=
  let currentComp := comparisonScores c !!! rname current in
  let compareComp := comparisonScores c !!! rname compareWith in
  let currentBSum := bScoreSums c !!! rname current in
  let compareBSum := bScoreSums c !!! rname compareWith in
  let currentCompAll := comparisonWithAll c !!! rname current in
  let compareCompAll := comparisonWithAll c !!! rname compareWith in
  if negb (Qeq_bool currentComp compareComp) then
    setTieBreak current direct_comparison (Votes currentComp)
  else if strictNe currentBSum compareBSum then
    setTieBreak current b_score_sum (Marks currentBSum)
  else if negb (Qeq_bool currentCompAll compareCompAll) then
    setTieBreak current comparison_all (Votes currentCompAll)
  else if strictNe (totalScore current) (totalScore compareWith) then
    setTieBreak current total_score (Marks (totalScore current))
  else current.

(** The variation flags of a group and its first differing level. *)
Record Variation := mkVariation {
  hasDirectCompVariation : bool;
  hasBScoreSumVariation : bool;
  hasCompAllVariation : bool;
  hasTotalScoreVariation : bool
}.

Definition variation (c : Criteria) (tiedGroup : list SkaterResult) : Variation :=
  let allDirectComp := List.map (fun s => comparisonScores c !!! rname s) tiedGroup in
  let allBScoreSum := List.map (fun s => bScoreSums c !!! rname s) tiedGroup in
  let allCompAll := List.map (fun s => comparisonWithAll c !!! rname s) tiedGroup in
  let allTotalScore := List.map totalScore tiedGroup in
  {| hasDirectCompVariation := 1 <? length (distinctValues Qeq_bool allDirectComp);
     hasBScoreSumVariation := 1 <? length (distinctValues sameValueZero allBScoreSum);
     hasCompAllVariation := 1 <? length (distinctValues Qeq_bool allCompAll);
     hasTotalScoreVariation := 1 <? length (distinctValues sameValueZero allTotalScore) |}.

Definition firstDiffLevel (v : Variation) : option TieBreakLevel :=
  if hasDirectCompVariation v then Some direct_comparison
  else if hasBScoreSumVariation v then Some b_score_sum
  else if hasCompAllVariation v then Some comparison_all
  else if hasTotalScoreVariation v then Some total_score
  else None.

Definition isLevel (l : option TieBreakLevel) (level : TieBreakLevel) : bool :=
  match l, level with
  | Some direct_comparison, direct_comparison
  | Some b_score_sum, b_score_sum
  | Some comparison_all, comparison_all
  | Some total_score, total_score => true
  | _, _ => false
  end.

(** The narrowing loop over [stillTiedWith]: keep the names whose value
    (looked up through [tiedGroup.find(...)!]) passes [keep].  A name that
    [find] does not resolve makes the property access throw: [None]. *)
Fixpoint narrow (tiedGroup : list SkaterResult) (keep : string -> bool)
    (stillTiedWith : list string) : option (list string) :=
  match stillTiedWith with
  | [] => Some []
  | nm :: names =>
      match List.find (fun s => String.eqb (rname s) nm) tiedGroup with
      | None => None
      | Some other =>
          match narrow tiedGroup keep names with
          | None => None
          | Some kept => Some (if keep (rname other) then nm :: kept else kept)
          end
      end
  end.

(** The provenance trail of [current], the four stages in order; each
    returns the final [tieBreakInfo] array. *)
Definition trailTotal (v : Variation) (current : SkaterResult) (reachedFirstDiff : bool)
    (info : list (TieBreakLevel * TieBreakValue))
    : list (TieBreakLevel * TieBreakValue) :=
  let reachedFirstDiff :=
    reachedFirstDiff || isLevel (firstDiffLevel v) total_score in
  if reachedFirstDiff && hasTotalScoreVariation v then
    info ++ [(total_score, Marks (totalScore current))]
  else info.

Definition trailCompAll (c : Criteria) (v : Variation) (tiedGroup : list SkaterResult)
    (current : SkaterResult) (reachedFirstDiff : bool)
    (stillTiedWith : list string) (info : list (TieBreakLevel * TieBreakValue))
    : option (list (TieBreakLevel * TieBreakValue)) :=
  let currentCompAll := comparisonWithAll c !!! rname current in
  let reachedFirstDiff :=
    reachedFirstDiff || isLevel (firstDiffLevel v) comparison_all in
  if reachedFirstDiff && hasCompAllVariation v then
    let info := info ++ [(comparison_all, Votes currentCompAll)] in
    match narrow tiedGroup
            (fun nm => Qeq_bool (comparisonWithAll c !!! nm) currentCompAll)
            stillTiedWith with
    | None => None
    | Some stillTiedWith =>
        if length stillTiedWith =? 0 then Some info
        else Some (trailTotal v current reachedFirstDiff info)
    end
  else Some (trailTotal v current reachedFirstDiff info).

Definition trailBScoreSum (c : Criteria) (v : Variation) (tiedGroup : list SkaterResult)
    (current : SkaterResult) (reachedFirstDiff : bool)
    (stillTiedWith : list string) (info : list (TieBreakLevel * TieBreakValue))
    : option (list (TieBreakLevel * TieBreakValue)) :=
  let currentBSum := bScoreSums c !!! rname current in
  let reachedFirstDiff :=
    reachedFirstDiff || isLevel (firstDiffLevel v) b_score_sum in
  if reachedFirstDiff && hasBScoreSumVariation v then
    let info := info ++ [(b_score_sum, Marks currentBSum)] in
    match narrow tiedGroup
            (fun nm => (bScoreSums c !!! nm =? currentBSum)%float)
            stillTiedWith with
    | None => None
    | Some stillTiedWith =>
        if length stillTiedWith =? 0 then Some info
        else trailCompAll c v tiedGroup current reachedFirstDiff stillTiedWith info
    end
  else trailCompAll c v tiedGroup current reachedFirstDiff stillTiedWith info.

Definition trailDirect (c : Criteria) (v : Variation) (tiedGroup : list SkaterResult)
    (current : SkaterResult) : option (list (TieBreakLevel * TieBreakValue)) :=
  let currentComp := comparisonScores c !!! rname current in
  let info := [] in
  let reachedFirstDiff := false in
  let stillTiedWith :=
    List.filter (fun nm => negb (String.eqb nm (rname current)))
                (distinctValues String.eqb (List.map rname tiedGroup)) in
  let reachedFirstDiff :=
    reachedFirstDiff || isLevel (firstDiffLevel v) direct_comparison in
  if reachedFirstDiff && hasDirectCompVariation v then
    let info := info ++ [(direct_comparison, Votes currentComp)] in
    match narrow tiedGroup
            (fun nm => Qeq_bool (comparisonScores c !!! nm) currentComp)
            stillTiedWith with
    | None => None
    | Some stillTiedWith =>
        if length stillTiedWith =? 0 then Some info
        else trailBScoreSum c v tiedGroup current reachedFirstDiff stillTiedWith info
    end
  else trailBScoreSum c v tiedGroup current reachedFirstDiff stillTiedWith info.

(** [tiedGroup[k + 1]] for all but the last member, [tiedGroup[k - 1]] for
    the last; reading a field of a missing element throws: [None]. *)
Definition neighbour (tiedGroup : list SkaterResult) (k : nat) : option SkaterResult :=
  if k <? length tiedGroup - 1 then tiedGroup !! (k + 1)
  else match k with
       | 0 => None
       | S k' => tiedGroup !! k'
       end.

(** One iteration of the loop over [k] that fills the tie-break fields. *)
Definition annotate (c : Criteria) (v : Variation) (tiedGroup : list SkaterResult)
    (k : nat) (current : SkaterResult) : option SkaterResult :=
  match neighbour tiedGroup k with
  | None => None
  | Some compareWith =>
      let current := setSummary c current compareWith in
      match trailDirect c v tiedGroup current with
      | None => None
      | Some info => Some (setTieBreakInfo current info)
      end
  end.

(** [collect f l]: run [f k l[k]] for every index, failing if one fails. *)
Fixpoint collectFrom {A B : Type} (f : nat -> A -> option B) (k : nat) (l : list A)
    : option (list B) :=
  match l with
  | [] => Some []
  | x :: l' =>
      match f k x with
      | None => None
      | Some y =>
          match collectFrom f (S k) l' with
          | None => None
          | Some ys => Some (y :: ys)
          end
      end
  end.

Definition criteriaOf (skaters : list SkaterScores) (tiedGroup : list SkaterResult)
    : Criteria :=
  let tiedSkaters :=
    List.map (fun r => mkSkater (rname r) (aScores (scores r)) (bScores (scores r)))
             tiedGroup in
  {| comparisonScores := tieBreakByDirectComparison tiedSkaters;
     bScoreSums :=
       fold_left (fun m skater => <[name skater := calculateBScoreSum skater]> m)
                 tiedSkaters ∅;
     comparisonWithAll := tieBreakByComparisonWithAll tiedSkaters skaters |}.

(** The branch of the main loop for a group of several results: the group
    as it is written back into [sorted]. *)
Definition breakTies (skaters : list SkaterScores) (tiedGroup : list SkaterResult)
    (currentRank : nat) : option (list SkaterResult) :=
  let c := criteriaOf skaters tiedGroup in
  let tiedGroup := jsSort (cascade c) tiedGroup in
  let tiedGroup := imap (fun k r => setRank r (currentRank + k)) tiedGroup in
  if 1 <? length tiedGroup then
    collectFrom (annotate c (variation c tiedGroup) tiedGroup) 0 tiedGroup
  else Some tiedGroup.

(** [while (j < sorted.length && sorted[j].majorityVictories === currentMV)]:
    the run of results taken and the rest. *)
Fixpoint spanWhile {A : Type} (p : A -> bool) (l : list A) : list A * list A :=
  match l with
  | [] => ([], [])
  | x :: l' =>
      if p x then let '(run, rest) := spanWhile p l' in (x :: run, rest)
      else ([], l)
  end.

(** The main loop: [ranked] is [sorted] before index [i], [todo] is
    [sorted] from index [i] on; [None] is a thrown TypeError or an
    exhausted [fuel]. *)
Fixpoint rankLoop (skaters : list SkaterScores) (fuel : nat)
    (ranked todo : list SkaterResult) (currentRank : nat)
    : option (list SkaterResult) :=
  match todo with
  | [] => Some ranked
  | first :: _ =>
      match fuel with
      | 0 => None
      | S fuel =>
          let currentMV := majorityVictories first in
          let '(tiedGroup, rest) :=
            spanWhile (fun r => Qeq_bool (majorityVictories r) currentMV) todo in
          let group :=
            if length tiedGroup =? 1 then
              Some (List.map (fun r => setRank r currentRank) tiedGroup)
            else breakTies skaters tiedGroup currentRank in
          match group with
          | None => None
          | Some group =>
              rankLoop skaters fuel (ranked ++ group) rest
                       (currentRank + length tiedGroup)
          end
      end
  end.

Definition initialResult (skater : SkaterScores) : SkaterResult :=
  {| scores := skater;
     totalScore := roundToOneDecimal (calculateTotalScore skater);
     rank := 0;
     majorityVictories := 0;
     tieBreakLevel := None; tieBreakValue := None; tieBreakInfo := None;
     headToHeadResults := None |}.

Definition calculateRankings (skaters : list SkaterScores)
    : option (list SkaterResult) :=
  if length skaters =? 0 then Some []
  else
    let results := List.map initialResult skaters in
    let victories := calculateMajorityVictories skaters in
    let results :=
      List.map
        (fun result =>
           setVictories result (victories !!! rname result)
             (calculateHeadToHeadDetails (scores result) skaters))
        results in
    let sorted := jsSort byVictories results in
    rankLoop skaters (length sorted) [] sorted 1.

(** ** Specification vocabulary *)

(** The sum of a list of vote counts. *)
Definition Qsum (l : list Q) : Q := fold_right Qplus 0%Q l.

(** The number of judges [i < n] that satisfy [p]. *)
Definition countWhere (p : nat -> bool) (n : nat) : nat :=
  length (List.filter p (seq 0 n)).

(** The comparator's result for judge [i] on the marks of [X] and [Y],
    every total being the technical mark or 0 plus the artistic mark or 0. *)
Definition judgeResult (X Y : SkaterScores) (i : nat) : Q :=
  compareSkatersByJudge
    (orZero (aScores X) i + orZero (bScores X) i)%float (orZero (bScores X) i)
    (orZero (aScores Y) i + orZero (bScores Y) i)%float (orZero (bScores Y) i).

(** The opponents of [X] among [l]: the skaters of another name. *)
Definition others (X : SkaterScores) (l : list SkaterScores) : list SkaterScores :=
  List.filter (fun Y => negb (String.eqb (name Y) (name X))) l.

(** What a result carries of its skater besides the rank and the tie-break
    fields: the marks, the total, the majority victories and the
    head-to-head list. *)
Definition core (r : SkaterResult)
    : SkaterScores * float * Q * option (list HeadToHeadResult) :=
  (scores r, totalScore r, majorityVictories r, headToHeadResults r).

(** The results as they stand before the first sort: the skater, its
    rounded total, its majority victories and its head-to-head list. *)
Definition scoredResults (skaters : list SkaterScores) : list SkaterResult :=
  List.map
    (fun skater =>
       setVictories (initialResult skater)
         (calculateMajorityVictories skaters !!! name skater)
         (calculateHeadToHeadDetails skater skaters))
    skaters.

(** The majority-victory points of [X] from its pair with [Y]: 1 if the
    pair score of [X] against [Y] is the greater, 0.5 if the two pair scores
    are equal, 0 otherwise. *)
Definition victoryPoints (X Y : SkaterScores) : Q :=
  if Qgtb (pairwiseComparison X Y) (pairwiseComparison Y X) then 1%Q
  else if Qgtb (pairwiseComparison Y X) (pairwiseComparison X Y) then 0%Q
  else (1 # 2)%Q.

(** The points the pair loop of [calculateMajorityVictories] gives to the
    first and to the second skater of a pair. *)
Definition firstPoints (X Y : SkaterScores) : Q :=
  let score1 := pairwiseComparison X Y in
  let score2 :=
    (ofNat (Nat.max (length (calculateJudgeTotals X))
                    (length (calculateJudgeTotals Y))) - score1)%Q in
  if Qgtb score1 score2 then 1%Q
  else if Qgtb score2 score1 then 0%Q else (1 # 2)%Q.

Definition secondPoints (X Y : SkaterScores) : Q :=
  let score1 := pairwiseComparison X Y in
  let score2 :=
    (ofNat (Nat.max (length (calculateJudgeTotals X))
                    (length (calculateJudgeTotals Y))) - score1)%Q in
  if Qgtb score1 score2 then 0%Q
  else if Qgtb score2 score1 then 1%Q else (1 # 2)%Q.

(** The comparison sum of [X] against the skaters of another name in [l]:
    the direct comparison when [l] is the tied group, the comparison with
    all when [l] is the whole field. *)
Definition comparisonSum (l : list SkaterScores) (X : SkaterScores) : Q :=
  Qsum (List.map (pairwiseComparison X) (others X l)).

(** A multiple of one half. *)
Definition isHalfMultiple (q : Q) : Prop :=
  exists k : Z, (q == inject_Z k * (1 # 2))%Q.

(** The number of unordered pairs among [n] competitors, n (n - 1) / 2. *)
Definition pairCount (n : nat) : Q := (ofNat n * (ofNat n - 1) / 2)%Q.

(** ** The tie-break summary *)

(** The first criterion on which [current] differs from [compareWith],
    with the value of [current] on it; [None] if they differ on none. *)
Definition firstDifference (c : Criteria) (current compareWith : SkaterResult)
    : option (TieBreakLevel * TieBreakValue) :=
  if negb (Qeq_bool (comparisonScores c !!! rname current)
                    (comparisonScores c !!! rname compareWith)) then
    Some (direct_comparison, Votes (comparisonScores c !!! rname current))
  else if strictNe (bScoreSums c !!! rname current)
                   (bScoreSums c !!! rname compareWith) then
    Some (b_score_sum, Marks (bScoreSums c !!! rname current))
  else if negb (Qeq_bool (comparisonWithAll c !!! rname current)
                         (comparisonWithAll c !!! rname compareWith)) then
    Some (comparison_all, Votes (comparisonWithAll c !!! rname current))
  else if strictNe (totalScore current) (totalScore compareWith) then
    Some (total_score, Marks (totalScore current))
  else None.

(** The summary fields of a result, as a pair. *)
Definition summary (r : SkaterResult) : option TieBreakLevel * option TieBreakValue :=
  (tieBreakLevel r, tieBreakValue r).

Definition summaryOf (d : option (TieBreakLevel * TieBreakValue))
    : option TieBreakLevel * option TieBreakValue :=
  match d with
  | Some (level, value) => (Some level, Some value)
  | None => (None, None)
  end.

(** [w] is the neighbour of position [k] in a group [l]: the next member,
    or the previous one for the last member. *)
Definition isNeighbour (l : list SkaterResult) (k : nat) (w : SkaterResult) : Prop :=
  (S k < length l /\ l !! S k = Some w) \/
  (S k = length l /\ exists k', k = S k' /\ l !! k' = Some w).

(** ** The walk of the main loop

    [Walk skaters currentRank todo out]: from rank [currentRank] on, the
    main loop turns the sorted results [todo] into [out], one run of equal
    majority victories after the other. *)

(** What the loop writes back for a run. *)
Definition rankGroup (skaters : list SkaterScores) (tiedGroup : list SkaterResult)
    (currentRank : nat) : option (list SkaterResult) :=
  if length tiedGroup =? 1 then
    Some (List.map (fun r => setRank r currentRank) tiedGroup)
  else breakTies skaters tiedGroup currentRank.

(** The test of the inner [while]: the same majority victories as [r]. *)
Definition tiedWith (r : SkaterResult) : SkaterResult -> bool :=
  fun r' => Qeq_bool (majorityVictories r') (majorityVictories r).

Inductive Walk (skaters : list SkaterScores)
    : nat -> list SkaterResult -> list SkaterResult -> Prop :=
  | Walk_done currentRank : Walk skaters currentRank [] []
  | Walk_group currentRank first tl tiedGroup rest group out :
      spanWhile (tiedWith first) (first :: tl) = (tiedGroup, rest) ->
      rankGroup skaters tiedGroup currentRank = Some group ->
      Walk skaters (currentRank + length tiedGroup) rest out ->
      Walk skaters currentRank (first :: tl) (group ++ out).

(** Results by majority victories descending. *)
Definition descending (l : list SkaterResult) : Prop :=
  StronglySorted (fun a b => (majorityVictories b <= majorityVictories a)%Q) l.

(** ** The order of the cascade *)

(** The four values of a result in a tied group: direct comparison,
    B-score sum, comparison with all, total score. *)
Record Levels := mkLevels {
  directComp : Q;
  bSum : float;
  compAll : Q;
  total : float
}.

(** The values the cascade reads for a result, from the criteria maps. *)
Definition levelsOf (c : Criteria) (r : SkaterResult) : Levels :=
  {| directComp := comparisonScores c !!! rname r;
     bSum := bScoreSums c !!! rname r;
     compAll := comparisonWithAll c !!! rname r;
     total := totalScore r |}.

(** [cascadeGe a b]: [a] is not below [b] in the cascade, that is [a] has
    the greater direct comparison, or the same and the greater B-score sum,
    or the same and the greater comparison with all, or the same and a total
    score that is not less. *)
Definition cascadeGe (a b : Levels) : Prop :=
  (directComp b < directComp a)%Q \/
  ((directComp a == directComp b)%Q /\
   ((bSum b <? bSum a)%float = true \/
    ((bSum a =? bSum b)%float = true /\
     ((compAll b < compAll a)%Q \/
      ((compAll a == compAll b)%Q /\ (total b <=? total a)%float = true))))).

(** Neither the B-score sum nor the total score is NaN. *)
Definition noNaN (a : Levels) : Prop :=
  is_nan (bSum a) = false /\ is_nan (total a) = false.

(** The tied group of majority victories [q]: the skaters of the input
    that have [q] majority victories. *)
Definition tiedSkatersOf (skaters : list SkaterScores) (q : Q) : list SkaterScores :=
  List.filter
    (fun Z => Qeq_bool (calculateMajorityVictories skaters !!! name Z) q)
    skaters.

(** The four cascade values of a result, from the input: the sum of its
    pair scores against the rest of its tied group, the sum of its artistic
    marks, the sum of its pair scores against every other skater, and its
    total rounded to one decimal. *)
Definition cascadeLevels (skaters : list SkaterScores) (r : SkaterResult) : Levels :=
  {| directComp :=
       comparisonSum (tiedSkatersOf skaters (majorityVictories r)) (scores r);
     bSum := calculateBScoreSum (scores r);
     compAll := comparisonSum skaters (scores r);
     total := roundToOneDecimal (calculateTotalScore (scores r)) |}.

(** ** Keys of numbers, for the proofs about the sort *)

(** [signed s f]: [f] is a nonzero number or an infinity of sign [s]. *)
Definition signed (s : bool) (f : spec_float) : Prop :=
  match f with
  | S754_finite s' _ _ | S754_infinity s' => s' = s
  | _ => False
  end.

(** A number as three integer keys, compared lexicographically:
    the sign class, then the exponent, then the mantissa. *)
Definition ord3 (f : spec_float) : Z * Z * Z :=
  match f with
  | S754_infinity true => (-2, 0, 0)%Z
  | S754_finite true m e => (-1, - e, - Z.pos m)%Z
  | S754_zero _ => (0, 0, 0)%Z
  | S754_finite false m e => (1, e, Z.pos m)%Z
  | S754_infinity false => (2, 0, 0)%Z
  | S754_nan => (3, 0, 0)%Z
  end.

Definition lex3 (a b : Z * Z * Z) : comparison :=
  match (fst (fst a) ?= fst (fst b))%Z with
  | Eq => match (snd (fst a) ?= snd (fst b))%Z with
          | Eq => (snd a ?= snd b)%Z
          | c => c
          end
  | c => c
  end.

Definition floatKeys (x : float) : list Q :=
  let k := ord3 (Prim2SF x) in
  [inject_Z (fst (fst k)); inject_Z (snd (fst k)); inject_Z (snd k)].

(** The lexicographic order on key lists of one length. *)
Fixpoint lexLt (l l' : list Q) : Prop :=
  match l, l' with
  | a :: l, b :: l' => (a < b)%Q \/ ((a == b)%Q /\ lexLt l l')
  | _, _ => False
  end.

Fixpoint lexEq (l l' : list Q) : Prop :=
  match l, l' with
  | [], [] => True
  | a :: l, b :: l' => (a == b)%Q /\ lexEq l l'
  | _, _ => False
  end.

Definition lexLe (l l' : list Q) : Prop := lexLt l l' \/ lexEq l l'.

Definition keysOf (a : Levels) : list Q :=
  directComp a :: floatKeys (bSum a) ++ compAll a :: floatKeys (total a).

(** ** Marks as the parser lays them out *)

(** An array of marks whose nulls all come last, as [parseInput] pads
    it. *)
Fixpoint nullsLast (arr : list (option float)) : bool :=
  match arr with
  | [] => true
  | Some _ :: arr' => nullsLast arr'
  | None :: arr' => forallb (fun s => negb (notNull s)) arr'
  end.

Definition paddedAtEnd (skater : SkaterScores) : bool :=
  nullsLast (aScores skater) && nullsLast (bScores skater).

(** A head-to-head entry with as many votes for as against. *)
Definition drawn (e : HeadToHeadResult) : bool :=
  skaterVotes e =? opponentVotes e.

(** ** The tie-break trail *)

(** The place of a level in the cascade. *)
Definition levelIndex (level : TieBreakLevel) : nat :=
  match level with
  | direct_comparison => 0
  | b_score_sum => 1
  | comparison_all => 2
  | total_score => 3
  end.

(** The value of a result on a level of the cascade. *)
Definition levelValue (a : Levels) (level : TieBreakLevel) : TieBreakValue :=
  match level with
  | direct_comparison => Votes (directComp a)
  | b_score_sum => Marks (bSum a)
  | comparison_all => Votes (compAll a)
  | total_score => Marks (total a)
  end.

(** [x === y] on two values of a level. *)
Definition strictEq (x y : TieBreakValue) : bool :=
  match x, y with
  | Votes p, Votes q => Qeq_bool p q
  | Marks f, Marks g => (f =? g)%float
  | _, _ => false
  end.

(** The equality of [Set] on two values of a level. *)
Definition sameInSet (x y : TieBreakValue) : bool :=
  match x, y with
  | Votes p, Votes q => Qeq_bool p q
  | Marks f, Marks g => sameValueZero f g
  | _, _ => false
  end.

(** The group takes more than one value on the level. *)
Definition varies (c : Criteria) (group : list SkaterResult) (level : TieBreakLevel)
    : Prop :=
  exists a b, In a group /\ In b group /\
    sameInSet (levelValue (levelsOf c a) level) (levelValue (levelsOf c b) level) = false.

(** The variation flag of a level. *)
Definition levelVaries (v : Variation) (level : TieBreakLevel) : bool :=
  match level with
  | direct_comparison => hasDirectCompVariation v
  | b_score_sum => hasBScoreSumVariation v
  | comparison_all => hasCompAllVariation v
  | total_score => hasTotalScoreVariation v
  end.

(** The test of a narrowing loop: the value under the name [nm] is that of
    [current]; the last level narrows nothing. *)
Definition sameOnLevel (c : Criteria) (level : TieBreakLevel) (current : SkaterResult)
    (nm : string) : bool :=
  match level with
  | direct_comparison =>
      Qeq_bool (comparisonScores c !!! nm) (comparisonScores c !!! rname current)
  | b_score_sum => (bScoreSums c !!! nm =? bScoreSums c !!! rname current)%float
  | comparison_all =>
      Qeq_bool (comparisonWithAll c !!! nm) (comparisonWithAll c !!! rname current)
  | total_score => true
  end.

(** The four stages of the trail as one loop over the levels. *)
Fixpoint trailFrom (c : Criteria) (v : Variation) (current : SkaterResult)
    (levels : list TieBreakLevel) (stillTiedWith : list string)
    (info : list (TieBreakLevel * TieBreakValue))
    : list (TieBreakLevel * TieBreakValue) :=
  match levels with
  | [] => info
  | level :: levels =>
      if levelVaries v level then
        let info := info ++ [(level, levelValue (levelsOf c current) level)] in
        let stillTiedWith :=
          List.filter (sameOnLevel c level current) stillTiedWith in
        if length stillTiedWith =? 0 then info
        else trailFrom c v current levels stillTiedWith info
      else trailFrom c v current levels stillTiedWith info
  end.

Definition allLevels : list TieBreakLevel :=
  [direct_comparison; b_score_sum; comparison_all; total_score].

(** The names the trail of [current] starts from: the names of the group
    but its own. *)
Definition otherNames (tiedGroup : list SkaterResult) (current : SkaterResult)
    : list string :=
  List.filter (fun nm => negb (String.eqb nm (rname current)))
              (distinctValues String.eqb (List.map rname tiedGroup)).

(** ** Ties that the cascade leaves *)

(** Two results equal on the four levels of the cascade. *)
Definition cascadeTie (a b : Levels) : Prop :=
  (directComp a == directComp b)%Q /\ (bSum a =? bSum b)%float = true /\
  (compAll a == compAll b)%Q /\ (total a =? total b)%float = true.

(** The test of [cascadeTie] with the values of [r], on the values the
    criteria maps hold. *)
Definition tiedAs (c : Criteria) (r x : SkaterResult) : bool :=
  Qeq_bool (directComp (levelsOf c x)) (directComp (levelsOf c r))
  && (bSum (levelsOf c x) =? bSum (levelsOf c r))%float
  && Qeq_bool (compAll (levelsOf c x)) (compAll (levelsOf c r))
  && (total (levelsOf c x) =? total (levelsOf c r))%float.

(** [x] comes before [y] in [l]. *)
Definition precedes {A : Type} (x y : A) (l : list A) : Prop :=
  exists l1 l2 l3, l = l1 ++ x :: l2 ++ y :: l3.

(** ** The summary against the cascade *)

(** The first level of the cascade on which the value of [a] is not that
    of [b], with the value of [a] on it; a NaN is no different from a
    NaN. *)
Definition firstLevelDifference (a b : Levels)
    : option (TieBreakLevel * TieBreakValue) :=
  match List.find (fun l => negb (sameInSet (levelValue a l) (levelValue b l)))
                  allLevels with
  | Some l => Some (l, levelValue a l)
  | None => None
  end.

(** The same value of a level: the same number of votes, the same
    number. *)
Definition sameValue (x y : TieBreakValue) : Prop :=
  match x, y with
  | Votes p, Votes q => (p == q)%Q
  | Marks f, Marks g => f = g
  | _, _ => False
  end.

(** The summary of [r] is the level and value [d], or is absent when [d]
    is. *)
Definition summaryIs (r : SkaterResult) (d : option (TieBreakLevel * TieBreakValue))
    : Prop :=
  match d with
  | Some (level, value) =>
      tieBreakLevel r = Some level /\
      exists v, tieBreakValue r = Some v /\ sameValue v value
  | None => tieBreakLevel r = None /\ tieBreakValue r = None
  end.

(** ** The counters of the victories *)

(** Every counter of the map holds a multiple of one half that is not
    negative. *)
Definition halves (m : gmap string Q) : Prop :=
  forall k, isHalfMultiple (m !!! k) /\ (0 <= m !!! k)%Q.

(** ** What the language asks of a sort *)

(** [x] and [y] compare as equal: neither is to come after the other. *)
Definition ties {A : Type} (cmp : A -> A -> comparison) (x y : A) : bool :=
  match cmp x y, cmp y x with
  | Gt, _ | _, Gt => false
  | _, _ => true
  end.

(** [out] is [l] sorted by [cmp]: a permutation of [l] in which no element
    stands before one that it is to come after, and in which the elements
    that compare as equal to an element of [l] stand in the order they have
    in [l]. *)
Definition sortedBy {A : Type} (cmp : A -> A -> comparison) (l out : list A) : Prop :=
  Permutation out l /\
  StronglySorted (fun x y => cmp x y <> Gt) out /\
  forall x, In x l -> List.filter (ties cmp x) out = List.filter (ties cmp x) l.

(** ** Marks that are not negative *)

(** A number other than NaN with a clear sign bit: +0, a positive number
    or +Infinity, as [parseFloat] gives them for a string of digits. *)
Definition nonNegativeSF (f : spec_float) : bool :=
  match f with
  | S754_nan => false
  | S754_zero s | S754_infinity s | S754_finite s _ _ => negb s
  end.

Definition nonNegative (x : float) : bool := nonNegativeSF (Prim2SF x).

Definition nonNegativeMark (s : option float) : bool :=
  match s with Some x => nonNegative x | None => true end.

Definition nonNegativeMarks (skater : SkaterScores) : bool :=
  forallb nonNegativeMark (aScores skater) && forallb nonNegativeMark (bScores skater).

(** ** The head-to-head network (components/HeadToHeadNetwork/buildGraph.ts) *)

(** The four constants of [COLORS] that [getNodeColor] returns. *)
Inductive Color := GOLD | SILVER | BRONZE | CYAN.

Record HeadToHeadNode := mkNode {
  nodeId : string;
  nodeName : string;
  nodeRank : nat;
  nodeWins : Q;
  nodeColor : Color;
  nodeSize : Q
}.

Record HeadToHeadLink := mkLink {
  source : string;
  target : string
}.

Record HeadToHeadGraph := mkGraph {
  nodes : list HeadToHeadNode;
  links : list HeadToHeadLink
}.

Definition getNodeColor (rank : nat) : Color :=
  match rank with
  | 1 => GOLD
  | 2 => SILVER
  | 3 => BRONZE
  | _ => CYAN
  end.

Definition getNodeSize (wins : Q) : Q := (8 + wins * 2)%Q.

(** [m.set(k, v)] on a [Map] that is iterated later: the entries in
    insertion order, a key set again keeping its place. *)
Definition mapSet {V : Type} (k : string) (v : V) (m : list (string * V))
    : list (string * V) :=
  if existsb (fun e => String.eqb (fst e) k) m then
    List.map (fun e => if String.eqb (fst e) k then (k, v) else e) m
  else m ++ [(k, v)].

(** [x > y] and [x < y] on ranks read from a map: a comparison with
    [undefined] is false. *)
Definition rankGt (x y : option nat) : bool :=
  match x, y with
  | Some a, Some b => b <? a
  | _, _ => false
  end.

Definition rankLt (x y : option nat) : bool := rankGt y x.

(** The set of the opponents a result has won against, in insertion
    order. *)
Definition victoriesOf (h2h : list HeadToHeadResult) : list string :=
  distinctValues String.eqb (List.map opponent (List.filter won h2h)).

(** Whether [source] beats some skater ranked strictly between [source]
    and [target] that beats [target]. *)
Definition hasPathThrough (rankMap : gmap string nat)
    (source target : string) (allLinksMap : gmap string (list string)) : bool :=
  match allLinksMap !! source with
  | None => false
  | Some sourceVictories =>
      let sourceRank := rankMap !! source in
      let targetRank := rankMap !! target in
      existsb
        (fun intermediate =>
           if String.eqb intermediate target then false
           else
             let intermediateRank := rankMap !! intermediate in
             if rankGt intermediateRank sourceRank
                && rankLt intermediateRank targetRank then
               match allLinksMap !! intermediate with
               | Some intermediateVictories =>
                   existsb (String.eqb target) intermediateVictories
               | None => false
               end
             else false)
        sourceVictories
  end.

Definition buildGraph (results : list SkaterResult) : HeadToHeadGraph :=
  let nodes :=
    List.map
      (fun skater =>
         {| nodeId := rname skater;
            nodeName := rname skater;
            nodeRank := rank skater;
            nodeWins := majorityVictories skater;
            nodeColor := getNodeColor (rank skater);
            nodeSize := getNodeSize (majorityVictories skater) |})
      results in
  let mvMap : gmap string Q :=
    fold_left (fun m skater => <[rname skater := majorityVictories skater]> m)
              results ∅ in
  let rankMap : gmap string nat :=
    fold_left (fun m skater => <[rname skater := rank skater]> m) results ∅ in
  let allLinks : gmap string (list string) :=
    fold_left
      (fun m skater =>
         match headToHeadResults skater with
         | None => m
         | Some h2h => <[rname skater := victoriesOf h2h]> m
         end)
      results ∅ in
  let sortedSkaters := jsSort (fun a b => (rank a ?= rank b)) results in
  let reducedLinks :=
    fold_left
      (fun m skater =>
         match allLinks !! rname skater with
         | None => m
         | Some directVictories =>
             let necessaryVictories :=
               List.filter
                 (fun target =>
                    negb (hasPathThrough rankMap (rname skater) target allLinks))
                 directVictories in
             mapSet (rname skater) necessaryVictories m
         end)
      sortedSkaters [] in
  let links :=
    flat_map
      (fun entry => List.map (fun target => mkLink (fst entry) target) (snd entry))
      reducedLinks in
  {| nodes := nodes; links := links |}.

(** A won head-to-head entry of the result named [s] against [t]. *)
Definition beats (results : list SkaterResult) (s t : string) : Prop :=
  exists r h e,
    In r results /\ rname r = s /\ headToHeadResults r = Some h /\
    In e h /\ opponent e = t /\ won e = true.

(** The rank of the result named [s]. *)
Definition hasRank (results : list SkaterResult) (s : string) (n : nat) : Prop :=
  exists r, In r results /\ rname r = s /\ rank r = n.

(** A link of the graph from [s] to [t]. *)
Definition linked (g : HeadToHeadGraph) (s t : string) : Prop :=
  In (mkLink s t) (links g).

(** The two maps that [buildGraph] reads, as functions of the results. *)
Definition rankMapOf (results : list SkaterResult) : gmap string nat :=
  fold_left (fun m skater => <[rname skater := rank skater]> m) results ∅.

Definition allLinksOf (results : list SkaterResult) : gmap string (list string) :=
  fold_left
    (fun m skater =>
       match headToHeadResults skater with
       | None => m
       | Some h2h => <[rname skater := victoriesOf h2h]> m
       end)
    results ∅.

(** ** The input parser (src/utils/parser.ts)

    A JavaScript string is modelled by the bytes of its UTF-8 encoding: the
    parser looks for the characters [#], [/], [:], [,], [.], the digits and
    the white space, and a byte of a character outside ASCII is never one of
    the ASCII bytes.  [parseFloat] is the built-in, a function of the
    token.

    The scans over a string ([trim], the two [replace] and [match]) consume
    a character at every step; they are written with the length of the
    string as a bound, which they never reach (see [skipSpaces_stops],
    [skipSpaces_fuel], [collapseSpaces_fuel] and [matchNumbers_fuel]). *)

Definition bytes (l : list nat) : string :=
  String.string_of_list_ascii (List.map Ascii.ascii_of_nat l).

(** The characters that [trim] removes and [\s] matches, WhiteSpace and
    LineTerminator: U+0009 to U+000D, U+0020, U+00A0, U+1680, U+2000 to
    U+200A, U+2028, U+2029, U+202F, U+205F, U+3000, U+FEFF. *)
Definition whiteSpace : list string :=
  List.map bytes
    [[9]; [10]; [11]; [12]; [13]; [32]; [194; 160]; [225; 154; 128];
     [226; 128; 128]; [226; 128; 129]; [226; 128; 130]; [226; 128; 131];
     [226; 128; 132]; [226; 128; 133]; [226; 128; 134]; [226; 128; 135];
     [226; 128; 136]; [226; 128; 137]; [226; 128; 138];
     [226; 128; 168]; [226; 128; 169]; [226; 128; 175]; [226; 129; 159];
     [227; 128; 128]; [239; 187; 191]].

Fixpoint dropString (n : nat) (s : string) : string :=
  match n, s with
  | S n', String _ s' => dropString n' s'
  | _, _ => s
  end.

Definition reverseString (s : string) : string :=
  String.string_of_list_ascii (rev (String.list_ascii_of_string s)).

(** The number of bytes of the white-space character that [s] starts
    with, 0 if it starts with none. *)
Definition spaceAt (s : string) : nat :=
  match List.find (fun ws => String.prefix ws s) whiteSpace with
  | Some ws => String.length ws
  | None => 0
  end.

(** The same for the character that the reversed string [r] ends with. *)
Definition spaceBefore (r : string) : nat :=
  match List.find (fun ws => String.prefix (reverseString ws) r) whiteSpace with
  | Some ws => String.length ws
  | None => 0
  end.

Fixpoint skipSpaces (at_ : string -> nat) (fuel : nat) (s : string) : string :=
  match fuel with
  | 0 => s
  | S fuel =>
      match at_ s with
      | 0 => s
      | n => skipSpaces at_ fuel (dropString n s)
      end
  end.

Definition trimStart (s : string) : string :=
  skipSpaces spaceAt (String.length s) s.

Definition trimEnd (s : string) : string :=
  reverseString (skipSpaces spaceBefore (String.length s) (reverseString s)).

(** [s.trim()] *)
Definition trim (s : string) : string := trimEnd (trimStart s).

(** [s.split('\n')] *)
Fixpoint splitLines (s : string) : list string :=
  match s with
  | EmptyString => [EmptyString]
  | String c s' =>
      if Ascii.eqb c "010"%char then EmptyString :: splitLines s'
      else
        match splitLines s' with
        | line :: lines => String c line :: lines
        | [] => [String c EmptyString]
        end
  end.

(** [s.indexOf(':')], [None] for -1. *)
Fixpoint indexOfColon (s : string) : option nat :=
  match s with
  | EmptyString => None
  | String c s' =>
      if Ascii.eqb c ":"%char then Some 0 else option_map S (indexOfColon s')
  end.

(** [s.replace(/,/g, '.')] *)
Fixpoint replaceCommas (s : string) : string :=
  match s with
  | EmptyString => EmptyString
  | String c s' => String (if Ascii.eqb c ","%char then "."%char else c) (replaceCommas s')
  end.

(** [s.replace(/\s+/g, ' ')]: every run of white space becomes one
    space. *)
Fixpoint collapseSpaces (fuel : nat) (s : string) : string :=
  match fuel with
  | 0 => s
  | S fuel =>
      match s with
      | EmptyString => EmptyString
      | String c s' =>
          match spaceAt s with
          | 0 => String c (collapseSpaces fuel s')
          | _ => String " "%char (collapseSpaces fuel (skipSpaces spaceAt (String.length s) s))
          end
      end
  end.

Definition isDigit (c : ascii) : bool :=
  (48 <=? Ascii.nat_of_ascii c) && (Ascii.nat_of_ascii c <=? 57).

(** The longest prefix of digits, [\d*], and what follows it. *)
Fixpoint takeDigits (s : string) : string * string :=
  match s with
  | String c s' =>
      if isDigit c then let '(d, rest) := takeDigits s' in (String c d, rest)
      else (EmptyString, s)
  | EmptyString => (EmptyString, EmptyString)
  end.

(** [s.match(/\d+\.?\d*|\.\d+/g)]: the matches from left to right; the
    empty list stands for [null]. *)
Fixpoint matchNumbers (fuel : nat) (s : string) : list string :=
  match fuel with
  | 0 => []
  | S fuel =>
      match s with
      | EmptyString => []
      | String c s' =>
          if isDigit c then
            let '(whole, rest) := takeDigits s in
            match rest with
            | String c' rest' =>
                if Ascii.eqb c' "."%char then
                  let '(fraction, rest'') := takeDigits rest' in
                  (whole +:+ "." +:+ fraction) :: matchNumbers fuel rest''
                else whole :: matchNumbers fuel rest
            | EmptyString => [whole]
            end
          else if Ascii.eqb c "."%char then
            match takeDigits s' with
            | (EmptyString, _) => matchNumbers fuel s'
            | (fraction, rest) => String "."%char fraction :: matchNumbers fuel rest
            end
          else matchNumbers fuel s'
      end
  end.

(** [`Skater ${n}`] and the two warnings. *)
Definition generatedName (n : nat) : string :=
  "Skater " +:+ DecimalString.NilEmpty.string_of_uint (Nat.to_uint n).

Definition quoted (line : string) : string :=
  String "034"%char EmptyString +:+ line +:+ String "034"%char EmptyString.

Definition noNumbersWarning (line : string) : string :=
  "Skipping line " +:+ quoted line +:+ " - no numbers found".

Definition invalidNumbersWarning (line : string) : string :=
  "Skipping line " +:+ quoted line +:+ " - contains invalid numbers".

(** The state of the loop over the lines: the results, the warnings
    written to the console and the counter of the generated names. *)
Record ParseState := mkParseState {
  parsed : list SkaterScores;
  warnings : list string;
  unnamedCounter : nat
}.

Section Parser.
Variable parseFloat : string -> float.

(** The marks of a line from its numbers: at most six, padded with nulls
    to six, the first three technical and the last three artistic. *)
Definition scoresOf (numbers : list string) : list (option float) :=
  let scores := List.map (fun n => Some (parseFloat n)) (firstn 6 numbers) in
  scores ++ repeat None (6 - length scores).

Definition hasInvalidNumber (numbers : list string) : bool :=
  existsb (fun s => match s with Some x => is_nan x | None => false end)
          (List.map (fun n => Some (parseFloat n)) (firstn 6 numbers)).

(** One iteration of the loop over the lines. *)
Definition parseLine (st : ParseState) (line : string) : ParseState :=
  let trimmedLine := trim line in
  if String.eqb trimmedLine "" then st
  else if String.prefix "#" trimmedLine || String.prefix "//" trimmedLine then st
  else
    let colonIndex := indexOfColon trimmedLine in
    let '(name, scoresText, counter) :=
      match colonIndex with
      | None => (generatedName (unnamedCounter st), trimmedLine, S (unnamedCounter st))
      | Some i =>
          (trim (String.substring 0 i trimmedLine),
           trim (dropString (i + 1) trimmedLine),
           unnamedCounter st)
      end in
    let normalizedText :=
      let replaced := replaceCommas scoresText in
      collapseSpaces (String.length replaced) replaced in
    let numbers := matchNumbers (String.length normalizedText) normalizedText in
    if length numbers =? 0 then
      mkParseState (parsed st) (warnings st ++ [noNumbersWarning line]) counter
    else if hasInvalidNumber numbers then
      mkParseState (parsed st) (warnings st ++ [invalidNumbersWarning line]) counter
    else
      let scores := scoresOf numbers in
      let aScores := firstn 3 scores in
      let bScores := firstn 3 (skipn 3 scores) in
      mkParseState (parsed st ++ [mkSkater name aScores bScores])
                   (warnings st) counter.

Definition parseLines (input : string) : ParseState :=
  let lines := splitLines (trim input) in
  fold_left parseLine lines (mkParseState [] [] 1).

Definition parseInput (input : string) : list SkaterScores :=
  parsed (parseLines input).

(** *** The hook that runs the parser and the ranking
    (src/hooks/useScoreCalculation.ts)

    The effect of the hook as a function of the input: the results and
    the error it sets.  [caught] is the text that a caught exception would
    leave. *)
Variable caught : string.

Definition noScoresError : string :=
  "Hmm, I couldn't find any valid scores. Make sure each line has at least one number!".

Definition useScoreCalculation (input : string) : list SkaterResult * string :=
  if String.eqb (trim input) "" then ([], "")
  else
    let skatersData := parseInput input in
    if length skatersData =? 0 then ([], noScoresError)
    else
      match calculateRankings skatersData with
      | Some rankings => (rankings, "")
      | None => ([], "Oops! " +:+ caught)
      end.

End Parser.

(** A line that the parser reads: neither blank nor a comment. *)
Definition isDataLine (line : string) : bool :=
  let trimmedLine := trim line in
  negb (String.eqb trimmedLine "")
  && negb (String.prefix "#" trimmedLine || String.prefix "//" trimmedLine).

(** A line that gets a generated name: a data line without a colon. *)
Definition isUnnamedLine (line : string) : bool :=
  isDataLine line
  && match indexOfColon (trim line) with None => true | Some _ => false end.

(** The strings that the pattern of the numbers matches: digits with at
    most one point and at least one digit. *)
Definition isNumberToken (s : string) : bool :=
  let cs := String.list_ascii_of_string s in
  forallb (fun c => isDigit c || Ascii.eqb c "."%char) cs
  && (length (List.filter (Ascii.eqb "."%char) cs) <=? 1)
  && existsb isDigit cs.

(** What the parser makes of the numbers of a line. *)
Definition fromNumbers (parseFloat : string -> float) (skater : SkaterScores) : Prop :=
  exists numbers : list string,
    1 <= length numbers <= 6 /\
    List.Forall (fun n => isNumberToken n = true /\ is_nan (parseFloat n) = false)
                numbers /\
    aScores skater ++ bScores skater
      = List.map (fun n => Some (parseFloat n)) numbers
        ++ repeat None (6 - length numbers) /\
    length (aScores skater) = 3 /\ length (bScores skater) = 3.

(** The names that the parser generated so far: those of [ks], in
    increasing order and below the counter. *)
Definition generatedNames (st : ParseState) (ks : list nat) : Prop :=
  List.map name (parsed st) = List.map generatedName ks /\
  Sorted.StronglySorted lt ks /\
  List.Forall (fun k => 1 <= k < unnamedCounter st) ks.

(** ** Sample inputs *)

(** A skater with a mark from every judge. *)
Definition fullyMarked (n : string) (a b : list float) : SkaterScores :=
  mkSkater n (List.map Some a) (List.map Some b).

(** The perfect pairwise tie of the test suite: two skaters with the same
    marks. *)
Definition perfectTie : list SkaterScores :=
  [fullyMarked "SkaterA" [3; 3; 3]%float [2; 2; 2]%float;
   fullyMarked "SkaterB" [3; 3; 3]%float [2; 2; 2]%float].

(** Three entries under one name. *)
Definition sameName : list SkaterScores :=
  [fullyMarked "A" [3; 3; 3]%float [2; 2; 2]%float;
   fullyMarked "A" [3; 3; 3]%float [2; 2; 2]%float;
   fullyMarked "A" [3; 3; 3]%float [2; 2; 2]%float].

(** The ten skaters of the test suite's example data. *)
Definition exampleData : list SkaterScores :=
  [fullyMarked "Anna" [2.3; 3.1; 3.0]%float [2.9; 2.7; 1.9]%float;
   fullyMarked "Ben" [2.4; 3.3; 2.3]%float [2.2; 3.0; 2.3]%float;
   fullyMarked "Clara" [1.5; 3.2; 2.7]%float [2.7; 1.6; 2.9]%float;
   fullyMarked "David" [1.6; 2.3; 2.2]%float [2.7; 1.7; 1.7]%float;
   fullyMarked "Emma" [1.9; 1.8; 3.0]%float [2.1; 2.6; 3.4]%float;
   fullyMarked "Felix" [1.7; 1.5; 2.6]%float [2.2; 1.8; 2.1]%float;
   fullyMarked "Grace" [3.2; 1.6; 2.4]%float [2.9; 2.5; 3.1]%float;
   fullyMarked "Hannah" [3.0; 3.4; 3.1]%float [1.6; 2.5; 2.2]%float;
   fullyMarked "Iris" [2.5; 2.1; 1.9]%float [3.0; 1.8; 2.1]%float;
   fullyMarked "Julia" [2.5; 1.8; 2.3]%float [2.7; 2.9; 3.3]%float].

(** Two entries under one name and a third skater, all with one and a
    half majority victories. *)
Definition nameClash : list SkaterScores :=
  [fullyMarked "A" [4; 2; 3]%float [2; 2; 2]%float;
   fullyMarked "A" [4; 2; 2]%float [2; 2; 2]%float;
   fullyMarked "Z" [3; 3; 3]%float [2; 2; 2]%float].

(** Three skaters with one judge each, tied on everything but the sum of
    artistic marks, which is NaN for the second. *)
Definition nanSum : list SkaterScores :=
  [mkSkater "P" [] [None; Some 1%float];
   mkSkater "N" [] [None; Some nan];
   mkSkater "R" [] [None; Some 2%float]].

(** Three skaters as [parseInput] lays them out, with four, two and six
    marks: the missing marks are nulls at the end. *)
Definition partlyMarked : list SkaterScores :=
  [mkSkater "A" [Some 2.5; Some 3.0; Some 2.0]%float [Some 2.0; None; None]%float;
   mkSkater "B" [Some 3.0; Some 2.5; None]%float [None; None; None];
   fullyMarked "C" [2.0; 2.0; 2.0]%float [2.5; 2.5; 2.5]%float].

(** Three results with their head-to-head lists: A has won against B and
    C, B against C. *)
Definition chainResults : list SkaterResult :=
  [mkResult (fullyMarked "A" [3]%float [3]%float) 6 1 2 None None None
     (Some [mkH2H "B" true 1 0; mkH2H "C" true 1 0]);
   mkResult (fullyMarked "B" [2]%float [2]%float) 4 2 1 None None None
     (Some [mkH2H "A" false 0 1; mkH2H "C" true 1 0]);
   mkResult (fullyMarked "C" [1]%float [1]%float) 2 3 0 None None None
     (Some [mkH2H "A" false 0 1; mkH2H "B" false 0 1])].

(** A skater with a null between marks: the third technical mark is read
    by no judge, the judges being counted by the marks that are present. *)
Definition gappedMarks : SkaterScores :=
  mkSkater "G" [Some 2.5; None; Some 2.0]%float [Some 2.0; Some 1.5; None]%float.

(** Two skaters without any mark, under two names and under one. *)
Definition noMarks : list SkaterScores :=
  [mkSkater "E" [None; None] [None]; mkSkater "F" [] [None; None; None]].

Definition noMarksOneName : list SkaterScores :=
  [mkSkater "E" [None; None] [None]; mkSkater "E" [] [None; None; None]].

(** Three skaters and three judges: X against Z has one judge each way
    and one judge tied, X against W has all three judges. *)
Definition splitVotes : list SkaterScores :=
  [fullyMarked "X" [4; 2; 3]%float [2; 2; 2]%float;
   fullyMarked "Z" [3; 3; 3]%float [2; 2; 2]%float;
   fullyMarked "W" [1; 1; 1]%float [1; 1; 1]%float].

(** Two skaters with the same marks, one of them NaN: each total is NaN. *)
Definition nanTotals : list SkaterScores :=
  [mkSkater "P" [Some nan] [Some 1%float];
   mkSkater "Q" [Some nan] [Some 1%float]].

(** The value of [parseFloat] on a number of at most fifteen digits: the
    digits as an integer, divided by the power of ten of the fraction, both
    exact in binary64, so that the quotient is the correctly rounded value.
    Longer numbers are outside the samples and get 0. *)
Definition digitsValue (s : string) : Z :=
  fold_left (fun acc c => (10 * acc + (Z.of_nat (Ascii.nat_of_ascii c) - 48))%Z)
            (String.list_ascii_of_string s) 0%Z.

Definition powerOfTen (k : nat) : float :=
  of_uint63 (Uint63.of_Z (10 ^ Z.of_nat k)).

Definition sampleParseFloat (tok : string) : float :=
  let '(whole, rest) := takeDigits tok in
  let fraction :=
    match rest with
    | String c rest' => if Ascii.eqb c "."%char then fst (takeDigits rest') else EmptyString
    | EmptyString => EmptyString
    end in
  let digits := whole +:+ fraction in
  if String.length digits <=? 15 then
    (of_uint63 (Uint63.of_Z (digitsValue digits)) / powerOfTen (String.length fraction))%float
  else 0%float.

Definition typedInput : string :=
  bytes [49; 46; 56; 32; 49; 44; 52; 32; 49; 46; 53; 32; 117; 110; 100; 32;
         50; 46; 52; 32; 49; 46; 54; 32; 50; 46; 50; 10;
         35; 32; 110; 111; 116; 101; 10;
         10;
         50; 46; 49; 32; 49; 46; 57; 10;
         110; 111; 110; 101; 10;
         46; 53; 32; 55; 46].

(* ===================================================================== *)
(** * Part II: properties *)
(* ===================================================================== *)

(** ** Comparisons of binary64 numbers *)

Lemma SFcompare_antisym (a b : spec_float) :
  SFcompare b a = option_map CompOpp (SFcompare a b).
Proof.
  destruct a as [s | s | | s m e], b as [s' | s' | | s' m' e']; simpl;
    try reflexivity;
    try (destruct s; reflexivity); try (destruct s'; reflexivity);
    try (destruct s, s'; reflexivity).
  destruct s, s'; simpl; try reflexivity;
    rewrite (Z.compare_antisym e e'); destruct (e ?= e')%Z; simpl;
    try reflexivity;
    rewrite (Pos.compare_cont_antisym m m' Eq); simpl;
    try rewrite CompOpp_involutive; reflexivity.
Qed.

Lemma gt_asym (x y : float) : gt x y = true -> gt y x = false.
Proof.
  unfold gt. rewrite !FloatAxioms.ltb_spec. unfold SFltb.
  rewrite (SFcompare_antisym (Prim2SF y) (Prim2SF x)).
  destruct (SFcompare (Prim2SF y) (Prim2SF x)) as [[]|]; simpl; congruence.
Qed.

Lemma gt_irrefl (x : float) : gt x x = false.
Proof.
  destruct (gt x x) eqn:E; [|reflexivity].
  pose proof (gt_asym _ _ E). congruence.
Qed.

Lemma eqb_not_gt (x y : float) :
  (x =? y)%float = true -> gt x y = false /\ gt y x = false.
Proof.
  unfold gt. rewrite FloatAxioms.eqb_spec, !FloatAxioms.ltb_spec. unfold SFeqb, SFltb.
  rewrite (SFcompare_antisym (Prim2SF x) (Prim2SF y)).
  destruct (SFcompare (Prim2SF x) (Prim2SF y)) as [[]|]; simpl; intuition congruence.
Qed.

Lemma is_nan_spec (x : float) : is_nan x = true <-> Prim2SF x = S754_nan.
Proof.
  unfold is_nan. rewrite FloatAxioms.eqb_spec. unfold SFeqb.
  destruct (Prim2SF x) as [s | s | | s m e]; simpl.
  - split; discriminate.
  - destruct s; split; discriminate.
  - split; reflexivity.
  - destruct s; rewrite Z.compare_refl, Pos.compare_cont_refl; simpl;
      split; discriminate.
Qed.

Lemma SFcompare_None (a b : spec_float) :
  SFcompare a b = None -> a = S754_nan \/ b = S754_nan.
Proof.
  destruct a as [s | s | | s m e], b as [s' | s' | | s' m' e']; simpl;
    auto; discriminate.
Qed.

(** Two numbers that are not NaN are equal as soon as neither is greater. *)
Lemma not_gt_eqb (x y : float) :
  is_nan x = false -> is_nan y = false ->
  gt x y = false -> gt y x = false -> (x =? y)%float = true.
Proof.
  intros Hx Hy. unfold gt. rewrite FloatAxioms.eqb_spec, !FloatAxioms.ltb_spec. unfold SFeqb, SFltb.
  rewrite (SFcompare_antisym (Prim2SF x) (Prim2SF y)).
  destruct (SFcompare (Prim2SF x) (Prim2SF y)) as [[]|] eqn:E; simpl;
    try congruence.
  intros _ _. apply SFcompare_None in E as [E|E]; apply is_nan_spec in E; congruence.
Qed.

(** ** Rounding in binary64: the sign of a difference *)

Section BinaryRound.
Variables prec emax : Z.
Hypothesis prec_pos : (0 < prec)%Z.

Lemma digits2_pos_size (m : positive) : digits2_pos m = Pos.size m.
Proof. induction m; simpl; congruence. Qed.

Lemma digits2_pos_bounds (m : positive) :
  (2 ^ (Z.pos (digits2_pos m) - 1) <= Z.pos m < 2 ^ Z.pos (digits2_pos m))%Z.
Proof.
  rewrite digits2_pos_size. split.
  - pose proof (Pos.size_le m) as H.
    apply Pos2Z.pos_le_pos in H. rewrite Pos2Z.inj_pow in H.
    change (Z.pos m~0) with (2 * Z.pos m)%Z in H.
    replace (Z.pos (Pos.size m)) with (Z.succ (Z.pos (Pos.size m) - 1)) in H by lia.
    rewrite Z.pow_succ_r in H by lia. lia.
  - pose proof (Pos.size_gt m) as H.
    apply Pos2Z.pos_lt_pos in H. now rewrite Pos2Z.inj_pow in H.
Qed.

Lemma shr_1_m (mrs : shr_record) :
  (0 <= shr_m mrs)%Z -> shr_m (shr_1 mrs) = (shr_m mrs / 2)%Z.
Proof.
  destruct mrs as [m r s]. simpl. intros Hm.
  destruct m as [|p|p]; [reflexivity| |lia].
  destruct p as [p|p|]; simpl shr_m.
  - rewrite Pos2Z.inj_xI. apply Z.div_unique with (r := 1%Z); lia.
  - rewrite Pos2Z.inj_xO. apply Z.div_unique with (r := 0%Z); lia.
  - reflexivity.
Qed.

Lemma iter_shr_1_m (p : positive) :
  forall mrs, (0 <= shr_m mrs)%Z ->
    shr_m (SpecFloat.iter_pos shr_1 p mrs) = (shr_m mrs / 2 ^ Z.pos p)%Z.
Proof.
  induction p as [p IH|p IH|]; intros mrs Hm; simpl SpecFloat.iter_pos.
  - assert (H1 : (0 <= shr_m (shr_1 mrs))%Z)
      by (rewrite shr_1_m by exact Hm; apply Z.div_pos; lia).
    assert (H2 : (0 <= shr_m (SpecFloat.iter_pos shr_1 p (shr_1 mrs)))%Z)
      by (rewrite IH by exact H1; apply Z.div_pos; lia).
    rewrite IH, IH, shr_1_m by assumption.
    rewrite !Z.div_div by lia. f_equal.
    replace (Z.pos p~1) with (1 + Z.pos p + Z.pos p)%Z by lia.
    rewrite !Z.pow_add_r by lia. lia.
  - assert (H2 : (0 <= shr_m (SpecFloat.iter_pos shr_1 p mrs))%Z)
      by (rewrite IH by exact Hm; apply Z.div_pos; lia).
    rewrite IH, IH by assumption.
    rewrite !Z.div_div by lia. f_equal.
    replace (Z.pos p~0) with (Z.pos p + Z.pos p)%Z by lia.
    rewrite !Z.pow_add_r by lia. lia.
  - now apply shr_1_m.
Qed.

Lemma shr_record_of_loc_m (m : Z) (l : location) : shr_m (shr_record_of_loc m l) = m.
Proof. destruct l as [|[]]; reflexivity. Qed.

Lemma shr_fexp_pos (m e : Z) (l : location) :
  (0 < m)%Z -> (SpecFloat.emin prec emax <= e)%Z ->
  (0 < shr_m (fst (shr_fexp prec emax m e l)))%Z /\
  (SpecFloat.emin prec emax <= snd (shr_fexp prec emax m e l))%Z.
Proof.
  intros Hm He. unfold shr_fexp, shr, fexp.
  destruct m as [|p|p]; try lia. simpl Zdigits2.
  pose proof (digits2_pos_bounds p) as [Hlo Hhi].
  set (d := Z.pos (digits2_pos p)) in *.
  destruct (Z.max (d + e - prec) (SpecFloat.emin prec emax) - e)%Z as [|n|n] eqn:En;
    simpl fst; simpl snd.
  - rewrite shr_record_of_loc_m. lia.
  - rewrite iter_shr_1_m by (rewrite shr_record_of_loc_m; lia).
    rewrite shr_record_of_loc_m. split; [|lia].
    apply Z.div_str_pos. split; [apply Z.pow_pos_nonneg; lia|].
    apply Z.le_trans with (2 ^ (d - 1))%Z; [|exact Hlo].
    apply Z.pow_le_mono_r; lia.
  - rewrite shr_record_of_loc_m. lia.
Qed.

Lemma round_nearest_even_pos (m : Z) (l : location) :
  (0 < m)%Z -> (0 < round_nearest_even m l)%Z.
Proof.
  intros Hm. unfold round_nearest_even.
  destruct l as [|[]]; try lia. destruct (Z.even m); lia.
Qed.

Lemma binary_round_aux_signed (s : bool) (m e : Z) (l : location) :
  (0 < m)%Z -> (SpecFloat.emin prec emax <= e)%Z ->
  signed s (binary_round_aux prec emax s m e l).
Proof.
  intros Hm He. unfold binary_round_aux.
  destruct (shr_fexp_pos m e l Hm He) as [H1 H1'].
  destruct (shr_fexp prec emax m e l) as [mrs' e']. simpl in H1, H1'.
  pose proof (round_nearest_even_pos (shr_m mrs') (loc_of_shr_record mrs') H1) as H2.
  destruct (shr_fexp_pos _ e' loc_Exact H2 H1') as [H3 _].
  destruct (shr_fexp prec emax _ e' loc_Exact) as [mrs'' e'']. simpl in H3.
  destruct (shr_m mrs'') as [|p|p]; try lia.
  destruct (e'' <=? emax - prec)%Z; reflexivity.
Qed.

Lemma binary_round_signed (s : bool) (m : positive) (e : Z) :
  (SpecFloat.emin prec emax <= e)%Z ->
  signed s (binary_round prec emax s m e).
Proof.
  intros He. unfold binary_round, shl_align.
  set (t := fexp prec emax (Z.pos (digits2_pos m) + e)).
  assert (Ht : (SpecFloat.emin prec emax <= t)%Z) by (unfold t, fexp; lia).
  destruct (t - e)%Z eqn:E; apply binary_round_aux_signed; lia.
Qed.

Lemma iter_xO_value (m d : positive) :
  Z.pos (Pos.iter xO m d) = (Z.pos m * 2 ^ Z.pos d)%Z.
Proof.
  induction d using Pos.peano_ind.
  - simpl. lia.
  - rewrite Pos.iter_succ, Pos2Z.inj_xO, IHd, Pos2Z.inj_succ, Z.pow_succ_r by lia. lia.
Qed.

Lemma shl_align_value (mx : positive) (ex ez : Z) :
  (ez <= ex)%Z -> Z.pos (fst (shl_align mx ex ez)) = (Z.pos mx * 2 ^ (ex - ez))%Z.
Proof.
  intros H. unfold shl_align.
  destruct (ez - ex)%Z as [|d|d] eqn:E; simpl fst.
  - replace (ex - ez)%Z with 0%Z by lia. lia.
  - lia.
  - rewrite iter_xO_value. f_equal. f_equal. lia.
Qed.

Lemma bounded_canonical (m : positive) (e : Z) :
  bounded prec emax m e = true ->
  (SpecFloat.emin prec emax <= e)%Z /\
  (Z.pos (digits2_pos m) <= prec)%Z /\
  ((SpecFloat.emin prec emax < e)%Z -> Z.pos (digits2_pos m) = prec).
Proof.
  unfold bounded, canonical_mantissa, fexp. intros H.
  apply andb_prop in H as [H _]. apply Z.eqb_eq in H. lia.
Qed.

(** On canonical mantissas, comparing the aligned mantissas is comparing
    exponents first and mantissas next. *)
Lemma aligned_compare (mx my : positive) (ex ey : Z) :
  bounded prec emax mx ex = true -> bounded prec emax my ey = true ->
  let ez := Z.min ex ey in
  (Z.pos (fst (shl_align mx ex ez)) ?= Z.pos (fst (shl_align my ey ez)))%Z =
  match (ex ?= ey)%Z with
  | Lt => Lt
  | Gt => Gt
  | Eq => Pos.compare_cont Eq mx my
  end.
Proof.
  intros Hx Hy ez.
  apply bounded_canonical in Hx as (Hx1 & Hx2 & Hx3).
  apply bounded_canonical in Hy as (Hy1 & Hy2 & Hy3).
  rewrite !shl_align_value by (unfold ez; lia).
  pose proof (digits2_pos_bounds mx) as [Hxlo Hxhi].
  pose proof (digits2_pos_bounds my) as [Hylo Hyhi].
  destruct (Z.compare_spec ex ey) as [E|E|E].
  - subst ey. unfold ez. rewrite Z.min_id, Z.sub_diag. simpl. rewrite !Pos.mul_1_r.
    reflexivity.
  - replace ez with ex by (unfold ez; lia). rewrite Z.sub_diag, Z.mul_1_r.
    apply Z.compare_lt_iff.
    rewrite (Hy3 ltac:(lia)) in Hylo.
    assert (Z.pos mx < 2 ^ prec)%Z
      by (eapply Z.lt_le_trans; [exact Hxhi|apply Z.pow_le_mono_r; lia]).
    assert (2 ^ 1 <= 2 ^ (ey - ex))%Z by (apply Z.pow_le_mono_r; lia).
    assert (2 ^ prec = 2 ^ (prec - 1) * 2 ^ 1)%Z
      by (rewrite <- Z.pow_add_r by lia; f_equal; lia).
    nia.
  - replace ez with ey by (unfold ez; lia). rewrite Z.sub_diag, Z.mul_1_r.
    apply Z.compare_gt_iff.
    rewrite (Hx3 ltac:(lia)) in Hxlo.
    assert (Z.pos my < 2 ^ prec)%Z
      by (eapply Z.lt_le_trans; [exact Hyhi|apply Z.pow_le_mono_r; lia]).
    assert (2 ^ 1 <= 2 ^ (ex - ey))%Z by (apply Z.pow_le_mono_r; lia).
    assert (2 ^ prec = 2 ^ (prec - 1) * 2 ^ 1)%Z
      by (rewrite <- Z.pow_add_r by lia; f_equal; lia).
    nia.
Qed.
End BinaryRound.

(** The sign of a difference. *)
Lemma binary_normalize_sign (prec emax : Z) (D e : Z) :
  (0 < prec)%Z -> (SpecFloat.emin prec emax <= e)%Z ->
  SFltb (S754_zero false) (binary_normalize prec emax D e false) = (0 <? D)%Z /\
  SFltb (binary_normalize prec emax D e false) (S754_zero false) = (D <? 0)%Z.
Proof.
  intros Hp He. destruct D as [|p|p]; simpl binary_normalize.
  - split; reflexivity.
  - pose proof (binary_round_signed prec emax Hp false p e He) as H.
    destruct (binary_round prec emax false p e) as [| s | | s m' e'];
      simpl in H; try contradiction; subst s; split; reflexivity.
  - pose proof (binary_round_signed prec emax Hp true p e He) as H.
    destruct (binary_round prec emax true p e) as [| s | | s m' e'];
      simpl in H; try contradiction; subst s; split; reflexivity.
Qed.

Ltac Zltb := first [apply Z.ltb_lt; lia | apply Z.ltb_ge; lia].

Lemma SFsub_sign (prec emax : Z) (fx fy : spec_float) :
  (0 < prec)%Z ->
  SpecFloat.valid_binary prec emax fx = true ->
  SpecFloat.valid_binary prec emax fy = true ->
  fx <> S754_nan -> fy <> S754_nan ->
  SFltb (S754_zero false) (SFsub prec emax fx fy) = SFltb fy fx /\
  SFltb (SFsub prec emax fx fy) (S754_zero false) = SFltb fx fy.
Proof.
  intros Hp Vx Vy Nx Ny.
  destruct fx as [sx | sx | | sx mx ex], fy as [sy | sy | | sy my ey];
    try congruence;
    try (destruct sx, sy; split; reflexivity);
    try (destruct sx; split; reflexivity);
    try (destruct sy; split; reflexivity).
  simpl in Vx, Vy.
  pose proof (aligned_compare prec emax Hp mx my ex ey Vx Vy) as Hc. cbv zeta in Hc.
  apply bounded_canonical in Vx as (Vx & _). apply bounded_canonical in Vy as (Vy & _).
  assert (Hxy : SFcompare (S754_finite sx mx ex) (S754_finite sy my ey) =
                Some (match sx, sy with
                      | true, false => Lt
                      | false, true => Gt
                      | false, false =>
                          match (ex ?= ey)%Z with
                          | Lt => Lt | Gt => Gt | Eq => Pos.compare_cont Eq mx my
                          end
                      | true, true =>
                          CompOpp match (ex ?= ey)%Z with
                                  | Lt => Lt | Gt => Gt | Eq => Pos.compare_cont Eq mx my
                                  end
                      end)).
  { destruct sx, sy; simpl; try reflexivity. destruct (ex ?= ey)%Z; reflexivity. }
  unfold SFltb. rewrite (SFcompare_antisym (S754_finite sx mx ex)), Hxy.
  rewrite <- Hc. clear Hxy Hc.
  change (SFsub prec emax (S754_finite sx mx ex) (S754_finite sy my ey))
    with (binary_normalize prec emax
            (cond_Zopp sx (Z.pos (fst (shl_align mx ex (Z.min ex ey))))
             - cond_Zopp sy (Z.pos (fst (shl_align my ey (Z.min ex ey)))))
            (Z.min ex ey) false).
  assert (HX : (0 < Z.pos (fst (shl_align mx ex (Z.min ex ey))))%Z) by lia.
  assert (HY : (0 < Z.pos (fst (shl_align my ey (Z.min ex ey))))%Z) by lia.
  revert HX HY.
  generalize (Z.pos (fst (shl_align mx ex (Z.min ex ey)))).
  generalize (Z.pos (fst (shl_align my ey (Z.min ex ey)))).
  intros Y X HX HY.
  destruct (binary_normalize_sign prec emax
              (cond_Zopp sx X - cond_Zopp sy Y) (Z.min ex ey) Hp ltac:(lia)) as [H1 H2].
  fold (SFltb (S754_zero false)
          (binary_normalize prec emax (cond_Zopp sx X - cond_Zopp sy Y)
             (Z.min ex ey) false)).
  fold (SFltb (binary_normalize prec emax (cond_Zopp sx X - cond_Zopp sy Y)
                 (Z.min ex ey) false) (S754_zero false)).
  rewrite H1, H2. clear H1 H2.
  destruct sx, sy; unfold cond_Zopp, option_map;
    destruct (Z.compare_spec X Y) as [E|E|E]; unfold CompOpp; split; Zltb.
Qed.

(** ** The per-judge comparator *)

Lemma compare_cases (tA bA tB bB : float) :
  compareSkatersByJudge tA bA tB bB = 1%Q \/
  compareSkatersByJudge tA bA tB bB = 0%Q \/
  compareSkatersByJudge tA bA tB bB = (1 # 2)%Q.
Proof.
  unfold compareSkatersByJudge.
  repeat match goal with |- context [if ?b then _ else _] => destruct b end; auto.
Qed.

(** Swapping the two skaters turns a result [v] into [1 - v]. *)
Lemma compare_swap (tA bA tB bB : float) :
  (compareSkatersByJudge tA bA tB bB + compareSkatersByJudge tB bB tA bA == 1)%Q.
Proof.
  unfold compareSkatersByJudge.
  destruct (gt tA tB) eqn:E1.
  - rewrite (gt_asym _ _ E1). reflexivity.
  - destruct (gt tB tA) eqn:E2; [reflexivity|].
    destruct (gt bA bB) eqn:E3.
    + rewrite (gt_asym _ _ E3). reflexivity.
    + destruct (gt bB bA) eqn:E4; reflexivity.
Qed.

(** C2, as the code has it: the result is 1 when the first total is the
    greater and 0 when the second is; on equal totals it is 1 or 0 as the
    first or the second artistic mark is the greater, and 0.5 on equal
    marks; it is 0.5 exactly when neither total and neither artistic mark is
    greater than the other, which for numbers other than NaN is exactly when
    the totals are equal and the artistic marks are equal. *)
Theorem compareSkatersByJudge_spec (tA bA tB bB : float) :
  let v := compareSkatersByJudge tA bA tB bB in
  (gt tA tB = true -> v = 1%Q) /\
  (gt tB tA = true -> v = 0%Q) /\
  ((tA =? tB)%float = true ->
     (gt bA bB = true -> v = 1%Q) /\
     (gt bB bA = true -> v = 0%Q) /\
     ((bA =? bB)%float = true -> v = (1 # 2)%Q)) /\
  (v = (1 # 2)%Q <->
     gt tA tB = false /\ gt tB tA = false /\
     gt bA bB = false /\ gt bB bA = false) /\
  (is_nan tA = false -> is_nan tB = false ->
   is_nan bA = false -> is_nan bB = false ->
   (v = (1 # 2)%Q <-> (tA =? tB)%float = true /\ (bA =? bB)%float = true)).
Proof.
  cbv zeta. unfold compareSkatersByJudge.
  assert (Hiff :
    (if gt tA tB then 1%Q else if gt tB tA then 0%Q else
     if gt bA bB then 1%Q else if gt bB bA then 0%Q else (1 # 2)%Q) = (1 # 2)%Q <->
    gt tA tB = false /\ gt tB tA = false /\ gt bA bB = false /\ gt bB bA = false).
  { destruct (gt tA tB), (gt tB tA), (gt bA bB), (gt bB bA);
      split; try discriminate; intuition discriminate. }
  split; [intros ->; reflexivity|].
  split.
  { intros H. rewrite H. destruct (gt tA tB) eqn:E; [|reflexivity].
    apply gt_asym in E. congruence. }
  split.
  { intros Ht. apply eqb_not_gt in Ht as [-> ->].
    split; [intros ->; reflexivity|]. split.
    - intros H. rewrite H. destruct (gt bA bB) eqn:E; [|reflexivity].
      apply gt_asym in E. congruence.
    - intros Hb. apply eqb_not_gt in Hb as [-> ->]. reflexivity. }
  split; [exact Hiff|].
  intros NtA NtB NbA NbB. rewrite Hiff. split.
  - intros (E1 & E2 & E3 & E4). split; now apply not_gt_eqb.
  - intros [Ht Hb]. apply eqb_not_gt in Ht as [-> ->].
    apply eqb_not_gt in Hb as [-> ->]. auto.
Qed.

Lemma compareSkatersByJudge_spec_witness :
  let v := compareSkatersByJudge 3 2 3 2 in
  (v = (1 # 2)%Q <-> (3 =? 3)%float = true /\ (2 =? 2)%float = true) /\
  v = (1 # 2)%Q.
Proof.
  cbv zeta. split.
  - apply (compareSkatersByJudge_spec 3 2 3 2); reflexivity.
  - reflexivity.
Defined.

(** C2 as stated fails on NaN: with a NaN total neither total is greater,
    the artistic marks decide, and equal marks give 0.5 although the totals
    are not equal. *)
Lemma compareSkatersByJudge_nan_tie :
  compareSkatersByJudge nan 1 5 1 = (1 # 2)%Q /\ (nan =? 5)%float = false.
Proof. split; reflexivity. Qed.

(** ** Sums of vote counts *)

Lemma fold_left_Qplus {A : Type} (f : A -> Q) (l : list A) (a : Q) :
  (fold_left (fun s x => s + f x) l a == a + Qsum (List.map f l))%Q.
Proof.
  revert a. induction l as [|x l IH]; intros a; simpl.
  - ring.
  - rewrite IH. ring.
Qed.

Lemma Qsum_ext {A : Type} (f g : A -> Q) (l : list A) :
  (forall x, In x l -> (f x == g x)%Q) ->
  (Qsum (List.map f l) == Qsum (List.map g l))%Q.
Proof.
  induction l as [|x l IH]; intros H; simpl; [reflexivity|].
  rewrite (H x (or_introl eq_refl)), IH; [reflexivity|].
  intros y Hy. apply H. now right.
Qed.

Lemma Qsum_plus {A : Type} (f g : A -> Q) (l : list A) :
  (Qsum (List.map (fun x => f x + g x) l)
   == Qsum (List.map f l) + Qsum (List.map g l))%Q.
Proof.
  induction l as [|x l IH]; simpl; [ring|]. rewrite IH. ring.
Qed.

Lemma Qsum_const {A : Type} (c : Q) (l : list A) :
  (Qsum (List.map (fun _ => c) l) == ofNat (length l) * c)%Q.
Proof.
  induction l as [|x l IH]; simpl length; simpl List.map; simpl Qsum.
  - unfold ofNat. simpl. ring.
  - rewrite IH. unfold ofNat. rewrite Nat2Z.inj_succ, <- Z.add_1_r, inject_Z_plus.
    ring.
Qed.

Lemma Qsum_app (l1 l2 : list Q) : (Qsum (l1 ++ l2) == Qsum l1 + Qsum l2)%Q.
Proof.
  induction l1 as [|x l1 IH]; simpl; [ring|]. rewrite IH. ring.
Qed.

Lemma ofNat_S (n : nat) : (ofNat (S n) == ofNat n + 1)%Q.
Proof. unfold ofNat. rewrite Nat2Z.inj_succ, <- Z.add_1_r, inject_Z_plus. reflexivity. Qed.

(** ** The score normalizer *)

Lemma calculateJudgeTotals_length (skater : SkaterScores) :
  length (calculateJudgeTotals skater) = effectiveCount skater.
Proof. unfold calculateJudgeTotals. now rewrite List.length_map, List.length_seq. Qed.

Lemma calculateJudgeTotals_lookup (skater : SkaterScores) (i : nat) :
  i < effectiveCount skater ->
  calculateJudgeTotals skater !! i =
    Some (orZero (aScores skater) i + orZero (bScores skater) i)%float.
Proof.
  intros Hi. unfold calculateJudgeTotals.
  rewrite list_lookup_fmap. rewrite lookup_seq_lt by exact Hi. reflexivity.
Qed.

(** ** Pair scores *)

Lemma pairwiseComparison_sum (skater1 skater2 : SkaterScores) :
  (pairwiseComparison skater1 skater2 ==
   Qsum (List.map (judgeVote skater1 skater2)
          (seq 0 (Nat.max (effectiveCount skater1) (effectiveCount skater2)))))%Q.
Proof.
  unfold pairwiseComparison. rewrite !calculateJudgeTotals_length.
  rewrite (fold_left_Qplus (judgeVote skater1 skater2)). ring.
Qed.

Lemma judgeVote_swap (skater1 skater2 : SkaterScores) (i : nat) :
  (judgeVote skater1 skater2 i + judgeVote skater2 skater1 i == 1)%Q.
Proof. unfold judgeVote. apply compare_swap. Qed.

(** The pair scores of the two directions add up to the number of judges
    of the pair. *)
Lemma pairwiseComparison_swap (X Y : SkaterScores) :
  (pairwiseComparison X Y + pairwiseComparison Y X
   == ofNat (Nat.max (effectiveCount X) (effectiveCount Y)))%Q.
Proof.
  rewrite !pairwiseComparison_sum.
  rewrite (Nat.max_comm (effectiveCount Y)).
  rewrite <- Qsum_plus.
  rewrite (Qsum_ext _ (fun _ => 1%Q)) by (intros; apply judgeVote_swap).
  rewrite Qsum_const, List.length_seq. ring.
Qed.

(** C10: the results of the per-judge comparator for swapped arguments
    sum to 1, and the pair scores computed independently in the two
    directions sum to the larger of the two effective judge counts. *)
Theorem pairwiseComparison_reciprocal (X Y : SkaterScores) :
  (forall tA bA tB bB : float,
     (compareSkatersByJudge tA bA tB bB + compareSkatersByJudge tB bB tA bA == 1)%Q) /\
  (pairwiseComparison X Y + pairwiseComparison Y X
   == ofNat (Nat.max (effectiveCount X) (effectiveCount Y)))%Q.
Proof. split; [exact compare_swap | apply pairwiseComparison_swap]. Qed.

Lemma pairwiseComparison_no_judges (X Y : SkaterScores) :
  effectiveCount X = 0 -> effectiveCount Y = 0 -> pairwiseComparison X Y = 0%Q.
Proof.
  intros HX HY. unfold pairwiseComparison.
  rewrite !calculateJudgeTotals_length, HX, HY. reflexivity.
Qed.

Lemma countNonNull_filter (arr : list (option float)) :
  countNonNull arr
  = length (List.filter
              (fun s : option float => match s with Some _ => true | None => false end)
              arr).
Proof. reflexivity. Qed.

Lemma orZero_nth (arr : list (option float)) (i : nat) :
  orZero arr i = match nth i arr None with Some x => x | None => 0%float end.
Proof.
  unfold orZero. rewrite nth_lookup.
  destruct (arr !! i) as [[x|]|]; reflexivity.
Qed.

Lemma awardVictory_no_judges (victories : gmap string Q) (X Y : SkaterScores) :
  effectiveCount X = 0 -> effectiveCount Y = 0 ->
  awardVictory victories X Y
  = <[name Y := (<[name X := (victories !!! name X + (1 # 2))%Q]> victories
                 !!! name Y + (1 # 2))%Q]>
      (<[name X := (victories !!! name X + (1 # 2))%Q]> victories).
Proof.
  intros HX HY. unfold awardVictory.
  rewrite (pairwiseComparison_no_judges X Y HX HY).
  rewrite !calculateJudgeTotals_length, HX, HY. reflexivity.
Qed.

(** ** The head-to-head reporter *)

Lemma compare_one_zero (tA bA tB bB : float) :
  Qeq_bool (compareSkatersByJudge tA bA tB bB) 1 =
  Qeq_bool (compareSkatersByJudge tB bB tA bA) 0.
Proof.
  unfold compareSkatersByJudge.
  destruct (gt tA tB) eqn:E1.
  - rewrite (gt_asym _ _ E1). reflexivity.
  - destruct (gt tB tA) eqn:E2; [reflexivity|].
    destruct (gt bA bB) eqn:E3.
    + rewrite (gt_asym _ _ E3). reflexivity.
    + destruct (gt bB bA) eqn:E4; reflexivity.
Qed.

Lemma fold_countVote (X Y : SkaterScores) (l : list nat) (votes : nat * nat) :
  fold_left (countVote X Y) l votes =
  (fst votes + length (List.filter (fun i => Qeq_bool (judgeResult X Y i) 1) l),
   snd votes + length (List.filter (fun i => Qeq_bool (judgeResult X Y i) 0) l)).
Proof.
  revert votes. induction l as [|i l IH]; intros [sv ov]; simpl.
  - f_equal; lia.
  - rewrite IH. unfold countVote. fold (judgeResult X Y i). simpl.
    destruct (compare_cases
                (orZero (aScores X) i + orZero (bScores X) i)
                (orZero (bScores X) i)
                (orZero (aScores Y) i + orZero (bScores Y) i)
                (orZero (bScores Y) i)) as [E|[E|E]];
      unfold judgeResult; rewrite E; simpl; f_equal; lia.
Qed.

Lemma filter_three_way (l : list nat) (r : nat -> Q) :
  (forall i, r i = 1%Q \/ r i = 0%Q \/ r i = (1 # 2)%Q) ->
  length (List.filter (fun i => Qeq_bool (r i) 1) l)
  + length (List.filter (fun i => Qeq_bool (r i) 0) l)
  + length (List.filter (fun i => Qeq_bool (r i) (1 # 2)) l) = length l.
Proof.
  intros Hr. induction l as [|i l IH]; simpl; [reflexivity|].
  destruct (Hr i) as [E|[E|E]]; rewrite E; simpl; lia.
Qed.

Lemma headToHead_votes (X Y : SkaterScores) :
  let n := Nat.max (effectiveCount X) (effectiveCount Y) in
  opponent (headToHead X Y) = name Y /\
  skaterVotes (headToHead X Y) = countWhere (fun i => Qeq_bool (judgeResult X Y i) 1) n /\
  opponentVotes (headToHead X Y) = countWhere (fun i => Qeq_bool (judgeResult X Y i) 0) n /\
  skaterVotes (headToHead X Y) + opponentVotes (headToHead X Y)
    + countWhere (fun i => Qeq_bool (judgeResult X Y i) (1 # 2)) n = n /\
  (won (headToHead X Y) = true <->
   opponentVotes (headToHead X Y) < skaterVotes (headToHead X Y)).
Proof.
  cbv zeta. unfold headToHead, countWhere. fold (effectiveCount X) (effectiveCount Y).
  simpl. rewrite fold_countVote. simpl.
  repeat split; try reflexivity.
  - rewrite filter_three_way; [apply List.length_seq|].
    intros i. apply compare_cases.
  - intros H. apply Nat.ltb_lt in H. exact H.
  - intros H. apply Nat.ltb_lt. exact H.
Qed.

Lemma headToHead_reciprocal (X Y : SkaterScores) :
  skaterVotes (headToHead X Y) = opponentVotes (headToHead Y X) /\
  opponentVotes (headToHead X Y) = skaterVotes (headToHead Y X).
Proof.
  destruct (headToHead_votes X Y) as (_ & -> & -> & _).
  destruct (headToHead_votes Y X) as (_ & -> & -> & _).
  rewrite (Nat.max_comm (effectiveCount Y)). unfold countWhere.
  split; f_equal; apply List.filter_ext; intros i; unfold judgeResult.
  - apply compare_one_zero.
  - symmetry. apply compare_one_zero.
Qed.

Lemma calculateHeadToHeadDetails_map (X : SkaterScores) (l : list SkaterScores) :
  calculateHeadToHeadDetails X l = List.map (headToHead X) (others X l).
Proof.
  unfold calculateHeadToHeadDetails, others.
  induction l as [|Y l IH]; simpl; [reflexivity|].
  destruct (String.eqb (name Y) (name X)); simpl; now rewrite IH.
Qed.

(** ** The sort returns a permutation *)

Lemma insertSorted_perm {A : Type} (cmp : A -> A -> comparison) (x : A) (l : list A) :
  Permutation (insertSorted cmp x l) (x :: l).
Proof.
  induction l as [|y l IH]; simpl; [reflexivity|].
  destruct (cmp x y); try reflexivity.
  rewrite IH. apply perm_swap.
Qed.

Lemma jsSort_perm {A : Type} (cmp : A -> A -> comparison) (l : list A) :
  Permutation (jsSort cmp l) l.
Proof.
  induction l as [|x l IH]; simpl; [reflexivity|].
  rewrite insertSorted_perm. now constructor.
Qed.

Lemma jsSort_length {A : Type} (cmp : A -> A -> comparison) (l : list A) :
  length (jsSort cmp l) = length l.
Proof. apply Permutation_length, jsSort_perm. Qed.

(** ** The loop over a tied group never throws *)

Lemma collectFrom_Some {A B : Type} (f : nat -> A -> option B) (l : list A) :
  forall k l', collectFrom f k l = Some l' ->
    Forall2 (fun x y => exists i, f i x = Some y) l l'.
Proof.
  induction l as [|x l IH]; intros k l' H; simpl in H.
  - injection H as <-. constructor.
  - destruct (f k x) as [y|] eqn:E; [|discriminate].
    destruct (collectFrom f (S k) l) as [ys|] eqn:E'; [|discriminate].
    injection H as <-. constructor; eauto.
Qed.

Lemma collectFrom_total {A B : Type} (f : nat -> A -> option B) (l : list A) :
  forall k, (forall i x, l !! i = Some x -> is_Some (f (k + i) x)) ->
    is_Some (collectFrom f k l).
Proof.
  induction l as [|x l IH]; intros k H; simpl; [eauto|].
  destruct (H 0 x eq_refl) as [y Hy]. rewrite Nat.add_0_r in Hy. rewrite Hy.
  destruct (IH (S k)) as [ys Hys].
  - intros i z Hz. replace (S k + i) with (k + S i) by lia. now apply H.
  - rewrite Hys. eauto.
Qed.

Lemma narrow_total (tiedGroup : list SkaterResult) (keep : string -> bool)
    (still : list string) :
  Forall (fun nm => In nm (List.map rname tiedGroup)) still ->
  exists kept, narrow tiedGroup keep still = Some kept /\
               Forall (fun nm => In nm (List.map rname tiedGroup)) kept.
Proof.
  induction 1 as [|nm still Hnm _ IH]; simpl; [eauto|].
  destruct (List.find (fun s => String.eqb (rname s) nm) tiedGroup) as [other|] eqn:E.
  - destruct IH as (kept & -> & Hkept).
    destruct (keep (rname other)); eauto.
  - exfalso. apply in_map_iff in Hnm as (s & Hs & Hin).
    apply (List.find_none _ _ E) in Hin. rewrite Hs, String.eqb_refl in Hin. discriminate.
Qed.

Lemma distinctValues_incl {A : Type} (same : A -> A -> bool) (l : list A) (x : A) :
  In x (distinctValues same l) -> In x l.
Proof.
  unfold distinctValues.
  assert (G : forall seen, In x (fold_left
              (fun seen x => if existsb (same x) seen then seen else seen ++ [x]) l seen) ->
            In x seen \/ In x l).
  { induction l as [|y l IH]; intros seen H; simpl in *; [auto|].
    apply IH in H as [H|H]; [|auto].
    destruct (existsb (same y) seen); [auto|].
    apply in_app_or in H as [H|[H|[]]]; auto. }
  intros H. apply G in H as [[]|H]. exact H.
Qed.

Lemma trailCompAll_total c v tiedGroup current reached still info :
  Forall (fun nm => In nm (List.map rname tiedGroup)) still ->
  is_Some (trailCompAll c v tiedGroup current reached still info).
Proof.
  intros H. unfold trailCompAll.
  destruct (_ && _); [|eauto].
  destruct (narrow_total tiedGroup
              (fun nm => Qeq_bool (comparisonWithAll c !!! nm)
                                  (comparisonWithAll c !!! rname current)) still H)
    as (kept & -> & _).
  destruct (length kept =? 0); eauto.
Qed.

Lemma trailBScoreSum_total c v tiedGroup current reached still info :
  Forall (fun nm => In nm (List.map rname tiedGroup)) still ->
  is_Some (trailBScoreSum c v tiedGroup current reached still info).
Proof.
  intros H. unfold trailBScoreSum.
  destruct (_ && _); [|now apply trailCompAll_total].
  destruct (narrow_total tiedGroup
              (fun nm => (bScoreSums c !!! nm =? bScoreSums c !!! rname current)%float)
              still H)
    as (kept & -> & Hkept).
  destruct (length kept =? 0); [eauto|now apply trailCompAll_total].
Qed.

Lemma trailDirect_total c v tiedGroup current :
  is_Some (trailDirect c v tiedGroup current).
Proof.
  unfold trailDirect.
  set (still := List.filter _ _).
  assert (H : Forall (fun nm => In nm (List.map rname tiedGroup)) still).
  { apply List.Forall_forall. intros nm Hnm. apply List.filter_In in Hnm as [Hnm _].
    now apply distinctValues_incl in Hnm. }
  destruct (_ && _); [|now apply trailBScoreSum_total].
  destruct (narrow_total tiedGroup
              (fun nm => Qeq_bool (comparisonScores c !!! nm)
                                  (comparisonScores c !!! rname current)) still H)
    as (kept & -> & Hkept).
  destruct (length kept =? 0); [eauto|now apply trailBScoreSum_total].
Qed.

Lemma neighbour_total (tiedGroup : list SkaterResult) (k : nat) :
  2 <= length tiedGroup -> k < length tiedGroup ->
  is_Some (neighbour tiedGroup k).
Proof.
  intros H2 Hk. unfold neighbour.
  destruct (k <? length tiedGroup - 1) eqn:E.
  - apply Nat.ltb_lt in E. apply lookup_lt_is_Some. lia.
  - apply Nat.ltb_ge in E. destruct k as [|k']; [lia|].
    apply lookup_lt_is_Some. lia.
Qed.

Lemma annotate_total c v (tiedGroup : list SkaterResult) k current :
  2 <= length tiedGroup -> k < length tiedGroup ->
  is_Some (annotate c v tiedGroup k current).
Proof.
  intros H2 Hk. unfold annotate.
  destruct (neighbour_total tiedGroup k H2 Hk) as [w ->].
  destruct (trailDirect_total c v tiedGroup (setSummary c current w)) as [info ->].
  eauto.
Qed.

Lemma setSummary_core c current compareWith :
  core (setSummary c current compareWith) = core current /\
  rank (setSummary c current compareWith) = rank current.
Proof.
  unfold setSummary.
  repeat match goal with |- context [if ?b then _ else _] => destruct b end;
    split; reflexivity.
Qed.

Lemma annotate_core c v tiedGroup k current r :
  annotate c v tiedGroup k current = Some r ->
  core r = core current /\ rank r = rank current.
Proof.
  unfold annotate. destruct (neighbour tiedGroup k) as [w|]; [|discriminate].
  destruct (trailDirect _ _ _ _) as [info|]; [|discriminate].
  intros [= <-]. destruct (setSummary_core c current w) as [<- <-].
  split; reflexivity.
Qed.

(** ** The main loop *)

Lemma imap_setRank_rank (l : list SkaterResult) (c : nat) :
  List.map rank (imap (fun k r => setRank r (c + k)) l) = seq c (length l).
Proof.
  revert c. induction l as [|x l IH]; intros c; simpl; [reflexivity|].
  rewrite Nat.add_0_r. f_equal. rewrite <- IH.
  f_equal. apply imap_ext. intros i y _. simpl. f_equal. lia.
Qed.

Lemma imap_setRank_core (l : list SkaterResult) (f : nat -> nat) :
  List.map core (imap (fun k r => setRank r (f k)) l) = List.map core l.
Proof.
  revert f. induction l as [|x l IH]; intros f; simpl; [reflexivity|].
  f_equal. apply (IH (f ∘ S)).
Qed.

Lemma Forall2_annotated (l l' : list SkaterResult) :
  Forall2 (fun x y => core y = core x /\ rank y = rank x) l l' ->
  List.map core l' = List.map core l /\ List.map rank l' = List.map rank l.
Proof.
  induction 1 as [|x y l l' [Hc Hr] _ [IHc IHr]]; simpl; [auto|].
  rewrite Hc, Hr, IHc, IHr. auto.
Qed.

Lemma breakTies_spec (skaters : list SkaterScores) (tiedGroup : list SkaterResult)
    (currentRank : nat) :
  length tiedGroup <> 1 ->
  exists group,
    breakTies skaters tiedGroup currentRank = Some group /\
    Permutation (List.map core group) (List.map core tiedGroup) /\
    List.map rank group = seq currentRank (length tiedGroup).
Proof.
  intros Hlen. unfold breakTies.
  set (c := criteriaOf skaters tiedGroup).
  set (ranked := imap _ (jsSort (cascade c) tiedGroup)).
  assert (Hrl : length ranked = length tiedGroup).
  { unfold ranked. now rewrite length_imap, jsSort_length. }
  assert (Hcore : Permutation (List.map core ranked) (List.map core tiedGroup)).
  { unfold ranked. rewrite (imap_setRank_core _ (fun k => currentRank + k)).
    apply Permutation_map, jsSort_perm. }
  assert (Hrank : List.map rank ranked = seq currentRank (length tiedGroup)).
  { unfold ranked. rewrite imap_setRank_rank. now rewrite jsSort_length. }
  destruct (1 <? length ranked) eqn:E; [|eauto].
  apply Nat.ltb_lt in E.
  destruct (collectFrom_total (annotate c (variation c ranked) ranked) ranked 0)
    as [group Hgroup].
  { intros i x Hx. apply annotate_total; [lia|].
    apply lookup_lt_Some in Hx. simpl. exact Hx. }
  exists group. split; [exact Hgroup|].
  apply collectFrom_Some in Hgroup.
  assert (H2 : Forall2 (fun x y => core y = core x /\ rank y = rank x) ranked group).
  { eapply Forall2_impl; [exact Hgroup|].
    intros x y [i Hi]. now apply annotate_core in Hi. }
  apply Forall2_annotated in H2 as [-> ->]. auto.
Qed.

Lemma spanWhile_spec {A : Type} (p : A -> bool) (l : list A) :
  l = fst (spanWhile p l) ++ snd (spanWhile p l) /\
  List.Forall (fun x => p x = true) (fst (spanWhile p l)) /\
  match snd (spanWhile p l) with
  | [] => True
  | y :: _ => p y = false
  end.
Proof.
  induction l as [|x l (IH1 & IH2 & IH3)]; simpl; [auto|].
  destruct (p x) eqn:E.
  - destruct (spanWhile p l) as [run rest]; simpl in *.
    split; [now f_equal|]. split; [now constructor|]. exact IH3.
  - simpl. auto.
Qed.

Lemma Forall2_Qeq_const (q : Q) (l l' : list Q) :
  length l = length l' ->
  List.Forall (fun x => (x == q)%Q) l -> List.Forall (fun x => (x == q)%Q) l' ->
  Forall2 Qeq l l'.
Proof.
  revert l'. induction l as [|x l IH]; intros [|y l'] Hlen Hl Hl';
    simpl in Hlen; try discriminate; [constructor|].
  inversion Hl; inversion Hl'; subst.
  constructor; [|apply IH; auto].
  etransitivity; [eassumption|]. now symmetry.
Qed.

Lemma setRank_core (r : SkaterResult) (n : nat) : core (setRank r n) = core r.
Proof. reflexivity. Qed.

Lemma rankLoop_spec (skaters : list SkaterScores) (fuel : nat) :
  forall ranked todo currentRank,
    length todo <= fuel ->
    exists out,
      rankLoop skaters fuel ranked todo currentRank = Some (ranked ++ out) /\
      Permutation (List.map core out) (List.map core todo) /\
      List.map rank out = seq currentRank (length todo) /\
      Forall2 Qeq (List.map majorityVictories out) (List.map majorityVictories todo).
Proof.
  induction fuel as [|fuel IH]; intros ranked todo currentRank Hfuel.
  - destruct todo; [|simpl in Hfuel; lia].
    exists []. simpl. rewrite app_nil_r. repeat split; constructor.
  - destruct todo as [|first tl].
    { exists []. simpl. rewrite app_nil_r. repeat split; constructor. }
    cbn [rankLoop].
    set (p := fun r => Qeq_bool (majorityVictories r) (majorityVictories first)).
    destruct (spanWhile_spec p (first :: tl)) as (Happ & Hrun & _).
    destruct (spanWhile p (first :: tl)) as [tiedGroup rest] eqn:Espan.
    simpl in Happ, Hrun.
    assert (Hne : tiedGroup <> []).
    { intros ->. simpl in Espan. unfold p in Espan at 1.
      rewrite Qeq_bool_refl in Espan.
      destruct (spanWhile p tl); discriminate. }
    assert (Hgroup : exists group,
      (if length tiedGroup =? 1
       then Some (List.map (fun r => setRank r currentRank) tiedGroup)
       else breakTies skaters tiedGroup currentRank) = Some group /\
      Permutation (List.map core group) (List.map core tiedGroup) /\
      List.map rank group = seq currentRank (length tiedGroup)).
    { destruct (length tiedGroup =? 1) eqn:E.
      - apply Nat.eqb_eq in E. eexists. split; [reflexivity|].
        destruct tiedGroup as [|x [|? ?]]; try discriminate. simpl.
        split; reflexivity.
      - apply Nat.eqb_neq in E. now apply breakTies_spec. }
    destruct Hgroup as (group & -> & Hcore & Hrank).
    assert (Hlen : length (first :: tl) = length tiedGroup + length rest).
    { rewrite Happ at 1. apply List.length_app. }
    destruct (IH (ranked ++ group) rest (currentRank + length tiedGroup))
      as (out & Hout & Hc & Hr & Hmv).
    { destruct tiedGroup; [congruence|]. simpl in Hlen, Hfuel. simpl. lia. }
    exists (group ++ out).
    split; [rewrite Hout, app_assoc; reflexivity|].
    split; [rewrite Happ, !List.map_app; now apply Permutation_app|].
    split; [rewrite List.map_app, Hrank, Hr, Hlen, List.seq_app; reflexivity|].
    rewrite Happ, !List.map_app. apply Forall2_app; [|exact Hmv].
    assert (Hq : List.Forall (fun x => (snd (fst x) == majorityVictories first)%Q)
                   (List.map core tiedGroup)).
    { apply List.Forall_map. eapply List.Forall_impl; [|exact Hrun].
      intros r Hr'. unfold p in Hr'. now apply Qeq_bool_iff in Hr'. }
    apply (Forall2_Qeq_const (majorityVictories first)).
    + apply Permutation_length in Hcore. rewrite !List.length_map in *. exact Hcore.
    + apply List.Forall_map.
      apply (Permutation_Forall (Permutation_sym Hcore)) in Hq.
      apply List.Forall_map in Hq. exact Hq.
    + apply List.Forall_map. apply List.Forall_map in Hq. exact Hq.
Qed.

Lemma scoredResults_eq (skaters : list SkaterScores) :
  List.map
    (fun result =>
       setVictories result (calculateMajorityVictories skaters !!! rname result)
         (calculateHeadToHeadDetails (scores result) skaters))
    (List.map initialResult skaters) = scoredResults skaters.
Proof. unfold scoredResults. rewrite List.map_map. reflexivity. Qed.

(** The shape of every result of [calculateRankings]: it returns, the
    results are the scored results in some order, the ranks are the
    positions, and the majority victories read in output order are those of
    the first sort. *)
Lemma calculateRankings_spec (skaters : list SkaterScores) :
  exists out,
    calculateRankings skaters = Some out /\
    Permutation (List.map core out) (List.map core (scoredResults skaters)) /\
    List.map rank out = seq 1 (length skaters) /\
    Forall2 Qeq (List.map majorityVictories out)
      (List.map majorityVictories (jsSort byVictories (scoredResults skaters))).
Proof.
  unfold calculateRankings.
  destruct (length skaters =? 0) eqn:E.
  - apply Nat.eqb_eq in E. destruct skaters; [|discriminate].
    exists []. repeat split; constructor.
  - rewrite scoredResults_eq.
    destruct (rankLoop_spec skaters (length (jsSort byVictories (scoredResults skaters)))
                [] (jsSort byVictories (scoredResults skaters)) 1 (le_n _))
      as (out & Hout & Hc & Hr & Hmv).
    exists out. split; [exact Hout|].
    split; [rewrite Hc; apply Permutation_map, jsSort_perm|].
    split; [|exact Hmv].
    rewrite Hr, jsSort_length. unfold scoredResults. now rewrite List.length_map.
Qed.

(** ** The sort orders by a total preorder *)

Section SortOrder.
Context {A : Type} (cmp : A -> A -> comparison) (le : A -> A -> Prop) (ok : A -> Prop).
Hypothesis cmp_le : forall x y, ok x -> ok y -> cmp x y <> Gt -> le x y.
Hypothesis cmp_gt : forall x y, ok x -> ok y -> cmp x y = Gt -> le y x.
Hypothesis le_trans : forall x y z, ok x -> ok y -> ok z -> le x y -> le y z -> le x z.

Lemma insertSorted_sorted (x : A) (l : list A) :
  ok x -> List.Forall ok l ->
  StronglySorted le l -> StronglySorted le (insertSorted cmp x l).
Proof using cmp_le cmp_gt le_trans.
  intros Hx Hok Hs. induction Hs as [|y l Hl IH Hy]; simpl.
  - repeat constructor.
  - inversion Hok as [|? ? Hoky Hokl]; subst.
    assert (Hrest : cmp x y <> Gt -> StronglySorted le (x :: y :: l)).
    { intros Hc. constructor; [now constructor|].
      assert (Hxy : le x y) by now apply cmp_le.
      constructor; [exact Hxy|].
      rewrite List.Forall_forall in *. intros z Hz.
      apply (le_trans x y z); auto. }
    destruct (cmp x y) eqn:E; try (apply Hrest; congruence).
    constructor; [now apply IH|].
    apply (Permutation_Forall (Permutation_sym (insertSorted_perm cmp x l))).
    constructor; [now apply cmp_gt|exact Hy].
Qed.

Lemma jsSort_sorted (l : list A) :
  List.Forall ok l -> StronglySorted le (jsSort cmp l).
Proof using cmp_le cmp_gt le_trans.
  induction 1 as [|x l Hx Hl IH]; simpl; [constructor|].
  apply insertSorted_sorted; [exact Hx| |exact IH].
  apply (Permutation_Forall (Permutation_sym (jsSort_perm cmp l))). exact Hl.
Qed.
End SortOrder.

Lemma StronglySorted_lookup {A : Type} (le : A -> A -> Prop) (l : list A) :
  StronglySorted le l ->
  forall i j x y, i < j -> l !! i = Some x -> l !! j = Some y -> le x y.
Proof.
  induction 1 as [|z l Hl IH Hz]; intros i j x y Hij Hi Hj.
  - rewrite lookup_nil in Hi. discriminate.
  - destruct j as [|j]; [lia|]. simpl in Hj. destruct i as [|i]; simpl in Hi.
    + injection Hi as <-. rewrite List.Forall_forall in Hz. apply Hz.
      apply list_elem_of_In. eapply list_elem_of_lookup_2. exact Hj.
    + apply (IH i j); [lia|assumption..].
Qed.

Lemma signQ_Gt (v : Q) : signQ v = Gt <-> (0 < v)%Q.
Proof. unfold signQ. rewrite <- Qgt_alt. reflexivity. Qed.

Lemma byVictories_le (a b : SkaterResult) :
  byVictories a b <> Gt -> (majorityVictories b <= majorityVictories a)%Q.
Proof.
  unfold byVictories. destruct (Qeq_bool _ _) eqn:E; simpl.
  - intros _. apply Qeq_bool_iff in E. rewrite E. apply Qle_refl.
  - intros H. apply Qnot_lt_le. intros Hlt. apply H. apply signQ_Gt. lra.
Qed.

Lemma byVictories_gt (a b : SkaterResult) :
  byVictories a b = Gt -> (majorityVictories a <= majorityVictories b)%Q.
Proof.
  unfold byVictories. destruct (Qeq_bool _ _) eqn:E; simpl; [discriminate|].
  intros H. apply signQ_Gt in H. lra.
Qed.

(** The first sort leaves the results by majority victories descending. *)
Lemma jsSort_byVictories (l : list SkaterResult) :
  StronglySorted (fun a b => (majorityVictories b <= majorityVictories a)%Q)
    (jsSort byVictories l).
Proof.
  apply (jsSort_sorted byVictories _ (fun _ => True)).
  - intros x y _ _. apply byVictories_le.
  - intros x y _ _. apply byVictories_gt.
  - intros x y z _ _ _ H1 H2. lra.
  - apply List.Forall_forall. auto.
Qed.

Lemma Forall2_lookup_Qeq (l l' : list Q) (i : nat) (x : Q) :
  Forall2 Qeq l l' -> l !! i = Some x -> exists y, l' !! i = Some y /\ (x == y)%Q.
Proof.
  intros H. revert i. induction H as [|a b l l' Hab _ IH]; intros i Hi.
  - rewrite lookup_nil in Hi. discriminate.
  - destruct i as [|i]; simpl in *; [injection Hi as <-; eauto|]. now apply IH.
Qed.

(** In the output, a later position never has more majority victories. *)
Lemma calculateRankings_descending (skaters : list SkaterScores)
    (out : list SkaterResult) :
  calculateRankings skaters = Some out ->
  forall i j x y, i < j -> out !! i = Some x -> out !! j = Some y ->
    (majorityVictories y <= majorityVictories x)%Q.
Proof.
  intros Hout i j x y Hij Hi Hj.
  destruct (calculateRankings_spec skaters) as (out' & Hout' & _ & _ & Hmv).
  rewrite Hout in Hout'. injection Hout' as <-.
  assert (Hi' : List.map majorityVictories out !! i = Some (majorityVictories x))
    by (rewrite list_lookup_fmap, Hi; reflexivity).
  assert (Hj' : List.map majorityVictories out !! j = Some (majorityVictories y))
    by (rewrite list_lookup_fmap, Hj; reflexivity).
  destruct (Forall2_lookup_Qeq _ _ _ _ Hmv Hi') as (qx & Hqx & Ex).
  destruct (Forall2_lookup_Qeq _ _ _ _ Hmv Hj') as (qy & Hqy & Ey).
  rewrite list_lookup_fmap in Hqx, Hqy.
  destruct (jsSort byVictories (scoredResults skaters) !! i) as [rx|] eqn:Erx;
    [|discriminate].
  destruct (jsSort byVictories (scoredResults skaters) !! j) as [ry|] eqn:Ery;
    [|discriminate].
  injection Hqx as <-. injection Hqy as <-.
  pose proof (StronglySorted_lookup _ _ (jsSort_byVictories (scoredResults skaters))
                i j rx ry Hij Erx Ery) as Hle.
  simpl in Hle. rewrite Ex, Ey. exact Hle.
Qed.

Lemma rank_lookup (out : list SkaterResult) (n i : nat) (x : SkaterResult) :
  List.map rank out = seq 1 n -> out !! i = Some x -> rank x = S i.
Proof.
  intros Hr Hi.
  assert (H : List.map rank out !! i = Some (rank x))
    by (rewrite list_lookup_fmap, Hi; reflexivity).
  rewrite Hr in H. apply lookup_seq in H as [H _]. lia.
Qed.

(** C1: for every list of n competitors the ranking returns, its results
    carry the ranks 1, 2, ..., n in this order, and a competitor with
    strictly more majority victories than another has a strictly smaller
    rank. *)
Theorem calculateRankings_ranks (skaters : list SkaterScores) :
  exists out,
    calculateRankings skaters = Some out /\
    length out = length skaters /\
    List.map rank out = seq 1 (length skaters) /\
    (forall X Y, In X out -> In Y out ->
       (majorityVictories Y < majorityVictories X)%Q -> rank X < rank Y).
Proof.
  destruct (calculateRankings_spec skaters) as (out & Hout & _ & Hr & _).
  exists out. split; [exact Hout|].
  split.
  { rewrite <- (List.length_map rank), Hr. apply List.length_seq. }
  split; [exact Hr|].
  intros X Y HX HY Hlt.
  apply list_elem_of_In, list_elem_of_lookup in HX as [i Hi].
  apply list_elem_of_In, list_elem_of_lookup in HY as [j Hj].
  rewrite (rank_lookup out _ i X Hr Hi), (rank_lookup out _ j Y Hr Hj).
  destruct (Nat.lt_trichotomy i j) as [H|[H|H]]; [lia| |].
  - subst j. rewrite Hi in Hj. injection Hj as <-. lra.
  - pose proof (calculateRankings_descending skaters out Hout j i Y X H Hj Hi). lra.
Qed.

(** ** Degenerate inputs *)

Lemma calculateRankings_single (s : SkaterScores) :
  calculateRankings [s] =
    Some [ {| scores := s;
              totalScore := roundToOneDecimal (calculateTotalScore s);
              rank := 1;
              majorityVictories := 0;
              tieBreakLevel := None; tieBreakValue := None; tieBreakInfo := None;
              headToHeadResults := Some [] |} ].
Proof.
  unfold calculateRankings. simpl length. simpl Nat.eqb. cbv iota.
  unfold calculateMajorityVictories, initScores, calculateHeadToHeadDetails, rname.
  simpl. rewrite lookup_total_insert_eq, String.eqb_refl. simpl.
  reflexivity.
Qed.

(** C8: the ranking returns on every input; no competitor gives no
    result; one competitor gives one result with no majority victory,
    rank 1, no tie-break data and an empty head-to-head list. *)
Theorem calculateRankings_never_throws :
  (forall skaters, is_Some (calculateRankings skaters)) /\
  calculateRankings [] = Some [] /\
  (forall s, exists r,
     calculateRankings [s] = Some [r] /\
     scores r = s /\
     majorityVictories r = 0%Q /\
     rank r = 1 /\
     tieBreakLevel r = None /\ tieBreakValue r = None /\ tieBreakInfo r = None /\
     headToHeadResults r = Some []).
Proof.
  split.
  { intros skaters. destruct (calculateRankings_spec skaters) as (out & -> & _). eauto. }
  split; [reflexivity|].
  intros s. eexists. split; [apply calculateRankings_single|].
  repeat split.
Qed.

(** ** What a result records of its skater *)

Lemma result_of_skater (skaters : list SkaterScores) (out : list SkaterResult)
    (r : SkaterResult) :
  calculateRankings skaters = Some out -> In r out ->
  In (scores r) skaters /\
  totalScore r = roundToOneDecimal (calculateTotalScore (scores r)) /\
  majorityVictories r = calculateMajorityVictories skaters !!! rname r /\
  headToHeadResults r = Some (calculateHeadToHeadDetails (scores r) skaters).
Proof.
  intros Hout Hr.
  destruct (calculateRankings_spec skaters) as (out' & Hout' & Hperm & _).
  rewrite Hout in Hout'. injection Hout' as <-.
  assert (Hc : In (core r) (List.map core (scoredResults skaters))).
  { eapply Permutation_in; [exact Hperm|]. now apply in_map. }
  unfold scoredResults in Hc. rewrite List.map_map in Hc.
  apply in_map_iff in Hc as (s & Hs & Hin).
  unfold core in Hs. simpl in Hs. injection Hs as H1 H2 H3 H4.
  unfold rname. rewrite <- H1, <- H2, <- H3, <- H4. auto.
Qed.

Lemma skater_has_result (skaters : list SkaterScores) (out : list SkaterResult)
    (s : SkaterScores) :
  calculateRankings skaters = Some out -> In s skaters ->
  exists r, In r out /\ scores r = s.
Proof.
  intros Hout Hs.
  destruct (calculateRankings_spec skaters) as (out' & Hout' & Hperm & _).
  rewrite Hout in Hout'. injection Hout' as <-.
  assert (Hc : In (core (setVictories (initialResult s)
                      (calculateMajorityVictories skaters !!! name s)
                      (calculateHeadToHeadDetails s skaters)))
                 (List.map core out)).
  { eapply Permutation_in; [symmetry; exact Hperm|].
    apply in_map. unfold scoredResults.
    apply (in_map (fun skater => setVictories (initialResult skater)
                     (calculateMajorityVictories skaters !!! name skater)
                     (calculateHeadToHeadDetails skater skaters))). exact Hs. }
  apply in_map_iff in Hc as (r & Hr & Hin).
  exists r. split; [exact Hin|].
  unfold core in Hr. simpl in Hr. now injection Hr.
Qed.

(** ** Two competitors without marks *)

(** Ranked alone, two competitors without a valid mark show the majority
    victories that the one tie of the pair loop leaves under their names. *)
Lemma two_without_marks (X Y : SkaterScores) :
  effectiveCount X = 0 -> effectiveCount Y = 0 ->
  exists out,
    calculateRankings [X; Y] = Some out /\ length out = 2 /\
    (name X <> name Y ->
       forall r, In r out -> (majorityVictories r == 1 # 2)%Q) /\
    (name X = name Y ->
       forall r, In r out -> (majorityVictories r == 1)%Q).
Proof.
  intros HX HY.
  destruct (calculateRankings_spec [X; Y]) as (out & Hout & _ & Hrank & _).
  exists out. split; [exact Hout|]. split.
  { rewrite <- (List.length_map rank out), Hrank. reflexivity. }
  assert (Hmv : forall r, In r out ->
            (rname r = name X \/ rname r = name Y) /\
            majorityVictories r = awardVictory (initScores [X; Y]) X Y !!! rname r).
  { intros r Hr.
    destruct (result_of_skater [X; Y] out r Hout Hr) as (Hin & _ & Hm & _).
    split; [|exact Hm].
    unfold rname. destruct Hin as [<-|[<-|[]]]; auto. }
  unfold initScores in Hmv. simpl in Hmv.
  rewrite (awardVictory_no_judges _ X Y HX HY) in Hmv.
  split.
  - intros Hne r Hr. destruct (Hmv r Hr) as [[E|E] ->]; rewrite E.
    + rewrite lookup_total_insert_ne by congruence.
      rewrite lookup_total_insert_eq.
      rewrite lookup_total_insert_ne by congruence.
      rewrite lookup_total_insert_eq. reflexivity.
    + rewrite lookup_total_insert_eq.
      rewrite lookup_total_insert_ne by congruence.
      rewrite lookup_total_insert_eq. reflexivity.
  - intros Heq r Hr. destruct (Hmv r Hr) as [[E|E] ->]; rewrite E, <- ?Heq;
      rewrite !lookup_total_insert_eq; reflexivity.
Qed.

(** C5: the normalizer returns as many totals as the larger of the two
    counts of non-missing marks; total [i] is the technical mark at [i], or 0
    if it is missing or past the end, plus the artistic mark at [i], or 0;
    without any valid mark the sequence is empty.  Two such competitors
    score 0 against each other both ways, and the tie adds 0.5 to the
    majority victories kept under the name of each and changes no other: 0.5
    for each when the names differ, 1 for the one entry when they share the
    name.  Ranked alone, the two show 0.5 majority victories each when their
    names differ and 1 each when they share the name. *)
Theorem calculateJudgeTotals_spec (X Y : SkaterScores) (victories : gmap string Q) :
  let valid (arr : list (option float)) :=
    length (List.filter
              (fun s : option float => match s with Some _ => true | None => false end)
              arr) in
  let mark (arr : list (option float)) (i : nat) :=
    match nth i arr None with Some x => x | None => 0%float end in
  let numJudges := Nat.max (valid (aScores X)) (valid (bScores X)) in
  length (calculateJudgeTotals X) = numJudges /\
  (forall i, i < numJudges ->
     calculateJudgeTotals X !! i
     = Some (mark (aScores X) i + mark (bScores X) i)%float) /\
  (valid (aScores X) = 0 -> valid (bScores X) = 0 -> calculateJudgeTotals X = []) /\
  (valid (aScores X) = 0 -> valid (bScores X) = 0 ->
   valid (aScores Y) = 0 -> valid (bScores Y) = 0 ->
     pairwiseComparison X Y = 0%Q /\ pairwiseComparison Y X = 0%Q /\
     (forall k, k <> name X -> k <> name Y ->
        awardVictory victories X Y !! k = victories !! k) /\
     (name X <> name Y ->
        awardVictory victories X Y !!! name X = (victories !!! name X + (1 # 2))%Q /\
        awardVictory victories X Y !!! name Y = (victories !!! name Y + (1 # 2))%Q) /\
     (name X = name Y ->
        awardVictory victories X Y !!! name X
        = (victories !!! name X + (1 # 2) + (1 # 2))%Q) /\
     exists out,
       calculateRankings [X; Y] = Some out /\ length out = 2 /\
       (name X <> name Y ->
          forall r, In r out -> (majorityVictories r == 1 # 2)%Q) /\
       (name X = name Y ->
          forall r, In r out -> (majorityVictories r == 1)%Q)).
Proof.
  cbv beta zeta. rewrite <- !countNonNull_filter. fold (effectiveCount X).
  split; [apply calculateJudgeTotals_length|].
  split.
  { intros i Hi. rewrite <- !orZero_nth. now apply calculateJudgeTotals_lookup. }
  split.
  { intros Ha Hb. unfold calculateJudgeTotals, effectiveCount. now rewrite Ha, Hb. }
  intros Ha Hb Ha' Hb'.
  assert (HX : effectiveCount X = 0) by (unfold effectiveCount; now rewrite Ha, Hb).
  assert (HY : effectiveCount Y = 0) by (unfold effectiveCount; now rewrite Ha', Hb').
  split; [now apply pairwiseComparison_no_judges|].
  split; [now apply pairwiseComparison_no_judges|].
  rewrite (awardVictory_no_judges victories X Y HX HY).
  split; [|split; [|split]].
  - intros k HkX HkY. rewrite !lookup_insert_ne by congruence. reflexivity.
  - intros Hne. split.
    + rewrite lookup_total_insert_ne by congruence.
      now rewrite lookup_total_insert_eq.
    + rewrite lookup_total_insert_eq.
      now rewrite lookup_total_insert_ne by congruence.
  - intros E. rewrite <- E. now rewrite !lookup_total_insert_eq.
  - destruct (two_without_marks X Y HX HY) as (out & Hout & Hlen & Hne & Heq).
    exists out. auto.
Qed.

Lemma calculateJudgeTotals_spec_witness :
  (length (calculateJudgeTotals gappedMarks) = 2 /\
   calculateJudgeTotals gappedMarks !! 0 = Some 4.5%float /\
   calculateJudgeTotals gappedMarks !! 1 = Some 1.5%float) /\
  (let E := mkSkater "E" [None; None] [None] in
   let F := mkSkater "F" [] [None; None; None] in
   calculateJudgeTotals E = [] /\
   pairwiseComparison E F = 0%Q /\
   awardVictory (initScores noMarks) E F !!! "E" = (0 + (1 # 2))%Q /\
   awardVictory (initScores noMarks) E F !!! "F" = (0 + (1 # 2))%Q).
Proof.
  split.
  - pose proof (calculateJudgeTotals_spec gappedMarks gappedMarks ∅)
      as (Hlen & Hentry & _).
    split; [exact Hlen|].
    split; [exact (Hentry 0 ltac:(vm_compute; lia))
           |exact (Hentry 1 ltac:(vm_compute; lia))].
  - cbv zeta.
    pose proof (calculateJudgeTotals_spec
                  (mkSkater "E" [None; None] [None])
                  (mkSkater "F" [] [None; None; None])
                  (initScores noMarks))
      as (_ & _ & Hempty & Htie).
    specialize (Hempty eq_refl eq_refl).
    specialize (Htie eq_refl eq_refl eq_refl eq_refl) as (H0 & _ & _ & Hne & _).
    split; [exact Hempty|]. split; [exact H0|].
    exact (Hne ltac:(discriminate)).
Defined.

(** C5 as stated fails for two competitors of one name: the two halves
    go to the one entry of the name, and each of the two shows 1 majority
    victory. *)
Lemma noMarks_shared_counter :
  exists out,
    calculateRankings noMarksOneName = Some out /\
    length out = 2 /\
    List.Forall (fun r => calculateJudgeTotals (scores r) = []) out /\
    List.Forall (fun r => (majorityVictories r == 1)%Q) out /\
    List.Forall (fun r => ~ (majorityVictories r == 1 # 2)%Q) out.
Proof.
  destruct (calculateRankings noMarksOneName) as [out|] eqn:E;
    [|vm_compute in E; discriminate].
  exists out. split; [reflexivity|].
  vm_compute in E. injection E as <-.
  split; [reflexivity|].
  split; [repeat constructor|].
  split; repeat constructor; vm_compute; discriminate.
Qed.

Lemma Forall2_map_self {A B : Type} (P : B -> A -> Prop) (f : A -> B) (l : list A) :
  (forall y, In y l -> P (f y) y) -> List.Forall2 P (List.map f l) l.
Proof.
  induction l as [|y l IH]; intros H; simpl; constructor.
  - apply H. now left.
  - apply IH. intros z Hz. apply H. now right.
Qed.

Lemma judgeResult_nth (X Y : SkaterScores) (i : nat) :
  judgeResult X Y i
  = compareSkatersByJudge
      (match nth i (aScores X) None with Some x => x | None => 0 end
       + match nth i (bScores X) None with Some x => x | None => 0 end)%float
      (match nth i (bScores X) None with Some x => x | None => 0%float end)
      (match nth i (aScores Y) None with Some x => x | None => 0 end
       + match nth i (bScores Y) None with Some x => x | None => 0 end)%float
      (match nth i (bScores Y) None with Some x => x | None => 0%float end).
Proof. unfold judgeResult. now rewrite !orZero_nth. Qed.

(** C6: in every result the head-to-head list holds one entry per skater
    of another name, in input order.  The entry against Y counts as
    skaterVotes the judges for which the comparator returns 1 on the marks
    of the two and as opponentVotes those for which it returns 0, the judges
    being as many as the largest of the four counts of non-missing marks and
    a missing mark counting as 0; a judge for which it returns 0.5 is counted
    in neither, so the two counts add up to the number of judges less the
    number of such ties; and won holds exactly when skaterVotes is strictly
    greater than opponentVotes. *)
Theorem headToHead_tally (skaters : list SkaterScores) :
  let valid (arr : list (option float)) :=
    length (List.filter
              (fun s : option float => match s with Some _ => true | None => false end)
              arr) in
  let mark (arr : list (option float)) (i : nat) :=
    match nth i arr None with Some x => x | None => 0%float end in
  let verdict (X Y : SkaterScores) (i : nat) :=
    compareSkatersByJudge
      (mark (aScores X) i + mark (bScores X) i)%float (mark (bScores X) i)
      (mark (aScores Y) i + mark (bScores Y) i)%float (mark (bScores Y) i) in
  let judges (X Y : SkaterScores) :=
    seq 0 (Nat.max (Nat.max (valid (aScores X)) (valid (bScores X)))
                   (Nat.max (valid (aScores Y)) (valid (bScores Y)))) in
  exists out,
    calculateRankings skaters = Some out /\
    forall rX, In rX out ->
      let X := scores rX in
      let opponents :=
        List.filter (fun Y => negb (String.eqb (name Y) (name X))) skaters in
      exists h,
        headToHeadResults rX = Some h /\
        List.Forall2
          (fun e Y =>
             opponent e = name Y /\
             skaterVotes e
             = length (List.filter (fun i => Qeq_bool (verdict X Y i) 1) (judges X Y)) /\
             opponentVotes e
             = length (List.filter (fun i => Qeq_bool (verdict X Y i) 0) (judges X Y)) /\
             skaterVotes e + opponentVotes e
             + length (List.filter (fun i => Qeq_bool (verdict X Y i) (1 # 2))
                                   (judges X Y))
             = length (judges X Y) /\
             (won e = true <-> opponentVotes e < skaterVotes e))
          h opponents.
Proof.
  cbv beta zeta.
  destruct (calculateRankings_spec skaters) as (out & Hout & _).
  exists out. split; [exact Hout|].
  intros rX HrX.
  destruct (result_of_skater skaters out rX Hout HrX) as (_ & _ & _ & Hh).
  rewrite calculateHeadToHeadDetails_map in Hh.
  eexists. split; [exact Hh|].
  apply Forall2_map_self. intros Y _.
  destruct (headToHead_votes (scores rX) Y) as (H1 & H2 & H3 & H4 & H5).
  unfold countWhere, effectiveCount in H2, H3, H4.
  rewrite !countNonNull_filter in H2, H3, H4.
  rewrite (List.filter_ext _ _ (fun i => f_equal (fun q => Qeq_bool q 1)
                                  (judgeResult_nth (scores rX) Y i))) in H2.
  rewrite (List.filter_ext _ _ (fun i => f_equal (fun q => Qeq_bool q 0)
                                  (judgeResult_nth (scores rX) Y i))) in H3.
  rewrite (List.filter_ext _ _ (fun i => f_equal (fun q => Qeq_bool q (1 # 2))
                                  (judgeResult_nth (scores rX) Y i))) in H4.
  rewrite List.length_seq.
  split; [exact H1|]. split; [exact H2|]. split; [exact H3|].
  split; [exact H4|exact H5].
Qed.

Lemma find_unique_name (l : list SkaterScores) (Y : SkaterScores) :
  List.NoDup (List.map name l) -> In Y l ->
  List.find (fun Z => String.eqb (name Z) (name Y)) l = Some Y.
Proof.
  induction l as [|Z l IH]; intros Hnd HY; [destruct HY|].
  simpl in Hnd. inversion Hnd as [|? ? Hnotin Hnd']; subst.
  destruct HY as [->|HY]; simpl.
  - now rewrite String.eqb_refl.
  - destruct (String.eqb (name Z) (name Y)) eqn:E; [|now apply IH].
    apply String.eqb_eq in E. exfalso. apply Hnotin. rewrite E. now apply in_map.
Qed.

(** ** The pair loop over a map keyed by name *)

Lemma others_absent (X : SkaterScores) (l : list SkaterScores) :
  ~ In (name X) (List.map name l) -> others X l = l.
Proof.
  intros H. unfold others. induction l as [|Y l IH]; simpl; [reflexivity|].
  destruct (String.eqb (name Y) (name X)) eqn:E; simpl.
  - apply String.eqb_eq in E. exfalso. apply H. left. exact E.
  - f_equal. apply IH. intros H'. apply H. now right.
Qed.

Lemma others_cons_self (X : SkaterScores) (l : list SkaterScores) :
  others X (X :: l) = others X l.
Proof. unfold others. simpl. now rewrite String.eqb_refl. Qed.

Lemma others_cons_other (X Y : SkaterScores) (l : list SkaterScores) :
  name Y <> name X -> others X (Y :: l) = Y :: others X l.
Proof. intros H. unfold others. simpl. apply String.eqb_neq in H. now rewrite H. Qed.

Section PairLoop.
Variable body : gmap string Q -> SkaterScores -> SkaterScores -> gmap string Q.
Variables f g : SkaterScores -> SkaterScores -> Q.

Hypothesis body_first : forall m X Y, name X <> name Y ->
  (body m X Y !!! name X == m !!! name X + f X Y)%Q.
Hypothesis body_second : forall m X Y, name X <> name Y ->
  (body m X Y !!! name Y == m !!! name Y + g X Y)%Q.
Hypothesis body_other : forall m X Y k, k <> name X -> k <> name Y ->
  body m X Y !!! k = m !!! k.
Hypothesis reciprocal : forall X Y, (g X Y == f Y X)%Q.

Lemma inner_loop (x : SkaterScores) (rest : list SkaterScores) :
  ~ In (name x) (List.map name rest) -> List.NoDup (List.map name rest) ->
  forall m,
    let m' := fold_left (fun st y => body st x y) rest m in
    (m' !!! name x == m !!! name x + Qsum (List.map (f x) rest))%Q /\
    (forall y, In y rest -> (m' !!! name y == m !!! name y + g x y)%Q) /\
    (forall k, k <> name x -> ~ In k (List.map name rest) -> m' !!! k = m !!! k).
Proof using body_first body_second body_other.
  induction rest as [|y0 rest IH]; intros Hx Hnd m; cbn zeta.
  - simpl. split; [ring|]. split; [intros y []|reflexivity].
  - simpl in Hx, Hnd. inversion Hnd as [|? ? Hy0 Hnd']; subst.
    assert (Hxy0 : name x <> name y0) by (intros E; apply Hx; now left).
    assert (Hx' : ~ In (name x) (List.map name rest)) by (intros E; apply Hx; now right).
    destruct (IH Hx' Hnd' (body m x y0)) as (IH1 & IH2 & IH3).
    cbn zeta in IH1, IH2, IH3. simpl fold_left. simpl List.map. simpl Qsum.
    split; [|split].
    + rewrite IH1, body_first by exact Hxy0. ring.
    + intros y [<-|Hy].
      * rewrite IH3 by (auto; congruence). now apply body_second.
      * rewrite (IH2 y Hy).
        assert (Hyy0 : name y <> name y0)
          by (intros E; apply Hy0; rewrite <- E; now apply in_map).
        assert (Hyx : name y <> name x)
          by (intros E; apply Hx'; rewrite <- E; now apply in_map).
        rewrite body_other by assumption. reflexivity.
    + intros k Hk Hk'. rewrite IH3; [|exact Hk|intros E; apply Hk'; now right].
      apply body_other; [exact Hk|]. intros E. apply Hk'. left. now symmetry.
Qed.

Lemma forEachPair_lookup (l : list SkaterScores) :
  List.NoDup (List.map name l) ->
  forall m,
    (forall X, In X l ->
       (forEachPair body l m !!! name X
        == m !!! name X + Qsum (List.map (f X) (others X l)))%Q) /\
    (forall k, ~ In k (List.map name l) -> forEachPair body l m !!! k = m !!! k).
Proof using body_first body_second body_other reciprocal.
  induction l as [|x rest IH]; intros Hnd m.
  - split; [intros X []|reflexivity].
  - simpl in Hnd. inversion Hnd as [|? ? Hx Hnd']; subst.
    destruct (inner_loop x rest Hx Hnd' m) as (I1 & I2 & I3). cbn zeta in I1, I2, I3.
    destruct (IH Hnd' (fold_left (fun st y => body st x y) rest m)) as (IH1 & IH2).
    simpl forEachPair. split.
    + intros X [<-|HX].
      * rewrite IH2 by exact Hx. rewrite I1, others_cons_self, others_absent by exact Hx.
        reflexivity.
      * assert (Hne : name x <> name X)
          by (intros E; apply Hx; rewrite E; now apply in_map).
        rewrite (IH1 X HX), (I2 X HX), others_cons_other by exact Hne.
        simpl. rewrite reciprocal. ring.
    + intros k Hk. rewrite IH2 by (intros E; apply Hk; now right).
      apply I3; intros E; apply Hk; [left; now symmetry|now right].
Qed.
End PairLoop.

Lemma initScores_lookup (l : list SkaterScores) (k : string) :
  initScores l !!! k = 0%Q.
Proof.
  unfold initScores.
  assert (G : forall m : gmap string Q, m !!! k = 0%Q ->
            fold_left (fun m skater => <[name skater := 0%Q]> m) l m !!! k = 0%Q).
  { induction l as [|x l IH]; intros m Hm; simpl; [exact Hm|].
    apply IH. destruct (decide (name x = k)) as [->|Hne].
    - apply lookup_total_insert_eq.
    - rewrite lookup_total_insert_ne by exact Hne. exact Hm. }
  apply G. rewrite lookup_total_empty. reflexivity.
Qed.

(** ** Majority victories *)

Lemma Qgtb_spec (x y : Q) : if Qgtb x y then (y < x)%Q else (x <= y)%Q.
Proof.
  unfold Qgtb. destruct (Qle_bool x y) eqn:E; simpl.
  - now apply Qle_bool_iff.
  - apply Qnot_le_lt. intros H. apply Qle_bool_iff in H. congruence.
Qed.

Ltac by_Qgtb :=
  repeat match goal with
         | |- context [Qgtb ?x ?y] =>
             let H := fresh "H" in
             pose proof (Qgtb_spec x y) as H; destruct (Qgtb x y)
         end;
  try reflexivity; try (exfalso; lra).

Lemma pair_scores_sum (X Y : SkaterScores) :
  (ofNat (Nat.max (length (calculateJudgeTotals X)) (length (calculateJudgeTotals Y)))
   - pairwiseComparison X Y == pairwiseComparison Y X)%Q.
Proof.
  rewrite !calculateJudgeTotals_length.
  rewrite <- (pairwiseComparison_swap X Y). ring.
Qed.

Lemma firstPoints_victoryPoints (X Y : SkaterScores) :
  (firstPoints X Y == victoryPoints X Y)%Q.
Proof.
  unfold firstPoints, victoryPoints. cbv zeta.
  pose proof (pair_scores_sum X Y) as E.
  by_Qgtb.
Qed.

Lemma secondPoints_victoryPoints (X Y : SkaterScores) :
  (secondPoints X Y == victoryPoints Y X)%Q.
Proof.
  unfold secondPoints, victoryPoints. cbv zeta.
  pose proof (pair_scores_sum X Y) as E.
  by_Qgtb.
Qed.

Lemma victoryPoints_cases (X Y : SkaterScores) :
  victoryPoints X Y = 1%Q \/ victoryPoints X Y = 0%Q \/ victoryPoints X Y = (1 # 2)%Q.
Proof. unfold victoryPoints. by_Qgtb; auto. Qed.

(** Each unordered pair hands out exactly one point. *)
Lemma victoryPoints_pair (X Y : SkaterScores) :
  (victoryPoints X Y + victoryPoints Y X == 1)%Q.
Proof. unfold victoryPoints. by_Qgtb. Qed.

Lemma awardVictory_first (m : gmap string Q) (X Y : SkaterScores) :
  name X <> name Y ->
  (awardVictory m X Y !!! name X == m !!! name X + firstPoints X Y)%Q.
Proof.
  intros Hne. unfold awardVictory, firstPoints. cbv zeta.
  destruct (Qgtb _ _); [|destruct (Qgtb _ _)].
  - rewrite lookup_total_insert_eq. reflexivity.
  - rewrite lookup_total_insert_ne by congruence. ring.
  - rewrite lookup_total_insert_ne by congruence.
    rewrite lookup_total_insert_eq. reflexivity.
Qed.

Lemma awardVictory_second (m : gmap string Q) (X Y : SkaterScores) :
  name X <> name Y ->
  (awardVictory m X Y !!! name Y == m !!! name Y + secondPoints X Y)%Q.
Proof.
  intros Hne. unfold awardVictory, secondPoints. cbv zeta.
  destruct (Qgtb _ _); [|destruct (Qgtb _ _)].
  - rewrite lookup_total_insert_ne by congruence. ring.
  - rewrite lookup_total_insert_eq. reflexivity.
  - rewrite lookup_total_insert_eq.
    rewrite lookup_total_insert_ne by congruence. reflexivity.
Qed.

Lemma awardVictory_other (m : gmap string Q) (X Y : SkaterScores) (k : string) :
  k <> name X -> k <> name Y -> awardVictory m X Y !!! k = m !!! k.
Proof.
  intros HX HY. unfold awardVictory. cbv zeta.
  destruct (Qgtb _ _); [|destruct (Qgtb _ _)];
    rewrite ?lookup_total_insert_ne by congruence; reflexivity.
Qed.

(** With pairwise distinct names, the majority victories of a skater are
    the sum of its victory points against every other skater. *)
Lemma calculateMajorityVictories_closed (skaters : list SkaterScores) (X : SkaterScores) :
  List.NoDup (List.map name skaters) -> In X skaters ->
  (calculateMajorityVictories skaters !!! name X
   == Qsum (List.map (victoryPoints X) (others X skaters)))%Q.
Proof.
  intros Hnd HX. unfold calculateMajorityVictories.
  destruct (forEachPair_lookup awardVictory firstPoints secondPoints
              awardVictory_first awardVictory_second awardVictory_other
              (fun X Y => Qeq_trans _ _ _ (secondPoints_victoryPoints X Y)
                            (Qeq_sym _ _ (firstPoints_victoryPoints Y X)))
              skaters Hnd (initScores skaters)) as [H _].
  rewrite (H X HX), initScores_lookup.
  rewrite (Qsum_ext (firstPoints X) (victoryPoints X))
    by (intros; apply firstPoints_victoryPoints).
  ring.
Qed.

Lemma Qsum_cons (a : Q) (l : list Q) : Qsum (a :: l) = (a + Qsum l)%Q.
Proof. reflexivity. Qed.

Lemma Qsum_perm (l l' : list Q) : Permutation l l' -> (Qsum l == Qsum l')%Q.
Proof.
  induction 1; simpl; try ring.
  - now rewrite IHPermutation.
  - now rewrite IHPermutation1.
Qed.

Lemma Qsum_points {A : Type} (f : A -> Q) (l : list A) :
  (forall x, In x l -> f x = 1%Q \/ f x = 0%Q \/ f x = (1 # 2)%Q) ->
  isHalfMultiple (Qsum (List.map f l)) /\
  (0 <= Qsum (List.map f l))%Q /\ (Qsum (List.map f l) <= ofNat (length l))%Q.
Proof.
  induction l as [|x l IH]; intros H.
  - simpl. split; [exists 0%Z; reflexivity|]. split; unfold Qle; simpl; lia.
  - destruct IH as ((k & Hk) & H0 & Hn); [intros y Hy; apply H; now right|].
    simpl List.map. simpl Qsum. simpl length. rewrite ofNat_S.
    destruct (H x (or_introl eq_refl)) as [E|[E|E]]; rewrite E.
    + split; [exists (k + 2)%Z; rewrite inject_Z_plus, Hk; simpl; ring|]. split; lra.
    + split; [exists k; rewrite Hk; ring|]. split; lra.
    + split; [exists (k + 1)%Z; rewrite inject_Z_plus, Hk; simpl; ring|]. split; lra.
Qed.

Lemma others_length (X : SkaterScores) (l : list SkaterScores) :
  List.NoDup (List.map name l) -> In X l -> S (length (others X l)) = length l.
Proof.
  induction l as [|Y l IH]; intros Hnd HX; [destruct HX|].
  simpl in Hnd. inversion Hnd as [|? ? HY Hnd']; subst.
  destruct HX as [->|HX].
  - rewrite others_cons_self, others_absent by exact HY. reflexivity.
  - assert (Hne : name Y <> name X)
      by (intros E; apply HY; rewrite E; now apply in_map).
    rewrite others_cons_other by exact Hne. simpl. f_equal. now apply IH.
Qed.

Lemma pairCount_S (n : nat) : (pairCount (S n) == pairCount n + ofNat n)%Q.
Proof. unfold pairCount. rewrite ofNat_S. field. Qed.

(** Conservation: the victory points of all skaters add up to one per
    unordered pair. *)
Lemma victoryPoints_total (l : list SkaterScores) :
  List.NoDup (List.map name l) ->
  (Qsum (List.map (fun X => Qsum (List.map (victoryPoints X) (others X l))) l)
   == pairCount (length l))%Q.
Proof.
  induction l as [|x rest IH]; intros Hnd.
  - unfold pairCount, ofNat. simpl. reflexivity.
  - simpl in Hnd. inversion Hnd as [|? ? Hx Hnd']; subst.
    change (length (x :: rest)) with (S (length rest)). rewrite pairCount_S.
    rewrite List.map_cons, Qsum_cons.
    rewrite others_cons_self, others_absent by exact Hx.
    rewrite (Qsum_ext
               (fun X => Qsum (List.map (victoryPoints X) (others X (x :: rest))))
               (fun X => victoryPoints X x
                         + Qsum (List.map (victoryPoints X) (others X rest)))%Q).
    + rewrite Qsum_plus, (IH Hnd').
      assert (E : (Qsum (List.map (victoryPoints x) rest)
                   + Qsum (List.map (fun X => victoryPoints X x) rest)
                   == ofNat (length rest))%Q).
      { rewrite <- Qsum_plus.
        rewrite (Qsum_ext _ (fun _ => 1%Q)) by (intros; apply victoryPoints_pair).
        rewrite Qsum_const. ring. }
      rewrite <- E. ring.
    + intros X HX.
      assert (Hne : name x <> name X)
        by (intros E; apply Hx; rewrite E; now apply in_map).
      rewrite others_cons_other by exact Hne. reflexivity.
Qed.

Lemma halves_add (m : gmap string Q) (k : string) (q : Q) (z : Z) :
  (q == inject_Z z * (1 # 2))%Q -> (0 <= z)%Z -> halves m ->
  halves (<[k := (m !!! k + q)%Q]> m).
Proof.
  intros Hq Hz Hm k'. destruct (decide (k = k')) as [<-|Hne].
  - rewrite lookup_total_insert_eq. destruct (Hm k) as [[n Hn] H0]. split.
    + exists (n + z)%Z. rewrite Hn, Hq, inject_Z_plus. ring.
    + assert (0 <= inject_Z z)%Q by (unfold Qle; simpl; lia).
      rewrite Hq. nra.
  - rewrite lookup_total_insert_ne by exact Hne. apply Hm.
Qed.

Lemma halves_plus_one (m : gmap string Q) (k : string) :
  halves m -> halves (<[k := (m !!! k + 1)%Q]> m).
Proof. apply (halves_add m k 1 2); [reflexivity|lia]. Qed.

Lemma halves_plus_half (m : gmap string Q) (k : string) :
  halves m -> halves (<[k := (m !!! k + (1 # 2))%Q]> m).
Proof. apply (halves_add m k (1 # 2) 1); [reflexivity|lia]. Qed.

Lemma awardVictory_halves (m : gmap string Q) (X Y : SkaterScores) :
  halves m -> halves (awardVictory m X Y).
Proof.
  intros Hm. unfold awardVictory. cbv zeta.
  destruct (Qgtb _ _); [now apply halves_plus_one|].
  destruct (Qgtb _ _); [now apply halves_plus_one|].
  now apply halves_plus_half, halves_plus_half.
Qed.

Lemma forEachPair_invariant {S A : Type} (P : S -> Prop) (body : S -> A -> A -> S) :
  (forall st x y, P st -> P (body st x y)) ->
  forall l st, P st -> P (forEachPair body l st).
Proof.
  intros Hbody. induction l as [|x rest IH]; intros st Hst; simpl; [exact Hst|].
  apply IH. clear IH. revert st Hst.
  induction rest as [|y rest IH]; intros st Hst; simpl; [exact Hst|].
  apply IH. now apply Hbody.
Qed.

Lemma initScores_halves (l : list SkaterScores) : halves (initScores l).
Proof.
  unfold initScores.
  assert (G : forall m, halves m ->
            halves (fold_left (fun m skater => <[name skater := 0%Q]> m) l m)).
  { induction l as [|s l IH]; intros m Hm; simpl; [exact Hm|].
    apply IH. intros k. destruct (decide (name s = k)) as [<-|Hne].
    - rewrite lookup_total_insert_eq. split; [now exists 0%Z|apply Qle_refl].
    - rewrite lookup_total_insert_ne by exact Hne. apply Hm. }
  apply G. intros k. rewrite lookup_total_empty.
  split; [now exists 0%Z|apply Qle_refl].
Qed.

Lemma calculateMajorityVictories_halves (skaters : list SkaterScores) :
  halves (calculateMajorityVictories skaters).
Proof.
  unfold calculateMajorityVictories.
  apply forEachPair_invariant; [intros; now apply awardVictory_halves|].
  apply initScores_halves.
Qed.

(** C3: the majority victories of every result are a multiple of 0.5 and
    not negative, on every input; when the names are pairwise distinct they
    are at most n - 1, and those of all results add up to n (n - 1) / 2. *)
Theorem majorityVictories_invariant (skaters : list SkaterScores) :
  exists out,
    calculateRankings skaters = Some out /\
    (forall r, In r out ->
       isHalfMultiple (majorityVictories r) /\ (0 <= majorityVictories r)%Q) /\
    (List.NoDup (List.map name skaters) ->
       (forall r, In r out ->
          (majorityVictories r <= ofNat (length skaters) - 1)%Q) /\
       (Qsum (List.map majorityVictories out) == pairCount (length skaters))%Q).
Proof.
  destruct (calculateRankings_spec skaters) as (out & Hout & Hperm & _).
  exists out. split; [exact Hout|]. split; [|intros Hnd; split].
  - intros r Hr.
    destruct (result_of_skater skaters out r Hout Hr) as (_ & _ & -> & _).
    apply calculateMajorityVictories_halves.
  - intros r Hr.
    destruct (result_of_skater skaters out r Hout Hr) as (Hin & _ & Hmv & _).
    pose proof (calculateMajorityVictories_closed skaters (scores r) Hnd Hin) as Hc.
    fold (rname r) in Hc. rewrite <- Hmv in Hc.
    destruct (Qsum_points (victoryPoints (scores r)) (others (scores r) skaters))
      as (_ & _ & Hn); [intros; apply victoryPoints_cases|].
    pose proof (others_length (scores r) skaters Hnd Hin) as Hlen.
    rewrite <- Hlen, ofNat_S. lra.
  - assert (Hp : Permutation (List.map majorityVictories out)
                   (List.map majorityVictories (scoredResults skaters))).
    { apply (Permutation_map (fun c => snd (fst c))) in Hperm.
      rewrite !List.map_map in Hperm. exact Hperm. }
    rewrite (Qsum_perm _ _ Hp). unfold scoredResults. rewrite List.map_map. simpl.
    rewrite <- (victoryPoints_total skaters Hnd).
    apply Qsum_ext. intros X HX. now apply calculateMajorityVictories_closed.
Qed.

Lemma majorityVictories_invariant_witness :
  exists out,
    calculateRankings exampleData = Some out /\
    (forall r, In r out ->
       isHalfMultiple (majorityVictories r) /\ (0 <= majorityVictories r)%Q /\
       (majorityVictories r <= ofNat (length exampleData) - 1)%Q) /\
    (Qsum (List.map majorityVictories out) == pairCount (length exampleData))%Q.
Proof.
  assert (Hnd : List.NoDup (List.map name exampleData)).
  { repeat constructor; simpl; intuition discriminate. }
  destruct (majorityVictories_invariant exampleData) as (out & Hout & Hall & Hdistinct).
  destruct (Hdistinct Hnd) as [Hbound Hsum].
  exists out. split; [exact Hout|]. split; [|exact Hsum].
  intros r Hr. destruct (Hall r Hr) as [H1 H2].
  split; [exact H1|]. split; [exact H2|now apply Hbound].
Defined.

(** C3 as stated fails when names repeat: the entries of one name share
    one counter, so three entries named alike each show 3 majority victories
    out of a possible 2, and the victories add up to 9 for 3 pairs. *)
Lemma majorityVictories_shared_counter :
  exists out,
    calculateRankings sameName = Some out /\
    List.Forall (fun r => (ofNat (length sameName) - 1 < majorityVictories r)%Q) out /\
    ~ (Qsum (List.map majorityVictories out) == pairCount (length sameName))%Q.
Proof.
  destruct (calculateRankings sameName) as [out|] eqn:E;
    [|vm_compute in E; discriminate].
  exists out. split; [reflexivity|].
  vm_compute in E. injection E as <-.
  split.
  - repeat constructor.
  - vm_compute. discriminate.
Qed.

(** ** The tie-break summary of a group *)

Lemma collectFrom_lookup {A B : Type} (f : nat -> A -> option B) (l : list A) :
  forall k l', collectFrom f k l = Some l' ->
    length l' = length l /\
    forall i y, l' !! i = Some y -> exists x, l !! i = Some x /\ f (k + i) x = Some y.
Proof.
  induction l as [|x l IH]; intros k l' H; simpl in H.
  - injection H as <-. split; [reflexivity|]. intros i y Hi.
    rewrite lookup_nil in Hi. discriminate.
  - destruct (f k x) as [y0|] eqn:E; [|discriminate].
    destruct (collectFrom f (S k) l) as [ys|] eqn:E'; [|discriminate].
    injection H as <-. destruct (IH _ _ E') as [Hlen Hlook].
    split; [simpl; now rewrite Hlen|].
    intros [|i] y Hi; simpl in Hi.
    + injection Hi as <-. exists x. rewrite Nat.add_0_r. auto.
    + destruct (Hlook i y Hi) as (x' & Hx' & Hf).
      exists x'. split; [exact Hx'|]. now replace (k + S i) with (S k + i) by lia.
Qed.

Lemma setSummary_summary c current compareWith :
  tieBreakLevel current = None -> tieBreakValue current = None ->
  summary (setSummary c current compareWith)
  = summaryOf (firstDifference c current compareWith).
Proof.
  intros HL HV. unfold setSummary, firstDifference, summary.
  repeat match goal with |- context [if ?b then _ else _] => destruct b end;
    simpl; try reflexivity.
  now rewrite HL, HV.
Qed.

Lemma firstDifference_ext c r r' w w' :
  rname r = rname r' -> totalScore r = totalScore r' ->
  rname w = rname w' -> totalScore w = totalScore w' ->
  firstDifference c r w = firstDifference c r' w'.
Proof. unfold firstDifference. now intros -> -> -> ->. Qed.

Lemma neighbour_isNeighbour (l : list SkaterResult) (k : nat) (w : SkaterResult) :
  k < length l -> neighbour l k = Some w -> isNeighbour l k w.
Proof.
  intros Hk. unfold neighbour, isNeighbour.
  destruct (k <? length l - 1) eqn:E.
  - apply Nat.ltb_lt in E. rewrite Nat.add_1_r. intros H. left. split; [lia|exact H].
  - apply Nat.ltb_ge in E. destruct k as [|k']; [discriminate|].
    intros H. right. split; [lia|]. eauto.
Qed.

Lemma annotate_summary c v tiedGroup k current r :
  tieBreakLevel current = None -> tieBreakValue current = None ->
  k < length tiedGroup ->
  annotate c v tiedGroup k current = Some r ->
  exists w, isNeighbour tiedGroup k w /\
            summary r = summaryOf (firstDifference c current w).
Proof.
  intros HL HV Hk. unfold annotate.
  destruct (neighbour tiedGroup k) as [w|] eqn:En; [|discriminate].
  destruct (trailDirect _ _ _ _) as [info|]; [|discriminate].
  intros [= <-]. exists w. split; [now apply neighbour_isNeighbour|].
  rewrite <- (setSummary_summary c current w HL HV). reflexivity.
Qed.

Lemma core_fields (a b : SkaterResult) :
  core a = core b ->
  scores a = scores b /\ rname a = rname b /\ totalScore a = totalScore b /\
  majorityVictories a = majorityVictories b.
Proof. unfold core, rname. intros [= -> -> -> _]. auto. Qed.

(** The group written back by [breakTies]: position [k] holds the member
    that the cascade sort put there, with rank [currentRank + k], and its
    summary is its first difference from its neighbour in that order. *)
Lemma breakTies_shape (skaters : list SkaterScores) (tiedGroup group : list SkaterResult)
    (currentRank : nat) :
  breakTies skaters tiedGroup currentRank = Some group ->
  let c := criteriaOf skaters tiedGroup in
  length group = length tiedGroup /\
  forall k r', group !! k = Some r' ->
    exists r, jsSort (cascade c) tiedGroup !! k = Some r /\
      core r' = core r /\ rank r' = currentRank + k /\
      (1 < length tiedGroup ->
       tieBreakLevel r = None -> tieBreakValue r = None ->
       exists w', isNeighbour group k w' /\
                  summary r' = summaryOf (firstDifference c r' w')).
Proof.
  intros H c. unfold breakTies in H. fold c in H.
  set (ordered := jsSort (cascade c) tiedGroup) in *.
  set (ranked := imap (fun k r => setRank r (currentRank + k)) ordered) in *.
  assert (Hrl : length ranked = length tiedGroup).
  { unfold ranked, ordered. now rewrite length_imap, jsSort_length. }
  assert (Hranked : forall k x, ranked !! k = Some x ->
            exists r, ordered !! k = Some r /\ x = setRank r (currentRank + k)).
  { intros k x Hx. unfold ranked in Hx. rewrite list_lookup_imap in Hx.
    destruct (ordered !! k) as [r|]; [|discriminate].
    simpl in Hx. injection Hx as <-. eauto. }
  destruct (1 <? length ranked) eqn:E.
  - apply Nat.ltb_lt in E.
    destruct (collectFrom_lookup _ _ _ _ H) as [Hlen Hlook].
    split; [congruence|].
    intros k r' Hr'. destruct (Hlook k r' Hr') as (x & Hx & Hann). simpl in Hann.
    destruct (Hranked k x Hx) as (r & Hr & ->).
    exists r. split; [exact Hr|].
    destruct (annotate_core _ _ _ _ _ _ Hann) as [Hc Hrk].
    split; [exact Hc|]. split; [exact Hrk|].
    intros _ HL HV.
    assert (Hk : k < length ranked) by (apply lookup_lt_Some in Hx; exact Hx).
    destruct (annotate_summary c _ ranked k (setRank r (currentRank + k)) r'
                HL HV Hk Hann) as (w & Hw & Hs).
    assert (Hsame : forall j y, ranked !! j = Some y ->
              exists y', group !! j = Some y' /\ core y' = core y).
    { intros j y Hy.
      assert (Hj : j < length group) by (rewrite Hlen; now apply lookup_lt_Some in Hy).
      apply lookup_lt_is_Some in Hj as [y' Hy'].
      destruct (Hlook j y' Hy') as (y0 & Hy0 & Hann'). simpl in Hann'.
      rewrite Hy in Hy0. injection Hy0 as <-.
      exists y'. split; [exact Hy'|]. now apply annotate_core in Hann'. }
    assert (Hw' : exists w', isNeighbour group k w' /\ core w' = core w).
    { destruct Hw as [[Hlt Hw]|[Heq (k' & -> & Hw)]].
      - destruct (Hsame _ _ Hw) as (w' & Hw' & Hcw). exists w'. split; [|exact Hcw].
        left. split; [congruence|exact Hw'].
      - destruct (Hsame _ _ Hw) as (w' & Hw' & Hcw). exists w'. split; [|exact Hcw].
        right. split; [congruence|]. eauto. }
    destruct Hw' as (w' & Hnb & Hcw). exists w'. split; [exact Hnb|].
    rewrite Hs.
    destruct (core_fields _ _ Hc) as (_ & Hn1 & Ht1 & _).
    destruct (core_fields _ _ Hcw) as (_ & Hn2 & Ht2 & _).
    f_equal. apply firstDifference_ext; symmetry; assumption.
  - apply Nat.ltb_ge in E. injection H as <-. split; [exact Hrl|].
    intros k r' Hr'. destruct (Hranked k r' Hr') as (r & Hr & ->).
    exists r. split; [exact Hr|]. split; [reflexivity|]. split; [reflexivity|].
    intros Hlt. lia.
Qed.

(** ** The walk of the main loop over the sorted results *)

Lemma rankLoop_Walk (skaters : list SkaterScores) (fuel : nat) :
  forall ranked todo currentRank res,
    rankLoop skaters fuel ranked todo currentRank = Some res ->
    exists out, res = ranked ++ out /\ Walk skaters currentRank todo out.
Proof.
  induction fuel as [|fuel IH]; intros ranked todo currentRank res H.
  - destruct todo; [|discriminate]. injection H as <-.
    exists []. rewrite app_nil_r. split; [reflexivity|constructor].
  - destruct todo as [|first tl].
    { injection H as <-. exists []. rewrite app_nil_r. split; [reflexivity|constructor]. }
    cbn [rankLoop] in H.
    change (fun r => Qeq_bool (majorityVictories r) (majorityVictories first))
      with (tiedWith first) in H.
    destruct (spanWhile (tiedWith first) (first :: tl)) as [tiedGroup rest] eqn:Espan.
    change (if length tiedGroup =? 1
            then Some (List.map (fun r => setRank r currentRank) tiedGroup)
            else breakTies skaters tiedGroup currentRank)
      with (rankGroup skaters tiedGroup currentRank) in H.
    destruct (rankGroup skaters tiedGroup currentRank) as [group|] eqn:Eg; [|discriminate].
    apply IH in H as (out & -> & Hw).
    exists (group ++ out). split; [now rewrite app_assoc|].
    econstructor; eassumption.
Qed.

Lemma rankGroup_spec (skaters : list SkaterScores) (tiedGroup group : list SkaterResult)
    (currentRank : nat) :
  rankGroup skaters tiedGroup currentRank = Some group ->
  Permutation (List.map core group) (List.map core tiedGroup) /\
  length group = length tiedGroup.
Proof.
  unfold rankGroup. intros H.
  assert (Hp : Permutation (List.map core group) (List.map core tiedGroup)).
  { destruct (length tiedGroup =? 1) eqn:E.
    - injection H as <-. rewrite List.map_map. reflexivity.
    - apply Nat.eqb_neq in E.
      destruct (breakTies_spec skaters tiedGroup currentRank E) as (g & Hg & Hp & _).
      rewrite H in Hg. injection Hg as <-. exact Hp. }
  split; [exact Hp|].
  apply Permutation_length in Hp. now rewrite !List.length_map in Hp.
Qed.

Lemma tiedWith_iff (r r' : SkaterResult) :
  tiedWith r r' = true <-> (majorityVictories r' == majorityVictories r)%Q.
Proof. unfold tiedWith. apply Qeq_bool_iff. Qed.

Lemma tiedWith_ext (r1 r2 : SkaterResult) :
  (majorityVictories r1 == majorityVictories r2)%Q ->
  forall r', tiedWith r1 r' = tiedWith r2 r'.
Proof.
  intros E r'. destruct (tiedWith r2 r') eqn:E2.
  - apply tiedWith_iff. apply tiedWith_iff in E2. now rewrite E2, E.
  - destruct (tiedWith r1 r') eqn:E1; [|reflexivity].
    apply tiedWith_iff in E1. rewrite E in E1. apply tiedWith_iff in E1. congruence.
Qed.

(** On results sorted by majority victories, the run taken by the inner
    loop is the whole class of the first result, and everything after it
    has fewer majority victories. *)
Lemma spanWhile_descending (first : SkaterResult) (tl tiedGroup rest : list SkaterResult) :
  descending (first :: tl) ->
  spanWhile (tiedWith first) (first :: tl) = (tiedGroup, rest) ->
  first :: tl = tiedGroup ++ rest /\
  tiedGroup <> [] /\
  List.Forall (fun r => (majorityVictories r == majorityVictories first)%Q) tiedGroup /\
  List.Forall (fun r => (majorityVictories r < majorityVictories first)%Q) rest /\
  descending rest.
Proof.
  intros Hd Hs.
  destruct (spanWhile_spec (tiedWith first) (first :: tl)) as (Happ & Hrun & Hhead).
  rewrite Hs in Happ, Hrun, Hhead. simpl in Happ, Hrun, Hhead.
  split; [exact Happ|].
  split.
  { intros ->. simpl in Hs. unfold tiedWith in Hs at 1.
    rewrite Qeq_bool_refl in Hs. destruct (spanWhile _ tl); discriminate. }
  split.
  { eapply List.Forall_impl; [|exact Hrun]. intros r Hr. now apply tiedWith_iff. }
  assert (Hle : List.Forall
                  (fun r => (majorityVictories r <= majorityVictories first)%Q)
                  (first :: tl)).
  { inversion Hd; subst. constructor; [apply Qle_refl|assumption]. }
  assert (Hdr : descending rest).
  { unfold descending in *. rewrite Happ in Hd.
    clear -Hd. induction tiedGroup as [|x g IH]; [exact Hd|].
    simpl in Hd. inversion Hd; subst. now apply IH. }
  split; [|exact Hdr].
  rewrite Happ in Hle. apply List.Forall_app in Hle as [_ Hle].
  destruct rest as [|y rest']; [constructor|].
  assert (Hy : (majorityVictories y < majorityVictories first)%Q).
  { inversion Hle; subst. apply Qle_lteq in H1 as [H1|H1]; [exact H1|].
    apply tiedWith_iff in H1. congruence. }
  constructor; [exact Hy|].
  inversion Hdr; subst. eapply List.Forall_impl; [|eassumption].
  intros r Hr. simpl in Hr. lra.
Qed.

Lemma Walk_perm (skaters : list SkaterScores) (currentRank : nat)
    (todo out : list SkaterResult) :
  Walk skaters currentRank todo out ->
  Permutation (List.map core out) (List.map core todo).
Proof.
  induction 1 as [|cr first tl tiedGroup rest group out Hs Hg Hw IH]; [constructor|].
  destruct (spanWhile_spec (tiedWith first) (first :: tl)) as (Happ & _).
  rewrite Hs in Happ. simpl in Happ. rewrite Happ, !List.map_app.
  apply Permutation_app; [|exact IH]. now apply rankGroup_spec in Hg.
Qed.

Lemma Forall_core_perm (P : Q -> Prop) (l l' : list SkaterResult) :
  Permutation (List.map core l) (List.map core l') ->
  List.Forall (fun r => P (majorityVictories r)) l' ->
  List.Forall (fun r => P (majorityVictories r)) l.
Proof.
  intros Hp H. rewrite List.Forall_forall in *. intros r Hr.
  assert (Hc : In (core r) (List.map core l'))
    by (eapply Permutation_in; [exact Hp|now apply in_map]).
  apply in_map_iff in Hc as (r0 & Hc & Hin).
  apply core_fields in Hc as (_ & _ & _ & E). rewrite <- E. now apply H.
Qed.

Lemma filter_all {A : Type} (p : A -> bool) (l : list A) :
  List.Forall (fun x => p x = true) l -> List.filter p l = l.
Proof.
  induction 1 as [|x l Hx _ IH]; simpl; [reflexivity|]. now rewrite Hx, IH.
Qed.

Lemma filter_none {A : Type} (p : A -> bool) (l : list A) :
  List.Forall (fun x => p x = false) l -> List.filter p l = [].
Proof.
  induction 1 as [|x l Hx _ IH]; simpl; [reflexivity|]. now rewrite Hx, IH.
Qed.

(** Every position of the output lies in the run of its class: the
    results tied with it, in sorted order, as the loop has ranked them from
    position [start] on; and no position outside the run is tied with it. *)
Lemma Walk_positions (skaters : list SkaterScores) (currentRank : nat)
    (todo out : list SkaterResult) :
  Walk skaters currentRank todo out -> descending todo ->
  forall k r', out !! k = Some r' ->
    exists start group,
      start <= k < start + length group /\
      rankGroup skaters (List.filter (tiedWith r') todo) (currentRank + start)
        = Some group /\
      (forall i, i < length group -> out !! (start + i) = group !! i) /\
      (forall i w, out !! i = Some w ->
         (majorityVictories w == majorityVictories r')%Q ->
         start <= i < start + length group).
Proof.
  induction 1 as [|cr first tl tiedGroup rest group out Hs Hg Hw IH];
    intros Hd k r' Hk.
  { rewrite lookup_nil in Hk. discriminate. }
  destruct (spanWhile_descending first tl tiedGroup rest Hd Hs)
    as (Happ & Hne & Heq & Hlt & Hdr).
  destruct (rankGroup_spec _ _ _ _ Hg) as [Hperm Hlen].
  pose proof (Walk_perm _ _ _ _ Hw) as Hperm'.
  assert (Hgroup : List.Forall
            (fun r => (majorityVictories r == majorityVictories first)%Q) group).
  { exact (Forall_core_perm (fun q => q == majorityVictories first)%Q _ _ Hperm Heq). }
  assert (Hout : List.Forall
            (fun r => (majorityVictories r < majorityVictories first)%Q) out).
  { exact (Forall_core_perm (fun q => q < majorityVictories first)%Q _ _ Hperm' Hlt). }
  rewrite List.Forall_forall in Hgroup, Hout.
  destruct (Nat.lt_ge_cases k (length group)) as [Hkg|Hkg].
  - rewrite lookup_app_l in Hk by exact Hkg.
    assert (Hr' : (majorityVictories r' == majorityVictories first)%Q).
    { apply Hgroup. apply list_elem_of_In. eapply list_elem_of_lookup_2. exact Hk. }
    exists 0, group. split; [lia|].
    assert (Hf : List.filter (tiedWith r') (first :: tl) = tiedGroup).
    { rewrite Happ, List.filter_app.
      rewrite filter_all, filter_none; [apply app_nil_r| |].
      - eapply List.Forall_impl; [|exact Hlt]. intros r Hr. simpl in Hr.
        destruct (tiedWith r' r) eqn:E; [|reflexivity].
        apply tiedWith_iff in E. lra.
      - eapply List.Forall_impl; [|exact Heq]. intros r Hr. simpl in Hr.
        apply tiedWith_iff. lra. }
    rewrite Hf, Nat.add_0_r. split; [exact Hg|]. split.
    + intros i Hi. simpl. now rewrite lookup_app_l.
    + intros i w Hi Hw'. split; [lia|]. simpl.
      destruct (Nat.lt_ge_cases i (length group)) as [H|H]; [exact H|].
      rewrite lookup_app_r in Hi by exact H.
      assert (Hin : In w out)
        by (apply list_elem_of_In; eapply list_elem_of_lookup_2; exact Hi).
      apply Hout in Hin. lra.
  - rewrite lookup_app_r in Hk by exact Hkg.
    assert (Hr' : (majorityVictories r' < majorityVictories first)%Q).
    { apply Hout. apply list_elem_of_In. eapply list_elem_of_lookup_2. exact Hk. }
    destruct (IH Hdr _ _ Hk) as (start & group' & Hrange & Hg' & Hlook & Hpos).
    exists (length group + start), group'. split; [lia|].
    assert (Hf : List.filter (tiedWith r') (first :: tl) = List.filter (tiedWith r') rest).
    { rewrite Happ, List.filter_app. rewrite filter_none; [reflexivity|].
      eapply List.Forall_impl; [|exact Heq]. intros r Hr. simpl in Hr.
      destruct (tiedWith r' r) eqn:E; [|reflexivity].
      apply tiedWith_iff in E. lra. }
    rewrite Hf. split.
    + rewrite <- Hg'. f_equal. lia.
    + split.
      * intros i Hi. rewrite lookup_app_r by lia.
        rewrite <- (Hlook i Hi). f_equal. lia.
      * intros i w Hi Hw'.
        destruct (Nat.lt_ge_cases i (length group)) as [H|H].
        -- rewrite lookup_app_l in Hi by exact H.
           assert (Hin : In w group)
             by (apply list_elem_of_In; eapply list_elem_of_lookup_2; exact Hi).
           apply Hgroup in Hin. lra.
        -- rewrite lookup_app_r in Hi by exact H.
           specialize (Hpos _ _ Hi Hw'). lia.
Qed.

Lemma calculateRankings_Walk (skaters : list SkaterScores) (out : list SkaterResult) :
  calculateRankings skaters = Some out ->
  Walk skaters 1 (jsSort byVictories (scoredResults skaters)) out.
Proof.
  unfold calculateRankings. destruct (length skaters =? 0) eqn:E.
  - apply Nat.eqb_eq in E. destruct skaters; [|discriminate].
    intros [= <-]. constructor.
  - rewrite scoredResults_eq. intros H.
    apply rankLoop_Walk in H as (out' & -> & Hw). exact Hw.
Qed.

Lemma scoredResults_no_summary (skaters : list SkaterScores) (r : SkaterResult) :
  In r (jsSort byVictories (scoredResults skaters)) ->
  tieBreakLevel r = None /\ tieBreakValue r = None.
Proof.
  intros H. apply (Permutation_in _ (jsSort_perm _ _)) in H.
  unfold scoredResults in H. apply in_map_iff in H as (s & <- & _). auto.
Qed.

(** In the output, a result tied with others on majority victories lies
    in the run of the results tied with it; its neighbour is the next result
    of the run, or the previous one if it is the last of the run; and its
    summary is the first of the four criteria on which the values that the
    criteria maps hold for the two differ by [!==].  A result tied with no
    other has no summary. *)
Lemma summary_of_neighbour (skaters : list SkaterScores) :
  exists out,
    calculateRankings skaters = Some out /\
    forall k current, out !! k = Some current ->
      let tiedGroup :=
        List.filter (tiedWith current) (jsSort byVictories (scoredResults skaters)) in
      let c := criteriaOf skaters tiedGroup in
      (length tiedGroup = 1 -> summary current = (None, None)) /\
      (1 < length tiedGroup ->
       exists start compareWith,
         start <= k < start + length tiedGroup /\
         (forall i w, out !! i = Some w ->
            ((majorityVictories w == majorityVictories current)%Q <->
             start <= i < start + length tiedGroup)) /\
         ((S k < start + length tiedGroup /\ out !! S k = Some compareWith) \/
          (S k = start + length tiedGroup /\
           exists k', k = S k' /\ out !! k' = Some compareWith)) /\
         summary current = summaryOf (firstDifference c current compareWith)).
Proof.
  destruct (calculateRankings_spec skaters) as (out & Hout & _).
  exists out. split; [exact Hout|].
  intros k current Hk. cbv zeta.
  set (sorted := jsSort byVictories (scoredResults skaters)).
  set (tiedGroup := List.filter (tiedWith current) sorted).
  pose proof (calculateRankings_Walk skaters out Hout) as Hw. fold sorted in Hw.
  destruct (Walk_positions skaters 1 sorted out Hw (jsSort_byVictories _) k current Hk)
    as (start & group & Hrange & Hg & Hlook & Hpos).
  fold tiedGroup in Hg.
  destruct (rankGroup_spec _ _ _ _ Hg) as [Hperm Hlen].
  assert (Hj : group !! (k - start) = Some current).
  { rewrite <- Hlook by lia. rewrite <- Hk. f_equal. lia. }
  assert (Hnone : forall r, In r tiedGroup ->
            tieBreakLevel r = None /\ tieBreakValue r = None).
  { intros r Hr. apply List.filter_In in Hr as [Hr _].
    now apply scoredResults_no_summary in Hr. }
  split.
  - intros H1. unfold rankGroup in Hg. rewrite H1 in Hg. simpl in Hg.
    injection Hg as <-.
    rewrite list_lookup_fmap in Hj.
    destruct (tiedGroup !! (k - start)) as [r|] eqn:Er; [|discriminate].
    simpl in Hj. injection Hj as <-.
    assert (Hr : In r tiedGroup)
      by (apply list_elem_of_In; eapply list_elem_of_lookup_2; exact Er).
    apply Hnone in Hr as [HL HV]. unfold summary. simpl. now rewrite HL, HV.
  - intros H1. unfold rankGroup in Hg.
    replace (length tiedGroup =? 1) with false in Hg
      by (symmetry; apply Nat.eqb_neq; lia).
    destruct (breakTies_shape skaters tiedGroup group (1 + start) Hg) as [_ Hshape].
    destruct (Hshape _ _ Hj) as (r & Hr & _ & _ & Hsum).
    assert (Hin : In r tiedGroup).
    { apply (Permutation_in _ (jsSort_perm (cascade (criteriaOf skaters tiedGroup)) _)).
      apply list_elem_of_In. eapply list_elem_of_lookup_2. exact Hr. }
    destruct (Hnone r Hin) as [HL HV].
    destruct (Hsum H1 HL HV) as (w & Hnb & Hs).
    exists start, w. rewrite <- Hlen.
    split; [exact Hrange|]. split; [|split; [|exact Hs]].
    + intros i w0 Hi. split; [now apply Hpos|].
      intros Hi'.
      assert (Hw0 : group !! (i - start) = Some w0).
      { rewrite <- Hlook by lia. rewrite <- Hi. f_equal. lia. }
      assert (Hc : In (core w0) (List.map core tiedGroup)).
      { eapply Permutation_in; [exact Hperm|]. apply in_map.
        apply list_elem_of_In. eapply list_elem_of_lookup_2. exact Hw0. }
      apply in_map_iff in Hc as (r0 & Hc & Hr0).
      apply List.filter_In in Hr0 as [_ Hr0]. apply tiedWith_iff in Hr0.
      apply core_fields in Hc as (_ & _ & _ & E). now rewrite <- E.
    + destruct Hnb as [[Hlt Hnb]|[Heq (j' & Hjeq & Hnb)]].
      * left. split; [lia|]. rewrite <- Hnb, <- Hlook by exact Hlt. f_equal. lia.
      * right. split; [lia|]. exists (start + j'). split; [lia|].
        rewrite <- Hnb. apply Hlook. lia.
Qed.

(** ** Numbers as keys *)

Lemma SFcompare_ord3 (fx fy : spec_float) :
  fx <> S754_nan -> fy <> S754_nan ->
  SFcompare fx fy = Some (lex3 (ord3 fx) (ord3 fy)).
Proof.
  intros Hx Hy.
  destruct fx as [sx | sx | | sx mx ex], fy as [sy | sy | | sy my ey];
    try congruence;
    try (destruct sx, sy; reflexivity);
    try (destruct sx; reflexivity); try (destruct sy; reflexivity).
  destruct sx, sy; try reflexivity; unfold SFcompare, ord3, lex3; simpl fst; simpl snd.
  change (-1 ?= -1)%Z with Eq. cbv iota.
  rewrite (Z.compare_opp ex ey), (Z.compare_antisym ex ey).
  destruct (ex ?= ey)%Z; reflexivity.
Qed.

Lemma sub_sign (x y : float) :
  is_nan x = false -> is_nan y = false ->
  (0 <? x - y)%float = (y <? x)%float /\ (x - y <? 0)%float = (x <? y)%float.
Proof.
  intros Hx Hy. rewrite !FloatAxioms.ltb_spec, FloatAxioms.sub_spec.
  change (Prim2SF 0) with (S754_zero false).
  apply SFsub_sign; try apply Prim2SF_valid; try reflexivity.
  - intros E. apply is_nan_spec in E. congruence.
  - intros E. apply is_nan_spec in E. congruence.
Qed.

Lemma lex3_Lt (a b : Z * Z * Z) :
  lex3 a b = Lt <->
  lexLt [inject_Z (fst (fst a)); inject_Z (snd (fst a)); inject_Z (snd a)]
        [inject_Z (fst (fst b)); inject_Z (snd (fst b)); inject_Z (snd b)].
Proof.
  destruct a as [[a1 a2] a3], b as [[b1 b2] b3]. unfold lex3. simpl.
  rewrite <- !Zlt_Qlt, !inject_Z_injective.
  destruct (Z.compare_spec a1 b1), (Z.compare_spec a2 b2), (Z.compare_spec a3 b3);
    split; intros HH; try discriminate; try reflexivity; try lia; intuition lia.
Qed.

Lemma lex3_Eq (a b : Z * Z * Z) :
  lex3 a b = Eq <->
  lexEq [inject_Z (fst (fst a)); inject_Z (snd (fst a)); inject_Z (snd a)]
        [inject_Z (fst (fst b)); inject_Z (snd (fst b)); inject_Z (snd b)].
Proof.
  destruct a as [[a1 a2] a3], b as [[b1 b2] b3]. unfold lex3. simpl.
  rewrite !inject_Z_injective.
  destruct (Z.compare_spec a1 b1), (Z.compare_spec a2 b2), (Z.compare_spec a3 b3);
    split; intros HH; try discriminate; try reflexivity; try lia; intuition lia.
Qed.

Lemma not_nan_SF (x : float) : is_nan x = false -> Prim2SF x <> S754_nan.
Proof. intros H E. apply is_nan_spec in E. congruence. Qed.

Lemma ltb_keys (x y : float) :
  is_nan x = false -> is_nan y = false ->
  ((x <? y)%float = true <-> lexLt (floatKeys x) (floatKeys y)).
Proof.
  intros Hx Hy. rewrite FloatAxioms.ltb_spec. unfold SFltb.
  rewrite SFcompare_ord3 by now apply not_nan_SF.
  unfold floatKeys. rewrite <- lex3_Lt.
  destruct (lex3 _ _); split; congruence.
Qed.

Lemma eqb_keys (x y : float) :
  is_nan x = false -> is_nan y = false ->
  ((x =? y)%float = true <-> lexEq (floatKeys x) (floatKeys y)).
Proof.
  intros Hx Hy. rewrite FloatAxioms.eqb_spec. unfold SFeqb.
  rewrite SFcompare_ord3 by now apply not_nan_SF.
  unfold floatKeys. rewrite <- lex3_Eq.
  destruct (lex3 _ _); split; congruence.
Qed.

Lemma leb_keys (x y : float) :
  is_nan x = false -> is_nan y = false ->
  ((x <=? y)%float = true <-> lexLe (floatKeys x) (floatKeys y)).
Proof.
  intros Hx Hy. unfold lexLe. rewrite <- ltb_keys, <- eqb_keys by assumption.
  rewrite FloatAxioms.leb_spec, FloatAxioms.ltb_spec, FloatAxioms.eqb_spec.
  unfold SFleb, SFltb, SFeqb.
  destruct (SFcompare _ _) as [[]|]; intuition congruence.
Qed.

(** ** The lexicographic order on keys *)

Lemma lexEq_refl (l : list Q) : lexEq l l.
Proof. induction l; simpl; [exact I|]. split; [reflexivity|assumption]. Qed.

Lemma lexEq_sym (l l' : list Q) : lexEq l l' -> lexEq l' l.
Proof.
  revert l'. induction l as [|a l IH]; intros [|b l']; simpl; try tauto.
  intros [E H]. split; [now symmetry|now apply IH].
Qed.

Lemma lexEq_trans (l1 l2 l3 : list Q) : lexEq l1 l2 -> lexEq l2 l3 -> lexEq l1 l3.
Proof.
  revert l2 l3. induction l1 as [|a l1 IH]; intros [|b l2] [|c l3]; simpl; try tauto.
  intros [E1 H1] [E2 H2]. split; [now rewrite E1|now apply (IH l2)].
Qed.

Lemma lexLt_trans (l1 l2 l3 : list Q) : lexLt l1 l2 -> lexLt l2 l3 -> lexLt l1 l3.
Proof.
  revert l2 l3. induction l1 as [|a l1 IH]; intros [|b l2] [|c l3]; simpl; try tauto.
  intros [H1|[E1 H1]] [H2|[E2 H2]].
  - left. lra.
  - left. lra.
  - left. lra.
  - right. split; [lra|now apply (IH l2)].
Qed.

Lemma lexLt_lexEq (l1 l2 l3 : list Q) : lexLt l1 l2 -> lexEq l2 l3 -> lexLt l1 l3.
Proof.
  revert l2 l3. induction l1 as [|a l1 IH]; intros [|b l2] [|c l3]; simpl; try tauto.
  intros [H1|[E1 H1]] [E2 H2].
  - left. lra.
  - right. split; [lra|now apply (IH l2)].
Qed.

Lemma lexEq_lexLt (l1 l2 l3 : list Q) : lexEq l1 l2 -> lexLt l2 l3 -> lexLt l1 l3.
Proof.
  revert l2 l3. induction l1 as [|a l1 IH]; intros [|b l2] [|c l3]; simpl; try tauto.
  intros [E1 H1] [H2|[E2 H2]].
  - left. lra.
  - right. split; [lra|now apply (IH l2)].
Qed.

Lemma lexLe_trans (l1 l2 l3 : list Q) : lexLe l1 l2 -> lexLe l2 l3 -> lexLe l1 l3.
Proof.
  unfold lexLe. intros [H1|H1] [H2|H2].
  - left. now apply (lexLt_trans _ l2).
  - left. now apply (lexLt_lexEq _ l2).
  - left. now apply (lexEq_lexLt _ l2).
  - right. now apply (lexEq_trans _ l2).
Qed.

Lemma lexLt_app (l1 l1' l2 l2' : list Q) :
  length l1 = length l1' ->
  (lexLt (l1 ++ l2) (l1' ++ l2') <-> lexLt l1 l1' \/ (lexEq l1 l1' /\ lexLt l2 l2')).
Proof.
  revert l1'. induction l1 as [|a l1 IH]; intros [|b l1'] Hlen; simpl in *;
    try discriminate.
  - tauto.
  - rewrite (IH l1') by congruence. tauto.
Qed.

Lemma lexEq_app (l1 l1' l2 l2' : list Q) :
  length l1 = length l1' ->
  (lexEq (l1 ++ l2) (l1' ++ l2') <-> lexEq l1 l1' /\ lexEq l2 l2').
Proof.
  revert l1'. induction l1 as [|a l1 IH]; intros [|b l1'] Hlen; simpl in *;
    try discriminate.
  - tauto.
  - rewrite (IH l1') by congruence. tauto.
Qed.

(** The cascade order is the lexicographic order of the keys. *)
Lemma cascadeGe_keys (a b : Levels) :
  noNaN a -> noNaN b -> (cascadeGe a b <-> lexLe (keysOf b) (keysOf a)).
Proof.
  intros [Ha2 Ha4] [Hb2 Hb4]. unfold cascadeGe, lexLe, keysOf.
  cbn [lexLt lexEq].
  rewrite lexLt_app, lexEq_app by reflexivity. cbn [lexLt lexEq].
  rewrite (leb_keys _ _ Hb4 Ha4), (ltb_keys _ _ Hb2 Ha2), (eqb_keys _ _ Ha2 Hb2).
  unfold lexLe.
  assert (S2 : lexEq (floatKeys (bSum a)) (floatKeys (bSum b)) <->
               lexEq (floatKeys (bSum b)) (floatKeys (bSum a)))
    by (split; apply lexEq_sym).
  assert (S1 : (directComp a == directComp b)%Q <-> (directComp b == directComp a)%Q)
    by (split; intros H; now symmetry).
  assert (S3 : (compAll a == compAll b)%Q <-> (compAll b == compAll a)%Q)
    by (split; intros H; now symmetry).
  tauto.
Qed.

Lemma cascadeGe_trans (a b c : Levels) :
  noNaN a -> noNaN b -> noNaN c ->
  cascadeGe a b -> cascadeGe b c -> cascadeGe a c.
Proof.
  intros Ha Hb Hc. rewrite !cascadeGe_keys by assumption.
  intros H1 H2. now apply (lexLe_trans _ (keysOf b)).
Qed.

(** ** The comparator of the cascade sort *)

Lemma eqb_sym (x y : float) : (x =? y)%float = (y =? x)%float.
Proof.
  rewrite !FloatAxioms.eqb_spec. unfold SFeqb.
  rewrite (SFcompare_antisym (Prim2SF x) (Prim2SF y)).
  destruct (SFcompare (Prim2SF x) (Prim2SF y)) as [[]|]; reflexivity.
Qed.

Lemma ltb_leb (x y : float) : (x <? y)%float = true -> (x <=? y)%float = true.
Proof.
  rewrite FloatAxioms.ltb_spec, FloatAxioms.leb_spec. unfold SFltb, SFleb.
  destruct (SFcompare _ _) as [[]|]; congruence.
Qed.

Lemma eqb_leb (x y : float) : (x =? y)%float = true -> (x <=? y)%float = true.
Proof.
  rewrite FloatAxioms.eqb_spec, FloatAxioms.leb_spec. unfold SFeqb, SFleb.
  destruct (SFcompare _ _) as [[]|]; congruence.
Qed.

(** The sign of [B - A] is the comparison of [B] with [A]. *)
Lemma signF_sub (B A : float) :
  is_nan A = false -> is_nan B = false ->
  signF (B - A) = if (B <? A)%float then Lt else if (A <? B)%float then Gt else Eq.
Proof.
  intros HA HB. unfold signF. destruct (sub_sign B A HB HA) as [-> ->]. reflexivity.
Qed.

Lemma signF_sub_Gt (B A : float) :
  is_nan A = false -> is_nan B = false ->
  signF (B - A) = Gt -> (A <? B)%float = true.
Proof.
  intros HA HB. rewrite signF_sub by assumption.
  destruct (B <? A)%float; [discriminate|]. destruct (A <? B)%float; congruence.
Qed.

Lemma signF_sub_not_Gt (B A : float) :
  is_nan A = false -> is_nan B = false ->
  signF (B - A) <> Gt -> (B <? A)%float = true \/ (B =? A)%float = true.
Proof.
  intros HA HB. rewrite signF_sub by assumption.
  destruct (B <? A)%float eqn:E1; [auto|].
  destruct (A <? B)%float eqn:E2; [congruence|].
  intros _. right. apply not_gt_eqb; assumption.
Qed.

Lemma signQ_sub_not_Gt (B A : Q) :
  Qeq_bool B A = false -> signQ (B - A) <> Gt -> (B < A)%Q.
Proof.
  intros E H. apply Qnot_le_lt. intros Hle.
  destruct (Qle_lt_or_eq _ _ Hle) as [Hlt|Heq].
  - apply H. apply signQ_Gt. lra.
  - symmetry in Heq. apply Qeq_bool_iff in Heq. congruence.
Qed.

Lemma cascade_not_Gt (c : Criteria) (x y : SkaterResult) :
  noNaN (levelsOf c x) -> noNaN (levelsOf c y) ->
  cascade c x y <> Gt -> cascadeGe (levelsOf c x) (levelsOf c y).
Proof.
  intros [Hx2 Hx4] [Hy2 Hy4]. unfold cascade, cascadeGe, levelsOf in *. simpl in *.
  destruct (Qeq_bool (comparisonScores c !!! rname y) (comparisonScores c !!! rname x))
    eqn:E1; simpl.
  2:{ intros H. left. now apply signQ_sub_not_Gt. }
  apply Qeq_bool_iff in E1. intros H. right. split; [now symmetry|].
  unfold strictNe in H.
  destruct (bScoreSums c !!! rname y =? bScoreSums c !!! rname x)%float eqn:E2; simpl in H.
  2:{ left. destruct (signF_sub_not_Gt _ _ Hx2 Hy2 H) as [H'|H']; [exact H'|congruence]. }
  right. split; [now rewrite eqb_sym|].
  destruct (Qeq_bool (comparisonWithAll c !!! rname y) (comparisonWithAll c !!! rname x))
    eqn:E3; simpl in H.
  2:{ left. now apply signQ_sub_not_Gt. }
  apply Qeq_bool_iff in E3. right. split; [now symmetry|].
  destruct (signF_sub_not_Gt _ _ Hx4 Hy4 H) as [H'|H'];
    [now apply ltb_leb|now apply eqb_leb].
Qed.

Lemma cascade_Gt (c : Criteria) (x y : SkaterResult) :
  noNaN (levelsOf c x) -> noNaN (levelsOf c y) ->
  cascade c x y = Gt -> cascadeGe (levelsOf c y) (levelsOf c x).
Proof.
  intros [Hx2 Hx4] [Hy2 Hy4]. unfold cascade, cascadeGe, levelsOf in *. simpl in *.
  destruct (Qeq_bool (comparisonScores c !!! rname y) (comparisonScores c !!! rname x))
    eqn:E1; simpl.
  2:{ intros H. left. apply signQ_Gt in H. lra. }
  apply Qeq_bool_iff in E1. intros H. right. split; [exact E1|].
  unfold strictNe in H.
  destruct (bScoreSums c !!! rname y =? bScoreSums c !!! rname x)%float eqn:E2; simpl in H.
  2:{ left. now apply signF_sub_Gt. }
  right. split; [reflexivity|].
  destruct (Qeq_bool (comparisonWithAll c !!! rname y) (comparisonWithAll c !!! rname x))
    eqn:E3; simpl in H.
  2:{ left. apply signQ_Gt in H. lra. }
  apply Qeq_bool_iff in E3. right. split; [exact E3|].
  apply ltb_leb. now apply signF_sub_Gt.
Qed.

(** The cascade sort leaves a group in cascade order. *)
Lemma jsSort_cascade (c : Criteria) (l : list SkaterResult) :
  List.Forall (fun r => noNaN (levelsOf c r)) l ->
  StronglySorted (fun a b => cascadeGe (levelsOf c a) (levelsOf c b))
    (jsSort (cascade c) l).
Proof.
  apply (jsSort_sorted (cascade c) _ (fun r => noNaN (levelsOf c r))).
  - apply cascade_not_Gt.
  - apply cascade_Gt.
  - intros x y z Hx Hy Hz. now apply cascadeGe_trans.
Qed.

Lemma levelsOf_core (c : Criteria) (r r' : SkaterResult) :
  core r = core r' -> levelsOf c r = levelsOf c r'.
Proof.
  intros H. apply core_fields in H as (_ & Hn & Ht & _).
  unfold levelsOf. now rewrite Hn, Ht.
Qed.

Lemma breakTies_sorted (skaters : list SkaterScores) (tiedGroup group : list SkaterResult)
    (currentRank : nat) :
  breakTies skaters tiedGroup currentRank = Some group ->
  let c := criteriaOf skaters tiedGroup in
  List.Forall (fun r => noNaN (levelsOf c r)) tiedGroup ->
  forall i j a b, i < j -> group !! i = Some a -> group !! j = Some b ->
    cascadeGe (levelsOf c a) (levelsOf c b).
Proof.
  intros H c Hok i j a b Hij Hi Hj.
  destruct (breakTies_shape skaters tiedGroup group currentRank H) as [_ Hshape].
  destruct (Hshape _ _ Hi) as (ra & Hra & Hca & _).
  destruct (Hshape _ _ Hj) as (rb & Hrb & Hcb & _).
  rewrite (levelsOf_core c a ra Hca), (levelsOf_core c b rb Hcb).
  exact (StronglySorted_lookup _ _ (jsSort_cascade c tiedGroup Hok) i j ra rb Hij Hra Hrb).
Qed.

(** ** The criteria maps, for pairwise distinct names *)

Lemma tiedSkaters_scores (tiedGroup : list SkaterResult) :
  List.map (fun r => mkSkater (rname r) (aScores (scores r)) (bScores (scores r)))
           tiedGroup
  = List.map scores tiedGroup.
Proof. apply List.map_ext. intros r. unfold rname. now destruct (scores r). Qed.

Lemma addDirect_first (m : gmap string Q) (X Y : SkaterScores) :
  name X <> name Y ->
  (addDirect m X Y !!! name X == m !!! name X + pairwiseComparison X Y)%Q.
Proof.
  intros Hne. unfold addDirect. cbv zeta.
  rewrite lookup_total_insert_ne by congruence.
  rewrite lookup_total_insert_eq. reflexivity.
Qed.

Lemma addDirect_second (m : gmap string Q) (X Y : SkaterScores) :
  name X <> name Y ->
  (addDirect m X Y !!! name Y
   == m !!! name Y
      + (ofNat (Nat.max (length (calculateJudgeTotals X))
                        (length (calculateJudgeTotals Y)))
         - pairwiseComparison X Y))%Q.
Proof.
  intros Hne. unfold addDirect. cbv zeta.
  rewrite lookup_total_insert_eq.
  rewrite lookup_total_insert_ne by congruence. reflexivity.
Qed.

Lemma addDirect_other (m : gmap string Q) (X Y : SkaterScores) (k : string) :
  k <> name X -> k <> name Y -> addDirect m X Y !!! k = m !!! k.
Proof.
  intros HX HY. unfold addDirect. cbv zeta.
  rewrite !lookup_total_insert_ne by congruence. reflexivity.
Qed.

(** Level 1: the direct comparison of a tied skater is the sum of its pair
    scores against the other tied skaters. *)
Lemma tieBreakByDirectComparison_closed (tiedSkaters : list SkaterScores)
    (X : SkaterScores) :
  List.NoDup (List.map name tiedSkaters) -> In X tiedSkaters ->
  (tieBreakByDirectComparison tiedSkaters !!! name X
   == comparisonSum tiedSkaters X)%Q.
Proof.
  intros Hnd HX. unfold tieBreakByDirectComparison, comparisonSum.
  destruct (forEachPair_lookup addDirect pairwiseComparison
              (fun X Y => ofNat (Nat.max (length (calculateJudgeTotals X))
                                         (length (calculateJudgeTotals Y)))
                          - pairwiseComparison X Y)%Q
              addDirect_first addDirect_second addDirect_other pair_scores_sum
              tiedSkaters Hnd (initScores tiedSkaters)) as [H _].
  rewrite (H X HX), initScores_lookup. ring.
Qed.

Lemma fold_insert_lookup {V : Type} `{Inhabited V} (v : SkaterScores -> V)
    (l : list SkaterScores) (X : SkaterScores) :
  List.NoDup (List.map name l) -> In X l ->
  forall m : gmap string V,
    fold_left (fun m s => <[name s := v s]> m) l m !!! name X = v X.
Proof.
  induction l as [|Y l IH]; intros Hnd HX m; [destruct HX|].
  simpl in Hnd. inversion Hnd as [|? ? HY Hnd']; subst. simpl.
  destruct HX as [->|HX]; [|now apply IH].
  clear IH Hnd Hnd'. revert m.
  induction l as [|Z l IH]; intros m; simpl.
  - apply lookup_total_insert_eq.
  - assert (Hne : name Z <> name X) by (intros E; apply HY; now left).
    rewrite insert_insert_ne by congruence.
    apply IH. intros Hin. apply HY. now right.
Qed.

Lemma scoreAgainstAll_closed (X : SkaterScores) (allSkaters : list SkaterScores) :
  (scoreAgainstAll X allSkaters == comparisonSum allSkaters X)%Q.
Proof.
  unfold scoreAgainstAll, comparisonSum.
  assert (G : forall a,
    (fold_left
       (fun totalScore otherSkater =>
          if String.eqb (name X) (name otherSkater) then totalScore
          else (totalScore + pairwiseComparison X otherSkater)%Q)
       allSkaters a
     == a + Qsum (List.map (pairwiseComparison X) (others X allSkaters)))%Q).
  { induction allSkaters as [|Y l IH]; intros a; simpl; [ring|].
    rewrite IH. unfold others. simpl. rewrite (String.eqb_sym (name Y) (name X)).
    destruct (String.eqb (name X) (name Y)); simpl; ring. }
  rewrite G. ring.
Qed.

(** The values the cascade reads for a tied skater. *)
Lemma criteriaOf_closed (skaters : list SkaterScores) (tiedGroup : list SkaterResult)
    (r : SkaterResult) :
  List.NoDup (List.map rname tiedGroup) ->
  In (scores r) (List.map scores tiedGroup) ->
  let c := criteriaOf skaters tiedGroup in
  (directComp (levelsOf c r) == comparisonSum (List.map scores tiedGroup) (scores r))%Q /\
  bSum (levelsOf c r) = calculateBScoreSum (scores r) /\
  (compAll (levelsOf c r) == comparisonSum skaters (scores r))%Q /\
  total (levelsOf c r) = totalScore r.
Proof.
  intros Hnd Hin. cbv zeta. unfold criteriaOf, levelsOf. simpl.
  rewrite tiedSkaters_scores.
  assert (Hnd' : List.NoDup (List.map name (List.map scores tiedGroup)))
    by (rewrite List.map_map; exact Hnd).
  unfold rname. repeat split.
  - now apply tieBreakByDirectComparison_closed.
  - now apply (fold_insert_lookup calculateBScoreSum).
  - unfold tieBreakByComparisonWithAll.
    rewrite (fold_insert_lookup (fun s => scoreAgainstAll s skaters)) by assumption.
    apply scoreAgainstAll_closed.
Qed.

(** ** The cascade order of the output *)

Lemma filter_perm {A : Type} (p : A -> bool) (l l' : list A) :
  Permutation l l' -> Permutation (List.filter p l) (List.filter p l').
Proof.
  induction 1 as [|x l l' _ IH|x y l|l1 l2 l3 _ IH1 _ IH2]; simpl.
  - constructor.
  - destruct (p x); [now constructor|exact IH].
  - destruct (p x), (p y); try reflexivity. apply perm_swap.
  - now transitivity (List.filter p l2).
Qed.

Lemma comparisonSum_perm (l l' : list SkaterScores) (X : SkaterScores) :
  Permutation l l' -> (comparisonSum l X == comparisonSum l' X)%Q.
Proof.
  intros H. unfold comparisonSum, others.
  apply Qsum_perm, Permutation_map, filter_perm, H.
Qed.

Lemma NoDup_filter_names (p : SkaterScores -> bool) (l : list SkaterScores) :
  List.NoDup (List.map name l) -> List.NoDup (List.map name (List.filter p l)).
Proof.
  induction l as [|x l IH]; intros Hnd; simpl; [constructor|].
  simpl in Hnd. inversion Hnd as [|? ? Hx Hnd']; subst.
  destruct (p x); simpl; [|now apply IH].
  constructor; [|now apply IH].
  intros Hin. apply Hx. apply in_map_iff in Hin as (y & Hy & Hin).
  apply List.filter_In in Hin as [Hin _]. rewrite <- Hy. now apply in_map.
Qed.

Lemma tiedSkatersOf_ext (skaters : list SkaterScores) (q q' : Q) :
  (q == q')%Q -> tiedSkatersOf skaters q = tiedSkatersOf skaters q'.
Proof.
  intros E. unfold tiedSkatersOf. apply List.filter_ext. intros Z.
  destruct (Qeq_bool _ q') eqn:E'.
  - apply Qeq_bool_iff. apply Qeq_bool_iff in E'. now rewrite E.
  - destruct (Qeq_bool _ q) eqn:E''; [|reflexivity].
    apply Qeq_bool_iff in E''. rewrite E in E''. apply Qeq_bool_iff in E''. congruence.
Qed.

Lemma filter_scored (m : gmap string Q) (F : SkaterScores -> list HeadToHeadResult)
    (r : SkaterResult) (l : list SkaterScores) :
  List.map scores
    (List.filter (tiedWith r)
       (List.map (fun s => setVictories (initialResult s) (m !!! name s) (F s)) l))
  = List.filter (fun Z => Qeq_bool (m !!! name Z) (majorityVictories r)) l.
Proof.
  induction l as [|s l IH]; simpl; [reflexivity|].
  unfold tiedWith at 1. simpl.
  destruct (Qeq_bool (m !!! name s) (majorityVictories r)); simpl; now rewrite IH.
Qed.

Lemma filter_scoredResults (skaters : list SkaterScores) (r : SkaterResult) :
  List.map scores (List.filter (tiedWith r) (scoredResults skaters))
  = tiedSkatersOf skaters (majorityVictories r).
Proof.
  apply (filter_scored (calculateMajorityVictories skaters)
           (fun s => calculateHeadToHeadDetails s skaters)).
Qed.

(** The members of a run of the sorted results are the tied group. *)
Lemma tiedGroup_perm (skaters : list SkaterScores) (r : SkaterResult) :
  Permutation
    (List.map scores
       (List.filter (tiedWith r) (jsSort byVictories (scoredResults skaters))))
    (tiedSkatersOf skaters (majorityVictories r)).
Proof.
  rewrite <- filter_scoredResults.
  apply Permutation_map, filter_perm, jsSort_perm.
Qed.

Lemma cascadeGe_ext (a a' b b' : Levels) :
  (directComp a == directComp a')%Q -> bSum a = bSum a' ->
  (compAll a == compAll a')%Q -> total a = total a' ->
  (directComp b == directComp b')%Q -> bSum b = bSum b' ->
  (compAll b == compAll b')%Q -> total b = total b' ->
  cascadeGe a b -> cascadeGe a' b'.
Proof.
  unfold cascadeGe. intros A1 A2 A3 A4 B1 B2 B3 B4.
  rewrite A1, A2, A3, A4, B1, B2, B3, B4. tauto.
Qed.

(** C4, for pairwise distinct names and sums that are not NaN: two
    results of the output with the same majority victories come in cascade
    order, the earlier one having the greater sum of pair scores against the
    rest of the tied group, or the same and the greater sum of artistic
    marks, or the same and the greater sum of pair scores against every
    other skater of the field, or the same and a rounded total that is not
    less. *)
Theorem cascade_order (skaters : list SkaterScores) :
  List.NoDup (List.map name skaters) ->
  (forall s, In s skaters ->
     is_nan (calculateBScoreSum s) = false /\
     is_nan (roundToOneDecimal (calculateTotalScore s)) = false) ->
  exists out,
    calculateRankings skaters = Some out /\
    forall i j rX rY,
      i < j -> out !! i = Some rX -> out !! j = Some rY ->
      (majorityVictories rX == majorityVictories rY)%Q ->
      cascadeGe (cascadeLevels skaters rX) (cascadeLevels skaters rY).
Proof.
  intros Hnd Hnan.
  destruct (calculateRankings_spec skaters) as (out & Hout & _).
  exists out. split; [exact Hout|].
  intros i j rX rY Hij Hi Hj Hmv.
  set (sorted := jsSort byVictories (scoredResults skaters)).
  set (tiedGroup := List.filter (tiedWith rX) sorted).
  set (c := criteriaOf skaters tiedGroup).
  pose proof (calculateRankings_Walk skaters out Hout) as Hw. fold sorted in Hw.
  destruct (Walk_positions skaters 1 sorted out Hw (jsSort_byVictories _) i rX Hi)
    as (start & group & Hrange & Hg & Hlook & Hpos).
  fold tiedGroup in Hg.
  assert (Hjr : start <= j < start + length group).
  { apply (Hpos j rY Hj). now symmetry. }
  destruct (rankGroup_spec _ _ _ _ Hg) as [Hperm Hlen].
  assert (HgX : group !! (i - start) = Some rX).
  { rewrite <- Hlook by lia. rewrite <- Hi. f_equal. lia. }
  assert (HgY : group !! (j - start) = Some rY).
  { rewrite <- Hlook by lia. rewrite <- Hj. f_equal. lia. }
  unfold rankGroup in Hg.
  replace (length tiedGroup =? 1) with false in Hg
    by (symmetry; apply Nat.eqb_neq; lia).
  (* the tied group as a list of skaters *)
  pose proof (tiedGroup_perm skaters rX) as HG. fold sorted tiedGroup in HG.
  assert (HndG : List.NoDup (List.map rname tiedGroup)).
  { change (List.map rname tiedGroup)
      with (List.map (fun r => name (scores r)) tiedGroup).
    rewrite <- (List.map_map scores name).
    apply (Permutation_NoDup (Permutation_sym (Permutation_map name HG))).
    now apply NoDup_filter_names. }
  assert (Hmember : forall r, In r group ->
            In (scores r) (List.map scores tiedGroup) /\ In (scores r) skaters /\
            totalScore r = roundToOneDecimal (calculateTotalScore (scores r))).
  { intros r Hr.
    assert (Hc : In (core r) (List.map core tiedGroup))
      by (eapply Permutation_in; [exact Hperm|now apply in_map]).
    apply in_map_iff in Hc as (r0 & Hc & Hr0).
    apply core_fields in Hc as (Hs & _ & Ht & _).
    rewrite <- Hs, <- Ht. split; [now apply in_map|].
    apply List.filter_In in Hr0 as [Hr0 _].
    apply (Permutation_in _ (jsSort_perm _ _)) in Hr0.
    unfold scoredResults in Hr0. apply in_map_iff in Hr0 as (s & <- & Hs0).
    simpl. auto. }
  assert (Hok : List.Forall (fun r => noNaN (levelsOf c r)) tiedGroup).
  { apply List.Forall_forall. intros r Hr.
    destruct (criteriaOf_closed skaters tiedGroup r HndG (in_map scores _ _ Hr))
      as (_ & H2 & _ & H4).
    fold c in H2, H4. unfold noNaN. rewrite H2, H4.
    apply List.filter_In in Hr as [Hr _].
    apply (Permutation_in _ (jsSort_perm _ _)) in Hr.
    unfold scoredResults in Hr. apply in_map_iff in Hr as (s & <- & Hs0).
    simpl. now apply Hnan. }
  pose proof (breakTies_sorted skaters tiedGroup group (1 + start) Hg Hok
                (i - start) (j - start) rX rY ltac:(lia) HgX HgY) as Hge.
  fold c in Hge.
  assert (HinX : In rX group)
    by (apply list_elem_of_In; eapply list_elem_of_lookup_2; exact HgX).
  assert (HinY : In rY group)
    by (apply list_elem_of_In; eapply list_elem_of_lookup_2; exact HgY).
  destruct (Hmember rX HinX) as (HsX & _ & HtX).
  destruct (Hmember rY HinY) as (HsY & _ & HtY).
  destruct (criteriaOf_closed skaters tiedGroup rX HndG HsX) as (X1 & X2 & X3 & X4).
  destruct (criteriaOf_closed skaters tiedGroup rY HndG HsY) as (Y1 & Y2 & Y3 & Y4).
  fold c in X1, X2, X3, X4, Y1, Y2, Y3, Y4.
  revert Hge. apply cascadeGe_ext.
  - etransitivity; [exact X1|]. now apply comparisonSum_perm.
  - exact X2.
  - exact X3.
  - etransitivity; [exact X4|exact HtX].
  - etransitivity; [exact Y1|].
    unfold cascadeLevels. cbn [directComp].
    rewrite <- (tiedSkatersOf_ext skaters _ _ Hmv). now apply comparisonSum_perm.
  - exact Y2.
  - exact Y3.
  - etransitivity; [exact Y4|exact HtY].
Qed.

(** The model on the example data of the test suite: the expected order
    and the expected majority victories. *)
Example exampleData_ranking :
  option_map (List.map (fun r => (rname r, rank r, Qred (majorityVictories r))))
             (calculateRankings exampleData)
  = Some [("Julia", 1, 9%Q); ("Grace", 2, 6%Q); ("Anna", 3, 6%Q); ("Ben", 4, 6%Q);
          ("Hannah", 5, 6%Q); ("Clara", 6, 5%Q); ("Emma", 7, 4%Q); ("Iris", 8, 2%Q);
          ("David", 9, 1%Q); ("Felix", 10, 0%Q)].
Proof. vm_compute. reflexivity. Qed.

Lemma cascade_order_witness :
  exists out,
    calculateRankings exampleData = Some out /\
    forall i j rX rY,
      i < j -> out !! i = Some rX -> out !! j = Some rY ->
      (majorityVictories rX == majorityVictories rY)%Q ->
      cascadeGe (cascadeLevels exampleData rX) (cascadeLevels exampleData rY).
Proof.
  apply cascade_order.
  - repeat constructor; simpl; intuition discriminate.
  - intros s Hs. simpl in Hs.
    repeat (destruct Hs as [<-|Hs]; [split; reflexivity|]). destruct Hs.
Defined.

(** C4 as stated fails when two entries share a name, their comparison
    sums being added up under the one name, and when a sum of artistic marks
    is NaN, which the comparator of the sort takes for equal to anything:
    in both samples a result precedes another of the same majority
    victories that is above it in the cascade. *)
Lemma cascade_order_fails :
  (exists out rX rY,
     calculateRankings nameClash = Some out /\
     out !! 1 = Some rX /\ out !! 2 = Some rY /\
     (majorityVictories rX == majorityVictories rY)%Q /\
     ~ cascadeGe (cascadeLevels nameClash rX) (cascadeLevels nameClash rY)) /\
  (exists out rX rY,
     calculateRankings nanSum = Some out /\
     out !! 0 = Some rX /\ out !! 2 = Some rY /\
     (majorityVictories rX == majorityVictories rY)%Q /\
     ~ cascadeGe (cascadeLevels nanSum rX) (cascadeLevels nanSum rY)).
Proof.
  split.
  - destruct (calculateRankings nameClash) as [out|] eqn:E;
      [|vm_compute in E; discriminate].
    vm_compute in E. injection E as <-.
    eexists _, _, _. split; [reflexivity|]. split; [reflexivity|].
    split; [reflexivity|]. split; [reflexivity|].
    intros H. vm_compute in H. intuition discriminate.
  - destruct (calculateRankings nanSum) as [out|] eqn:E;
      [|vm_compute in E; discriminate].
    vm_compute in E. injection E as <-.
    eexists _, _, _. split; [reflexivity|]. split; [reflexivity|].
    split; [reflexivity|]. split; [reflexivity|].
    intros H. vm_compute in H. intuition discriminate.
Qed.

(** ** Every [get(...)!] finds its key

    The maps are read with [!!!], which would give 0 on a missing key where
    the program gives [undefined]; the keys read are always present. *)

Lemma fold_insert_present {V : Type} (v : SkaterScores -> V) (l : list SkaterScores)
    (k : string) :
  forall m : gmap string V,
    is_Some (m !! k) \/ In k (List.map name l) ->
    is_Some (fold_left (fun m s => <[name s := v s]> m) l m !! k).
Proof.
  induction l as [|s l IH]; intros m H; simpl.
  - destruct H as [H|[]]. exact H.
  - apply IH. destruct H as [H|[H|H]].
    + left. apply lookup_insert_is_Some. destruct (decide (name s = k)); auto.
    + left. apply lookup_insert_is_Some. auto.
    + right. exact H.
Qed.

Lemma initScores_present (l : list SkaterScores) (k : string) :
  In k (List.map name l) -> is_Some (initScores l !! k).
Proof. intros H. apply (fold_insert_present (fun _ => 0%Q)). now right. Qed.

Lemma forEachPair_present (body : gmap string Q -> SkaterScores -> SkaterScores -> gmap string Q)
    (k : string) :
  (forall m X Y, is_Some (m !! k) -> is_Some (body m X Y !! k)) ->
  forall l m, is_Some (m !! k) -> is_Some (forEachPair body l m !! k).
Proof.
  intros Hbody. induction l as [|x rest IH]; intros m Hm; simpl; [exact Hm|].
  apply IH. clear IH. revert m Hm.
  induction rest as [|y rest IH]; intros m Hm; simpl; [exact Hm|].
  apply IH. now apply Hbody.
Qed.

Lemma insert_present (m : gmap string Q) (k k' : string) (v : Q) :
  is_Some (m !! k) -> is_Some (<[k' := v]> m !! k).
Proof. intros H. apply lookup_insert_is_Some. destruct (decide (k' = k)); auto. Qed.

Lemma awardVictory_present (m : gmap string Q) (X Y : SkaterScores) (k : string) :
  is_Some (m !! k) -> is_Some (awardVictory m X Y !! k).
Proof.
  intros H. unfold awardVictory. cbv zeta.
  destruct (Qgtb _ _); [|destruct (Qgtb _ _)]; repeat apply insert_present; exact H.
Qed.

Lemma addDirect_present (m : gmap string Q) (X Y : SkaterScores) (k : string) :
  is_Some (m !! k) -> is_Some (addDirect m X Y !! k).
Proof. intros H. unfold addDirect. cbv zeta. repeat apply insert_present. exact H. Qed.

Lemma calculateMajorityVictories_present (skaters : list SkaterScores) (s : SkaterScores) :
  In s skaters -> is_Some (calculateMajorityVictories skaters !! name s).
Proof.
  intros H. unfold calculateMajorityVictories.
  apply forEachPair_present; [intros; now apply awardVictory_present|].
  apply initScores_present. now apply in_map.
Qed.

Lemma criteriaOf_present (skaters : list SkaterScores) (tiedGroup : list SkaterResult)
    (r : SkaterResult) :
  In r tiedGroup ->
  let c := criteriaOf skaters tiedGroup in
  is_Some (comparisonScores c !! rname r) /\
  is_Some (bScoreSums c !! rname r) /\
  is_Some (comparisonWithAll c !! rname r).
Proof.
  intros H. cbv zeta. unfold criteriaOf. simpl. rewrite tiedSkaters_scores.
  assert (Hin : In (rname r) (List.map name (List.map scores tiedGroup))).
  { rewrite List.map_map. now apply (in_map rname). }
  split; [|split].
  - unfold tieBreakByDirectComparison.
    apply forEachPair_present; [intros; now apply addDirect_present|].
    now apply initScores_present.
  - apply (fold_insert_present calculateBScoreSum). now right.
  - unfold tieBreakByComparisonWithAll.
    apply (fold_insert_present (fun s => scoreAgainstAll s skaters)). now right.
Qed.

(** ** The output holds every skater once *)

Lemma scores_scoredResults (skaters : list SkaterScores) :
  List.map scores (scoredResults skaters) = skaters.
Proof.
  unfold scoredResults. rewrite List.map_map. simpl.
  induction skaters as [|s l IH]; simpl; [reflexivity|]. now rewrite IH.
Qed.

Lemma scores_of_core (l : list SkaterResult) :
  List.map scores l = List.map (fun c => fst (fst (fst c))) (List.map core l).
Proof. rewrite List.map_map. reflexivity. Qed.

Lemma scores_perm (skaters : list SkaterScores) (out : list SkaterResult) :
  calculateRankings skaters = Some out ->
  Permutation (List.map scores out) skaters.
Proof.
  intros Hout.
  destruct (calculateRankings_spec skaters) as (out2 & Hout2 & Hperm & _).
  rewrite Hout in Hout2. injection Hout2 as <-.
  rewrite (scores_of_core out), <- (scores_scoredResults skaters) at 1.
  rewrite (scores_of_core (scoredResults skaters)).
  now apply Permutation_map.
Qed.

(** With pairwise distinct names, a skater has one position in the
    output. *)
Lemma result_position (skaters : list SkaterScores) (out : list SkaterResult)
    (i j : nat) (a b : SkaterResult) :
  List.NoDup (List.map name skaters) ->
  calculateRankings skaters = Some out ->
  out !! i = Some a -> out !! j = Some b -> rname a = rname b -> i = j.
Proof.
  intros Hnd Hout Ha Hb E.
  pose proof (scores_perm skaters out Hout) as Hp.
  assert (Hnd2 : List.NoDup (List.map name (List.map scores out))).
  { apply (Permutation_NoDup (l := List.map name skaters)); [|exact Hnd].
    apply Permutation_map. now symmetry. }
  apply NoDup_ListNoDup in Hnd2.
  apply (NoDup_lookup _ i j (rname a) Hnd2).
  - change (List.map name (List.map scores out)) with (name <$> (scores <$> out)).
    now rewrite !list_lookup_fmap, Ha.
  - change (List.map name (List.map scores out)) with (name <$> (scores <$> out)).
    rewrite !list_lookup_fmap, Hb. simpl. now rewrite E.
Qed.

(** ** The two entries of a pair *)

Lemma filter_comm {A : Type} (p q : A -> bool) (l : list A) :
  List.filter p (List.filter q l) = List.filter q (List.filter p l).
Proof.
  induction l as [|x l IH]; simpl; [reflexivity|].
  destruct (p x) eqn:P, (q x) eqn:Q; simpl; rewrite ?P, ?Q, IH; reflexivity.
Qed.

Lemma filter_by_name (l : list SkaterScores) (Y : SkaterScores) :
  List.NoDup (List.map name l) -> In Y l ->
  List.filter (fun Z => String.eqb (name Z) (name Y)) l = [Y].
Proof.
  induction l as [|Z l IH]; intros Hnd HY; [destruct HY|].
  simpl in Hnd. inversion Hnd as [|? ? Hnotin Hnd']; subst.
  assert (Hrest : forall W, In W l -> name W <> name Z).
  { intros W HW E. apply Hnotin. rewrite <- E. now apply in_map. }
  simpl. destruct HY as [->|HY].
  - rewrite String.eqb_refl. f_equal.
    apply filter_none, List.Forall_forall. intros W HW.
    apply String.eqb_neq. now apply Hrest.
  - destruct (String.eqb (name Z) (name Y)) eqn:E; [|now apply IH].
    apply String.eqb_eq in E. exfalso. now apply (Hrest Y HY).
Qed.

(** With pairwise distinct names, the list of [X] holds one entry under
    the name of another skater [Y], the entry of [X] against [Y]. *)
Lemma entries_by_name (X Y : SkaterScores) (l : list SkaterScores) :
  List.NoDup (List.map name l) -> In Y l -> name Y <> name X ->
  List.filter (fun e => String.eqb (opponent e) (name Y))
              (calculateHeadToHeadDetails X l)
  = [headToHead X Y].
Proof.
  intros Hnd HY Hne. rewrite calculateHeadToHeadDetails_map.
  assert (G : forall l', List.filter (fun e => String.eqb (opponent e) (name Y))
                           (List.map (headToHead X) l')
                         = List.map (headToHead X)
                             (List.filter (fun Z => String.eqb (name Z) (name Y)) l')).
  { induction l' as [|Z l' IH]; simpl; [reflexivity|].
    destruct (String.eqb (name Z) (name Y)); simpl; now rewrite IH. }
  rewrite G. unfold others. rewrite filter_comm, (filter_by_name l Y Hnd HY).
  simpl. apply String.eqb_neq in Hne. now rewrite Hne.
Qed.

(** C7, for pairwise distinct names: for any two results X and Y of the
    output, the list of X holds exactly one entry under the name of Y and
    the list of Y exactly one under the name of X, and the skaterVotes of
    either entry is the opponentVotes of the other. *)
Theorem headToHead_reciprocity (skaters : list SkaterScores) :
  List.NoDup (List.map name skaters) ->
  exists out,
    calculateRankings skaters = Some out /\
    forall i j rX rY, i <> j -> out !! i = Some rX -> out !! j = Some rY ->
      exists hX hY eXY eYX,
        headToHeadResults rX = Some hX /\ headToHeadResults rY = Some hY /\
        List.filter (fun e => String.eqb (opponent e) (rname rY)) hX = [eXY] /\
        List.filter (fun e => String.eqb (opponent e) (rname rX)) hY = [eYX] /\
        skaterVotes eXY = opponentVotes eYX /\
        opponentVotes eXY = skaterVotes eYX.
Proof.
  intros Hnd.
  destruct (calculateRankings_spec skaters) as (out & Hout & _).
  exists out. split; [exact Hout|].
  intros i j rX rY Hij Hi Hj.
  assert (HrX : In rX out)
    by (apply list_elem_of_In; eapply list_elem_of_lookup_2; exact Hi).
  assert (HrY : In rY out)
    by (apply list_elem_of_In; eapply list_elem_of_lookup_2; exact Hj).
  assert (Hne : rname rX <> rname rY).
  { intros E. apply Hij.
    exact (result_position skaters out i j rX rY Hnd Hout Hi Hj E). }
  destruct (result_of_skater skaters out rX Hout HrX) as (HX & _ & _ & HhX).
  destruct (result_of_skater skaters out rY Hout HrY) as (HY & _ & _ & HhY).
  exists (calculateHeadToHeadDetails (scores rX) skaters),
         (calculateHeadToHeadDetails (scores rY) skaters),
         (headToHead (scores rX) (scores rY)), (headToHead (scores rY) (scores rX)).
  split; [exact HhX|]. split; [exact HhY|].
  unfold rname in *.
  split; [apply entries_by_name; auto|].
  split; [apply entries_by_name; auto|].
  apply headToHead_reciprocal.
Qed.

(** C7 as stated fails when two entries share a name: neither of the two
    results named A has an entry for the other, and the list of Z holds two
    entries under the name A, the first of which, the one that a lookup by
    name finds, has 1 vote for Z where the entry of the second A against Z
    has 2 votes against. *)
Lemma headToHead_reciprocity_fails :
  exists out rA rA' rZ hA hA' hZ eZA eAZ,
    calculateRankings nameClash = Some out /\
    out !! 0 = Some rA /\ out !! 1 = Some rA' /\ out !! 2 = Some rZ /\
    headToHeadResults rA = Some hA /\ headToHeadResults rA' = Some hA' /\
    headToHeadResults rZ = Some hZ /\
    List.filter (fun e => String.eqb (opponent e) (rname rA')) hA = [] /\
    List.filter (fun e => String.eqb (opponent e) (rname rA)) hA' = [] /\
    length (List.filter (fun e => String.eqb (opponent e) (rname rA')) hZ) = 2 /\
    List.find (fun e => String.eqb (opponent e) (rname rA')) hZ = Some eZA /\
    List.filter (fun e => String.eqb (opponent e) (rname rZ)) hA' = [eAZ] /\
    skaterVotes eZA = 1 /\ opponentVotes eAZ = 2.
Proof.
  destruct (calculateRankings nameClash) as [out|] eqn:E;
    [|vm_compute in E; discriminate].
  vm_compute in E. injection E as <-.
  eexists _, _, _, _, _, _, _, _, _.
  split; [reflexivity|].
  split; [reflexivity|]. split; [reflexivity|]. split; [reflexivity|].
  split; [reflexivity|]. split; [reflexivity|]. split; [reflexivity|].
  split; [reflexivity|]. split; [reflexivity|]. split; [reflexivity|].
  split; [reflexivity|]. split; [reflexivity|]. split; reflexivity.
Qed.

(** The ranking returns the skaters of the input, each once and with the
    marks it came with, in some order; the total of a result is the sum of
    its judge totals rounded to one decimal. *)
Theorem calculateRankings_rearranges (skaters : list SkaterScores) :
  exists out,
    calculateRankings skaters = Some out /\
    Permutation (List.map scores out) skaters /\
    forall r, In r out ->
      totalScore r = roundToOneDecimal (calculateTotalScore (scores r)).
Proof.
  destruct (calculateRankings_spec skaters) as (out & Hout & _).
  exists out. split; [exact Hout|]. split.
  - now apply scores_perm.
  - intros r Hr. now destruct (result_of_skater skaters out r Hout Hr) as (_ & H & _).
Qed.

(** ** The range of a pair score *)

Lemma judgeVote_cases (X Y : SkaterScores) (i : nat) :
  judgeVote X Y i = 1%Q \/ judgeVote X Y i = 0%Q \/ judgeVote X Y i = (1 # 2)%Q.
Proof. unfold judgeVote. apply compare_cases. Qed.

(** A pair score lies between 0 and the number of judges of the pair, the
    larger of the two effective judge counts, and is a multiple of one
    half. *)
Theorem pairwiseComparison_range (X Y : SkaterScores) :
  (0 <= pairwiseComparison X Y)%Q /\
  (pairwiseComparison X Y <= ofNat (Nat.max (effectiveCount X) (effectiveCount Y)))%Q /\
  isHalfMultiple (pairwiseComparison X Y).
Proof.
  pose proof (pairwiseComparison_sum X Y) as E.
  destruct (Qsum_points (judgeVote X Y)
              (seq 0 (Nat.max (effectiveCount X) (effectiveCount Y))))
    as ((k & Hk) & H0 & H1); [intros; apply judgeVote_cases|].
  rewrite List.length_seq in H1.
  split; [lra|]. split; [lra|].
  exists k. rewrite E. exact Hk.
Qed.

(** A skater compared with itself ties with every judge, whatever the
    marks: the pair score is half the number of its judges.  This is the
    half score that [tieBreakByComparisonWithAll] skips. *)
Theorem pairwiseComparison_self (X : SkaterScores) :
  (pairwiseComparison X X == ofNat (effectiveCount X) * (1 # 2))%Q.
Proof.
  rewrite pairwiseComparison_sum, Nat.max_id.
  rewrite (Qsum_ext _ (fun _ => (1 # 2)%Q)).
  - now rewrite Qsum_const, List.length_seq.
  - intros i _. unfold judgeVote, compareSkatersByJudge.
    now rewrite !gt_irrefl.
Qed.

(** ** A skater that wins, or loses, every pair *)

Lemma victoryPoints_won (X Y : SkaterScores) :
  (pairwiseComparison Y X < pairwiseComparison X Y)%Q ->
  victoryPoints X Y = 1%Q /\ victoryPoints Y X = 0%Q.
Proof. intros H. unfold victoryPoints. split; by_Qgtb. Qed.

Lemma Qsum_all {A : Type} (f : A -> Q) (c : Q) (l : list A) :
  (forall x, In x l -> f x = c) ->
  (Qsum (List.map f l) == ofNat (length l) * c)%Q.
Proof.
  intros H. rewrite (Qsum_ext f (fun _ => c)); [apply Qsum_const|].
  intros x Hx. now rewrite H.
Qed.

(** A sum of points with one term fixed. *)
Lemma Qsum_one_fixed {A : Type} (f : A -> Q) (c : Q) (l : list A) (x0 : A) :
  (forall x, In x l -> (0 <= f x <= 1)%Q) -> In x0 l -> f x0 = c ->
  (c <= Qsum (List.map f l) <= ofNat (length l) - 1 + c)%Q.
Proof.
  intros Hb. induction l as [|x l IH]; intros Hin Hc; [destruct Hin|].
  simpl List.map. rewrite Qsum_cons. simpl length. rewrite ofNat_S.
  assert (Hl : (0 <= Qsum (List.map f l) <= ofNat (length l))%Q).
  { clear IH Hin. induction l as [|y l IH].
    - simpl. unfold ofNat, Qle. simpl. lia.
    - simpl List.map. rewrite Qsum_cons. simpl length. rewrite ofNat_S.
      pose proof (Hb y (or_intror (or_introl eq_refl))).
      assert (0 <= Qsum (List.map f l) <= ofNat (length l))%Q.
      { apply IH. intros z [->|Hz]; apply Hb; [now left|now right; right]. }
      lra. }
  destruct Hin as [->|Hin].
  - rewrite Hc. lra.
  - pose proof (Hb x (or_introl eq_refl)).
    assert (c <= Qsum (List.map f l) <= ofNat (length l) - 1 + c)%Q.
    { apply IH; [|exact Hin|exact Hc]. intros z Hz. apply Hb. now right. }
    lra.
Qed.

Lemma victoryPoints_bounds (X Y : SkaterScores) : (0 <= victoryPoints X Y <= 1)%Q.
Proof. destruct (victoryPoints_cases X Y) as [E|[E|E]]; rewrite E; lra. Qed.

Lemma same_name_same_skater (l : list SkaterScores) (X Y : SkaterScores) :
  List.NoDup (List.map name l) -> In X l -> In Y l -> name X = name Y -> X = Y.
Proof.
  intros Hnd HX HY E.
  pose proof (find_unique_name l X Hnd HX) as FX.
  pose proof (find_unique_name l Y Hnd HY) as FY.
  rewrite E in FX. congruence.
Qed.

Lemma others_In (X Y : SkaterScores) (l : list SkaterScores) :
  In Y (others X l) <-> In Y l /\ name Y <> name X.
Proof.
  unfold others. rewrite List.filter_In, Bool.negb_true_iff.
  now rewrite String.eqb_neq.
Qed.

(** The majority victories of a result, as the points of its skater
    against the others of the field. *)
Lemma majorityVictories_closed (skaters : list SkaterScores) (out : list SkaterResult)
    (r : SkaterResult) :
  List.NoDup (List.map name skaters) ->
  calculateRankings skaters = Some out -> In r out ->
  In (scores r) skaters /\
  (majorityVictories r
   == Qsum (List.map (victoryPoints (scores r)) (others (scores r) skaters)))%Q.
Proof.
  intros Hnd Hout Hr.
  destruct (result_of_skater skaters out r Hout Hr) as (Hin & _ & Hmv & _).
  split; [exact Hin|]. rewrite Hmv.
  now apply calculateMajorityVictories_closed.
Qed.

(** With pairwise distinct names, a skater whose pair score against
    every other skater is the greater of the two comes first in the output,
    with rank 1 and n - 1 majority victories. *)
Theorem winner_of_every_pair_is_first (skaters : list SkaterScores) (X : SkaterScores) :
  List.NoDup (List.map name skaters) -> In X skaters ->
  (forall Y, In Y skaters -> name Y <> name X ->
     (pairwiseComparison Y X < pairwiseComparison X Y)%Q) ->
  exists out first,
    calculateRankings skaters = Some out /\
    out !! 0 = Some first /\ scores first = X /\ rank first = 1 /\
    (majorityVictories first == ofNat (length skaters) - 1)%Q.
Proof.
  intros Hnd HX Hwin.
  destruct (calculateRankings_spec skaters) as (out & Hout & _ & Hrank & _).
  destruct (skater_has_result skaters out X Hout HX) as (rX & HrX & HsX).
  destruct (majorityVictories_closed skaters out rX Hnd Hout HrX) as (_ & HmvX).
  rewrite HsX in HmvX.
  pose proof (others_length X skaters Hnd HX) as Hlen.
  assert (HX1 : (majorityVictories rX == ofNat (length skaters) - 1)%Q).
  { rewrite HmvX, (Qsum_all _ 1%Q).
    - rewrite <- Hlen, ofNat_S. ring.
    - intros Y HY. apply others_In in HY. destruct HY as (HY & Hne).
      now apply victoryPoints_won, Hwin. }
  apply list_elem_of_In, list_elem_of_lookup_1 in HrX. destruct HrX as (k & Hk).
  destruct k as [|k].
  - exists out, rX. split; [exact Hout|]. split; [exact Hk|]. split; [exact HsX|].
    split; [|exact HX1]. exact (rank_lookup out _ 0 rX Hrank Hk).
  - exfalso.
    destruct out as [|first out']; [discriminate|].
    assert (H0 : (first :: out') !! 0 = Some first) by reflexivity.
    pose proof (calculateRankings_descending skaters _ Hout 0 (S k) first rX
                  (Nat.lt_0_succ k) H0 Hk) as Hle.
    destruct (majorityVictories_closed skaters _ first Hnd Hout (or_introl eq_refl))
      as (HinF & HmvF).
    assert (Hne : name (scores first) <> name X).
    { intros E.
      pose proof (result_position skaters _ 0 (S k) first rX Hnd Hout H0 Hk) as P.
      unfold rname in P. rewrite HsX in P. specialize (P E). discriminate. }
    pose proof (others_length (scores first) skaters Hnd HinF) as HlenF.
    assert (HXin : In X (others (scores first) skaters)).
    { apply others_In. split; [exact HX|]. intros E. apply Hne. now symmetry. }
    pose proof (Qsum_one_fixed (victoryPoints (scores first)) 0%Q
                  (others (scores first) skaters) X
                  (fun Y _ => victoryPoints_bounds _ Y) HXin) as Hb.
    assert (Hz : victoryPoints (scores first) X = 0%Q)
      by (apply victoryPoints_won, Hwin; [exact HinF|exact Hne]).
    specialize (Hb Hz).
    rewrite <- HlenF, ofNat_S in HX1.
    lra.
Qed.

(** With pairwise distinct names, a skater whose pair score against
    every other skater is the smaller of the two comes last in the output,
    with rank n and no majority victory. *)
Theorem loser_of_every_pair_is_last (skaters : list SkaterScores) (X : SkaterScores) :
  List.NoDup (List.map name skaters) -> In X skaters ->
  (forall Y, In Y skaters -> name Y <> name X ->
     (pairwiseComparison X Y < pairwiseComparison Y X)%Q) ->
  exists out last,
    calculateRankings skaters = Some out /\
    out !! (length skaters - 1) = Some last /\ scores last = X /\
    rank last = length skaters /\
    (majorityVictories last == 0)%Q.
Proof.
  intros Hnd HX Hlose.
  destruct (calculateRankings_spec skaters) as (out & Hout & _ & Hrank & _).
  assert (Hlen : length out = length skaters).
  { rewrite <- (List.length_map rank out), Hrank. apply List.length_seq. }
  destruct (skater_has_result skaters out X Hout HX) as (rX & HrX & HsX).
  destruct (majorityVictories_closed skaters out rX Hnd Hout HrX) as (_ & HmvX).
  rewrite HsX in HmvX.
  assert (HX0 : (majorityVictories rX == 0)%Q).
  { rewrite HmvX, (Qsum_all _ 0%Q).
    - ring.
    - intros Y HY. apply others_In in HY. destruct HY as (HY & Hne).
      now apply victoryPoints_won, Hlose. }
  apply list_elem_of_In, list_elem_of_lookup_1 in HrX. destruct HrX as (k & Hk).
  pose proof (lookup_lt_Some _ _ _ Hk) as Hklt.
  destruct (decide (k = length skaters - 1)) as [->|Hne].
  - exists out, rX. split; [exact Hout|]. split; [exact Hk|]. split; [exact HsX|].
    split; [|exact HX0].
    rewrite (rank_lookup out _ _ rX Hrank Hk). lia.
  - exfalso.
    destruct (lookup_lt_is_Some_2 out (length skaters - 1)) as (last & Hl); [lia|].
    assert (Hlt : k < length skaters - 1) by lia.
    pose proof (calculateRankings_descending skaters _ Hout _ _ rX last Hlt Hk Hl)
      as Hle.
    assert (HlIn : In last out)
      by (apply list_elem_of_In; eapply list_elem_of_lookup_2; exact Hl).
    destruct (majorityVictories_closed skaters _ last Hnd Hout HlIn) as (HinL & HmvL).
    assert (HneL : name (scores last) <> name X).
    { intros E.
      pose proof (result_position skaters _ _ _ last rX Hnd Hout Hl Hk) as P.
      unfold rname in P. rewrite HsX in P. specialize (P E). lia. }
    assert (HXin : In X (others (scores last) skaters)).
    { apply others_In. split; [exact HX|]. intros E. apply HneL. now symmetry. }
    pose proof (Qsum_one_fixed (victoryPoints (scores last)) 1%Q
                  (others (scores last) skaters) X
                  (fun Y _ => victoryPoints_bounds _ Y) HXin) as Hb.
    assert (Hz : victoryPoints (scores last) X = 1%Q)
      by (apply victoryPoints_won, Hlose; [exact HinL|exact HneL]).
    specialize (Hb Hz).
    lra.
Qed.

(** ** Majority victories and the head-to-head list *)

Lemma allNull_orZero (arr : list (option float)) (i : nat) :
  forallb (fun s => negb (notNull s)) arr = true -> orZero arr i = 0%float.
Proof.
  revert i. induction arr as [|s arr IH]; intros i H; [now destruct i|].
  simpl in H. apply andb_prop in H. destruct H as (Hs & H).
  destruct i as [|i]; [now destruct s|]. now apply IH.
Qed.

Lemma nullsLast_orZero (arr : list (option float)) (i : nat) :
  nullsLast arr = true -> countNonNull arr <= i -> orZero arr i = 0%float.
Proof.
  revert i. induction arr as [|s arr IH]; intros i H Hi; [now destruct i|].
  destruct s as [x|].
  - unfold countNonNull in Hi. simpl in Hi. fold (countNonNull arr) in Hi.
    destruct i as [|i]; [lia|]. apply (IH i H). lia.
  - apply (allNull_orZero (None :: arr)). exact H.
Qed.

(** For marks padded at the end the two ways of reading a judge's total,
    [totals[i] ?? 0] and [(aScores[i] ?? 0) + (bScores[i] ?? 0)], agree. *)
Lemma judgeVote_judgeResult (X Y : SkaterScores) (i : nat) :
  paddedAtEnd X = true -> paddedAtEnd Y = true ->
  judgeVote X Y i = judgeResult X Y i.
Proof.
  assert (G : forall Z, paddedAtEnd Z = true ->
            numOrZero (calculateJudgeTotals Z) i
            = (orZero (aScores Z) i + orZero (bScores Z) i)%float).
  { intros Z HZ. apply andb_prop in HZ. destruct HZ as (Ha & Hb).
    unfold numOrZero. destruct (Nat.lt_ge_cases i (effectiveCount Z)) as [Hlt|Hge].
    - now rewrite calculateJudgeTotals_lookup.
    - rewrite lookup_ge_None_2 by (now rewrite calculateJudgeTotals_length).
      unfold effectiveCount in Hge.
      rewrite (nullsLast_orZero _ i Ha), (nullsLast_orZero _ i Hb) by lia.
      reflexivity. }
  intros HX HY. unfold judgeVote, judgeResult. cbv zeta.
  now rewrite (G X HX), (G Y HY).
Qed.

Lemma Qsum_three_way (r : nat -> Q) (l : list nat) :
  (forall i, r i = 1%Q \/ r i = 0%Q \/ r i = (1 # 2)%Q) ->
  (Qsum (List.map r l)
   == ofNat (length (List.filter (fun i => Qeq_bool (r i) 1) l))
      + (1 # 2) * ofNat (length (List.filter (fun i => Qeq_bool (r i) (1 # 2)) l)))%Q.
Proof.
  intros Hr. induction l as [|i l IH].
  - simpl. unfold ofNat. simpl. ring.
  - simpl List.map. rewrite Qsum_cons, IH. simpl List.filter.
    pose proof (ofNat_S (length (List.filter (fun i => Qeq_bool (r i) 1) l))).
    pose proof (ofNat_S (length (List.filter (fun i => Qeq_bool (r i) (1 # 2)) l))).
    destruct (Hr i) as [E|[E|E]]; rewrite E;
      change (Qeq_bool 1 1) with true; change (Qeq_bool 1 (1 # 2)) with false;
      change (Qeq_bool 0 1) with false; change (Qeq_bool 0 (1 # 2)) with false;
      change (Qeq_bool (1 # 2) 1) with false;
      change (Qeq_bool (1 # 2) (1 # 2)) with true;
      cbn iota; cbn [length]; lra.
Qed.

Lemma judgeResult_cases (X Y : SkaterScores) (i : nat) :
  judgeResult X Y i = 1%Q \/ judgeResult X Y i = 0%Q \/ judgeResult X Y i = (1 # 2)%Q.
Proof. unfold judgeResult. apply compare_cases. Qed.

(** For marks padded at the end, the pair score is the votes for plus
    half the judges that tie. *)
Lemma pairwiseComparison_votes (X Y : SkaterScores) :
  paddedAtEnd X = true -> paddedAtEnd Y = true ->
  let n := Nat.max (effectiveCount X) (effectiveCount Y) in
  let ties := countWhere (fun i => Qeq_bool (judgeResult X Y i) (1 # 2)) n in
  (pairwiseComparison X Y
   == ofNat (skaterVotes (headToHead X Y)) + (1 # 2) * ofNat ties)%Q /\
  (pairwiseComparison Y X
   == ofNat (opponentVotes (headToHead X Y)) + (1 # 2) * ofNat ties)%Q.
Proof.
  intros HX HY n ties.
  destruct (headToHead_votes X Y) as (_ & Hs & Ho & Hsum & _).
  fold n in Hs, Ho, Hsum. fold ties in Hsum.
  assert (E : (pairwiseComparison X Y
               == ofNat (skaterVotes (headToHead X Y)) + (1 # 2) * ofNat ties)%Q).
  { rewrite pairwiseComparison_sum. fold n.
    rewrite (Qsum_ext _ (judgeResult X Y))
      by (intros i _; now rewrite judgeVote_judgeResult).
    rewrite (Qsum_three_way _ _ (judgeResult_cases X Y)).
    rewrite Hs. reflexivity. }
  split; [exact E|].
  pose proof (pairwiseComparison_swap X Y) as Hsw. fold n in Hsw.
  assert (Hn : (ofNat n == ofNat (skaterVotes (headToHead X Y))
                         + ofNat (opponentVotes (headToHead X Y)) + ofNat ties)%Q).
  { rewrite <- Hsum at 1. unfold ofNat.
    rewrite !Nat2Z.inj_add, !inject_Z_plus. reflexivity. }
  lra.
Qed.

Lemma ofNat_lt (a b : nat) : (ofNat a < ofNat b)%Q <-> a < b.
Proof. unfold ofNat. rewrite <- Zlt_Qlt. lia. Qed.

Lemma ofNat_eq (a b : nat) : (ofNat a == ofNat b)%Q <-> a = b.
Proof. unfold ofNat. rewrite inject_Z_injective. lia. Qed.

(** The points of a pair, read off the head-to-head entry. *)
Lemma victoryPoints_entry (X Y : SkaterScores) :
  paddedAtEnd X = true -> paddedAtEnd Y = true ->
  victoryPoints X Y =
    if won (headToHead X Y) then 1%Q
    else if drawn (headToHead X Y) then (1 # 2)%Q else 0%Q.
Proof.
  intros HX HY.
  destruct (pairwiseComparison_votes X Y HX HY) as (E1 & E2).
  destruct (headToHead_votes X Y) as (_ & _ & _ & _ & Hwon).
  unfold victoryPoints, drawn.
  destruct (won (headToHead X Y)) eqn:W.
  - assert (L : opponentVotes (headToHead X Y) < skaterVotes (headToHead X Y))
      by now apply Hwon.
    apply ofNat_lt in L. by_Qgtb.
  - assert (L : ~ opponentVotes (headToHead X Y) < skaterVotes (headToHead X Y))
      by (intros L; apply Hwon in L; discriminate).
    destruct (Nat.eqb_spec (skaterVotes (headToHead X Y))
                           (opponentVotes (headToHead X Y))) as [Eq|Ne].
    + rewrite Eq in E1. by_Qgtb.
    + assert (L2 : skaterVotes (headToHead X Y) < opponentVotes (headToHead X Y))
        by lia.
      apply ofNat_lt in L2. by_Qgtb.
Qed.

Lemma Qsum_entries (X : SkaterScores) (l : list SkaterScores) :
  (forall Y, In Y l -> paddedAtEnd Y = true) -> paddedAtEnd X = true ->
  (Qsum (List.map (victoryPoints X) l)
   == ofNat (length (List.filter won (List.map (headToHead X) l)))
      + (1 # 2) * ofNat (length (List.filter drawn (List.map (headToHead X) l))))%Q.
Proof.
  intros Hl HX. induction l as [|Y l IH].
  - simpl. unfold ofNat. simpl. ring.
  - cbn [List.map]. rewrite Qsum_cons, IH by (intros Z HZ; apply Hl; now right).
    rewrite (victoryPoints_entry X Y HX (Hl Y (or_introl eq_refl))).
    cbn [List.filter].
    pose proof (ofNat_S (length (List.filter won (List.map (headToHead X) l)))).
    pose proof (ofNat_S (length (List.filter drawn (List.map (headToHead X) l)))).
    destruct (headToHead_votes X Y) as (_ & _ & _ & _ & Hwon).
    destruct (won (headToHead X Y)) eqn:W.
    + assert (D : drawn (headToHead X Y) = false).
      { unfold drawn. apply Nat.eqb_neq. pose proof (proj1 Hwon eq_refl). lia. }
      rewrite D. cbn [length]. lra.
    + destruct (drawn (headToHead X Y)); cbn [length]; lra.
Qed.

(** With pairwise distinct names and marks padded at the end, the
    majority victories of a result are its won head-to-head entries plus
    half its drawn ones, over a list of n - 1 entries. *)
Theorem majorityVictories_from_headToHead (skaters : list SkaterScores) :
  List.NoDup (List.map name skaters) ->
  (forall s, In s skaters -> paddedAtEnd s = true) ->
  exists out,
    calculateRankings skaters = Some out /\
    forall r, In r out ->
      exists h,
        headToHeadResults r = Some h /\
        S (length h) = length skaters /\
        (majorityVictories r
         == ofNat (length (List.filter won h))
            + (1 # 2) * ofNat (length (List.filter drawn h)))%Q.
Proof.
  intros Hnd Hpad.
  destruct (calculateRankings_spec skaters) as (out & Hout & _).
  exists out. split; [exact Hout|]. intros r Hr.
  destruct (result_of_skater skaters out r Hout Hr) as (Hin & _ & _ & Hh).
  destruct (majorityVictories_closed skaters out r Hnd Hout Hr) as (_ & Hmv).
  rewrite calculateHeadToHeadDetails_map in Hh.
  eexists. split; [exact Hh|]. split.
  - rewrite List.length_map. now apply others_length.
  - rewrite Hmv. apply Qsum_entries.
    + intros Y HY. apply others_In in HY. now apply Hpad.
    + now apply Hpad.
Qed.

(** ** The tie-break trail *)

Lemma narrow_filter (tiedGroup : list SkaterResult) (keep : string -> bool)
    (still : list string) :
  Forall (fun nm => In nm (List.map rname tiedGroup)) still ->
  narrow tiedGroup keep still = Some (List.filter keep still).
Proof.
  induction 1 as [|nm still Hnm _ IH]; simpl; [reflexivity|].
  destruct (List.find (fun s => String.eqb (rname s) nm) tiedGroup) as [other|] eqn:E.
  - rewrite IH. apply List.find_some in E as [_ E]. apply String.eqb_eq in E.
    rewrite E. now destruct (keep nm).
  - exfalso. apply in_map_iff in Hnm as (s & Hs & Hin).
    apply (List.find_none _ _ E) in Hin. rewrite Hs, String.eqb_refl in Hin. discriminate.
Qed.

Lemma Forall_filter_names (tiedGroup : list SkaterResult) (keep : string -> bool)
    (still : list string) :
  Forall (fun nm => In nm (List.map rname tiedGroup)) still ->
  Forall (fun nm => In nm (List.map rname tiedGroup)) (List.filter keep still).
Proof.
  intros H. apply List.Forall_forall. intros nm Hnm.
  apply List.filter_In in Hnm as [Hnm _].
  exact (proj1 (List.Forall_forall _ _) H nm Hnm).
Qed.

Lemma otherNames_names (tiedGroup : list SkaterResult) (current : SkaterResult) :
  Forall (fun nm => In nm (List.map rname tiedGroup)) (otherNames tiedGroup current).
Proof.
  apply List.Forall_forall. intros nm Hnm. apply List.filter_In in Hnm as [Hnm _].
  now apply distinctValues_incl in Hnm.
Qed.

(** The four stages, one after the other, are the loop over the levels. *)
Lemma trailDirect_trailFrom c v (tiedGroup : list SkaterResult) (current : SkaterResult) :
  trailDirect c v tiedGroup current
  = Some (trailFrom c v current allLevels (otherNames tiedGroup current) []).
Proof.
  pose proof (otherNames_names tiedGroup current) as H0.
  unfold trailDirect. fold (otherNames tiedGroup current).
  generalize dependent (otherNames tiedGroup current). intros S0 H0.
  destruct v as [vd vb vc vt].
  destruct vd, vb, vc, vt; cbn;
    unfold trailBScoreSum, trailCompAll, trailTotal, sameOnLevel; cbn;
    repeat first
      [ reflexivity
      | rewrite narrow_filter by (repeat apply Forall_filter_names; exact H0); cbn
      | match goal with
        | |- context [length ?l =? 0] => destruct (length l =? 0) eqn:?; cbn
        end ].
Qed.

Lemma filter_empty_length {A : Type} (p : A -> bool) (l : list A) :
  (length (List.filter p l) =? 0) = false <-> exists x, In x l /\ p x = true.
Proof.
  rewrite Nat.eqb_neq. split.
  - destruct (List.filter p l) as [|x l'] eqn:E; [intros H; now contradiction H|].
    intros _. exists x. apply List.filter_In. rewrite E. now left.
  - intros (x & Hx & Hp) E.
    assert (Hin : In x (List.filter p l)) by (apply List.filter_In; auto).
    destruct (List.filter p l); [destruct Hin|discriminate].
Qed.

(** What the loop over the levels appends: the values of [current] on an
    increasing choice of the levels, a level being chosen when it varies and
    either no earlier level varies or some name still left equals [current]
    on every earlier level that varies. *)
Lemma trailFrom_spec c v (current : SkaterResult) (levels : list TieBreakLevel) :
  StronglySorted (fun a b => levelIndex a < levelIndex b) levels ->
  forall still info, exists added,
    trailFrom c v current levels still info = info ++ added /\
    List.Forall (fun e => In (fst e) levels /\
                          snd e = levelValue (levelsOf c current) (fst e)) added /\
    StronglySorted (fun a b => levelIndex a < levelIndex b) (List.map fst added) /\
    forall l, In l levels ->
      (In l (List.map fst added) <->
       levelVaries v l = true /\
       ((forall l', In l' levels -> levelIndex l' < levelIndex l ->
           levelVaries v l' = false) \/
        exists nm, In nm still /\
          forall l', In l' levels -> levelIndex l' < levelIndex l ->
            levelVaries v l' = true -> sameOnLevel c l' current nm = true)).
Proof.
  induction 1 as [|l0 ls Hsorted IH Hl0]; intros still info.
  - exists []. split; [simpl; now rewrite app_nil_r|].
    split; [constructor|]. split; [constructor|]. intros l [].
  - assert (Hl0' : forall l, In l ls -> levelIndex l0 < levelIndex l)
      by (apply List.Forall_forall; exact Hl0).
    assert (Hnot : ~ In l0 ls) by (intros Hin; apply Hl0' in Hin; lia).
    simpl. destruct (levelVaries v l0) eqn:V0.
    + destruct (length (List.filter (sameOnLevel c l0 current) still) =? 0) eqn:E.
      * exists [(l0, levelValue (levelsOf c current) l0)].
        split; [reflexivity|]. split; [repeat constructor|].
        split; [repeat constructor|].
        intros l [<-|Hl].
        -- split; [intros _|intros _; now left].
           split; [exact V0|]. left. intros l' [<-|Hl'] Hlt; [lia|].
           apply Hl0' in Hl'. lia.
        -- split.
           ++ intros [<-|[]]. contradiction.
           ++ intros (_ & [Hfirst|(nm & Hnm & Hsame)]).
              ** rewrite (Hfirst l0 (or_introl eq_refl) (Hl0' l Hl)) in V0. discriminate.
              ** exfalso. apply Nat.eqb_eq in E.
                 assert (Hin : In nm (List.filter (sameOnLevel c l0 current) still)).
                 { apply List.filter_In. split; [exact Hnm|].
                   apply Hsame; [now left|now apply Hl0'|exact V0]. }
                 destruct (List.filter _ still); [destruct Hin|discriminate].
      * destruct (IH (List.filter (sameOnLevel c l0 current) still)
                     (info ++ [(l0, levelValue (levelsOf c current) l0)]))
          as (added & Heq & Hall & Hsort & Hiff).
        exists ((l0, levelValue (levelsOf c current) l0) :: added).
        split; [rewrite Heq, <- app_assoc; reflexivity|].
        assert (Hin_ls : forall l, In l (List.map fst added) -> In l ls).
        { intros l Hl. apply in_map_iff in Hl as (e & <- & He).
          exact (proj1 (proj1 (List.Forall_forall _ _) Hall e He)). }
        split.
        { constructor; [split; [now left|reflexivity]|].
          apply List.Forall_forall. intros e He.
          destruct (proj1 (List.Forall_forall _ _) Hall e He) as [H1 H2].
          split; [now right|exact H2]. }
        split.
        { simpl. constructor; [exact Hsort|].
          apply List.Forall_forall. intros l Hl. apply Hl0'. now apply Hin_ls. }
        intros l [<-|Hl].
        -- split; [intros _|intros _; now left].
           split; [exact V0|]. left. intros l' [<-|Hl'] Hlt; [lia|].
           apply Hl0' in Hl'. lia.
        -- assert (Hne : l0 <> l) by (intros ->; contradiction).
           simpl. rewrite (or_comm (l0 = l)).
           split.
           ++ intros [Hin|Habs]; [|contradiction].
              apply (Hiff l Hl) in Hin as (Vl & Hcase). split; [exact Vl|]. right.
              destruct Hcase as [Hfirst|(nm & Hnm & Hsame)].
              ** apply filter_empty_length in E as (nm & Hnm & Hkeep).
                 exists nm. split; [exact Hnm|].
                 intros l' [<-|Hl'] Hlt Vl'; [exact Hkeep|].
                 rewrite (Hfirst l' Hl' Hlt) in Vl'. discriminate.
              ** apply List.filter_In in Hnm as [Hnm Hkeep].
                 exists nm. split; [exact Hnm|].
                 intros l' [<-|Hl'] Hlt Vl'; [exact Hkeep|]. now apply Hsame.
           ++ intros (Vl & [Hfirst|(nm & Hnm & Hsame)]).
              ** rewrite (Hfirst l0 (or_introl eq_refl) (Hl0' l Hl)) in V0. discriminate.
              ** left. apply (Hiff l Hl). split; [exact Vl|]. right.
                 exists nm. split.
                 --- apply List.filter_In. split; [exact Hnm|].
                     apply Hsame; [now left|now apply Hl0'|exact V0].
                 --- intros l' Hl' Hlt Vl'. apply Hsame; [now right|exact Hlt|exact Vl'].
    + destruct (IH still info) as (added & Heq & Hall & Hsort & Hiff).
      exists added. split; [exact Heq|].
      assert (Hin_ls : forall l, In l (List.map fst added) -> In l ls).
      { intros l Hl. apply in_map_iff in Hl as (e & <- & He).
        exact (proj1 (proj1 (List.Forall_forall _ _) Hall e He)). }
      split.
      { apply List.Forall_forall. intros e He.
        destruct (proj1 (List.Forall_forall _ _) Hall e He) as [H1 H2].
        split; [now right|exact H2]. }
      split; [exact Hsort|].
      intros l [<-|Hl].
      * split.
        -- intros Hin. apply Hin_ls in Hin. contradiction.
        -- intros (Vl & _). rewrite Vl in V0. discriminate.
      * rewrite (Hiff l Hl). split.
        -- intros (Vl & [Hfirst|(nm & Hnm & Hsame)]); (split; [exact Vl|]).
           ++ left. intros l' [<-|Hl'] Hlt; [exact V0|now apply Hfirst].
           ++ right. exists nm. split; [exact Hnm|].
              intros l' [<-|Hl'] Hlt Vl'; [rewrite Vl' in V0; discriminate|].
              now apply Hsame.
        -- intros (Vl & [Hfirst|(nm & Hnm & Hsame)]); (split; [exact Vl|]).
           ++ left. intros l' Hl' Hlt. apply Hfirst; [now right|exact Hlt].
           ++ right. exists nm. split; [exact Hnm|].
              intros l' Hl' Hlt Vl'. apply Hsame; [now right|exact Hlt|exact Vl'].
Qed.

(** *** The values of a [Set] *)

Section DistinctValues.
Context {A : Type} (same : A -> A -> bool).
Hypothesis same_refl : forall x, same x x = true.
Hypothesis same_sym : forall x y, same x y = same y x.
Hypothesis same_trans : forall x y z, same x y = true -> same y z = true -> same x z = true.

Lemma distinctValues_rep (l : list A) (x : A) :
  In x l -> existsb (same x) (distinctValues same l) = true.
Proof using same_refl.
  unfold distinctValues.
  assert (G : forall seen, In x l \/ existsb (same x) seen = true ->
            existsb (same x)
              (fold_left (fun seen x => if existsb (same x) seen then seen else seen ++ [x])
                         l seen) = true).
  { induction l as [|y l IH]; intros seen H; simpl.
    - destruct H as [[]|H]. exact H.
    - apply IH. destruct H as [[->|H]|H].
      + right. destruct (existsb (same x) seen) eqn:E; [exact E|].
        rewrite existsb_app. simpl. now rewrite same_refl, !orb_true_r.
      + now left.
      + right. destruct (existsb (same y) seen); [exact H|].
        rewrite existsb_app, H. reflexivity. }
  intros H. apply G. now left.
Qed.

Lemma distinctValues_one (l : list A) :
  (forall x y, In x l -> In y l -> same x y = true) ->
  length (distinctValues same l) <= 1.
Proof using Type.
  unfold distinctValues.
  assert (G : forall seen, length seen <= 1 ->
            (forall x y, In x (seen ++ l) -> In y (seen ++ l) -> same x y = true) ->
            length (fold_left
                      (fun seen x => if existsb (same x) seen then seen else seen ++ [x])
                      l seen) <= 1).
  { induction l as [|y l IH]; intros seen Hlen Hall; simpl; [exact Hlen|].
    destruct (existsb (same y) seen) eqn:E.
    - apply IH; [exact Hlen|]. intros a b Ha Hb.
      apply Hall; (apply in_app_or in Ha, Hb; apply in_or_app; simpl; tauto).
    - destruct seen as [|s seen].
      + apply IH; [simpl; lia|]. intros a b Ha Hb. apply Hall; simpl in *; tauto.
      + exfalso. simpl in E. rewrite (Hall y s) in E; [discriminate| |now left].
        apply in_or_app. right. now left. }
  intros H. apply G; [simpl; lia|]. exact H.
Qed.

Lemma distinctValues_varies (l : list A) :
  (1 <? length (distinctValues same l)) = true <->
  exists x y, In x l /\ In y l /\ same x y = false.
Proof using same_refl same_sym same_trans.
  rewrite Nat.ltb_lt. split.
  - intros Hlen.
    destruct (existsb (fun x => existsb (fun y => negb (same x y)) l) l) eqn:E.
    + apply existsb_exists in E as (x & Hx & E).
      apply existsb_exists in E as (y & Hy & E).
      apply Bool.negb_true_iff in E. eauto.
    + exfalso. enough (length (distinctValues same l) <= 1) by lia.
      apply distinctValues_one. intros x y Hx Hy.
      destruct (same x y) eqn:Exy; [reflexivity|].
      assert (existsb (fun x => existsb (fun y => negb (same x y)) l) l = true);
        [|congruence].
      apply existsb_exists. exists x. split; [exact Hx|].
      apply existsb_exists. exists y. split; [exact Hy|]. now rewrite Exy.
  - intros (x & y & Hx & Hy & Hxy).
    pose proof (distinctValues_rep l x Hx) as Rx.
    pose proof (distinctValues_rep l y Hy) as Ry.
    apply existsb_exists in Rx as (rx & Hrx & Sx).
    apply existsb_exists in Ry as (ry & Hry & Sy).
    destruct (distinctValues same l) as [|r [|r' rest]]; [destruct Hrx| |simpl; lia].
    exfalso. destruct Hrx as [<-|[]]. destruct Hry as [<-|[]].
    rewrite same_sym in Sy. rewrite (same_trans _ _ _ Sx Sy) in Hxy. discriminate.
Qed.

End DistinctValues.

Lemma distinct_names (l : list string) (nm : string) :
  In nm (distinctValues String.eqb l) <-> In nm l.
Proof.
  split; [apply distinctValues_incl|].
  intros H. pose proof (distinctValues_rep String.eqb String.eqb_refl l nm H) as R.
  apply existsb_exists in R as (r & Hr & E). apply String.eqb_eq in E. now subst.
Qed.

Lemma otherNames_In (tiedGroup : list SkaterResult) (current : SkaterResult) (nm : string) :
  In nm (otherNames tiedGroup current) <->
  exists o, In o tiedGroup /\ rname o = nm /\ nm <> rname current.
Proof.
  unfold otherNames. rewrite List.filter_In, distinct_names, in_map_iff.
  rewrite Bool.negb_true_iff, String.eqb_neq. split.
  - intros ((o & Ho & Hin) & Hne). eauto.
  - intros (o & Hin & Ho & Hne). eauto.
Qed.

Lemma Qeq_bool_trans (x y z : Q) :
  Qeq_bool x y = true -> Qeq_bool y z = true -> Qeq_bool x z = true.
Proof. rewrite !Qeq_bool_iff. intros -> ->. reflexivity. Qed.

Lemma eqb_true_not_nan (x y : float) :
  (x =? y)%float = true -> is_nan x = false /\ is_nan y = false.
Proof.
  rewrite FloatAxioms.eqb_spec. unfold SFeqb. intros H.
  split; (destruct (is_nan _) eqn:E; [|reflexivity]);
    apply is_nan_spec in E; rewrite E in H; simpl in H;
    [discriminate|]. now destruct (Prim2SF x).
Qed.

Lemma eqb_trans (x y z : float) :
  (x =? y)%float = true -> (y =? z)%float = true -> (x =? z)%float = true.
Proof.
  intros H1 H2.
  destruct (eqb_true_not_nan _ _ H1) as [Nx Ny].
  destruct (eqb_true_not_nan _ _ H2) as [_ Nz].
  apply eqb_keys in H1, H2; try assumption.
  apply eqb_keys; [assumption..|]. now apply (lexEq_trans _ (floatKeys y)).
Qed.

Lemma sameValueZero_refl (x : float) : sameValueZero x x = true.
Proof.
  unfold sameValueZero, is_nan. destruct (x =? x)%float; reflexivity.
Qed.

Lemma sameValueZero_sym (x y : float) : sameValueZero x y = sameValueZero y x.
Proof. unfold sameValueZero. now rewrite eqb_sym, andb_comm. Qed.

Lemma sameValueZero_trans (x y z : float) :
  sameValueZero x y = true -> sameValueZero y z = true -> sameValueZero x z = true.
Proof.
  unfold sameValueZero. intros H1 H2.
  apply orb_prop in H1, H2. apply orb_true_iff.
  destruct H1 as [H1|H1], H2 as [H2|H2].
  - left. now apply (eqb_trans x y z).
  - exfalso. destruct (eqb_true_not_nan _ _ H1) as [_ N].
    apply andb_prop in H2. rewrite N in H2. destruct H2. discriminate.
  - exfalso. destruct (eqb_true_not_nan _ _ H2) as [N _].
    apply andb_prop in H1. rewrite N in H1. destruct H1. discriminate.
  - right. apply andb_prop in H1, H2. apply andb_true_iff. tauto.
Qed.

Lemma Qeq_bool_sym' (x y : Q) : Qeq_bool x y = Qeq_bool y x.
Proof.
  destruct (Qeq_bool x y) eqn:E1, (Qeq_bool y x) eqn:E2; try reflexivity.
  - apply Qeq_bool_iff in E1. symmetry in E1. apply Qeq_bool_iff in E1. congruence.
  - apply Qeq_bool_iff in E2. symmetry in E2. apply Qeq_bool_iff in E2. congruence.
Qed.

(** A variation flag is set exactly when two members of the group have
    values that a [Set] keeps apart. *)
Lemma levelVaries_varies (c : Criteria) (group : list SkaterResult) (l : TieBreakLevel) :
  levelVaries (variation c group) l = true <-> varies c group l.
Proof.
  assert (GQ : forall f : SkaterResult -> Q,
            (1 <? length (distinctValues Qeq_bool (List.map f group))) = true <->
            exists a b, In a group /\ In b group /\ Qeq_bool (f a) (f b) = false).
  { intros f.
    rewrite (distinctValues_varies Qeq_bool Qeq_bool_refl Qeq_bool_sym' Qeq_bool_trans).
    split.
    - intros (x & y & Hx & Hy & E).
      apply in_map_iff in Hx as (a & <- & Ha). apply in_map_iff in Hy as (b & <- & Hb).
      eauto.
    - intros (a & b & Ha & Hb & E). exists (f a), (f b).
      split; [now apply in_map|]. split; [now apply in_map|exact E]. }
  assert (GF : forall f : SkaterResult -> float,
            (1 <? length (distinctValues sameValueZero (List.map f group))) = true <->
            exists a b, In a group /\ In b group /\ sameValueZero (f a) (f b) = false).
  { intros f.
    rewrite (distinctValues_varies sameValueZero sameValueZero_refl sameValueZero_sym
               sameValueZero_trans).
    split.
    - intros (x & y & Hx & Hy & E).
      apply in_map_iff in Hx as (a & <- & Ha). apply in_map_iff in Hy as (b & <- & Hb).
      eauto.
    - intros (a & b & Ha & Hb & E). exists (f a), (f b).
      split; [now apply in_map|]. split; [now apply in_map|exact E]. }
  unfold varies. destruct l; simpl; [apply GQ|apply GF|apply GQ|apply GF].
Qed.

Lemma allLevels_sorted :
  StronglySorted (fun a b => levelIndex a < levelIndex b) allLevels.
Proof. unfold allLevels. repeat constructor; simpl; lia. Qed.

Lemma allLevels_In (l : TieBreakLevel) : In l allLevels.
Proof. destruct l; simpl; tauto. Qed.

Lemma sameOnLevel_strictEq (c : Criteria) (l : TieBreakLevel) (current o : SkaterResult) :
  levelIndex l < 3 ->
  sameOnLevel c l current (rname o)
  = strictEq (levelValue (levelsOf c o) l) (levelValue (levelsOf c current) l).
Proof. destruct l; simpl; intros H; try reflexivity. lia. Qed.

(** The trail of a member of a group that holds another name: the values
    of the member on an increasing choice of the levels, a level being
    chosen when the group varies on it and some member of another name
    equals this one on every earlier level on which the group varies. *)
Lemma trailDirect_spec (c : Criteria) (group : list SkaterResult)
    (current : SkaterResult) (info : list (TieBreakLevel * TieBreakValue)) :
  (exists o, In o group /\ rname o <> rname current) ->
  trailDirect c (variation c group) group current = Some info ->
  StronglySorted (fun a b => levelIndex a < levelIndex b) (List.map fst info) /\
  (forall l val, In (l, val) info -> val = levelValue (levelsOf c current) l) /\
  forall l, In l (List.map fst info) <->
    varies c group l /\
    exists o, In o group /\ rname o <> rname current /\
      forall l', levelIndex l' < levelIndex l -> varies c group l' ->
        strictEq (levelValue (levelsOf c o) l') (levelValue (levelsOf c current) l')
        = true.
Proof.
  intros (o0 & Ho0 & Hne0). rewrite trailDirect_trailFrom.
  destruct (trailFrom_spec c (variation c group) current allLevels allLevels_sorted
              (otherNames group current) [])
    as (added & -> & Hall & Hsort & Hiff).
  intros [= <-].
  split; [exact Hsort|]. split.
  - intros l val Hin.
    exact (proj2 (proj1 (List.Forall_forall _ _) Hall (l, val) Hin)).
  - intros l. rewrite (Hiff l (allLevels_In l)), levelVaries_varies.
    assert (Hl3 : forall l', levelIndex l' < levelIndex l -> levelIndex l' < 3)
      by (intros l' H; destruct l; simpl in H; lia).
    split; intros (V & H); (split; [exact V|]).
    + destruct H as [Hfirst|(nm & Hnm & Hsame)].
      * exists o0. split; [exact Ho0|]. split; [exact Hne0|].
        intros l' Hlt Vl'. apply levelVaries_varies in Vl'.
        rewrite (Hfirst l' (allLevels_In l') Hlt) in Vl'. discriminate.
      * apply otherNames_In in Hnm as (o & Ho & <- & Hne).
        exists o. split; [exact Ho|]. split; [exact Hne|].
        intros l' Hlt Vl'. rewrite <- sameOnLevel_strictEq by now apply Hl3.
        apply Hsame; [apply allLevels_In|exact Hlt|now apply levelVaries_varies].
    + destruct H as (o & Ho & Hne & Hsame). right.
      exists (rname o). split; [apply otherNames_In; eauto|].
      intros l' _ Hlt Vl'. rewrite sameOnLevel_strictEq by now apply Hl3.
      apply Hsame; [exact Hlt|now apply levelVaries_varies].
Qed.

Lemma trailFrom_ext c v (r r' : SkaterResult) :
  rname r = rname r' -> totalScore r = totalScore r' ->
  forall levels still info,
    trailFrom c v r levels still info = trailFrom c v r' levels still info.
Proof.
  intros Hn Ht.
  assert (HL : levelsOf c r = levelsOf c r') by (unfold levelsOf; now rewrite Hn, Ht).
  assert (HS : forall l, sameOnLevel c l r = sameOnLevel c l r')
    by (intros l; unfold sameOnLevel; now rewrite Hn).
  induction levels as [|l ls IH]; intros still info; simpl; [reflexivity|].
  rewrite HL, HS. destruct (levelVaries v l); [|apply IH].
  destruct (_ =? 0); [reflexivity|apply IH].
Qed.

Lemma trailDirect_ext c v (group : list SkaterResult) (r r' : SkaterResult) :
  rname r = rname r' -> totalScore r = totalScore r' ->
  trailDirect c v group r = trailDirect c v group r'.
Proof.
  intros Hn Ht. rewrite !trailDirect_trailFrom. f_equal.
  unfold otherNames. rewrite Hn. now apply trailFrom_ext.
Qed.

Lemma setSummary_fields c current compareWith :
  rname (setSummary c current compareWith) = rname current /\
  totalScore (setSummary c current compareWith) = totalScore current /\
  tieBreakInfo (setSummary c current compareWith) = tieBreakInfo current.
Proof.
  unfold setSummary.
  repeat match goal with |- context [if ?b then _ else _] => destruct b end;
    repeat split; reflexivity.
Qed.

(** The trail [breakTies] stores in a member of the group it writes
    back. *)
Lemma breakTies_trail (skaters : list SkaterScores) (tiedGroup group : list SkaterResult)
    (currentRank : nat) :
  breakTies skaters tiedGroup currentRank = Some group ->
  1 < length tiedGroup ->
  let c := criteriaOf skaters tiedGroup in
  let ranked :=
    imap (fun k r => setRank r (currentRank + k)) (jsSort (cascade c) tiedGroup) in
  length ranked = length tiedGroup /\
  (forall k x, ranked !! k = Some x ->
     exists r', group !! k = Some r' /\ core r' = core x) /\
  forall k r', group !! k = Some r' ->
    (exists x, ranked !! k = Some x /\ core r' = core x) /\
    tieBreakInfo r' = trailDirect c (variation c ranked) ranked r'.
Proof.
  intros H Hlen c ranked. unfold breakTies in H. fold c in H. fold ranked in H.
  assert (Hrl : length ranked = length tiedGroup).
  { unfold ranked. now rewrite length_imap, jsSort_length. }
  rewrite (proj2 (Nat.ltb_lt 1 (length ranked))) in H by lia.
  destruct (collectFrom_lookup _ _ _ _ H) as [Hgl Hlook].
  assert (Hfwd : forall k r', group !! k = Some r' ->
            (exists x, ranked !! k = Some x /\ core r' = core x) /\
            tieBreakInfo r' = trailDirect c (variation c ranked) ranked r').
  { intros k r' Hr'. destruct (Hlook k r' Hr') as (x & Hx & Hann). simpl in Hann.
    split; [exists x; split; [exact Hx|now apply annotate_core in Hann]|].
    unfold annotate in Hann.
    destruct (neighbour ranked k) as [w|]; [|discriminate].
    destruct (trailDirect c (variation c ranked) ranked (setSummary c x w))
      as [info|] eqn:Et; [|discriminate].
    injection Hann as <-. simpl. rewrite <- Et.
    apply trailDirect_ext; reflexivity. }
  split; [exact Hrl|]. split; [|exact Hfwd].
  intros k x Hx.
  assert (Hk : k < length group) by (rewrite Hgl; now apply lookup_lt_Some in Hx).
  apply lookup_lt_is_Some in Hk as [r' Hr'].
  exists r'. split; [exact Hr'|].
  destruct (Hfwd k r' Hr') as ((x' & Hx' & Hc) & _). congruence.
Qed.

(** *** The run of a result in the output *)

(** The results tied with [current] fill a run of the output, which is
    what the loop wrote back for the class of [current] among the sorted
    results. *)
Lemma tied_run (skaters : list SkaterScores) (out : list SkaterResult) (k : nat)
    (current : SkaterResult) :
  calculateRankings skaters = Some out -> out !! k = Some current ->
  let tiedGroup :=
    List.filter (tiedWith current) (jsSort byVictories (scoredResults skaters)) in
  exists start group,
    start <= k < start + length group /\
    length group = length tiedGroup /\
    rankGroup skaters tiedGroup (1 + start) = Some group /\
    (forall i, i < length group -> out !! (start + i) = group !! i) /\
    (forall i w, out !! i = Some w ->
       ((majorityVictories w == majorityVictories current)%Q <->
        start <= i < start + length group)).
Proof.
  intros Hout Hk tiedGroup.
  set (sorted := jsSort byVictories (scoredResults skaters)) in *.
  pose proof (calculateRankings_Walk skaters out Hout) as Hw. fold sorted in Hw.
  destruct (Walk_positions skaters 1 sorted out Hw (jsSort_byVictories _) k current Hk)
    as (start & group & Hrange & Hg & Hlook & Hpos).
  fold tiedGroup in Hg.
  destruct (rankGroup_spec _ _ _ _ Hg) as [Hperm Hlen].
  exists start, group. split; [exact Hrange|]. split; [exact Hlen|].
  split; [exact Hg|]. split; [exact Hlook|].
  intros i w Hi. split; [now apply Hpos|]. intros Hi'.
  assert (Hw0 : group !! (i - start) = Some w).
  { rewrite <- Hlook by lia. rewrite <- Hi. f_equal. lia. }
  assert (Hc : In (core w) (List.map core tiedGroup)).
  { eapply Permutation_in; [exact Hperm|]. apply in_map.
    apply list_elem_of_In. eapply list_elem_of_lookup_2. exact Hw0. }
  apply in_map_iff in Hc as (r0 & Hc & Hr0).
  apply List.filter_In in Hr0 as [_ Hr0]. apply tiedWith_iff in Hr0.
  apply core_fields in Hc as (_ & _ & _ & E). now rewrite <- E.
Qed.

Lemma filter_core_length (p : Q -> bool) (l l' : list SkaterResult) :
  Permutation (List.map core l) (List.map core l') ->
  length (List.filter (fun r => p (majorityVictories r)) l)
  = length (List.filter (fun r => p (majorityVictories r)) l').
Proof.
  intros Hp.
  assert (G : forall l0 : list SkaterResult,
            length (List.filter (fun r => p (majorityVictories r)) l0)
            = length (List.filter (fun c => p (snd (fst c))) (List.map core l0))).
  { induction l0 as [|r l0 IH]; simpl; [reflexivity|].
    destruct (p (majorityVictories r)); simpl; now rewrite IH. }
  rewrite !G. apply Permutation_length. now apply filter_perm.
Qed.

(** As many results of the output are tied with [current] as there are
    in its class before the ranking. *)
Lemma tied_length (skaters : list SkaterScores) (out : list SkaterResult)
    (current : SkaterResult) :
  calculateRankings skaters = Some out ->
  length (List.filter (tiedWith current) out)
  = length (List.filter (tiedWith current)
              (jsSort byVictories (scoredResults skaters))).
Proof.
  intros Hout.
  apply (filter_core_length (fun q => Qeq_bool q (majorityVictories current))).
  destruct (calculateRankings_spec skaters) as (out2 & Hout2 & Hperm & _).
  rewrite Hout in Hout2. injection Hout2 as <-.
  etransitivity; [exact Hperm|]. apply Permutation_map. symmetry. apply jsSort_perm.
Qed.

Lemma scoredResults_no_trail (skaters : list SkaterScores) (r : SkaterResult) :
  In r (jsSort byVictories (scoredResults skaters)) -> tieBreakInfo r = None.
Proof.
  intros H. apply (Permutation_in _ (jsSort_perm _ _)) in H.
  unfold scoredResults in H. apply in_map_iff in H as (s & <- & _). reflexivity.
Qed.

Lemma varies_core (c : Criteria) (G G' : list SkaterResult) (l : TieBreakLevel) :
  (forall a, In a G -> exists a', In a' G' /\ core a = core a') ->
  varies c G l -> varies c G' l.
Proof.
  intros H (a & b & Ha & Hb & E).
  destruct (H a Ha) as (a' & Ha' & Ca). destruct (H b Hb) as (b' & Hb' & Cb).
  exists a', b'. split; [exact Ha'|]. split; [exact Hb'|].
  now rewrite <- (levelsOf_core c a a' Ca), <- (levelsOf_core c b b' Cb).
Qed.

(** The tied run of a result with the group the trail was computed
    from: the same members, up to the rank and the tie-break fields. *)
Lemma tied_members (skaters : list SkaterScores) (out : list SkaterResult) (k : nat)
    (current : SkaterResult) :
  List.NoDup (List.map name skaters) ->
  calculateRankings skaters = Some out -> out !! k = Some current ->
  let tied := List.filter (tiedWith current) out in
  let tiedGroup :=
    List.filter (tiedWith current) (jsSort byVictories (scoredResults skaters)) in
  let c := criteriaOf skaters tiedGroup in
  1 < length tied ->
  exists ranked,
    tieBreakInfo current = trailDirect c (variation c ranked) ranked current /\
    (forall x, In x ranked -> exists o, In o tied /\ core x = core o) /\
    (forall o, In o tied -> exists x, In x ranked /\ core o = core x) /\
    (exists o, In o ranked /\ rname o <> rname current).
Proof.
  intros Hnd Hout Hk tied tiedGroup c Htied.
  unfold tied in Htied. rewrite (tied_length skaters out current Hout) in Htied.
  fold tiedGroup in Htied.
  destruct (tied_run skaters out k current Hout Hk)
    as (start & group & Hrange & Hlen & Hg & Hlook & Hpos).
  fold tiedGroup in Hlen, Hg.
  unfold rankGroup in Hg.
  replace (length tiedGroup =? 1) with false in Hg
    by (symmetry; apply Nat.eqb_neq; lia).
  destruct (breakTies_trail skaters tiedGroup group (1 + start) Hg Htied)
    as (Hrl & Hback & Hfwd).
  fold c in Hrl, Hback, Hfwd.
  set (ranked := imap (fun k r => setRank r (1 + start + k))
                      (jsSort (cascade c) tiedGroup)) in *.
  assert (Hj : group !! (k - start) = Some current).
  { rewrite <- Hlook by lia. rewrite <- Hk. f_equal. lia. }
  assert (HinT : forall i o, out !! i = Some o -> start <= i < start + length group ->
            In o tied).
  { intros i o Hi Hr. apply List.filter_In. split.
    - apply list_elem_of_In. eapply list_elem_of_lookup_2. exact Hi.
    - apply tiedWith_iff. now apply (Hpos i o Hi). }
  assert (HRT : forall j x, ranked !! j = Some x ->
            exists o, out !! (start + j) = Some o /\ In o tied /\ core x = core o).
  { intros j x Hx. destruct (Hback j x Hx) as (o & Ho & Hc).
    assert (Hjl : j < length group) by now apply lookup_lt_Some in Ho.
    exists o. rewrite Hlook by exact Hjl. split; [exact Ho|].
    split; [|now symmetry].
    apply (HinT (start + j)); [now rewrite Hlook|lia]. }
  exists ranked. split; [exact (proj2 (Hfwd _ _ Hj))|]. split; [|split].
  - intros x Hx. apply list_elem_of_In, list_elem_of_lookup_1 in Hx as (j & Hx).
    destruct (HRT j x Hx) as (o & _ & Ho & Hc). eauto.
  - intros o Ho. apply List.filter_In in Ho as [Ho Ht]. apply tiedWith_iff in Ht.
    apply list_elem_of_In, list_elem_of_lookup_1 in Ho as (i & Hi).
    pose proof (proj1 (Hpos i o Hi) Ht) as Hr.
    assert (Ho' : group !! (i - start) = Some o).
    { rewrite <- Hlook by lia. rewrite <- Hi. f_equal. lia. }
    destruct (Hfwd _ _ Ho') as ((x & Hx & Hc) & _).
    exists x. split; [|exact Hc].
    apply list_elem_of_In. eapply list_elem_of_lookup_2. exact Hx.
  - (* another position of the run *)
    set (j := if decide (k - start = 0) then 1 else 0).
    assert (Hjl : j < length ranked) by (unfold j; destruct (decide _); lia).
    apply lookup_lt_is_Some in Hjl as [x Hx].
    exists x. split; [apply list_elem_of_In; eapply list_elem_of_lookup_2; exact Hx|].
    destruct (HRT j x Hx) as (o & Ho & _ & Hc).
    apply core_fields in Hc as (_ & Hn & _). rewrite Hn. intros E.
    pose proof (result_position skaters out _ _ o current Hnd Hout Ho Hk E) as P.
    unfold j in P. destruct (decide _); lia.
Qed.

(** The trail of a result of the output. *)
Lemma trail_of_result (skaters : list SkaterScores) (out : list SkaterResult)
    (k : nat) (current : SkaterResult) :
  List.NoDup (List.map name skaters) ->
  calculateRankings skaters = Some out -> out !! k = Some current ->
  let tied := List.filter (tiedWith current) out in
  let c :=
    criteriaOf skaters
      (List.filter (tiedWith current)
         (jsSort byVictories (scoredResults skaters))) in
  (length tied = 1 -> tieBreakInfo current = None /\ tieBreakLevel current = None) /\
  (1 < length tied ->
   exists info,
     tieBreakInfo current = Some info /\
     StronglySorted (fun a b => levelIndex a < levelIndex b)
       (List.map fst info) /\
     (forall l val, In (l, val) info ->
        val = levelValue (levelsOf c current) l) /\
     forall l, In l (List.map fst info) <->
       varies c tied l /\
       exists o, In o tied /\ rname o <> rname current /\
         forall l', levelIndex l' < levelIndex l -> varies c tied l' ->
           strictEq (levelValue (levelsOf c o) l')
                    (levelValue (levelsOf c current) l') = true).
Proof.
  intros Hnd Hout Hk tied c. split.
  - intros H1. unfold tied in H1. rewrite (tied_length skaters out current Hout) in H1.
    destruct (tied_run skaters out k current Hout Hk)
      as (start & group & Hrange & Hlen & Hg & Hlook & _).
    unfold rankGroup in Hg. rewrite H1 in Hg. simpl in Hg. injection Hg as <-.
    assert (Hj : (List.map (fun r => setRank r (S start))
                    (List.filter (tiedWith current)
                       (jsSort byVictories (scoredResults skaters))))
                 !! (k - start) = Some current).
    { rewrite <- Hlook by lia. rewrite <- Hk. f_equal. lia. }
    change (List.map ?f ?l) with (f <$> l) in Hj.
    rewrite list_lookup_fmap in Hj.
    destruct (_ !! (k - start)) as [r|] eqn:Er; [|discriminate].
    simpl in Hj. injection Hj as <-. simpl.
    apply list_elem_of_lookup_2, list_elem_of_In, List.filter_In in Er.
    destruct Er as [Er _]. split.
    + now apply scoredResults_no_trail with (skaters := skaters).
    + now apply scoredResults_no_summary with (skaters := skaters).
  - intros H1.
    destruct (tied_members skaters out k current Hnd Hout Hk H1)
      as (ranked & Htrail & HRT & HTR & Hother).
    fold c in Htrail. fold tied in HRT, HTR.
    destruct (trailDirect_total c (variation c ranked) ranked current) as [info Hinfo].
    exists info. split; [congruence|].
    destruct (trailDirect_spec c ranked current info Hother Hinfo)
      as (Hsort & Hval & Hiff).
    split; [exact Hsort|]. split; [exact Hval|].
    assert (HV : forall l, varies c ranked l <-> varies c tied l).
    { intros l. split; apply varies_core.
      - exact HRT.
      - exact HTR. }
    intros l. rewrite (Hiff l), HV. split; intros (V & o & Ho & Hne & Hsame).
    + destruct (HRT o Ho) as (o' & Ho' & Hc). split; [exact V|].
      exists o'. split; [exact Ho'|].
      rewrite <- (levelsOf_core c o o' Hc).
      apply core_fields in Hc as (_ & Hn & _). rewrite <- Hn.
      split; [exact Hne|]. intros l' Hlt Vl'. apply Hsame; [exact Hlt|now apply HV].
    + destruct (HTR o Ho) as (o' & Ho' & Hc). split; [exact V|].
      exists o'. split; [exact Ho'|].
      rewrite <- (levelsOf_core c o o' Hc).
      apply core_fields in Hc as (_ & Hn & _). rewrite <- Hn.
      split; [exact Hne|]. intros l' Hlt Vl'. apply Hsame; [exact Hlt|now apply HV].
Qed.

(** The values the criteria maps of a tied group hold for a result of the
    group, with pairwise distinct names: the sum of its pair scores against
    the rest of the group, the sum of its artistic marks, the sum of its
    pair scores against every other skater, and its rounded total. *)
Lemma levelsOf_closed (skaters : list SkaterScores) (out : list SkaterResult)
    (current o : SkaterResult) :
  List.NoDup (List.map name skaters) ->
  calculateRankings skaters = Some out -> In o out ->
  (majorityVictories o == majorityVictories current)%Q ->
  let c :=
    criteriaOf skaters
      (List.filter (tiedWith current)
         (jsSort byVictories (scoredResults skaters))) in
  (directComp (levelsOf c o) == directComp (cascadeLevels skaters o))%Q /\
  bSum (levelsOf c o) = bSum (cascadeLevels skaters o) /\
  (compAll (levelsOf c o) == compAll (cascadeLevels skaters o))%Q /\
  total (levelsOf c o) = total (cascadeLevels skaters o).
Proof.
  intros Hnd Hout Ho Hmv c.
  set (tiedGroup := List.filter (tiedWith current)
                      (jsSort byVictories (scoredResults skaters))) in *.
  pose proof (tiedGroup_perm skaters current) as HG. fold tiedGroup in HG.
  assert (HndG : List.NoDup (List.map rname tiedGroup)).
  { change (List.map rname tiedGroup)
      with (List.map (fun r => name (scores r)) tiedGroup).
    rewrite <- (List.map_map scores name).
    apply (Permutation_NoDup (Permutation_sym (Permutation_map name HG))).
    now apply NoDup_filter_names. }
  destruct (result_of_skater skaters out o Hout Ho) as (Hin & Ht & Hm & _).
  assert (Hs : In (scores o) (List.map scores tiedGroup)).
  { apply (Permutation_in _ (Permutation_sym HG)).
    unfold tiedSkatersOf. apply List.filter_In. split; [exact Hin|].
    apply Qeq_bool_iff. fold (rname o). now rewrite <- Hm. }
  destruct (criteriaOf_closed skaters tiedGroup o HndG Hs) as (X1 & X2 & X3 & X4).
  fold c in X1, X2, X3, X4.
  split; [|split; [exact X2|split; [exact X3|]]].
  - etransitivity; [exact X1|]. unfold cascadeLevels. cbn [directComp].
    rewrite (tiedSkatersOf_ext skaters _ _ Hmv). now apply comparisonSum_perm.
  - etransitivity; [exact X4|exact Ht].
Qed.

(** With pairwise distinct names: a result tied with no other has no
    trail; the trail of a result tied with others holds its own values on
    an increasing choice of the levels, a level being chosen exactly when
    the results tied with it vary on the level and another of them equals
    it on every earlier level on which they vary.  The values are those of
    the cascade: the sum of the pair scores against the rest of the tied
    results, the sum of the artistic marks, the sum of the pair scores
    against every other skater, and the rounded total. *)
Theorem tieBreakInfo_trail (skaters : list SkaterScores) :
  List.NoDup (List.map name skaters) ->
  exists out,
    calculateRankings skaters = Some out /\
    forall k current, out !! k = Some current ->
      let tied := List.filter (tiedWith current) out in
      let c :=
        criteriaOf skaters
          (List.filter (tiedWith current)
             (jsSort byVictories (scoredResults skaters))) in
      (forall o, In o tied ->
         (directComp (levelsOf c o) == directComp (cascadeLevels skaters o))%Q /\
         bSum (levelsOf c o) = bSum (cascadeLevels skaters o) /\
         (compAll (levelsOf c o) == compAll (cascadeLevels skaters o))%Q /\
         total (levelsOf c o) = total (cascadeLevels skaters o)) /\
      (length tied = 1 -> tieBreakInfo current = None) /\
      (1 < length tied ->
       exists info,
         tieBreakInfo current = Some info /\
         StronglySorted (fun a b => levelIndex a < levelIndex b)
           (List.map fst info) /\
         (forall l val, In (l, val) info ->
            val = levelValue (levelsOf c current) l) /\
         forall l, In l (List.map fst info) <->
           varies c tied l /\
           exists o, In o tied /\ rname o <> rname current /\
             forall l', levelIndex l' < levelIndex l -> varies c tied l' ->
               strictEq (levelValue (levelsOf c o) l')
                        (levelValue (levelsOf c current) l') = true).
Proof.
  intros Hnd.
  destruct (calculateRankings_spec skaters) as (out & Hout & _).
  exists out. split; [exact Hout|].
  intros k current Hk tied c.
  destruct (trail_of_result skaters out k current Hnd Hout Hk) as [H1 H2].
  split; [|split].
  - intros o Ho. apply List.filter_In in Ho as [Ho Ht]. apply tiedWith_iff in Ht.
    now apply (levelsOf_closed skaters out current o).
  - intros E. now apply H1.
  - exact H2.
Qed.

(** *** The summary and the trail *)

Lemma Qeq_bool_proper (x x' y y' : Q) :
  (x == x')%Q -> (y == y')%Q -> Qeq_bool x y = Qeq_bool x' y'.
Proof.
  intros Hx Hy.
  destruct (Qeq_bool x y) eqn:E1, (Qeq_bool x' y') eqn:E2; try reflexivity.
  - apply Qeq_bool_iff in E1.
    assert (H : (x' == y')%Q) by (rewrite <- Hx, <- Hy; exact E1).
    apply Qeq_bool_iff in H. congruence.
  - apply Qeq_bool_iff in E2.
    assert (H : (x == y)%Q) by (rewrite Hx, Hy; exact E2).
    apply Qeq_bool_iff in H. congruence.
Qed.

(** The first difference that the program finds on its criteria maps is
    the first difference of the cascade values, when the maps hold these
    values and the sums of the result are not NaN. *)
Lemma summary_against_cascade (c : Criteria) (current w : SkaterResult) (A B : Levels) :
  (directComp (levelsOf c current) == directComp A)%Q ->
  bSum (levelsOf c current) = bSum A ->
  (compAll (levelsOf c current) == compAll A)%Q ->
  total (levelsOf c current) = total A ->
  (directComp (levelsOf c w) == directComp B)%Q ->
  bSum (levelsOf c w) = bSum B ->
  (compAll (levelsOf c w) == compAll B)%Q ->
  total (levelsOf c w) = total B ->
  noNaN A ->
  summary current = summaryOf (firstDifference c current w) ->
  summaryIs current (firstLevelDifference A B).
Proof.
  unfold levelsOf. cbn [directComp bSum compAll total].
  intros X1 X2 X3 X4 Y1 Y2 Y3 Y4 [N1 N2] Hs.
  unfold firstDifference, strictNe in Hs.
  rewrite (Qeq_bool_proper _ _ _ _ X1 Y1), X2, Y2,
          (Qeq_bool_proper _ _ _ _ X3 Y3), X4, Y4 in Hs.
  unfold firstLevelDifference, allLevels.
  cbn [List.find levelValue sameInSet]. unfold sameValueZero.
  rewrite N1, N2. cbn [andb]. rewrite !orb_false_r.
  unfold summary in Hs.
  destruct (Qeq_bool (directComp A) (directComp B)); cbn [negb] in *.
  2: { injection Hs as HL HV. split; [exact HL|]. eexists. split; [exact HV|exact X1]. }
  destruct (bSum A =? bSum B)%float; cbn [negb] in *.
  2: { injection Hs as HL HV. split; [exact HL|]. eexists. split; [exact HV|reflexivity]. }
  destruct (Qeq_bool (compAll A) (compAll B)); cbn [negb] in *.
  2: { injection Hs as HL HV. split; [exact HL|]. eexists. split; [exact HV|exact X3]. }
  destruct (total A =? total B)%float; cbn [negb] in *.
  2: { injection Hs as HL HV. split; [exact HL|]. eexists. split; [exact HV|reflexivity]. }
  injection Hs as HL HV. split; assumption.
Qed.

(** C9, for pairwise distinct names and sums that are not NaN: in the
    output, a result tied with others on majority victories lies in the run
    of the results tied with it; its neighbour is the next result of the run,
    or the previous one if it is the last of the run; and its summary
    (tieBreakLevel, tieBreakValue) is the first level of the cascade on which
    its value differs from that of the neighbour, with its own value on that
    level, and is absent if the two differ on none.  The values are those of
    the cascade: the sum of the pair scores against the rest of the tied
    results, the sum of the artistic marks, the sum of the pair scores
    against every other skater, and the rounded total.  A result tied with
    no other has no summary. *)
Theorem tieBreak_summary (skaters : list SkaterScores) :
  List.NoDup (List.map name skaters) ->
  (forall s, In s skaters ->
     is_nan (calculateBScoreSum s) = false /\
     is_nan (roundToOneDecimal (calculateTotalScore s)) = false) ->
  exists out,
    calculateRankings skaters = Some out /\
    forall k current, out !! k = Some current ->
      let tied := List.filter (tiedWith current) out in
      (length tied = 1 -> tieBreakLevel current = None /\ tieBreakValue current = None) /\
      (1 < length tied ->
       exists start compareWith,
         start <= k < start + length tied /\
         (forall i w, out !! i = Some w ->
            ((majorityVictories w == majorityVictories current)%Q <->
             start <= i < start + length tied)) /\
         ((S k < start + length tied /\ out !! S k = Some compareWith) \/
          (S k = start + length tied /\
           exists k', k = S k' /\ out !! k' = Some compareWith)) /\
         summaryIs current
           (firstLevelDifference (cascadeLevels skaters current)
                                 (cascadeLevels skaters compareWith))).
Proof.
  intros Hnd Hnan.
  destruct (summary_of_neighbour skaters) as (out & Hout & H).
  exists out. split; [exact Hout|].
  intros k current Hk. cbv zeta.
  destruct (H k current Hk) as [H1 H2].
  rewrite (tied_length skaters out current Hout).
  assert (Hcur : In current out)
    by (apply list_elem_of_In; eapply list_elem_of_lookup_2; exact Hk).
  split.
  - intros E. specialize (H1 E). unfold summary in H1. now injection H1.
  - intros E. destruct (H2 E) as (start & w & Hrange & Hpos & Hnb & Hs).
    exists start, w.
    split; [exact Hrange|]. split; [exact Hpos|]. split; [exact Hnb|].
    assert (Hw : exists i, out !! i = Some w /\
                           start <= i < start + length
                             (List.filter (tiedWith current)
                                (jsSort byVictories (scoredResults skaters)))).
    { destruct Hnb as [[Hlt Hnb]|[Heq (k' & -> & Hnb)]].
      - exists (S k). split; [exact Hnb|lia].
      - exists k'. split; [exact Hnb|lia]. }
    destruct Hw as (i & Hi & Hir).
    assert (Hin : In w out)
      by (apply list_elem_of_In; eapply list_elem_of_lookup_2; exact Hi).
    assert (Hmv : (majorityVictories w == majorityVictories current)%Q)
      by (now apply (Hpos i w Hi)).
    destruct (levelsOf_closed skaters out current current Hnd Hout Hcur
                ltac:(reflexivity)) as (X1 & X2 & X3 & X4).
    destruct (levelsOf_closed skaters out current w Hnd Hout Hin Hmv)
      as (Y1 & Y2 & Y3 & Y4).
    apply (summary_against_cascade _ current w _ _ X1 X2 X3 X4 Y1 Y2 Y3 Y4);
      [|exact Hs].
    unfold noNaN, cascadeLevels. cbn [bSum total].
    apply Hnan. now destruct (result_of_skater skaters out current Hout Hcur).
Qed.

(** C9 as stated fails when two entries share a name and when a total is
    NaN.  In the first sample the first result named A and its neighbour,
    the second of that name, differ on the first level, against the skaters
    of another name (3/2 against 1) as against the two other skaters (7/2
    against 2), but the program reads both under the one name and reports the
    total score.  In the second sample the two results have the same marks
    and so the same four values, the total of each being NaN, and each gets
    the summary of a difference on the total score. *)
Lemma tieBreak_summary_fails :
  (exists out rA rA' rZ v,
     calculateRankings nameClash = Some out /\
     out !! 0 = Some rA /\ out !! 1 = Some rA' /\ out !! 2 = Some rZ /\
     (majorityVictories rA == majorityVictories rA')%Q /\
     (majorityVictories rA == majorityVictories rZ)%Q /\
     firstLevelDifference (cascadeLevels nameClash rA) (cascadeLevels nameClash rA')
       = Some (direct_comparison, v) /\
     (pairwiseComparison (scores rA) (scores rA')
      + pairwiseComparison (scores rA) (scores rZ) == 7 # 2)%Q /\
     (pairwiseComparison (scores rA') (scores rA)
      + pairwiseComparison (scores rA') (scores rZ) == 2)%Q /\
     tieBreakLevel rA = Some total_score) /\
  (exists out rP rQ,
     calculateRankings nanTotals = Some out /\
     out !! 0 = Some rP /\ out !! 1 = Some rQ /\
     (majorityVictories rP == majorityVictories rQ)%Q /\
     aScores (scores rP) = aScores (scores rQ) /\
     bScores (scores rP) = bScores (scores rQ) /\
     firstLevelDifference (cascadeLevels nanTotals rP) (cascadeLevels nanTotals rQ)
       = None /\
     tieBreakLevel rP = Some total_score /\
     tieBreakLevel rQ = Some total_score).
Proof.
  split.
  - destruct (calculateRankings nameClash) as [out|] eqn:E;
      [|vm_compute in E; discriminate].
    vm_compute in E. injection E as <-.
    eexists _, _, _, _, _. split; [reflexivity|].
    split; [reflexivity|]. split; [reflexivity|]. split; [reflexivity|].
    split; [reflexivity|]. split; [reflexivity|].
    split; [vm_compute; reflexivity|].
    split; [reflexivity|]. split; reflexivity.
  - destruct (calculateRankings nanTotals) as [out|] eqn:E;
      [|vm_compute in E; discriminate].
    vm_compute in E. injection E as <-.
    eexists _, _, _. split; [reflexivity|].
    split; [reflexivity|]. split; [reflexivity|]. split; [reflexivity|].
    split; [reflexivity|]. split; [reflexivity|].
    split; [vm_compute; reflexivity|]. split; reflexivity.
Qed.

(** The summary of a result tied with others, with pairwise distinct
    names: its first difference from another result of its run. *)
Lemma summary_of_result (skaters : list SkaterScores) (out : list SkaterResult)
    (k : nat) (current : SkaterResult) :
  List.NoDup (List.map name skaters) ->
  calculateRankings skaters = Some out -> out !! k = Some current ->
  let tied := List.filter (tiedWith current) out in
  let c :=
    criteriaOf skaters
      (List.filter (tiedWith current)
         (jsSort byVictories (scoredResults skaters))) in
  1 < length tied ->
  exists w, In w tied /\ rname w <> rname current /\
    summary current = summaryOf (firstDifference c current w).
Proof.
  intros Hnd Hout Hk tied c Htied.
  unfold tied in Htied. rewrite (tied_length skaters out current Hout) in Htied.
  set (tiedGroup := List.filter (tiedWith current)
                      (jsSort byVictories (scoredResults skaters))) in *.
  destruct (tied_run skaters out k current Hout Hk)
    as (start & group & Hrange & Hlen & Hg & Hlook & Hpos).
  fold tiedGroup in Hlen, Hg.
  unfold rankGroup in Hg.
  replace (length tiedGroup =? 1) with false in Hg
    by (symmetry; apply Nat.eqb_neq; lia).
  assert (Hj : group !! (k - start) = Some current).
  { rewrite <- Hlook by lia. rewrite <- Hk. f_equal. lia. }
  destruct (breakTies_shape skaters tiedGroup group (1 + start) Hg) as [_ Hshape].
  destruct (Hshape _ _ Hj) as (r & Hr & _ & _ & Hsum).
  assert (Hin : In r tiedGroup).
  { apply (Permutation_in _ (jsSort_perm (cascade (criteriaOf skaters tiedGroup)) _)).
    apply list_elem_of_In. eapply list_elem_of_lookup_2. exact Hr. }
  apply List.filter_In in Hin as [Hin _].
  destruct (scoredResults_no_summary skaters r Hin) as [HL HV].
  destruct (Hsum Htied HL HV) as (w & Hnb & Hs).
  assert (Hw : exists i, i <> k /\ start <= i < start + length group /\
                         out !! i = Some w).
  { destruct Hnb as [[Hlt Hnb]|[Heq (j' & Hjeq & Hnb)]].
    - exists (start + S (k - start)). split; [lia|]. split; [lia|].
      now rewrite Hlook.
    - exists (start + j'). split; [lia|]. split; [lia|].
      rewrite Hlook by lia. exact Hnb. }
  destruct Hw as (i & Hik & Hir & Hi).
  exists w. split; [|split; [|exact Hs]].
  - apply List.filter_In. split.
    + apply list_elem_of_In. eapply list_elem_of_lookup_2. exact Hi.
    + apply tiedWith_iff. now apply (Hpos i w Hi).
  - intros E. apply Hik.
    exact (result_position skaters out i k w current Hnd Hout Hi Hk E).
Qed.

(** At its first difference from [w], a result differs from [w], and on
    every earlier level it equals [w]. *)
Lemma firstDifference_level (c : Criteria) (current w : SkaterResult)
    (l : TieBreakLevel) (val : TieBreakValue) :
  firstDifference c current w = Some (l, val) ->
  strictEq (levelValue (levelsOf c current) l) (levelValue (levelsOf c w) l) = false /\
  forall l', levelIndex l' < levelIndex l ->
    strictEq (levelValue (levelsOf c w) l') (levelValue (levelsOf c current) l') = true.
Proof.
  unfold firstDifference, strictNe.
  destruct (Qeq_bool (comparisonScores c !!! rname current)
                     (comparisonScores c !!! rname w)) eqn:E1; simpl.
  2: { intros [= <- _]. split; [exact E1|]. intros l' H. simpl in H. lia. }
  destruct (bScoreSums c !!! rname current =? bScoreSums c !!! rname w)%float eqn:E2;
    simpl.
  2: { intros [= <- _]. split; [exact E2|].
       intros [] H; simpl in H; try lia. simpl. now rewrite Qeq_bool_sym'. }
  destruct (Qeq_bool (comparisonWithAll c !!! rname current)
                     (comparisonWithAll c !!! rname w)) eqn:E3; simpl.
  2: { intros [= <- _]. split; [exact E3|].
       intros [] H; simpl in H; try lia; simpl.
       - now rewrite Qeq_bool_sym'.
       - now rewrite eqb_sym. }
  destruct (totalScore current =? totalScore w)%float eqn:E4; simpl;
    [discriminate|].
  intros [= <- _]. split; [exact E4|].
  intros [] H; simpl in H; try lia; simpl.
  - now rewrite Qeq_bool_sym'.
  - now rewrite eqb_sym.
  - now rewrite Qeq_bool_sym'.
Qed.

Lemma strictEq_sameInSet (a b : Levels) (l : TieBreakLevel) :
  noNaN a ->
  strictEq (levelValue a l) (levelValue b l) = false ->
  sameInSet (levelValue a l) (levelValue b l) = false.
Proof.
  intros [N1 N2]. unfold sameValueZero.
  destruct l; simpl; intros H; try exact H; unfold sameValueZero;
    rewrite H; [rewrite N1|rewrite N2]; reflexivity.
Qed.

(** With pairwise distinct names and sums that are not NaN, the level of
    the summary of a result is one of the levels of its trail. *)
Theorem summary_level_in_trail (skaters : list SkaterScores) :
  List.NoDup (List.map name skaters) ->
  (forall s, In s skaters ->
     is_nan (calculateBScoreSum s) = false /\
     is_nan (roundToOneDecimal (calculateTotalScore s)) = false) ->
  exists out,
    calculateRankings skaters = Some out /\
    forall current level, In current out -> tieBreakLevel current = Some level ->
      exists info, tieBreakInfo current = Some info /\ In level (List.map fst info).
Proof.
  intros Hnd Hnan.
  destruct (calculateRankings_spec skaters) as (out & Hout & _).
  exists out. split; [exact Hout|].
  intros current level Hcur Hlevel.
  pose proof Hcur as Hk.
  apply list_elem_of_In, list_elem_of_lookup_1 in Hk as (k & Hk).
  destruct (trail_of_result skaters out k current Hnd Hout Hk) as [H1 H2].
  set (tied := List.filter (tiedWith current) out) in *.
  set (c := criteriaOf skaters _) in *.
  assert (HcurT : In current tied).
  { apply List.filter_In. split; [exact Hcur|]. apply tiedWith_iff. reflexivity. }
  destruct (Nat.eq_dec (length tied) 1) as [E1|N1].
  { destruct (H1 E1) as [_ HL]. congruence. }
  assert (Htied : 1 < length tied).
  { enough (0 < length tied) by lia.
    destruct tied; [destruct HcurT|simpl; lia]. }
  destruct (H2 Htied) as (info & Hinfo & _ & _ & Hiff).
  exists info. split; [exact Hinfo|]. apply Hiff.
  destruct (summary_of_result skaters out k current Hnd Hout Hk Htied)
    as (w & Hw & Hne & Hs).
  fold c in Hs. unfold summary in Hs. rewrite Hlevel in Hs.
  destruct (firstDifference c current w) as [[l val]|] eqn:Ed; [|discriminate].
  simpl in Hs. injection Hs as -> _.
  destruct (firstDifference_level c current w l val Ed) as [Hdiff Hsame].
  split.
  - exists current, w. split; [exact HcurT|]. split; [exact Hw|].
    apply strictEq_sameInSet; [|exact Hdiff].
    destruct (levelsOf_closed skaters out current current Hnd Hout Hcur
                ltac:(reflexivity)) as (_ & B & _ & T).
    fold c in B, T. unfold noNaN. rewrite B, T. simpl.
    apply Hnan. now destruct (result_of_skater skaters out current Hout Hcur).
  - exists w. split; [exact Hw|]. split; [exact Hne|].
    intros l' Hlt _. now apply Hsame.
Qed.

(** ** The sort is stable *)

Lemma insertSorted_filter {A : Type} (cmp : A -> A -> comparison) (p : A -> bool)
    (x : A) (l : list A) :
  (forall y, In y l -> p x = true -> p y = true -> cmp x y <> Gt) ->
  List.filter p (insertSorted cmp x l) = List.filter p (x :: l).
Proof.
  induction l as [|y l IH]; intros H; [reflexivity|].
  simpl insertSorted. destruct (cmp x y) eqn:E; try reflexivity.
  cbn [List.filter]. rewrite IH by (intros z Hz; apply H; now right).
  cbn [List.filter].
  destruct (p x) eqn:Px, (p y) eqn:Py; try reflexivity.
  exfalso. now apply (H y (or_introl eq_refl)).
Qed.

(** Among elements that the comparator never puts apart, the sort keeps
    the order. *)
Lemma jsSort_filter {A : Type} (cmp : A -> A -> comparison) (p : A -> bool)
    (l : list A) :
  (forall x y, In x l -> In y l -> p x = true -> p y = true -> cmp x y <> Gt) ->
  List.filter p (jsSort cmp l) = List.filter p l.
Proof.
  induction l as [|x l IH]; intros H; [reflexivity|].
  simpl jsSort. fold (jsSort cmp l). rewrite insertSorted_filter.
  - cbn [List.filter]. rewrite IH; [reflexivity|].
    intros a b Ha Hb. apply H; now right.
  - intros y Hy. apply (Permutation_in _ (jsSort_perm cmp l)) in Hy.
    apply H; [now left|now right].
Qed.

(** ** Every stable sort returns the array of the model

    For a consistent comparator the language fixes the sorted array: it is
    the one of the insertion sort.  The comparator of the first sort is
    consistent on all results, the comparator of the cascade on results
    whose sums are not NaN. *)

Section StableSort.
Context {A : Type} (cmp : A -> A -> comparison) (ok : A -> Prop).
Hypothesis cmp_asym : forall x y, ok x -> ok y -> cmp x y = Gt -> cmp y x <> Gt.
Hypothesis cmp_trans : forall x y z, ok x -> ok y -> ok z ->
  cmp x y <> Gt -> cmp y z <> Gt -> cmp x z <> Gt.

Lemma ties_refl (x : A) : ok x -> ties cmp x x = true.
Proof using cmp_asym.
  intros Hx. unfold ties. destruct (cmp x x) eqn:E; try reflexivity.
  exfalso. exact (cmp_asym x x Hx Hx E E).
Qed.

Lemma ties_intro (x y : A) : cmp x y <> Gt -> cmp y x <> Gt -> ties cmp x y = true.
Proof. unfold ties. destruct (cmp x y), (cmp y x); congruence. Qed.

Lemma ties_elim (x y : A) : ties cmp x y = true -> cmp x y <> Gt /\ cmp y x <> Gt.
Proof. unfold ties. destruct (cmp x y), (cmp y x); intros H; split; congruence. Qed.

Lemma jsSort_sortedBy (l : list A) : List.Forall ok l -> sortedBy cmp l (jsSort cmp l).
Proof using cmp_asym cmp_trans.
  intros Hok. split; [apply jsSort_perm|]. split.
  - apply (jsSort_sorted cmp (fun x y => cmp x y <> Gt) ok); auto.
  - intros x Hx. apply jsSort_filter. intros a b Ha Hb Ta Tb.
    rewrite List.Forall_forall in Hok.
    apply ties_elim in Ta as [_ Ta]. apply ties_elim in Tb as [Tb _].
    apply (cmp_trans a x b); auto.
Qed.

(** Two sorted arrays with the same elements in the same order inside
    every class of equal elements are the same array. *)
Lemma sorted_stable_eq (P : A -> Prop) (l1 l2 : list A) :
  (forall x, P x -> ok x) ->
  List.Forall P l1 -> List.Forall P l2 ->
  StronglySorted (fun x y => cmp x y <> Gt) l1 ->
  StronglySorted (fun x y => cmp x y <> Gt) l2 ->
  (forall x, P x -> List.filter (ties cmp x) l1 = List.filter (ties cmp x) l2) ->
  l1 = l2.
Proof using cmp_asym.
  intros HP. revert l2.
  induction l1 as [|a t1 IH]; intros [|b t2] H1 H2 S1 S2 H.
  - reflexivity.
  - inversion H2 as [|? ? Hb _]; subst. specialize (H b Hb). simpl in H.
    rewrite (ties_refl b (HP b Hb)) in H. discriminate.
  - inversion H1 as [|? ? Ha _]; subst. specialize (H a Ha). simpl in H.
    rewrite (ties_refl a (HP a Ha)) in H. discriminate.
  - inversion H1 as [|? ? Ha H1']; subst. inversion H2 as [|? ? Hb H2']; subst.
    inversion S1 as [|? ? S1' F1]; subst. inversion S2 as [|? ? S2' F2]; subst.
    pose proof (ties_refl a (HP a Ha)) as Ra.
    pose proof (ties_refl b (HP b Hb)) as Rb.
    assert (Hab : cmp a b <> Gt).
    { assert (Hin : In b (List.filter (ties cmp b) (a :: t1))).
      { rewrite (H b Hb). simpl. rewrite Rb. now left. }
      apply List.filter_In in Hin as [[->|Hin] _].
      - now apply ties_elim in Rb.
      - exact (proj1 (List.Forall_forall _ _) F1 b Hin). }
    assert (Hba : cmp b a <> Gt).
    { assert (Hin : In a (List.filter (ties cmp a) (b :: t2))).
      { rewrite <- (H a Ha). simpl. rewrite Ra. now left. }
      apply List.filter_In in Hin as [[->|Hin] _].
      - now apply ties_elim in Ra.
      - exact (proj1 (List.Forall_forall _ _) F2 a Hin). }
    pose proof (H a Ha) as E. simpl in E.
    rewrite Ra, (ties_intro a b Hab Hba) in E. injection E as <- _.
    f_equal. apply IH; try assumption.
    intros x Hx. specialize (H x Hx). simpl in H.
    destruct (ties cmp x a); [now injection H|exact H].
Qed.

(** Whatever array a sort returns for a consistent comparator, it is the
    array of the insertion sort. *)
Lemma sortedBy_unique (l out : list A) :
  List.Forall ok l -> sortedBy cmp l out -> out = jsSort cmp l.
Proof using cmp_asym cmp_trans.
  intros Hok (Hperm & Hsorted & Hstable).
  destruct (jsSort_sortedBy l Hok) as (Hperm' & Hsorted' & Hstable').
  apply (sorted_stable_eq (fun x => In x l)); try assumption.
  - intros x Hx. exact (proj1 (List.Forall_forall _ _) Hok x Hx).
  - apply List.Forall_forall. intros x Hx. exact (Permutation_in _ Hperm Hx).
  - apply List.Forall_forall. intros x Hx. exact (Permutation_in _ Hperm' Hx).
  - intros x Hx. now rewrite Hstable, Hstable'.
Qed.
End StableSort.

Lemma byVictories_Gt (a b : SkaterResult) :
  byVictories a b = Gt <-> (majorityVictories a < majorityVictories b)%Q.
Proof.
  unfold byVictories. destruct (Qeq_bool _ _) eqn:E; simpl.
  - apply Qeq_bool_iff in E. split; [discriminate|]. intros H. lra.
  - rewrite signQ_Gt. split; intros H; lra.
Qed.

(** The array that the first sort returns is that of the model, on every
    input. *)
Lemma byVictories_sort_unique (l out : list SkaterResult) :
  sortedBy byVictories l out -> out = jsSort byVictories l.
Proof.
  apply (sortedBy_unique byVictories (fun _ => True)).
  - intros x y _ _ H1 H2. apply byVictories_Gt in H1, H2. lra.
  - intros x y z _ _ _ H1 H2 H3. apply byVictories_Gt in H3.
    apply H1. apply byVictories_Gt.
    destruct (Qlt_le_dec (majorityVictories x) (majorityVictories y)) as [Hlt|Hle];
      [exact Hlt|].
    exfalso. apply H2. apply byVictories_Gt. lra.
  - apply List.Forall_forall. auto.
Qed.

Lemma ltb_not_leb (x y : float) : (x <? y)%float = true -> (y <=? x)%float = false.
Proof.
  rewrite FloatAxioms.ltb_spec, FloatAxioms.leb_spec. unfold SFltb, SFleb.
  rewrite (SFcompare_antisym (Prim2SF x) (Prim2SF y)).
  destruct (SFcompare (Prim2SF x) (Prim2SF y)) as [[]|]; simpl; congruence.
Qed.

Lemma ltb_not_eqb (x y : float) : (x <? y)%float = true -> (y =? x)%float = false.
Proof.
  rewrite FloatAxioms.ltb_spec, FloatAxioms.eqb_spec. unfold SFltb, SFeqb.
  rewrite (SFcompare_antisym (Prim2SF x) (Prim2SF y)).
  destruct (SFcompare (Prim2SF x) (Prim2SF y)) as [[]|]; simpl; congruence.
Qed.

(** A result that is not below another in the cascade is not sorted
    after it. *)
Lemma cascadeGe_not_Gt (c : Criteria) (x y : SkaterResult) :
  noNaN (levelsOf c x) -> noNaN (levelsOf c y) ->
  cascadeGe (levelsOf c x) (levelsOf c y) -> cascade c x y <> Gt.
Proof.
  intros [Hx2 Hx4] [Hy2 Hy4] Hge Hgt.
  unfold cascade, cascadeGe, levelsOf in *. simpl in *.
  destruct (Qeq_bool (comparisonScores c !!! rname y) (comparisonScores c !!! rname x))
    eqn:E1; simpl in Hgt.
  2:{ apply signQ_Gt in Hgt.
      assert (N : ~ (comparisonScores c !!! rname y == comparisonScores c !!! rname x)%Q)
        by (intros N; apply Qeq_bool_iff in N; congruence).
      destruct Hge as [H|[H _]]; [lra|]. apply N. now symmetry. }
  apply Qeq_bool_iff in E1.
  destruct Hge as [H|[_ Hge]]; [lra|].
  unfold strictNe in Hgt.
  destruct (bScoreSums c !!! rname y =? bScoreSums c !!! rname x)%float eqn:E2;
    simpl in Hgt.
  2:{ apply signF_sub_Gt in Hgt; [|assumption..].
      destruct Hge as [H|[H _]].
      - pose proof (ltb_not_leb _ _ Hgt) as N. apply ltb_leb in H. congruence.
      - rewrite eqb_sym in H. congruence. }
  destruct Hge as [H|[_ Hge]].
  { apply ltb_not_eqb in H. rewrite eqb_sym in H. congruence. }
  destruct (Qeq_bool (comparisonWithAll c !!! rname y) (comparisonWithAll c !!! rname x))
    eqn:E3; simpl in Hgt.
  2:{ apply signQ_Gt in Hgt.
      assert (N : ~ (comparisonWithAll c !!! rname y == comparisonWithAll c !!! rname x)%Q)
        by (intros N; apply Qeq_bool_iff in N; congruence).
      destruct Hge as [H|[H _]]; [lra|]. apply N. now symmetry. }
  apply Qeq_bool_iff in E3.
  destruct Hge as [H|[_ Hge]]; [lra|].
  apply signF_sub_Gt in Hgt; [|assumption..].
  apply ltb_not_leb in Hgt. congruence.
Qed.

(** The array that the sort of a tied group returns is that of the model
    when no sum of the group is NaN. *)
Lemma cascade_sort_unique (c : Criteria) (l out : list SkaterResult) :
  List.Forall (fun r => noNaN (levelsOf c r)) l ->
  sortedBy (cascade c) l out -> out = jsSort (cascade c) l.
Proof.
  apply (sortedBy_unique (cascade c) (fun r => noNaN (levelsOf c r))).
  - intros x y Hx Hy H. apply cascadeGe_not_Gt; [assumption..|].
    now apply cascade_Gt.
  - intros x y z Hx Hy Hz H1 H2. apply cascadeGe_not_Gt; [assumption..|].
    apply (cascadeGe_trans _ (levelsOf c y)); try assumption;
      now apply cascade_not_Gt.
Qed.

(** With pairwise distinct names and sums that are not NaN, this is every
    tied group that the ranking sorts: the group of the results with the
    majority victories of [r]. *)
Lemma tiedGroup_sort_unique (skaters : list SkaterScores) (r : SkaterResult)
    (out : list SkaterResult) :
  List.NoDup (List.map name skaters) ->
  (forall s, In s skaters ->
     is_nan (calculateBScoreSum s) = false /\
     is_nan (roundToOneDecimal (calculateTotalScore s)) = false) ->
  let tiedGroup :=
    List.filter (tiedWith r) (jsSort byVictories (scoredResults skaters)) in
  let c := criteriaOf skaters tiedGroup in
  sortedBy (cascade c) tiedGroup out -> out = jsSort (cascade c) tiedGroup.
Proof.
  intros Hnd Hnan tiedGroup c. apply cascade_sort_unique.
  pose proof (tiedGroup_perm skaters r) as HG. fold tiedGroup in HG.
  assert (HndG : List.NoDup (List.map rname tiedGroup)).
  { change (List.map rname tiedGroup)
      with (List.map (fun r => name (scores r)) tiedGroup).
    rewrite <- (List.map_map scores name).
    apply (Permutation_NoDup (Permutation_sym (Permutation_map name HG))).
    now apply NoDup_filter_names. }
  apply List.Forall_forall. intros x Hx.
  destruct (criteriaOf_closed skaters tiedGroup x HndG (in_map scores _ _ Hx))
    as (_ & H2 & _ & H4).
  fold c in H2, H4. unfold noNaN. rewrite H2, H4.
  apply List.filter_In in Hx as [Hx _].
  apply (Permutation_in _ (jsSort_perm _ _)) in Hx.
  unfold scoredResults in Hx. apply in_map_iff in Hx as (s & <- & Hs0).
  simpl. now apply Hnan.
Qed.

Lemma precedes_filter {A : Type} (p : A -> bool) (x y : A) (l : list A) :
  precedes x y l -> p x = true -> p y = true -> precedes x y (List.filter p l).
Proof.
  intros (l1 & l2 & l3 & ->) Px Py.
  exists (List.filter p l1), (List.filter p l2), (List.filter p l3).
  rewrite List.filter_app. cbn [List.filter]. rewrite Px, List.filter_app.
  cbn [List.filter]. now rewrite Py.
Qed.

Lemma filter_precedes {A : Type} (p : A -> bool) (x y : A) (l : list A) :
  precedes x y (List.filter p l) -> precedes x y l.
Proof.
  induction l as [|a l IH]; intros (l1 & l2 & l3 & E); simpl in E.
  - destruct l1; discriminate.
  - destruct (p a) eqn:Pa.
    + destruct l1 as [|b l1]; simpl in E.
      * injection E as -> E.
        assert (Hy : In y l).
        { assert (Hy : In y (List.filter p l))
            by (rewrite E; apply in_or_app; right; now left).
          now apply List.filter_In in Hy. }
        apply in_split in Hy as (m1 & m2 & ->).
        now exists [], m1, m2.
      * injection E as <- E.
        destruct IH as (m1 & m2 & m3 & ->); [now exists l1, l2, l3|].
        now exists (a :: m1), m2, m3.
    + destruct IH as (m1 & m2 & m3 & ->); [now exists l1, l2, l3|].
      now exists (a :: m1), m2, m3.
Qed.

Lemma precedes_lookup {A : Type} (x y : A) (l : list A) :
  precedes x y l <-> exists i j, i < j /\ l !! i = Some x /\ l !! j = Some y.
Proof.
  split.
  - intros (l1 & l2 & l3 & ->).
    exists (length l1), (length l1 + S (length l2)). split; [lia|]. split.
    + rewrite lookup_app_r by lia. now rewrite Nat.sub_diag.
    + rewrite lookup_app_r by lia.
      replace (length l1 + S (length l2) - length l1) with (S (length l2)) by lia.
      simpl. rewrite lookup_app_r by lia. now rewrite Nat.sub_diag.
  - intros (i & j & Hij & Hi & Hj).
    pose proof (take_drop_middle l i x Hi) as E.
    assert (Hy : drop (S i) l !! (j - S i) = Some y).
    { rewrite lookup_drop. rewrite <- Hj. f_equal. lia. }
    pose proof (take_drop_middle _ _ y Hy) as E'.
    exists (take i l), (take (j - S i) (drop (S i) l)),
           (drop (S (j - S i)) (drop (S i) l)).
    now rewrite E', E.
Qed.

Lemma precedes_map {A B : Type} (f : A -> B) (x y : A) (l : list A) :
  precedes x y l -> precedes (f x) (f y) (List.map f l).
Proof.
  intros (l1 & l2 & l3 & ->).
  exists (List.map f l1), (List.map f l2), (List.map f l3).
  now rewrite List.map_app, List.map_cons, List.map_app.
Qed.

(** ** Results that tie on every level *)

Lemma byVictories_tied (r a b : SkaterResult) :
  tiedWith r a = true -> tiedWith r b = true -> byVictories a b <> Gt.
Proof.
  intros Ha Hb. apply tiedWith_iff in Ha, Hb. unfold byVictories.
  assert (E : Qeq_bool (majorityVictories b) (majorityVictories a) = true)
    by (apply Qeq_bool_iff; now rewrite Ha, Hb).
  rewrite E. discriminate.
Qed.

Lemma eqb_refl_of (x y : float) : (x =? y)%float = true -> (x =? x)%float = true.
Proof.
  intros H. apply eqb_true_not_nan in H as [H _]. unfold is_nan in H.
  now apply Bool.negb_false_iff in H.
Qed.

Lemma tiedAs_spec (c : Criteria) (r x : SkaterResult) :
  tiedAs c r x = true <-> cascadeTie (levelsOf c x) (levelsOf c r).
Proof.
  unfold tiedAs, cascadeTie. rewrite !andb_true_iff, !Qeq_bool_iff. tauto.
Qed.

Lemma cascade_tiedAs (c : Criteria) (r a b : SkaterResult) :
  tiedAs c r a = true -> tiedAs c r b = true -> cascade c a b <> Gt.
Proof.
  intros Ha Hb. apply tiedAs_spec in Ha as (A1 & A2 & A3 & A4).
  apply tiedAs_spec in Hb as (B1 & B2 & B3 & B4).
  unfold levelsOf in *. simpl in *. unfold cascade. cbv zeta.
  assert (E1 : Qeq_bool (comparisonScores c !!! rname b)
                        (comparisonScores c !!! rname a) = true)
    by (apply Qeq_bool_iff; now rewrite A1, B1).
  rewrite E1. simpl.
  assert (E2 : (bScoreSums c !!! rname b =? bScoreSums c !!! rname a)%float = true).
  { apply (eqb_trans _ _ _ B2). now rewrite eqb_sym. }
  unfold strictNe. rewrite E2. simpl.
  assert (E3 : Qeq_bool (comparisonWithAll c !!! rname b)
                        (comparisonWithAll c !!! rname a) = true)
    by (apply Qeq_bool_iff; now rewrite A3, B3).
  rewrite E3. simpl.
  assert (E4 : (totalScore b =? totalScore a)%float = true).
  { apply (eqb_trans _ _ _ B4). now rewrite eqb_sym. }
  destruct (eqb_true_not_nan _ _ E4) as [Nb Na].
  rewrite signF_sub by assumption.
  destruct (eqb_not_gt _ _ E4) as [G1 G2]. unfold gt in G1, G2.
  rewrite G1, G2. discriminate.
Qed.

Lemma cascadeTie_sym (a b : Levels) : cascadeTie a b -> cascadeTie b a.
Proof.
  intros (H1 & H2 & H3 & H4). unfold cascadeTie.
  rewrite (eqb_sym (bSum b)), (eqb_sym (total b)). repeat split; try assumption;
    now symmetry.
Qed.

(** With pairwise distinct names, of two results that tie on the majority
    victories and on the four levels, the one whose skater comes first in
    the input comes first in the output. *)
Lemma tie_order (skaters : list SkaterScores) (out : list SkaterResult)
    (i j : nat) (rX rY : SkaterResult) :
  List.NoDup (List.map name skaters) ->
  calculateRankings skaters = Some out ->
  out !! i = Some rX -> out !! j = Some rY ->
  (majorityVictories rX == majorityVictories rY)%Q ->
  cascadeTie (cascadeLevels skaters rX) (cascadeLevels skaters rY) ->
  precedes (scores rX) (scores rY) skaters -> i < j.
Proof.
  intros Hnd Hout Hi Hj Hmv Htie Hprec.
  assert (HinX : In rX out)
    by (apply list_elem_of_In; eapply list_elem_of_lookup_2; exact Hi).
  assert (HinY : In rY out)
    by (apply list_elem_of_In; eapply list_elem_of_lookup_2; exact Hj).
  destruct (result_of_skater skaters out rX Hout HinX) as (_ & HtX & HmX & _).
  destruct (result_of_skater skaters out rY Hout HinY) as (_ & HtY & HmY & _).
  set (f := fun s => setVictories (initialResult s)
                       (calculateMajorityVictories skaters !!! name s)
                       (calculateHeadToHeadDetails s skaters)).
  set (sX := f (scores rX)). set (sY := f (scores rY)).
  set (sorted := jsSort byVictories (scoredResults skaters)).
  set (tiedGroup := List.filter (tiedWith rX) sorted).
  set (c := criteriaOf skaters tiedGroup).
  (* the class of majority victories *)
  assert (TX : tiedWith rX sX = true).
  { apply tiedWith_iff. simpl. fold (rname rX). now rewrite HmX. }
  assert (TY : tiedWith rX sY = true).
  { apply tiedWith_iff. simpl. fold (rname rY). now rewrite <- HmY, Hmv. }
  assert (P1 : precedes sX sY tiedGroup).
  { unfold tiedGroup, sorted. rewrite jsSort_filter.
    - apply precedes_filter; [|exact TX|exact TY].
      apply (precedes_map f). exact Hprec.
    - intros a b _ _. apply byVictories_tied. }
  (* the class of the cascade *)
  assert (LX : levelsOf c sX = levelsOf c rX).
  { unfold levelsOf. simpl. fold (rname rX). now rewrite HtX. }
  assert (LY : levelsOf c sY = levelsOf c rY).
  { unfold levelsOf. simpl. fold (rname rY). now rewrite HtY. }
  assert (Htie' : cascadeTie (levelsOf c rX) (levelsOf c rY)).
  { destruct (levelsOf_closed skaters out rX rX Hnd Hout HinX ltac:(reflexivity))
      as (X1 & X2 & X3 & X4).
    destruct (levelsOf_closed skaters out rX rY Hnd Hout HinY ltac:(now symmetry))
      as (Y1 & Y2 & Y3 & Y4).
    fold sorted tiedGroup c in X1, X2, X3, X4, Y1, Y2, Y3, Y4.
    destruct Htie as (H1 & H2 & H3 & H4). unfold cascadeTie.
    rewrite X1, X2, X3, X4, Y1, Y2, Y3, Y4. auto. }
  assert (AX : tiedAs c rX sX = true).
  { apply tiedAs_spec. rewrite LX. destruct Htie' as (_ & H2 & _ & H4).
    split; [reflexivity|]. split; [now apply eqb_refl_of in H2|].
    split; [reflexivity|]. now apply eqb_refl_of in H4. }
  assert (AY : tiedAs c rX sY = true).
  { apply tiedAs_spec. rewrite LY. now apply cascadeTie_sym. }
  assert (P2 : precedes sX sY (jsSort (cascade c) tiedGroup)).
  { apply (filter_precedes (tiedAs c rX)). rewrite jsSort_filter.
    - now apply precedes_filter.
    - intros a b _ _. apply cascade_tiedAs. }
  apply precedes_lookup in P2 as (k1 & k2 & Hk & Hk1 & Hk2).
  (* the run of the output *)
  destruct (tied_run skaters out i rX Hout Hi)
    as (start & group & Hrange & Hlen & Hg & Hlook & Hpos).
  fold sorted tiedGroup in Hlen, Hg.
  assert (Hk2l : k2 < length tiedGroup).
  { apply lookup_lt_Some in Hk2. now rewrite jsSort_length in Hk2. }
  unfold rankGroup in Hg.
  replace (length tiedGroup =? 1) with false in Hg
    by (symmetry; apply Nat.eqb_neq; lia).
  destruct (breakTies_shape skaters tiedGroup group (1 + start) Hg) as [Hgl Hshape].
  fold c in Hshape.
  assert (Hat : forall k s pos r,
            jsSort (cascade c) tiedGroup !! k = Some s ->
            out !! pos = Some r -> rname r = rname s -> pos = start + k).
  { intros k s pos r Hs Hr En.
    assert (Hkl : k < length group).
    { apply lookup_lt_Some in Hs. rewrite jsSort_length in Hs. lia. }
    destruct (lookup_lt_is_Some_2 group k Hkl) as [r' Hr'].
    destruct (Hshape k r' Hr') as (r0 & Hr0 & Hc & _).
    rewrite Hs in Hr0. injection Hr0 as <-.
    apply core_fields in Hc as (_ & Hn & _).
    apply (result_position skaters out pos (start + k) r r' Hnd Hout Hr).
    - now rewrite Hlook.
    - now rewrite En, Hn. }
  rewrite (Hat k1 sX i rX Hk1 Hi eq_refl), (Hat k2 sY j rY Hk2 Hj eq_refl). lia.
Qed.

(** With pairwise distinct names and sums that are not NaN, two results
    that tie on the majority victories and on the four levels of the cascade
    stand in the output in the order of their skaters in the input: both
    sorts are stable.  (With a NaN sum in a tied group the comparator of the
    cascade is inconsistent and the order is the engine's.) *)
Theorem full_ties_keep_input_order (skaters : list SkaterScores) :
  List.NoDup (List.map name skaters) ->
  (forall s, In s skaters ->
     is_nan (calculateBScoreSum s) = false /\
     is_nan (roundToOneDecimal (calculateTotalScore s)) = false) ->
  exists out,
    calculateRankings skaters = Some out /\
    forall i j rX rY, out !! i = Some rX -> out !! j = Some rY ->
      (majorityVictories rX == majorityVictories rY)%Q ->
      cascadeTie (cascadeLevels skaters rX) (cascadeLevels skaters rY) ->
      (i < j <-> precedes (scores rX) (scores rY) skaters).
Proof.
  intros Hnd _.
  destruct (calculateRankings_spec skaters) as (out & Hout & _).
  exists out. split; [exact Hout|].
  intros i j rX rY Hi Hj Hmv Htie. split; [|now apply (tie_order skaters out)].
  intros Hij.
  assert (HinX : In rX out)
    by (apply list_elem_of_In; eapply list_elem_of_lookup_2; exact Hi).
  assert (HinY : In rY out)
    by (apply list_elem_of_In; eapply list_elem_of_lookup_2; exact Hj).
  destruct (result_of_skater skaters out rX Hout HinX) as (HsX & _).
  destruct (result_of_skater skaters out rY Hout HinY) as (HsY & _).
  apply list_elem_of_In, list_elem_of_lookup_1 in HsX as (i0 & Hi0).
  apply list_elem_of_In, list_elem_of_lookup_1 in HsY as (j0 & Hj0).
  destruct (Nat.lt_trichotomy i0 j0) as [Hlt|[Heq|Hgt]].
  - apply precedes_lookup. eauto.
  - exfalso. subst j0. rewrite Hi0 in Hj0. injection Hj0 as E.
    assert (i = j); [|lia].
    apply (result_position skaters out i j rX rY Hnd Hout Hi Hj).
    unfold rname. now rewrite E.
  - exfalso.
    assert (j < i); [|lia].
    apply (tie_order skaters out j i rY rX Hnd Hout Hj Hi).
    + now symmetry.
    + now apply cascadeTie_sym.
    + apply precedes_lookup. eauto.
Qed.

(** ** Sums and rounded totals of marks that are not negative *)

Lemma shr_fexp_nonneg (prec emax m e : Z) (l : location) :
  (0 <= m)%Z -> (0 <= shr_m (fst (shr_fexp prec emax m e l)))%Z.
Proof.
  intros Hm. unfold shr_fexp, shr.
  destruct (fexp prec emax (Zdigits2 m + e) - e)%Z as [|p|p]; simpl fst;
    try (rewrite shr_record_of_loc_m; exact Hm).
  rewrite iter_shr_1_m by (rewrite shr_record_of_loc_m; exact Hm).
  rewrite shr_record_of_loc_m. apply Z.div_pos; [exact Hm|].
  apply Z.pow_pos_nonneg; lia.
Qed.

Lemma round_nearest_even_nonneg (m : Z) (l : location) :
  (0 <= m)%Z -> (0 <= round_nearest_even m l)%Z.
Proof.
  intros Hm. unfold round_nearest_even.
  destruct l as [|[]]; try lia. destruct (Z.even m); lia.
Qed.

(** Rounding a mantissa that is not negative gives a number of the sign
    asked for, never NaN. *)
Lemma binary_round_aux_nonneg (prec emax : Z) (m e : Z) (l : location) :
  (0 <= m)%Z -> nonNegativeSF (binary_round_aux prec emax false m e l) = true.
Proof.
  intros Hm. unfold binary_round_aux.
  pose proof (shr_fexp_nonneg prec emax m e l Hm) as H1.
  destruct (shr_fexp prec emax m e l) as [mrs' e']. simpl in H1.
  pose proof (round_nearest_even_nonneg (shr_m mrs') (loc_of_shr_record mrs') H1) as H2.
  pose proof (shr_fexp_nonneg prec emax _ e' loc_Exact H2) as H3.
  destruct (shr_fexp prec emax _ e' loc_Exact) as [mrs'' e'']. simpl in H3.
  destruct (shr_m mrs'') as [|p|p]; try lia; [reflexivity|].
  destruct (e'' <=? emax - prec)%Z; reflexivity.
Qed.

Lemma binary_normalize_nonneg (prec emax : Z) (m e : Z) :
  (0 <= m)%Z -> nonNegativeSF (binary_normalize prec emax m e false) = true.
Proof.
  intros Hm. destruct m as [|p|p]; [reflexivity| |lia].
  simpl. unfold binary_round.
  destruct (shl_align p e _) as [mz ez]. apply binary_round_aux_nonneg. lia.
Qed.

Lemma SFadd_nonneg (prec emax : Z) (fx fy : spec_float) :
  nonNegativeSF fx = true -> nonNegativeSF fy = true ->
  nonNegativeSF (SFadd prec emax fx fy) = true.
Proof.
  destruct fx as [[]|[]| |[] mx ex], fy as [[]|[]| |[] my ey]; simpl;
    try discriminate; try reflexivity.
  intros _ _.
  apply (binary_normalize_nonneg prec emax
           (Z.pos (fst (shl_align mx ex (Z.min ex ey)))
            + Z.pos (fst (shl_align my ey (Z.min ex ey))))). lia.
Qed.

Lemma SFmul_nonneg (prec emax : Z) (fx fy : spec_float) :
  nonNegativeSF fx = true -> nonNegativeSF fy = true ->
  (forall s, fy <> S754_zero s) -> (forall s, fy <> S754_infinity s) ->
  nonNegativeSF (SFmul prec emax fx fy) = true.
Proof.
  intros Hx Hy Hz Hi.
  destruct fy as [sy|sy| |[] my ey]; try discriminate;
    try (exfalso; now apply (Hz sy)); try (exfalso; now apply (Hi sy)).
  destruct fx as [[]|[]| |[] mx ex]; simpl; try discriminate; try reflexivity.
  apply binary_round_aux_nonneg. lia.
Qed.

Lemma div_eucl_nonneg (a b : Z) :
  (0 <= a)%Z -> (0 < b)%Z -> (0 <= fst (Z.div_eucl a b))%Z.
Proof.
  intros Ha Hb. change (fst (Z.div_eucl a b)) with (a / b)%Z.
  apply Z.div_pos; assumption.
Qed.

Lemma SFdiv_nonneg (prec emax : Z) (fx fy : spec_float) :
  nonNegativeSF fx = true -> nonNegativeSF fy = true ->
  (forall s, fy <> S754_zero s) -> (forall s, fy <> S754_infinity s) ->
  nonNegativeSF (SFdiv prec emax fx fy) = true.
Proof.
  intros Hx Hy Hz Hi.
  destruct fy as [sy|sy| |[] my ey]; try discriminate;
    try (exfalso; now apply (Hz sy)); try (exfalso; now apply (Hi sy)).
  destruct fx as [[]|[]| |[] mx ex]; simpl; try discriminate; try reflexivity.
  unfold SFdiv_core_binary.
  set (m' := match (ex - ey - _)%Z with
             | 0%Z => Z.pos mx | Z.pos _ => _ | Z.neg _ => 0%Z end).
  assert (Hm : (0 <= m')%Z).
  { unfold m'. destruct (ex - ey - _)%Z; try lia. apply Z.shiftl_nonneg. lia. }
  pose proof (div_eucl_nonneg m' (Z.pos my) Hm ltac:(lia)) as Hq.
  destruct (Z.div_eucl m' (Z.pos my)) as [q r]. simpl in Hq.
  now apply binary_round_aux_nonneg.
Qed.

Lemma add_nonNegative (x y : float) :
  nonNegative x = true -> nonNegative y = true -> nonNegative (x + y) = true.
Proof. unfold nonNegative. rewrite add_spec. apply SFadd_nonneg. Qed.

Lemma Math_round_nonNegative (x : float) :
  nonNegative x = true -> nonNegative (Math_round x) = true.
Proof.
  intros Hx. unfold Math_round.
  destruct (Prim2SF x) as [s|s| |s m e] eqn:E; try exact Hx.
  unfold nonNegative in Hx. rewrite E in Hx. simpl in Hx.
  apply Bool.negb_true_iff in Hx. subst s.
  destruct (0 <=? e)%Z; [unfold nonNegative; now rewrite E|].
  unfold nonNegative. rewrite of_uint63_spec.
  apply binary_normalize_nonneg. apply Uint63.to_Z_bounded.
Qed.

Lemma roundToOneDecimal_nonNegative (x : float) :
  nonNegative x = true -> nonNegative (roundToOneDecimal x) = true.
Proof.
  intros Hx. unfold roundToOneDecimal.
  assert (H10 : Prim2SF 10 = S754_finite false 5629499534213120 (-49))
    by (vm_compute; reflexivity).
  assert (Hm : nonNegative (x * 10) = true).
  { unfold nonNegative. rewrite mul_spec, H10.
    apply SFmul_nonneg; [exact Hx|reflexivity|discriminate|discriminate]. }
  apply Math_round_nonNegative in Hm.
  unfold nonNegative. rewrite div_spec, H10.
  apply SFdiv_nonneg; [exact Hm|reflexivity|discriminate|discriminate].
Qed.

Lemma nonNegative_not_nan (x : float) : nonNegative x = true -> is_nan x = false.
Proof.
  intros H. destruct (is_nan x) eqn:E; [|reflexivity].
  apply is_nan_spec in E. unfold nonNegative in H. rewrite E in H. discriminate.
Qed.

Lemma fold_add_nonNegative (l : list float) (a : float) :
  nonNegative a = true -> List.Forall (fun x => nonNegative x = true) l ->
  nonNegative (fold_left (fun sum x => (sum + x)%float) l a) = true.
Proof.
  intros Ha Hl. revert a Ha. induction Hl as [|x l Hx _ IH]; intros a Ha; simpl.
  - exact Ha.
  - apply IH. now apply add_nonNegative.
Qed.

Lemma orZero_nonNegative (arr : list (option float)) (i : nat) :
  forallb nonNegativeMark arr = true -> nonNegative (orZero arr i) = true.
Proof.
  intros H. unfold orZero.
  destruct (arr !! i) as [[x|]|] eqn:E; try reflexivity.
  apply list_elem_of_lookup_2, list_elem_of_In in E.
  exact (proj1 (forallb_forall _ _) H (Some x) E).
Qed.

(** For marks that are not negative (and not NaN), the sum of the
    artistic marks, the total and the rounded total are not negative
    either, and none of them is NaN. *)
Theorem nonNegativeMarks_no_NaN (skater : SkaterScores) :
  nonNegativeMarks skater = true ->
  nonNegative (calculateBScoreSum skater) = true /\
  nonNegative (calculateTotalScore skater) = true /\
  nonNegative (roundToOneDecimal (calculateTotalScore skater)) = true /\
  is_nan (calculateBScoreSum skater) = false /\
  is_nan (roundToOneDecimal (calculateTotalScore skater)) = false.
Proof.
  intros H. apply andb_prop in H as [Ha Hb].
  assert (HB : nonNegative (calculateBScoreSum skater) = true).
  { unfold calculateBScoreSum. apply fold_add_nonNegative; [reflexivity|].
    apply List.Forall_forall. intros x Hx. unfold nonNull in Hx.
    apply in_flat_map in Hx as ([y|] & Hy & Hx); [|destruct Hx].
    destruct Hx as [<-|[]]. exact (proj1 (forallb_forall _ _) Hb (Some y) Hy). }
  assert (HT : nonNegative (calculateTotalScore skater) = true).
  { unfold calculateTotalScore, calculateJudgeTotals. cbv zeta.
    apply fold_add_nonNegative; [reflexivity|].
    apply List.Forall_forall. intros x Hx. apply in_map_iff in Hx as (i & <- & _).
    apply add_nonNegative; now apply orZero_nonNegative. }
  pose proof (roundToOneDecimal_nonNegative _ HT) as HR.
  repeat split; try assumption; now apply nonNegative_not_nan.
Qed.

(** ** The keys of the maps *)

Lemma fold_insert_keys {V : Type} (v : SkaterScores -> V) (l : list SkaterScores)
    (k : string) :
  forall m : gmap string V,
    is_Some (fold_left (fun m s => <[name s := v s]> m) l m !! k) ->
    is_Some (m !! k) \/ In k (List.map name l).
Proof.
  induction l as [|s l IH]; intros m H; simpl in *; [now left|].
  apply IH in H as [H|H]; [|now right; right].
  apply lookup_insert_is_Some in H as [H|[_ H]]; [right; now left|now left].
Qed.

Lemma forEachPair_keys (body : gmap string Q -> SkaterScores -> SkaterScores -> gmap string Q)
    (k : string) :
  (forall m X Y, is_Some (body m X Y !! k) ->
     is_Some (m !! k) \/ k = name X \/ k = name Y) ->
  forall l m, is_Some (forEachPair body l m !! k) ->
    is_Some (m !! k) \/ In k (List.map name l).
Proof.
  intros Hbody. induction l as [|x rest IH]; intros m H; simpl in *; [now left|].
  apply IH in H as [H|H]; [|now right; right].
  assert (G : forall l' m', is_Some (fold_left (fun st x2 => body st x x2) l' m' !! k) ->
            is_Some (m' !! k) \/ k = name x \/ In k (List.map name l')).
  { induction l' as [|y l' IH']; intros m' H'; simpl in *; [now left|].
    apply IH' in H' as [H'|[H'|H']]; [|tauto|tauto].
    apply Hbody in H' as [H'|[H'|H']]; [tauto|tauto|]. right. right. left.
    now symmetry. }
  apply G in H as [H|[H|H]]; [now left| |now right; right].
  right. left. now symmetry.
Qed.

Lemma insert_keys (m : gmap string Q) (k k' : string) (v : Q) :
  is_Some (<[k' := v]> m !! k) -> is_Some (m !! k) \/ k = k'.
Proof.
  intros H. apply lookup_insert_is_Some in H as [H|[_ H]]; [right; now symmetry|now left].
Qed.

Lemma awardVictory_keys (m : gmap string Q) (X Y : SkaterScores) (k : string) :
  is_Some (awardVictory m X Y !! k) -> is_Some (m !! k) \/ k = name X \/ k = name Y.
Proof.
  unfold awardVictory. cbv zeta.
  destruct (Qgtb _ _); [|destruct (Qgtb _ _)]; intros H;
    repeat (apply insert_keys in H as [H|H]; [|tauto]); tauto.
Qed.

Lemma addDirect_keys (m : gmap string Q) (X Y : SkaterScores) (k : string) :
  is_Some (addDirect m X Y !! k) -> is_Some (m !! k) \/ k = name X \/ k = name Y.
Proof.
  unfold addDirect. cbv zeta. intros H.
  repeat (apply insert_keys in H as [H|H]; [|tauto]); tauto.
Qed.

Lemma initScores_keys (l : list SkaterScores) (k : string) :
  is_Some (initScores l !! k) -> In k (List.map name l).
Proof.
  intros H. apply (fold_insert_keys (fun _ => 0%Q)) in H as [H|H]; [|exact H].
  rewrite lookup_empty in H. now destruct H.
Qed.

(** The three maps keyed by name hold exactly the names they were built
    from: a name of the list is found, no other key is. *)
Theorem maps_hold_the_names (skaters tiedSkaters : list SkaterScores) (k : string) :
  (is_Some (calculateMajorityVictories skaters !! k) <-> In k (List.map name skaters)) /\
  (is_Some (tieBreakByDirectComparison tiedSkaters !! k) <->
   In k (List.map name tiedSkaters)) /\
  (is_Some (tieBreakByComparisonWithAll tiedSkaters skaters !! k) <->
   In k (List.map name tiedSkaters)).
Proof.
  split; [|split]; split.
  - intros H. unfold calculateMajorityVictories in H.
    apply (forEachPair_keys _ k (fun m X Y => awardVictory_keys m X Y k)) in H
      as [H|H]; [now apply initScores_keys|exact H].
  - intros H. unfold calculateMajorityVictories.
    apply forEachPair_present; [intros; now apply awardVictory_present|].
    now apply initScores_present.
  - intros H. unfold tieBreakByDirectComparison in H.
    apply (forEachPair_keys _ k (fun m X Y => addDirect_keys m X Y k)) in H
      as [H|H]; [now apply initScores_keys|exact H].
  - intros H. unfold tieBreakByDirectComparison.
    apply forEachPair_present; [intros; now apply addDirect_present|].
    now apply initScores_present.
  - intros H. unfold tieBreakByComparisonWithAll in H.
    apply (fold_insert_keys (fun s => scoreAgainstAll s skaters)) in H as [H|H];
      [now apply initScores_keys|exact H].
  - intros H. unfold tieBreakByComparisonWithAll.
    apply (fold_insert_present (fun s => scoreAgainstAll s skaters)). now right.
Qed.

(** ** The head-to-head network *)

Lemma fold_opt_insert_lookup {A V : Type} (key : A -> string) (val : A -> option V)
    (l : list A) :
  List.NoDup (List.map key l) ->
  forall (m : gmap string V) (k : string),
    fold_left (fun m a => match val a with
                          | None => m
                          | Some v => <[key a := v]> m
                          end) l m !! k =
    match List.find (fun a => String.eqb (key a) k) l with
    | Some a => match val a with Some v => Some v | None => m !! k end
    | None => m !! k
    end.
Proof.
  induction l as [|a l IH]; intros Hnd m k; simpl; [reflexivity|].
  simpl in Hnd. inversion Hnd as [|? ? Ha Hnd']; subst.
  rewrite IH by exact Hnd'.
  destruct (String.eqb (key a) k) eqn:E.
  - apply String.eqb_eq in E. subst k.
    destruct (List.find (fun a0 => String.eqb (key a0) (key a)) l) as [b|] eqn:F.
    + exfalso. apply List.find_some in F as [Hb Eb]. apply String.eqb_eq in Eb.
      apply Ha. rewrite <- Eb. now apply in_map.
    + destruct (val a) as [v|]; [apply lookup_insert_eq|reflexivity].
  - apply String.eqb_neq in E.
    destruct (List.find _ l) as [b|]; destruct (val a) as [v|];
      try reflexivity; try destruct (val b); try reflexivity;
      now apply lookup_insert_ne.
Qed.

Lemma find_by_name (results : list SkaterResult) (s : string) (r : SkaterResult) :
  List.NoDup (List.map rname results) ->
  (List.find (fun a => String.eqb (rname a) s) results = Some r <->
   In r results /\ rname r = s).
Proof.
  intros Hnd. split.
  - intros F. apply List.find_some in F as [Hr E]. now apply String.eqb_eq in E.
  - intros [Hr <-]. induction results as [|a l IH]; [destruct Hr|].
    simpl in Hnd. inversion Hnd as [|? ? Ha Hnd']; subst. simpl.
    destruct Hr as [->|Hr]; [now rewrite String.eqb_refl|].
    destruct (String.eqb (rname a) (rname r)) eqn:E; [|now apply IH].
    apply String.eqb_eq in E. exfalso. apply Ha. rewrite E. now apply in_map.
Qed.

Lemma mapSet_In {V : Type} (k k' : string) (v v' : V) (m : list (string * V)) :
  In (k', v') (mapSet k v m) <->
  (k' = k /\ v' = v) \/ (k' <> k /\ In (k', v') m).
Proof.
  unfold mapSet. destruct (existsb _ m) eqn:E.
  - apply existsb_exists in E as ((k0 & v0) & H0 & E0). simpl in E0.
    apply String.eqb_eq in E0. subst k0.
    rewrite in_map_iff. split.
    + intros ((k1 & v1) & E1 & H1). simpl in E1.
      destruct (String.eqb k1 k) eqn:E2.
      * injection E1 as <- <-. now left.
      * injection E1 as <- <-. apply String.eqb_neq in E2. now right.
    + intros [[-> ->]|[Hne Hin]].
      * exists (k, v0). simpl. now rewrite String.eqb_refl.
      * exists (k', v'). simpl. apply String.eqb_neq in Hne. now rewrite Hne.
  - rewrite in_app_iff. simpl. split.
    + intros [Hin|[[= <- <-]|[]]]; [|now left].
      right. split; [|exact Hin]. intros ->.
      assert (existsb (fun e => String.eqb (fst e) k) m = true); [|congruence].
      apply existsb_exists. exists (k, v'). simpl. now rewrite String.eqb_refl.
    + intros [[-> ->]|[_ Hin]]; [right; now left|now left].
Qed.

(** The map filled by a loop of [set], every value a function of its
    key: the entries are the keys set, each with its value. *)
Lemma fold_mapSet_In {A V : Type} (key : A -> string) (val : string -> option V)
    (l : list A) (k : string) (v : V) :
  In (k, v) (fold_left (fun m a => match val (key a) with
                                   | None => m
                                   | Some v => mapSet (key a) v m
                                   end) l []) <->
  In k (List.map key l) /\ val k = Some v.
Proof.
  assert (G : forall m,
            In (k, v) (fold_left (fun m a => match val (key a) with
                                             | None => m
                                             | Some v => mapSet (key a) v m
                                             end) l m) <->
            (In k (List.map key l) /\ val k = Some v) \/
            (In (k, v) m /\ (~ In k (List.map key l) \/ val k = None))).
  { induction l as [|a l IH]; intros m.
    - simpl. tauto.
    - cbn [fold_left List.map]. rewrite IH. clear IH.
      assert (Hcons : In k (key a :: List.map key l) <->
                      key a = k \/ In k (List.map key l)) by reflexivity.
      rewrite Hcons. clear Hcons.
      destruct (in_dec String.string_dec k (List.map key l)) as [Hin|Hout].
      all: destruct (val (key a)) as [va|] eqn:Ea.
      all: try rewrite mapSet_In.
      all: destruct (String.eqb_spec k (key a)) as [E|Hne];
        [subst k; rewrite Ea|assert (key a <> k) by congruence];
        intuition congruence. }
  rewrite G. simpl. tauto.
Qed.

Lemma fold_left_ext {A B : Type} (f g : A -> B -> A) (l : list B) (a : A) :
  (forall a b, f a b = g a b) -> fold_left f l a = fold_left g l a.
Proof.
  intros H. revert a. induction l as [|b l IH]; intros a; simpl; [reflexivity|].
  now rewrite H, IH.
Qed.

Lemma rankMapOf_lookup (results : list SkaterResult) (s : string) :
  List.NoDup (List.map rname results) ->
  rankMapOf results !! s
  = option_map rank (List.find (fun a => String.eqb (rname a) s) results).
Proof.
  intros Hnd. unfold rankMapOf.
  rewrite (fold_opt_insert_lookup rname (fun a => Some (rank a)) results Hnd ∅ s).
  destruct (List.find _ results); [reflexivity|apply lookup_empty].
Qed.

Lemma allLinksOf_lookup (results : list SkaterResult) (s : string) :
  List.NoDup (List.map rname results) ->
  allLinksOf results !! s
  = match List.find (fun a => String.eqb (rname a) s) results with
    | Some r => option_map victoriesOf (headToHeadResults r)
    | None => None
    end.
Proof.
  intros Hnd. unfold allLinksOf.
  rewrite (fold_left_ext _
             (fun m a => match option_map victoriesOf (headToHeadResults a) with
                         | None => m
                         | Some v => <[rname a := v]> m
                         end))
    by (intros m a; now destruct (headToHeadResults a)).
  rewrite (fold_opt_insert_lookup rname
             (fun a => option_map victoriesOf (headToHeadResults a)) results Hnd ∅ s).
  destruct (List.find _ results) as [r|]; [|apply lookup_empty].
  destruct (headToHeadResults r); [reflexivity|apply lookup_empty].
Qed.

Lemma victoriesOf_In (h : list HeadToHeadResult) (t : string) :
  In t (victoriesOf h) <-> exists e, In e h /\ opponent e = t /\ won e = true.
Proof.
  unfold victoriesOf. rewrite distinct_names, in_map_iff. split.
  - intros (e & <- & He). apply List.filter_In in He as [He Hw]. eauto.
  - intros (e & He & <- & Hw). exists e. split; [reflexivity|].
    apply List.filter_In. auto.
Qed.

Lemma beats_iff (results : list SkaterResult) (s t : string) :
  List.NoDup (List.map rname results) ->
  (beats results s t <->
   exists dv, allLinksOf results !! s = Some dv /\ In t dv).
Proof.
  intros Hnd. rewrite allLinksOf_lookup by exact Hnd. split.
  - intros (r & h & e & Hr & Hs & Hh & He & Ho & Hw).
    rewrite (proj2 (find_by_name results s r Hnd) (conj Hr Hs)), Hh. simpl.
    eexists. split; [reflexivity|]. apply victoriesOf_In. eauto.
  - intros (dv & Hdv & Ht).
    destruct (List.find _ results) as [r|] eqn:F; [|discriminate].
    apply (find_by_name results s r Hnd) in F as [Hr Hs].
    destruct (headToHeadResults r) as [h|] eqn:Hh; [|discriminate].
    simpl in Hdv. injection Hdv as <-.
    apply victoriesOf_In in Ht as (e & He & Ho & Hw).
    exists r, h, e. repeat split; assumption.
Qed.

Lemma hasRank_iff (results : list SkaterResult) (s : string) (n : nat) :
  List.NoDup (List.map rname results) ->
  (hasRank results s n <-> rankMapOf results !! s = Some n).
Proof.
  intros Hnd. rewrite rankMapOf_lookup by exact Hnd. split.
  - intros (r & Hr & Hs & Hn).
    now rewrite (proj2 (find_by_name results s r Hnd) (conj Hr Hs)), <- Hn.
  - destruct (List.find _ results) as [r|] eqn:F; [|discriminate].
    apply (find_by_name results s r Hnd) in F as [Hr Hs].
    simpl. intros [= <-]. exists r. repeat split; assumption.
Qed.

(** The test of the reduction: [source] has won against a skater ranked
    strictly between itself and [target] that has won against [target]. *)
Lemma hasPathThrough_iff (results : list SkaterResult) (s t : string) :
  List.NoDup (List.map rname results) ->
  (hasPathThrough (rankMapOf results) s t (allLinksOf results) = true <->
   exists b rs rb rt,
     b <> t /\ beats results s b /\ beats results b t /\
     hasRank results s rs /\ hasRank results b rb /\ hasRank results t rt /\
     rs < rb /\ rb < rt).
Proof.
  intros Hnd. unfold hasPathThrough. split.
  - destruct (allLinksOf results !! s) as [dv|] eqn:Hdv; [|discriminate].
    intros H. apply existsb_exists in H as (b & Hb & H).
    destruct (String.eqb_spec b t) as [E|Hne]; [discriminate|].
    destruct (rankMapOf results !! b) as [rb|] eqn:Rb; [|discriminate].
    destruct (rankMapOf results !! s) as [rs|] eqn:Rs; [|discriminate].
    destruct (rankMapOf results !! t) as [rt|] eqn:Rt;
      [|simpl in H; rewrite andb_false_r in H; discriminate].
    simpl in H.
    destruct (rs <? rb) eqn:L1; [|discriminate].
    destruct (rb <? rt) eqn:L2; [|discriminate]. simpl in H.
    destruct (allLinksOf results !! b) as [bv|] eqn:Hbv; [|discriminate].
    apply existsb_exists in H as (t' & Ht' & E). apply String.eqb_eq in E. subst t'.
    exists b, rs, rb, rt. split; [exact Hne|].
    split; [apply beats_iff; eauto|]. split; [apply beats_iff; eauto|].
    rewrite !hasRank_iff by exact Hnd.
    apply Nat.ltb_lt in L1, L2. auto.
  - intros (b & rs & rb & rt & Hne & B1 & B2 & R1 & R2 & R3 & L1 & L2).
    apply beats_iff in B1 as (dv & Hdv & Hb); [|exact Hnd].
    apply beats_iff in B2 as (bv & Hbv & Ht); [|exact Hnd].
    apply hasRank_iff in R1, R2, R3; try exact Hnd.
    rewrite Hdv. apply existsb_exists. exists b. split; [exact Hb|].
    destruct (String.eqb_spec b t) as [E|_]; [contradiction|].
    rewrite R1, R2, R3. simpl.
    rewrite (proj2 (Nat.ltb_lt rs rb) L1), (proj2 (Nat.ltb_lt rb rt) L2). simpl.
    rewrite Hbv. apply existsb_exists. exists t. split; [exact Ht|].
    apply String.eqb_refl.
Qed.

Lemma links_iff (results : list SkaterResult) (s t : string) :
  List.NoDup (List.map rname results) ->
  (linked (buildGraph results) s t <->
   exists dv, allLinksOf results !! s = Some dv /\ In t dv /\
     hasPathThrough (rankMapOf results) s t (allLinksOf results) = false).
Proof.
  intros Hnd. unfold linked, buildGraph. cbn [links].
  fold (rankMapOf results). fold (allLinksOf results).
  set (val := fun k =>
         option_map
           (List.filter (fun target =>
              negb (hasPathThrough (rankMapOf results) k target (allLinksOf results))))
           (allLinksOf results !! k)).
  rewrite (fold_left_ext _
             (fun m a => match val (rname a) with
                         | None => m
                         | Some v => mapSet (rname a) v m
                         end))
    by (intros m a; unfold val; now destruct (allLinksOf results !! rname a)).
  rewrite in_flat_map. split.
  - intros ((k & v) & Hin & Hl). simpl in Hl.
    apply in_map_iff in Hl as (t' & [= -> ->] & Ht).
    apply fold_mapSet_In in Hin as [_ Hv]. unfold val in Hv.
    destruct (allLinksOf results !! s) as [dv|]; [|discriminate].
    simpl in Hv. injection Hv as <-.
    apply List.filter_In in Ht as [Ht Hp]. apply Bool.negb_true_iff in Hp.
    eauto.
  - intros (dv & Hdv & Ht & Hp).
    exists (s, List.filter (fun target =>
                 negb (hasPathThrough (rankMapOf results) s target
                         (allLinksOf results))) dv).
    split.
    + apply fold_mapSet_In. split; [|unfold val; now rewrite Hdv].
      apply (Permutation_in _ (Permutation_map rname
               (Permutation_sym (jsSort_perm _ results)))).
      rewrite allLinksOf_lookup in Hdv by exact Hnd.
      destruct (List.find _ results) as [r|] eqn:F; [|discriminate].
      apply (find_by_name results s r Hnd) in F as [Hr <-]. now apply in_map.
    + simpl. apply in_map. apply List.filter_In. split; [exact Ht|].
      now rewrite Hp.
Qed.

(** With pairwise distinct names, the graph has a link from [s] to [t]
    exactly when [s] has won against [t] and against no skater ranked
    strictly between the two that has itself won against [t]. *)
Theorem buildGraph_links (results : list SkaterResult) (s t : string) :
  List.NoDup (List.map rname results) ->
  (linked (buildGraph results) s t <->
   beats results s t /\
   ~ exists b rs rb rt,
       b <> t /\ beats results s b /\ beats results b t /\
       hasRank results s rs /\ hasRank results b rb /\ hasRank results t rt /\
       rs < rb /\ rb < rt).
Proof.
  intros Hnd. rewrite links_iff, beats_iff by exact Hnd.
  rewrite <- hasPathThrough_iff by exact Hnd. split.
  - intros (dv & Hdv & Ht & Hp). split; [eauto|]. now rewrite Hp.
  - intros ((dv & Hdv & Ht) & Hp). exists dv. split; [exact Hdv|].
    split; [exact Ht|]. now destruct (hasPathThrough _ _ _ _).
Qed.

Lemma buildGraph_links_aux (results : list SkaterResult) (s t : string) :
  List.NoDup (List.map rname results) ->
  linked (buildGraph results) s t -> beats results s t.
Proof.
  intros Hnd L. apply links_iff in L as (dv & Hdv & Ht & _); [|exact Hnd].
  apply beats_iff; eauto.
Qed.

Lemma buildGraph_reaches_aux (results : list SkaterResult) (s t : string) :
  List.NoDup (List.map rname results) ->
  beats results s t -> tc (linked (buildGraph results)) s t.
Proof.
  intros Hnd.
  set (mu := fun s t : string =>
         match rankMapOf results !! t, rankMapOf results !! s with
         | Some rt, Some rs => rt - rs
         | _, _ => 0
         end).
  enough (G : forall n s t, mu s t < n -> beats results s t ->
                tc (linked (buildGraph results)) s t)
    by (apply (G (S (mu s t))); lia).
  clear s t. induction n as [|n IH]; intros s t Hmu B; [lia|].
  destruct (hasPathThrough (rankMapOf results) s t (allLinksOf results)) eqn:P.
  - apply hasPathThrough_iff in P
      as (b & rs & rb & rt & _ & B1 & B2 & R1 & R2 & R3 & L1 & L2); [|exact Hnd].
    apply hasRank_iff in R1, R2, R3; try exact Hnd.
    assert (M : mu s t = rt - rs) by (unfold mu; now rewrite R1, R3).
    transitivity b; apply IH; try assumption; unfold mu.
    + rewrite R1, R2. lia.
    + rewrite R2, R3. lia.
  - apply tc_once. apply links_iff; [exact Hnd|].
    apply beats_iff in B as (dv & Hdv & Ht); [|exact Hnd]. eauto.
Qed.

(** With pairwise distinct names, the reduction keeps every won
    head-to-head reachable: a chain of links leads from a result to every
    opponent it has won against. *)
Theorem buildGraph_reaches (results : list SkaterResult) (s t : string) :
  List.NoDup (List.map rname results) ->
  beats results s t -> tc (linked (buildGraph results)) s t.
Proof. apply buildGraph_reaches_aux. Qed.

(** ** The network of a ranking *)

Lemma rname_NoDup (skaters : list SkaterScores) (out : list SkaterResult) :
  List.NoDup (List.map name skaters) ->
  calculateRankings skaters = Some out ->
  List.NoDup (List.map rname out).
Proof.
  intros Hnd Hout.
  change (List.map rname out) with (List.map (fun r => name (scores r)) out).
  rewrite <- (List.map_map scores name).
  apply (Permutation_NoDup (l := List.map name skaters)); [|exact Hnd].
  apply Permutation_map. symmetry. now apply scores_perm.
Qed.

(** The won entries of the results of a ranking are the won head-to-head
    comparisons of the field. *)
Lemma beats_ranking (skaters : list SkaterScores) (out : list SkaterResult)
    (s t : string) :
  calculateRankings skaters = Some out ->
  (beats out s t <->
   exists X Y, In X skaters /\ In Y skaters /\ name X = s /\ name Y = t /\
     s <> t /\ won (headToHead X Y) = true).
Proof.
  intros Hout. split.
  - intros (r & h & e & Hr & Hs & Hh & He & Ho & Hw).
    destruct (result_of_skater skaters out r Hout Hr) as (Hin & _ & _ & Hh').
    rewrite Hh in Hh'. injection Hh' as ->.
    rewrite calculateHeadToHeadDetails_map in He.
    apply in_map_iff in He as (Y & <- & HY). apply others_In in HY as [HY Hne].
    exists (scores r), Y. split; [exact Hin|]. split; [exact HY|].
    split; [exact Hs|]. unfold headToHead in Ho. simpl in Ho.
    split; [exact Ho|]. split; [|exact Hw].
    subst s t. intros E. apply Hne. now symmetry.
  - intros (X & Y & HX & HY & Hs & Ht & Hne & Hw).
    destruct (skater_has_result skaters out X Hout HX) as (r & Hr & Hsr).
    destruct (result_of_skater skaters out r Hout Hr) as (_ & _ & _ & Hh).
    rewrite Hsr, calculateHeadToHeadDetails_map in Hh.
    exists r, (List.map (headToHead X) (others X skaters)), (headToHead X Y).
    split; [exact Hr|]. split; [unfold rname; now rewrite Hsr|].
    split; [exact Hh|]. split; [|split; [now subst t|exact Hw]].
    apply in_map. apply others_In. split; [exact HY|]. congruence.
Qed.

Lemma won_asym (X Y : SkaterScores) :
  won (headToHead X Y) = true -> won (headToHead Y X) = false.
Proof.
  intros H.
  destruct (headToHead_votes X Y) as (_ & _ & _ & _ & W1).
  destruct (headToHead_votes Y X) as (_ & _ & _ & _ & W2).
  destruct (headToHead_reciprocal X Y) as [E1 E2].
  apply W1 in H. destruct (won (headToHead Y X)) eqn:W; [|reflexivity].
  pose proof (proj1 W2 eq_refl). lia.
Qed.

(** The network of a ranking with pairwise distinct names: one node per
    result, in the order of the ranks; every link joins two different nodes
    and stands for a head-to-head comparison that its source has won; no two
    nodes are linked both ways; and from every skater a chain of links leads
    to every skater it has won against. *)
Theorem ranking_network (skaters : list SkaterScores) :
  List.NoDup (List.map name skaters) ->
  exists out,
    calculateRankings skaters = Some out /\
    let g := buildGraph out in
    List.map nodeId (nodes g) = List.map rname out /\
    List.map nodeRank (nodes g) = seq 1 (length skaters) /\
    (forall s t, linked g s t ->
       In s (List.map nodeId (nodes g)) /\ In t (List.map nodeId (nodes g)) /\
       s <> t /\ ~ linked g t s /\
       exists X Y, In X skaters /\ In Y skaters /\ name X = s /\ name Y = t /\
         won (headToHead X Y) = true) /\
    (forall X Y, In X skaters -> In Y skaters -> name X <> name Y ->
       won (headToHead X Y) = true -> tc (linked g) (name X) (name Y)).
Proof.
  intros Hnd.
  destruct (calculateRankings_spec skaters) as (out & Hout & _ & Hrank & _).
  exists out. split; [exact Hout|]. intros g.
  pose proof (rname_NoDup skaters out Hnd Hout) as HndR.
  assert (Hids : List.map nodeId (nodes g) = List.map rname out).
  { unfold g, buildGraph. cbn [nodes]. now rewrite List.map_map. }
  assert (Hnames : forall Z, In Z skaters -> In (name Z) (List.map rname out)).
  { intros Z HZ. destruct (skater_has_result skaters out Z Hout HZ) as (r & Hr & Hs).
    apply in_map_iff. exists r. split; [unfold rname; now rewrite Hs|exact Hr]. }
  assert (Hwon : forall s t, linked g s t ->
            exists X Y, In X skaters /\ In Y skaters /\ name X = s /\ name Y = t /\
              s <> t /\ won (headToHead X Y) = true).
  { intros s t L. apply (buildGraph_links_aux out s t HndR) in L.
    now apply (beats_ranking skaters out s t Hout). }
  split; [exact Hids|]. split.
  { unfold g, buildGraph. cbn [nodes]. now rewrite List.map_map. }
  split.
  - intros s t L.
    destruct (Hwon s t L) as (X & Y & HX & HY & Hs & Ht & Hne & Hw).
    rewrite Hids. split; [rewrite <- Hs; now apply Hnames|].
    split; [rewrite <- Ht; now apply Hnames|]. split; [exact Hne|].
    split; [|exists X, Y; auto 10].
    intros L'. destruct (Hwon t s L') as (Y' & X' & HY' & HX' & Ht' & Hs' & _ & Hw').
    assert (Y' = Y) by (apply (same_name_same_skater skaters); congruence).
    assert (X' = X) by (apply (same_name_same_skater skaters); congruence).
    subst X' Y'. apply won_asym in Hw. congruence.
  - intros X Y HX HY Hne Hw.
    apply buildGraph_reaches_aux; [exact HndR|].
    apply (beats_ranking skaters out _ _ Hout). exists X, Y. auto 10.
Qed.

(** ** The input parser *)

(** *** The loops of the string functions end within their bound *)

Lemma length_dropString (n : nat) (s : string) :
  String.length (dropString n s) = String.length s - n.
Proof.
  revert s. induction n as [|n IH]; intros [|c s]; simpl; try lia. apply IH.
Qed.

Lemma spaceAt_empty : spaceAt "" = 0.
Proof. reflexivity. Qed.

Lemma spaceBefore_empty : spaceBefore "" = 0.
Proof. reflexivity. Qed.

Lemma skipSpaces_stops (at_ : string -> nat) (fuel : nat) (s : string) :
  at_ "" = 0 -> String.length s <= fuel -> at_ (skipSpaces at_ fuel s) = 0.
Proof.
  intros H0. revert s. induction fuel as [|fuel IH]; intros s Hs; cbn [skipSpaces].
  - destruct s; [exact H0|simpl in Hs; lia].
  - destruct (at_ s) as [|n] eqn:E; [exact E|].
    apply IH. rewrite length_dropString.
    destruct s; [rewrite H0 in E; discriminate|simpl in *; lia].
Qed.

Lemma skipSpaces_length (at_ : string -> nat) (fuel : nat) (s : string) :
  String.length (skipSpaces at_ fuel s) <= String.length s.
Proof.
  revert s. induction fuel as [|fuel IH]; intros s; cbn [skipSpaces]; [lia|].
  destruct (at_ s) as [|n]; [lia|].
  etransitivity; [apply IH|]. rewrite length_dropString. lia.
Qed.

Lemma skipSpaces_fuel (at_ : string -> nat) (fuel fuel' : nat) (s : string) :
  at_ "" = 0 -> String.length s <= fuel -> String.length s <= fuel' ->
  skipSpaces at_ fuel s = skipSpaces at_ fuel' s.
Proof.
  intros H0. revert fuel' s.
  induction fuel as [|fuel IH]; intros fuel' s Hs Hs'.
  - destruct s; [|simpl in Hs; lia]. destruct fuel'; simpl; [reflexivity|].
    now rewrite H0.
  - destruct fuel' as [|fuel'].
    + destruct s; [|simpl in Hs'; lia]. simpl. now rewrite H0.
    + cbn [skipSpaces]. destruct (at_ s) as [|n] eqn:E; [reflexivity|].
      assert (String.length (dropString (S n) s) < String.length s).
      { rewrite length_dropString.
        destruct s; [rewrite H0 in E; discriminate|simpl; lia]. }
      apply IH; lia.
Qed.

(** [trim] leaves no white space at either end. *)
Lemma trimStart_stops (s : string) : spaceAt (trimStart s) = 0.
Proof. apply skipSpaces_stops; [reflexivity|lia]. Qed.

Lemma reverseString_involutive (s : string) : reverseString (reverseString s) = s.
Proof.
  unfold reverseString.
  rewrite String.list_ascii_of_string_of_list_ascii, rev_involutive.
  apply String.string_of_list_ascii_of_string.
Qed.

Lemma length_reverseString (s : string) :
  String.length (reverseString s) = String.length s.
Proof.
  unfold reverseString.
  assert (H1 : forall l, String.length (String.string_of_list_ascii l) = length l)
    by (induction l as [|c l IH]; simpl; congruence).
  assert (H2 : forall t, length (String.list_ascii_of_string t) = String.length t)
    by (induction t as [|c t IH]; simpl; congruence).
  now rewrite H1, length_rev, H2.
Qed.

Lemma trimEnd_stops (s : string) : spaceBefore (reverseString (trimEnd s)) = 0.
Proof.
  unfold trimEnd. rewrite reverseString_involutive.
  apply skipSpaces_stops; [reflexivity|].
  now rewrite length_reverseString.
Qed.

Lemma append_cons (c : ascii) (a b : string) :
  String c a +:+ b = String c (a +:+ b).
Proof. reflexivity. Qed.

Lemma list_ascii_app (a b : string) :
  String.list_ascii_of_string (a +:+ b)
  = String.list_ascii_of_string a ++ String.list_ascii_of_string b.
Proof.
  induction a as [|c a IH]; [reflexivity|]. rewrite append_cons. simpl.
  now rewrite IH.
Qed.

Lemma length_append (a b : string) :
  String.length (a +:+ b) = String.length a + String.length b.
Proof.
  induction a as [|c a IH]; [reflexivity|]. rewrite append_cons. simpl.
  now rewrite IH.
Qed.

Lemma takeDigits_spec (s : string) :
  forallb isDigit (String.list_ascii_of_string (fst (takeDigits s))) = true /\
  s = fst (takeDigits s) +:+ snd (takeDigits s).
Proof.
  induction s as [|c s [IH1 IH2]]; simpl; [now split|].
  destruct (isDigit c) eqn:E; [|now split].
  destruct (takeDigits s) as [d rest]. simpl in *. rewrite E, IH1.
  split; [reflexivity|]. rewrite append_cons. now f_equal.
Qed.

Lemma takeDigits_length (s : string) :
  String.length (snd (takeDigits s)) <= String.length s.
Proof.
  destruct (takeDigits_spec s) as [_ H]. rewrite H at 2.
  rewrite length_append. lia.
Qed.

Lemma takeDigits_digit (c : ascii) (s : string) :
  isDigit c = true ->
  takeDigits (String c s) = (String c (fst (takeDigits s)), snd (takeDigits s)).
Proof. intros E. simpl. rewrite E. now destruct (takeDigits s). Qed.

(** Fuel beyond the length of the text changes no match. *)
Lemma matchNumbers_fuel (fuel fuel' : nat) (s : string) :
  String.length s <= fuel -> String.length s <= fuel' ->
  matchNumbers fuel s = matchNumbers fuel' s.
Proof.
  revert fuel' s. induction fuel as [|fuel IH]; intros fuel' s Hs Hs'.
  - destruct s; [|simpl in Hs; lia]. now destruct fuel'.
  - destruct fuel' as [|fuel']; [destruct s; [reflexivity|simpl in Hs'; lia]|].
    destruct s as [|c s]; [reflexivity|].
    cbn [matchNumbers]. simpl in Hs, Hs'.
    destruct (isDigit c) eqn:Ec.
    + rewrite (takeDigits_digit c s Ec).
      pose proof (takeDigits_length s) as L.
      destruct (snd (takeDigits s)) as [|c' rest'] eqn:Er; [reflexivity|].
      destruct (Ascii.eqb c' "."%char).
      * pose proof (takeDigits_length rest') as L'.
        destruct (takeDigits rest') as [fraction rest'']. simpl in L, L'.
        f_equal. apply IH; lia.
      * f_equal. apply IH; simpl in *; lia.
    + destruct (Ascii.eqb c "."%char).
      * pose proof (takeDigits_length s) as L.
        destruct (takeDigits s) as [[|d fraction] rest]; simpl in L.
        -- apply IH; lia.
        -- f_equal. apply IH; lia.
      * apply IH; lia.
Qed.

Lemma collapseSpaces_fuel (fuel fuel' : nat) (s : string) :
  String.length s <= fuel -> String.length s <= fuel' ->
  collapseSpaces fuel s = collapseSpaces fuel' s.
Proof.
  revert fuel' s. induction fuel as [|fuel IH]; intros fuel' s Hs Hs'.
  - destruct s; [|simpl in Hs; lia]. now destruct fuel'.
  - destruct fuel' as [|fuel']; [destruct s; [reflexivity|simpl in Hs'; lia]|].
    destruct s as [|c s]; [reflexivity|].
    cbn [collapseSpaces]. simpl in Hs, Hs'.
    destruct (spaceAt (String c s)) as [|n] eqn:E.
    + f_equal. apply IH; lia.
    + f_equal.
      assert (String.length (skipSpaces spaceAt (String.length (String c s)) (String c s))
              < String.length (String c s)).
      { cbn [skipSpaces String.length]. rewrite E.
        eapply Nat.le_lt_trans; [apply skipSpaces_length|].
        rewrite length_dropString. simpl. lia. }
      simpl in H. apply IH; simpl; lia.
Qed.

(** *** The numbers of a line *)

Lemma isDigit_not_point (c : ascii) :
  isDigit c = true -> Ascii.eqb "."%char c = false /\ Ascii.eqb c "."%char = false.
Proof.
  destruct c as [[] [] [] [] [] [] [] []]; vm_compute; intros H;
    (discriminate H || (split; reflexivity)).
Qed.

Lemma digits_parts (cs : list ascii) :
  forallb isDigit cs = true ->
  forallb (fun c => isDigit c || Ascii.eqb c "."%char) cs = true /\
  List.filter (Ascii.eqb "."%char) cs = [] /\
  (cs <> [] -> existsb isDigit cs = true).
Proof.
  induction cs as [|c cs IH]; cbn [forallb List.filter existsb]; intros H;
    [now repeat split|].
  apply andb_prop in H as [Hc H]. destruct (IH H) as (I1 & I2 & I3).
  rewrite Hc, I1, (proj1 (isDigit_not_point c Hc)). now repeat split.
Qed.

Lemma append_empty (s : string) : s +:+ "" = s.
Proof. induction s as [|c s IH]; [reflexivity|]. rewrite append_cons. now rewrite IH. Qed.

Lemma isNumberToken_whole (whole : string) :
  forallb isDigit (String.list_ascii_of_string whole) = true -> whole <> "" ->
  isNumberToken (whole +:+ "") = true.
Proof.
  intros Hw Hne. rewrite append_empty. unfold isNumberToken. cbv zeta.
  destruct (digits_parts _ Hw) as (W1 & W2 & W3).
  rewrite W1, W2, W3; [reflexivity|].
  destruct whole; [congruence|discriminate].
Qed.

Lemma isNumberToken_point (whole fraction : string) :
  forallb isDigit (String.list_ascii_of_string whole) = true ->
  forallb isDigit (String.list_ascii_of_string fraction) = true ->
  whole <> "" \/ fraction <> "" ->
  isNumberToken (whole +:+ "." +:+ fraction) = true.
Proof.
  intros Hw Hf Hne. unfold isNumberToken. cbv zeta.
  rewrite !list_ascii_app.
  destruct (digits_parts _ Hw) as (W1 & W2 & W3).
  destruct (digits_parts _ Hf) as (F1 & F2 & F3).
  rewrite !forallb_app, !List.filter_app, !existsb_app, W1, W2, F1, F2.
  assert (E : existsb isDigit (String.list_ascii_of_string whole)
              || existsb isDigit (String.list_ascii_of_string fraction) = true).
  { destruct Hne as [H|H].
    - rewrite W3; [reflexivity|]. destruct whole; [congruence|discriminate].
    - rewrite F3; [apply orb_true_r|]. destruct fraction; [congruence|discriminate]. }
  cbn [String.list_ascii_of_string forallb List.filter existsb app length].
  change (Ascii.eqb "."%char "."%char) with true.
  change (isDigit "."%char) with false.
  cbn [orb andb app length Nat.leb]. rewrite E. reflexivity.
Qed.

Lemma matchNumbers_tokens (fuel : nat) (s : string) :
  List.Forall (fun n => isNumberToken n = true) (matchNumbers fuel s).
Proof.
  revert s. induction fuel as [|fuel IH]; intros s; [constructor|].
  destruct s as [|c s]; [constructor|]. cbn [matchNumbers].
  destruct (isDigit c) eqn:Ec.
  - rewrite (takeDigits_digit c s Ec).
    destruct (takeDigits_spec s) as [Hd _].
    assert (Hw : forallb isDigit (String.list_ascii_of_string
                                    (String c (fst (takeDigits s)))) = true)
      by (simpl; now rewrite Ec).
    set (whole := String c (fst (takeDigits s))) in *.
    assert (Hne : whole <> "") by discriminate.
    clearbody whole.
    assert (Hwhole : isNumberToken whole = true).
    { rewrite <- (append_empty whole).
      apply (isNumberToken_whole whole Hw Hne). }
    destruct (snd (takeDigits s)) as [|c' rest']; [now repeat constructor|].
    destruct (Ascii.eqb c' "."%char).
    + destruct (takeDigits_spec rest') as [Hf _].
      destruct (takeDigits rest') as [fraction rest'']. simpl in Hf.
      constructor; [|apply IH].
      apply (isNumberToken_point whole fraction Hw Hf). now left.
    + constructor; [exact Hwhole|apply IH].
  - destruct (Ascii.eqb c "."%char); [|apply IH].
    destruct (takeDigits_spec s) as [Hf _].
    destruct (takeDigits s) as [[|d fraction] rest]; [apply IH|].
    simpl fst in Hf. set (fr := String d fraction) in *.
    assert (Hne : fr <> "") by discriminate. clearbody fr.
    constructor; [|apply IH].
    change (String "."%char fr) with ("" +:+ "." +:+ fr).
    apply (isNumberToken_point "" fr eq_refl Hf). now right.
Qed.

Lemma firstn_In {A : Type} (n : nat) (l : list A) (x : A) :
  In x (firstn n l) -> In x l.
Proof.
  intros H. rewrite <- (firstn_skipn n l). apply in_or_app. now left.
Qed.

(** *** One line *)

Section ParserProperties.
Variable parseFloat : string -> float.

(** What an iteration of the loop does: it skips the line, or it takes
    the name and the counter in one of the two ways and then warns or adds
    a skater made of the numbers of the line. *)
Lemma parseLine_cases (st : ParseState) (line : string) :
  (isDataLine line = false /\ parseLine parseFloat st line = st) \/
  (isDataLine line = true /\
   exists nm counter numbers,
     ((indexOfColon (trim line) = None /\ nm = generatedName (unnamedCounter st) /\
       counter = S (unnamedCounter st)) \/
      (indexOfColon (trim line) <> None /\ counter = unnamedCounter st)) /\
     List.Forall (fun n => isNumberToken n = true) numbers /\
     ((numbers = [] /\
       parseLine parseFloat st line
       = mkParseState (parsed st) (warnings st ++ [noNumbersWarning line]) counter) \/
      (numbers <> [] /\ hasInvalidNumber parseFloat numbers = true /\
       parseLine parseFloat st line
       = mkParseState (parsed st) (warnings st ++ [invalidNumbersWarning line]) counter) \/
      (numbers <> [] /\ hasInvalidNumber parseFloat numbers = false /\
       parseLine parseFloat st line
       = mkParseState
           (parsed st ++ [mkSkater nm (firstn 3 (scoresOf parseFloat numbers))
                            (firstn 3 (skipn 3 (scoresOf parseFloat numbers)))])
           (warnings st) counter))).
Proof.
  unfold parseLine, isDataLine. cbv zeta.
  destruct (String.eqb (trim line) ""); [left; now split|].
  destruct (String.prefix "#" (trim line) || String.prefix "//" (trim line));
    [left; now split|].
  right. split; [reflexivity|].
  destruct (indexOfColon (trim line)) as [i|].
  - match goal with |- context [matchNumbers ?f ?s] =>
      exists (trim (String.substring 0 i (trim line))), (unnamedCounter st),
             (matchNumbers f s);
      pose proof (matchNumbers_tokens f s) as Htok;
      destruct (matchNumbers f s) as [|n numbers] eqn:E
    end.
    + split; [right; split; [discriminate|reflexivity]|]. split; [constructor|].
      left. now split.
    + split; [right; split; [discriminate|reflexivity]|]. split; [exact Htok|].
      right. cbn [length Nat.eqb].
      destruct (hasInvalidNumber parseFloat (n :: numbers)) eqn:N.
      * left. repeat split; discriminate || reflexivity.
      * right. repeat split; discriminate || reflexivity.
  - match goal with |- context [matchNumbers ?f ?s] =>
      exists (generatedName (unnamedCounter st)), (S (unnamedCounter st)),
             (matchNumbers f s);
      pose proof (matchNumbers_tokens f s) as Htok;
      destruct (matchNumbers f s) as [|n numbers] eqn:E
    end.
    + split; [left; now repeat split|]. split; [constructor|].
      left. now split.
    + split; [left; now repeat split|]. split; [exact Htok|].
      right. cbn [length Nat.eqb].
      destruct (hasInvalidNumber parseFloat (n :: numbers)) eqn:N.
      * left. repeat split; discriminate || reflexivity.
      * right. repeat split; discriminate || reflexivity.
Qed.

Lemma hasInvalidNumber_spec (numbers : list string) :
  hasInvalidNumber parseFloat numbers = false ->
  List.Forall (fun n => is_nan (parseFloat n) = false) (firstn 6 numbers).
Proof.
  unfold hasInvalidNumber. intros H. apply List.Forall_forall. intros n Hn.
  destruct (is_nan (parseFloat n)) eqn:N; [|reflexivity].
  rewrite <- H. symmetry. apply existsb_exists. exists (Some (parseFloat n)).
  split; [|exact N].
  now apply (in_map (fun n => Some (parseFloat n))).
Qed.

Lemma hasInvalidNumber_tokens (numbers : list string) :
  (forall tok, isNumberToken tok = true -> is_nan (parseFloat tok) = false) ->
  List.Forall (fun n => isNumberToken n = true) numbers ->
  hasInvalidNumber parseFloat numbers = false.
Proof.
  intros Hpf Htok. unfold hasInvalidNumber.
  destruct (existsb _ _) eqn:E; [|reflexivity].
  apply existsb_exists in E as ([x|] & Hin & Hx); [|discriminate].
  apply in_map_iff in Hin as (n & [= <-] & Hn).
  apply firstn_In in Hn.
  rewrite (Hpf n) in Hx; [discriminate|].
  exact (proj1 (List.Forall_forall _ _) Htok n Hn).
Qed.

Lemma scoresOf_fromNumbers (nm : string) (numbers : list string) :
  numbers <> [] -> List.Forall (fun n => isNumberToken n = true) numbers ->
  hasInvalidNumber parseFloat numbers = false ->
  let skater := mkSkater nm (firstn 3 (scoresOf parseFloat numbers))
                         (firstn 3 (skipn 3 (scoresOf parseFloat numbers))) in
  fromNumbers parseFloat skater /\ paddedAtEnd skater = true.
Proof.
  intros Hne Htok Hnan. apply hasInvalidNumber_spec in Hnan.
  assert (Htok6 : List.Forall (fun n => isNumberToken n = true) (firstn 6 numbers)).
  { apply List.Forall_forall. intros n Hn. apply firstn_In in Hn.
    exact (proj1 (List.Forall_forall _ _) Htok n Hn). }
  assert (Hlen : 1 <= length (firstn 6 numbers) <= 6).
  { rewrite List.length_firstn. destruct numbers; [congruence|]. simpl length. lia. }
  unfold scoresOf. cbv zeta.
  set (ns := firstn 6 numbers) in *. clearbody ns. clear Hne Htok numbers.
  assert (Hboth : List.Forall (fun n => isNumberToken n = true
                                        /\ is_nan (parseFloat n) = false) ns).
  { apply List.Forall_forall. intros n Hn. split.
    - exact (proj1 (List.Forall_forall _ _) Htok6 n Hn).
    - exact (proj1 (List.Forall_forall _ _) Hnan n Hn). }
  rewrite List.length_map.
  split; [exists ns; split; [exact Hlen|]; split; [exact Hboth|]|];
    destruct ns as [|n1 [|n2 [|n3 [|n4 [|n5 [|n6 [|n7 ns]]]]]]];
    simpl in Hlen; try lia; repeat split; reflexivity.
Qed.

Lemma parseLine_parsed (st : ParseState) (line : string) :
  List.Forall (fun s => fromNumbers parseFloat s /\ paddedAtEnd s = true) (parsed st) ->
  List.Forall (fun s => fromNumbers parseFloat s /\ paddedAtEnd s = true)
              (parsed (parseLine parseFloat st line)).
Proof.
  intros H.
  destruct (parseLine_cases st line)
    as [[_ ->]|(_ & nm & counter & numbers & _ & Htok
                & [[_ ->]|[(_ & _ & ->)|(Hne & Hnan & ->)]])];
    try exact H.
  simpl. apply List.Forall_app. split; [exact H|].
  constructor; [|constructor]. now apply scoresOf_fromNumbers.
Qed.

Lemma fold_parseLine_parsed (lines : list string) (st : ParseState) :
  List.Forall (fun s => fromNumbers parseFloat s /\ paddedAtEnd s = true) (parsed st) ->
  List.Forall (fun s => fromNumbers parseFloat s /\ paddedAtEnd s = true)
              (parsed (fold_left (parseLine parseFloat) lines st)).
Proof.
  revert st. induction lines as [|line lines IH]; intros st H; simpl; [exact H|].
  apply IH. now apply parseLine_parsed.
Qed.

Lemma parseInput_fromNumbers (input : string) (skater : SkaterScores) :
  In skater (parseInput parseFloat input) ->
  fromNumbers parseFloat skater /\ paddedAtEnd skater = true.
Proof.
  intros H.
  apply (proj1 (List.Forall_forall
                  (fun s => fromNumbers parseFloat s /\ paddedAtEnd s = true)
                  (parseInput parseFloat input))); [|exact H].
  unfold parseInput, parseLines. apply fold_parseLine_parsed. constructor.
Qed.

(** Every skater that the parser returns has three technical and three
    artistic marks.  The marks are [parseFloat] of the numbers of its line,
    at least one and at most six numbers, each a string of digits with at
    most one point, followed by nulls; no mark is NaN; the nulls of each
    array come last. *)
Theorem parseInput_shape (input : string) (skater : SkaterScores) :
  In skater (parseInput parseFloat input) ->
  (exists numbers : list string,
     1 <= length numbers <= 6 /\
     List.Forall (fun n => isNumberToken n = true /\ is_nan (parseFloat n) = false)
                 numbers /\
     aScores skater ++ bScores skater
       = List.map (fun n => Some (parseFloat n)) numbers
         ++ repeat None (6 - length numbers) /\
     length (aScores skater) = 3 /\ length (bScores skater) = 3) /\
  paddedAtEnd skater = true.
Proof.
  intros H. exact (parseInput_fromNumbers input skater H).
Qed.

(** *** The lines and the counters *)

Lemma parseLine_counts (st : ParseState) (line : string) :
  length (parsed (parseLine parseFloat st line))
  + length (warnings (parseLine parseFloat st line))
  = length (parsed st) + length (warnings st) + (if isDataLine line then 1 else 0) /\
  unnamedCounter (parseLine parseFloat st line)
  = unnamedCounter st + (if isUnnamedLine line then 1 else 0).
Proof.
  unfold isUnnamedLine.
  destruct (parseLine_cases st line)
    as [[-> ->]|(-> & nm & counter & numbers & Hc & _ & Hp)]; [simpl; lia|].
  assert (Hcount : counter = unnamedCounter st
            + (if true && match indexOfColon (trim line) with
                          | None => true | Some _ => false end then 1 else 0)).
  { destruct Hc as [(-> & _ & ->)|[Hi ->]]; [simpl; lia|].
    destruct (indexOfColon (trim line)); [simpl; lia|congruence]. }
  destruct Hp as [[_ ->]|[(_ & _ & ->)|(_ & _ & ->)]];
    simpl parsed; simpl warnings; simpl unnamedCounter;
    rewrite ?List.length_app; simpl length; (split; [lia|exact Hcount]).
Qed.

Lemma fold_parseLine_counts (lines : list string) (st : ParseState) :
  length (parsed (fold_left (parseLine parseFloat) lines st))
  + length (warnings (fold_left (parseLine parseFloat) lines st))
  = length (parsed st) + length (warnings st)
    + length (List.filter isDataLine lines) /\
  unnamedCounter (fold_left (parseLine parseFloat) lines st)
  = unnamedCounter st + length (List.filter isUnnamedLine lines).
Proof.
  revert st. induction lines as [|line lines IH]; intros st; simpl; [lia|].
  destruct (IH (parseLine parseFloat st line)) as [H1 H2].
  destruct (parseLine_counts st line) as [C1 C2].
  rewrite H1, H2, C1, C2.
  destruct (isDataLine line), (isUnnamedLine line); simpl; lia.
Qed.

Lemma fold_parseLine_data (lines : list string) (st : ParseState) :
  fold_left (parseLine parseFloat) lines st
  = fold_left (parseLine parseFloat) (List.filter isDataLine lines) st.
Proof.
  revert st. induction lines as [|line lines IH]; intros st; simpl; [reflexivity|].
  destruct (parseLine_cases st line) as [[-> ->]|[-> _]]; simpl; apply IH.
Qed.

(** Every line that is neither blank nor a comment gives one skater or
    one warning, and the other lines change nothing: the result is that of
    the lines that are read alone.  The counter of the generated names
    advances with every line that is read and has no colon, whether the line
    gives a skater or a warning. *)
Theorem parseLines_accounts (input : string) :
  let lines := splitLines (trim input) in
  let st := parseLines parseFloat input in
  length (parsed st) + length (warnings st) = length (List.filter isDataLine lines) /\
  unnamedCounter st = 1 + length (List.filter isUnnamedLine lines) /\
  st = fold_left (parseLine parseFloat) (List.filter isDataLine lines)
                 (mkParseState [] [] 1).
Proof.
  cbv zeta. unfold parseLines.
  destruct (fold_parseLine_counts (splitLines (trim input)) (mkParseState [] [] 1))
    as [H1 H2].
  rewrite H1, H2. simpl. repeat split. apply fold_parseLine_data.
Qed.

(** *** The warnings *)

Lemma warning_ends (line : string) :
  List.last (String.list_ascii_of_string (noNumbersWarning line)) " "%char = "d"%char /\
  List.last (String.list_ascii_of_string (invalidNumbersWarning line)) " "%char
  = "s"%char.
Proof.
  unfold noNumbersWarning, invalidNumbersWarning.
  rewrite !list_ascii_app.
  change (String.list_ascii_of_string " - no numbers found")
    with (String.list_ascii_of_string " - no numbers foun" ++ ["d"%char]).
  change (String.list_ascii_of_string " - contains invalid numbers")
    with (String.list_ascii_of_string " - contains invalid number" ++ ["s"%char]).
  rewrite !app_assoc. split; apply List.last_last.
Qed.

Lemma warnings_differ (line line' : string) :
  noNumbersWarning line <> invalidNumbersWarning line'.
Proof.
  intros E. pose proof (proj1 (warning_ends line)) as H1.
  pose proof (proj2 (warning_ends line')) as H2.
  rewrite E, H2 in H1. discriminate.
Qed.

Lemma fold_parseLine_warnings (lines : list string) (st : ParseState) (P : string -> Prop) :
  (forall tok, isNumberToken tok = true -> is_nan (parseFloat tok) = false) ->
  (forall line, In line lines -> P (noNumbersWarning line)) ->
  List.Forall P (warnings st) ->
  List.Forall P (warnings (fold_left (parseLine parseFloat) lines st)).
Proof.
  intros Hpf. revert st.
  induction lines as [|line lines IH]; intros st HP H; simpl; [exact H|].
  apply IH; [intros l Hl; apply HP; now right|].
  destruct (parseLine_cases st line)
    as [[_ ->]|(_ & nm & counter & numbers & _ & Htok
                & [[_ ->]|[(_ & Hnan & _)|(_ & _ & ->)]])];
    try exact H.
  - simpl. apply List.Forall_app. split; [exact H|].
    constructor; [apply HP; now left|constructor].
  - rewrite (hasInvalidNumber_tokens numbers Hpf Htok) in Hnan. discriminate.
Qed.

(** If [parseFloat] gives a number for every string of digits with at
    most one point, as the built-in does, the check for invalid numbers
    never fails: every warning is the one about a line without numbers, for
    a line of the input, and none is the one about invalid numbers. *)
Theorem no_invalid_numbers_warning (input : string) :
  (forall tok, isNumberToken tok = true -> is_nan (parseFloat tok) = false) ->
  List.Forall (fun w => exists line, In line (splitLines (trim input))
                                     /\ w = noNumbersWarning line)
              (warnings (parseLines parseFloat input)) /\
  forall line, ~ In (invalidNumbersWarning line) (warnings (parseLines parseFloat input)).
Proof.
  intros Hpf.
  assert (H : List.Forall (fun w => exists line, In line (splitLines (trim input))
                                                 /\ w = noNumbersWarning line)
                (warnings (parseLines parseFloat input))).
  { unfold parseLines. apply fold_parseLine_warnings; [exact Hpf| |constructor].
    intros line Hl. now exists line. }
  split; [exact H|].
  intros line Hin.
  destruct (proj1 (List.Forall_forall _ _) H _ Hin) as (line' & _ & E).
  exact (warnings_differ line' line (eq_sym E)).
Qed.

(** *** The generated names *)

Lemma generatedName_inj (j k : nat) : generatedName j = generatedName k -> j = k.
Proof.
  unfold generatedName. intros E. apply (String.app_inj "Skater ") in E.
  apply DecimalNat.Unsigned.to_uint_inj.
  pose proof (DecimalString.NilEmpty.usu (Nat.to_uint j)) as Hj.
  pose proof (DecimalString.NilEmpty.usu (Nat.to_uint k)) as Hk.
  rewrite E in Hj. congruence.
Qed.

Lemma StronglySorted_snoc (ks : list nat) (k : nat) :
  Sorted.StronglySorted lt ks -> List.Forall (fun j => j < k) ks ->
  Sorted.StronglySorted lt (ks ++ [k]).
Proof.
  induction 1 as [|j ks Hs IH Hj]; intros Hk; simpl.
  - repeat constructor.
  - inversion Hk as [|? ? Hjk Hks]; subst. constructor; [now apply IH|].
    apply List.Forall_app. split; [exact Hj|now repeat constructor].
Qed.

Lemma StronglySorted_NoDup (ks : list nat) :
  Sorted.StronglySorted lt ks -> List.NoDup ks.
Proof.
  induction 1 as [|j ks Hs IH Hj]; constructor; [|exact IH].
  intros Hin. pose proof (proj1 (List.Forall_forall _ _) Hj j Hin). lia.
Qed.

Lemma parseLine_generatedNames (st : ParseState) (line : string) (ks : list nat) :
  1 <= unnamedCounter st ->
  (isDataLine line = true -> indexOfColon (trim line) = None) ->
  generatedNames st ks ->
  1 <= unnamedCounter (parseLine parseFloat st line) /\
  exists ks', generatedNames (parseLine parseFloat st line) ks'.
Proof.
  intros H1 Hline (Hn & Hs & Hb).
  destruct (parseLine_cases st line)
    as [[_ ->]|(Hd & nm & counter & numbers & Hc & _ & Hp)];
    [split; [exact H1|now exists ks]|].
  destruct Hc as [(_ & -> & ->)|[Hi _]]; [|now rewrite Hline in Hi].
  assert (Hb' : List.Forall (fun k => 1 <= k < S (unnamedCounter st)) ks).
  { eapply List.Forall_impl; [|exact Hb]. simpl. intros; lia. }
  destruct Hp as [[_ ->]|[(_ & _ & ->)|(_ & _ & ->)]]; simpl;
    (split; [lia|]).
  - exists ks. now repeat split.
  - exists ks. now repeat split.
  - exists (ks ++ [unnamedCounter st]). unfold generatedNames. simpl.
    rewrite !List.map_app, Hn. split; [reflexivity|]. split.
    + apply StronglySorted_snoc; [exact Hs|].
      eapply List.Forall_impl; [|exact Hb]. simpl. intros; lia.
    + apply List.Forall_app. split; [exact Hb'|]. repeat constructor; lia.
Qed.

Lemma fold_parseLine_generatedNames (lines : list string) (st : ParseState)
    (ks : list nat) :
  1 <= unnamedCounter st ->
  (forall line, In line lines -> isDataLine line = true ->
                indexOfColon (trim line) = None) ->
  generatedNames st ks ->
  exists ks', generatedNames (fold_left (parseLine parseFloat) lines st) ks'.
Proof.
  revert st ks. induction lines as [|line lines IH]; intros st ks H1 Hl Hg; simpl.
  - now exists ks.
  - destruct (parseLine_generatedNames st line ks H1 (Hl line (or_introl eq_refl)) Hg)
      as (H1' & ks' & Hg').
    apply (IH _ ks' H1'); [|exact Hg'].
    intros l Hin. apply Hl. now right.
Qed.

(** If no line that is read has a colon, the names of the skaters are
    generated ones, [Skater k] with the numbers [k] increasing from 1 on and
    below the final counter, so no two skaters have the same name. *)
Theorem generated_names_distinct (input : string) :
  (forall line, In line (splitLines (trim input)) -> isDataLine line = true ->
                indexOfColon (trim line) = None) ->
  (exists ks,
     List.map name (parseInput parseFloat input) = List.map generatedName ks /\
     Sorted.StronglySorted lt ks /\
     List.Forall (fun k => 1 <= k < unnamedCounter (parseLines parseFloat input)) ks) /\
  List.NoDup (List.map name (parseInput parseFloat input)).
Proof.
  intros Hl.
  destruct (fold_parseLine_generatedNames (splitLines (trim input))
              (mkParseState [] [] 1) [] (le_n 1) Hl)
    as (ks & Hn & Hs & Hb).
  { repeat split; constructor. }
  fold (parseLines parseFloat input) in Hn, Hb.
  split; [exists ks; repeat split; assumption|].
  unfold parseInput. rewrite Hn.
  apply List.NoDup_map_NoDup_ForallPairs; [|now apply StronglySorted_NoDup].
  intros j k _ _ E. now apply generatedName_inj.
Qed.

(** *** The hook *)

Variable caught : string.

Lemma useScoreCalculation_cases (input : string) :
  exists rankings,
    calculateRankings (parseInput parseFloat input) = Some rankings /\
    useScoreCalculation parseFloat caught input
    = if String.eqb (trim input) "" then ([], "")
      else if length (parseInput parseFloat input) =? 0 then ([], noScoresError)
      else (rankings, "").
Proof.
  destruct (calculateRankings_spec (parseInput parseFloat input))
    as (rankings & Hr & _).
  exists rankings. split; [exact Hr|].
  unfold useScoreCalculation. cbv zeta. rewrite Hr. reflexivity.
Qed.

Lemma parseInput_blank (input : string) :
  String.eqb (trim input) "" = true -> parseInput parseFloat input = [].
Proof.
  intros E. apply String.eqb_eq in E. unfold parseInput, parseLines.
  rewrite E. reflexivity.
Qed.

(** The hook never reaches its [catch], whatever the input: the error it
    sets is empty or the one about missing scores, the latter exactly when
    the input is not blank and no line of it parses; and the results it sets
    are a ranking of the parsed skaters, each once and with the marks the
    parser gave it, with the ranks 1 to their number in this order.  A blank
    input parses to nothing. *)
Theorem useScoreCalculation_spec (input : string) :
  let out := useScoreCalculation parseFloat caught input in
  Permutation (List.map scores (fst out)) (parseInput parseFloat input) /\
  List.map rank (fst out) = seq 1 (length (parseInput parseFloat input)) /\
  (snd out = "" \/ snd out = noScoresError) /\
  (snd out = noScoresError <->
   String.eqb (trim input) "" = false /\ parseInput parseFloat input = []) /\
  (String.eqb (trim input) "" = true -> parseInput parseFloat input = []).
Proof.
  cbv zeta.
  destruct (useScoreCalculation_cases input) as (rankings & Hr & ->).
  pose proof (parseInput_blank input) as Hblank.
  destruct (String.eqb (trim input) "") eqn:Eb.
  - rewrite (Hblank eq_refl). simpl.
    split; [constructor|]. split; [reflexivity|]. split; [now left|].
    split; [|reflexivity].
    split; [discriminate|]. intros [H _]. discriminate.
  - split; [|split; [|split; [|split; [|discriminate]]]];
      destruct (parseInput parseFloat input) as [|s l] eqn:Ep; simpl.
    + constructor.
    + rewrite <- Ep in *. now apply scores_perm.
    + reflexivity.
    + destruct (calculateRankings_spec (s :: l)) as (out & Hout & _ & Hrank & _).
      rewrite Hr in Hout. injection Hout as <-. exact Hrank.
    + now right.
    + now left.
    + split; auto.
    + split; [discriminate|]. intros [_ H]. discriminate.
Qed.

Lemma useScoreCalculation_results (input : string) (r : SkaterResult) :
  In r (fst (useScoreCalculation parseFloat caught input)) ->
  exists rankings,
    calculateRankings (parseInput parseFloat input) = Some rankings /\ In r rankings.
Proof.
  unfold useScoreCalculation. cbv zeta.
  destruct (String.eqb (trim input) ""); [intros []|].
  destruct (length (parseInput parseFloat input) =? 0); [intros []|].
  destruct (calculateRankings (parseInput parseFloat input)) as [rankings|];
    [|intros []].
  intros H. now exists rankings.
Qed.

Lemma calculateBScoreSum_nonNegative (skater : SkaterScores) :
  nonNegativeMarks skater = true -> nonNegative (calculateBScoreSum skater) = true.
Proof.
  intros H. apply andb_prop in H as [Ha Hb].
  unfold calculateBScoreSum. apply fold_add_nonNegative; [reflexivity|].
  apply List.Forall_forall. intros x Hx. unfold nonNull in Hx.
  apply in_flat_map in Hx as ([y|] & Hy & Hx); [|destruct Hx].
  destruct Hx as [<-|[]]. exact (proj1 (forallb_forall _ _) Hb (Some y) Hy).
Qed.

Lemma calculateTotalScore_nonNegative (skater : SkaterScores) :
  nonNegativeMarks skater = true -> nonNegative (calculateTotalScore skater) = true.
Proof.
  intros H. apply andb_prop in H as [Ha Hb].
  unfold calculateTotalScore, calculateJudgeTotals. cbv zeta.
  apply fold_add_nonNegative; [reflexivity|].
  apply List.Forall_forall. intros x Hx. apply in_map_iff in Hx as (i & <- & _).
  apply add_nonNegative; now apply orZero_nonNegative.
Qed.

Lemma fromNumbers_nonNegativeMarks (skater : SkaterScores) :
  (forall tok, isNumberToken tok = true -> nonNegative (parseFloat tok) = true) ->
  fromNumbers parseFloat skater -> nonNegativeMarks skater = true.
Proof.
  intros Hpf (numbers & _ & Htok & Hm & _).
  assert (H : forallb nonNegativeMark (aScores skater ++ bScores skater) = true).
  { rewrite Hm, forallb_app. apply andb_true_intro. split.
    - apply forallb_forall. intros x Hx.
      apply in_map_iff in Hx as (n & <- & Hn). simpl. apply Hpf.
      exact (proj1 (proj1 (List.Forall_forall _ _) Htok n Hn)).
    - apply forallb_forall. intros x Hx. apply repeat_spec in Hx. now subst. }
  rewrite forallb_app in H. exact H.
Qed.

(** If [parseFloat] gives a number that is not negative for every string
    of digits with at most one point, as the built-in does, then whatever
    the input, no mark of a result of the hook is negative or NaN, and its
    total and the sum of its artistic marks are not negative and not NaN. *)
Theorem typed_marks_no_NaN (input : string) (r : SkaterResult) :
  (forall tok, isNumberToken tok = true -> nonNegative (parseFloat tok) = true) ->
  In r (fst (useScoreCalculation parseFloat caught input)) ->
  nonNegativeMarks (scores r) = true /\
  nonNegative (totalScore r) = true /\
  is_nan (totalScore r) = false /\
  nonNegative (calculateBScoreSum (scores r)) = true /\
  is_nan (calculateBScoreSum (scores r)) = false.
Proof.
  intros Hpf Hr.
  destruct (useScoreCalculation_results input r Hr) as (rankings & Hout & Hin).
  destruct (result_of_skater _ _ _ Hout Hin) as (Hs & Ht & _).
  destruct (parseInput_fromNumbers input (scores r) Hs) as [Hf _].
  pose proof (fromNumbers_nonNegativeMarks _ Hpf Hf) as Hm.
  pose proof (calculateBScoreSum_nonNegative _ Hm) as HB.
  pose proof (roundToOneDecimal_nonNegative _ (calculateTotalScore_nonNegative _ Hm))
    as HT.
  rewrite Ht. repeat split; try assumption; now apply nonNegative_not_nan.
Qed.

End ParserProperties.

Lemma powerOfTen_finite (k : nat) :
  k <= 15 -> exists m e, Prim2SF (powerOfTen k) = S754_finite false m e.
Proof.
  intros H.
  do 16 (destruct k as [|k]; [vm_compute; eauto|]). lia.
Qed.

Lemma sampleParseFloat_nonNegative (tok : string) :
  nonNegative (sampleParseFloat tok) = true.
Proof.
  unfold sampleParseFloat.
  destruct (takeDigits tok) as [whole rest].
  match goal with |- context [String.length (whole +:+ ?f)] => set (fraction := f) end.
  destruct (String.length (whole +:+ fraction) <=? 15) eqn:E; [|reflexivity].
  apply Nat.leb_le in E. rewrite length_append in E.
  destruct (powerOfTen_finite (String.length fraction)) as (m & e & Hp); [lia|].
  unfold nonNegative. rewrite div_spec, Hp.
  apply SFdiv_nonneg; try discriminate; try reflexivity.
  rewrite of_uint63_spec. apply binary_normalize_nonneg. apply Uint63.to_Z_bounded.
Qed.

(** ** The theorems on the sample inputs *)

Lemma calculateRankings_ranks_witness :
  exists out X Y,
    calculateRankings exampleData = Some out /\
    out !! 0 = Some X /\ out !! 1 = Some Y /\
    (majorityVictories Y < majorityVictories X)%Q /\
    rank X < rank Y.
Proof.
  destruct (calculateRankings_ranks exampleData) as (out & Hout & _ & _ & Hord).
  assert (E := Hout). vm_compute in E. injection E as <-.
  eexists _, _, _. split; [exact Hout|].
  split; [reflexivity|]. split; [reflexivity|]. split; [reflexivity|].
  apply Hord; [left; reflexivity | right; left; reflexivity | reflexivity].
Defined.

Lemma headToHead_tally_witness :
  exists out rX eZ eW,
    calculateRankings splitVotes = Some out /\
    out !! 0 = Some rX /\ rname rX = "X" /\
    headToHeadResults rX = Some [eZ; eW] /\
    (opponent eZ = "Z" /\ skaterVotes eZ = 1 /\ opponentVotes eZ = 1 /\
     won eZ <> true /\ skaterVotes eZ + opponentVotes eZ < 3) /\
    (opponent eW = "W" /\ skaterVotes eW = 3 /\ opponentVotes eW = 0 /\
     won eW = true).
Proof.
  destruct (headToHead_tally splitVotes) as (out & Hout & H).
  assert (E := Hout). vm_compute in E. injection E as <-.
  match type of Hout with
  | _ = Some (?r :: ?rest) =>
      destruct (H r (or_introl eq_refl)) as (h & Hh & HF);
      exists (r :: rest), r
  end.
  cbv beta zeta in HF.
  change (List.filter _ splitVotes)
    with [fullyMarked "Z" [3; 3; 3]%float [2; 2; 2]%float;
          fullyMarked "W" [1; 1; 1]%float [1; 1; 1]%float] in HF.
  inversion HF as [|eZ Z h1 l1 (Z1 & Z2 & Z3 & _ & Z5) HF1]; subst.
  inversion HF1 as [|eW W h2 l2 (W1 & W2 & W3 & _ & W5) HF2]; subst.
  inversion HF2; subst.
  exists eZ, eW.
  split; [exact Hout|]. split; [reflexivity|]. split; [reflexivity|].
  split; [exact Hh|].
  split; [split; [exact Z1|]|split; [exact W1|]].
  - split; [rewrite Z2; vm_compute; reflexivity|].
    split; [rewrite Z3; vm_compute; reflexivity|].
    split.
    + intros Hw. apply Z5 in Hw. rewrite Z2, Z3 in Hw. vm_compute in Hw. lia.
    + rewrite Z2, Z3. vm_compute. lia.
  - split; [rewrite W2; vm_compute; reflexivity|].
    split; [rewrite W3; vm_compute; reflexivity|].
    apply W5. rewrite W2, W3. vm_compute. lia.
Defined.

Lemma headToHead_reciprocity_witness :
  exists out rX rY hX hY eXY eYX,
    calculateRankings exampleData = Some out /\
    out !! 0 = Some rX /\ out !! 2 = Some rY /\
    rname rX = "Julia" /\ rname rY = "Anna" /\
    headToHeadResults rX = Some hX /\ headToHeadResults rY = Some hY /\
    List.filter (fun e => String.eqb (opponent e) "Anna") hX = [eXY] /\
    List.filter (fun e => String.eqb (opponent e) "Julia") hY = [eYX] /\
    skaterVotes eXY = 2 /\ opponentVotes eYX = 2 /\
    skaterVotes eXY = opponentVotes eYX /\
    opponentVotes eXY = skaterVotes eYX.
Proof.
  destruct (headToHead_reciprocity exampleData) as (out & Hout & H).
  { repeat constructor; simpl; intuition discriminate. }
  assert (E := Hout). vm_compute in E. injection E as <-.
  match type of Hout with
  | _ = Some (?x :: ?z :: ?y :: ?rest) =>
      destruct (H 0 2 x y ltac:(discriminate) eq_refl eq_refl)
        as (hX & hY & eXY & eYX & HhX & HhY & HeXY & HeYX & Hv1 & Hv2);
      exists (x :: z :: y :: rest), x, y, hX, hY, eXY, eYX
  end.
  split; [exact Hout|].
  split; [reflexivity|]. split; [reflexivity|].
  split; [reflexivity|]. split; [reflexivity|].
  split; [exact HhX|]. split; [exact HhY|].
  split; [exact HeXY|]. split; [exact HeYX|].
  simpl in HhX, HhY. injection HhX as <-. injection HhY as <-.
  vm_compute in HeXY, HeYX. injection HeXY as <-. injection HeYX as <-.
  split; [reflexivity|]. split; [reflexivity|]. split; [exact Hv1|exact Hv2].
Defined.

Lemma tieBreak_summary_witness :
  exists out current compareWith,
    calculateRankings exampleData = Some out /\
    out !! 2 = Some current /\ out !! 3 = Some compareWith /\
    rname current = "Anna" /\ rname compareWith = "Ben" /\
    summaryIs current
      (firstLevelDifference (cascadeLevels exampleData current)
                            (cascadeLevels exampleData compareWith)) /\
    tieBreakLevel current = Some comparison_all.
Proof.
  destruct (tieBreak_summary exampleData) as (out & Hout & H).
  { repeat constructor; simpl; intuition discriminate. }
  { intros s Hs. simpl in Hs.
    repeat (destruct Hs as [<-|Hs]; [split; reflexivity|]). destruct Hs. }
  assert (E := Hout). vm_compute in E. injection E as <-.
  eexists _, _, _. split; [exact Hout|].
  split; [reflexivity|]. split; [reflexivity|].
  split; [reflexivity|]. split; [reflexivity|].
  split; [|reflexivity].
  match goal with
  | |- summaryIs ?cur _ =>
      destruct (H 2 cur eq_refl) as [_ Htied]
  end.
  destruct Htied as (start & w & Hrange & Hpos & Hnb & Hsum).
  { vm_compute. lia. }
  destruct Hnb as [[_ Hw]|[Hlast _]].
  - injection Hw as <-. exact Hsum.
  - exfalso. revert Hrange Hlast. vm_compute length.
    intros Hrange Hlast.
    assert (Hs : start = 1).
    { destruct (Hpos 1 _ eq_refl) as [Hp _]. specialize (Hp ltac:(reflexivity)).
      destruct (Hpos 0 _ eq_refl) as [_ Hq].
      destruct (Nat.eq_dec start 0) as [->|Hne]; [|lia].
      exfalso. specialize (Hq ltac:(lia)). vm_compute in Hq. discriminate. }
    lia.
Defined.

Ltac names_differ := repeat constructor; simpl; intuition discriminate.

Lemma winner_of_every_pair_is_first_witness :
  exists out first,
    calculateRankings exampleData = Some out /\
    out !! 0 = Some first /\
    scores first = fullyMarked "Julia" [2.5; 1.8; 2.3]%float [2.7; 2.9; 3.3]%float /\
    rank first = 1 /\
    (majorityVictories first == ofNat (length exampleData) - 1)%Q.
Proof.
  apply (winner_of_every_pair_is_first exampleData
           (fullyMarked "Julia" [2.5; 1.8; 2.3]%float [2.7; 2.9; 3.3]%float)).
  - names_differ.
  - simpl. tauto.
  - intros Y HY Hne. simpl in HY.
    repeat (destruct HY as [<-|HY];
            [first [now contradiction Hne | vm_compute; reflexivity]|]).
    destruct HY.
Defined.

Lemma loser_of_every_pair_is_last_witness :
  exists out last,
    calculateRankings exampleData = Some out /\
    out !! (length exampleData - 1) = Some last /\
    scores last = fullyMarked "Felix" [1.7; 1.5; 2.6]%float [2.2; 1.8; 2.1]%float /\
    rank last = length exampleData /\
    (majorityVictories last == 0)%Q.
Proof.
  apply (loser_of_every_pair_is_last exampleData
           (fullyMarked "Felix" [1.7; 1.5; 2.6]%float [2.2; 1.8; 2.1]%float)).
  - names_differ.
  - simpl. tauto.
  - intros Y HY Hne. simpl in HY.
    repeat (destruct HY as [<-|HY];
            [first [now contradiction Hne | vm_compute; reflexivity]|]).
    destruct HY.
Defined.

Lemma majorityVictories_from_headToHead_witness :
  exists out,
    calculateRankings partlyMarked = Some out /\
    forall r, In r out ->
      exists h,
        headToHeadResults r = Some h /\
        S (length h) = length partlyMarked /\
        (majorityVictories r
         == ofNat (length (List.filter won h))
            + (1 # 2) * ofNat (length (List.filter drawn h)))%Q.
Proof.
  apply (majorityVictories_from_headToHead partlyMarked).
  - names_differ.
  - intros s Hs. simpl in Hs.
    repeat (destruct Hs as [<-|Hs]; [reflexivity|]). destruct Hs.
Defined.

Lemma tieBreakInfo_trail_witness :
  exists out current,
    calculateRankings exampleData = Some out /\
    out !! 2 = Some current /\ rname current = "Anna" /\
    length (List.filter (tiedWith current) out) = 4 /\
    exists info,
      tieBreakInfo current = Some info /\
      List.map fst info = [direct_comparison; b_score_sum; comparison_all] /\
      StronglySorted (fun a b => levelIndex a < levelIndex b) (List.map fst info).
Proof.
  destruct (tieBreakInfo_trail exampleData ltac:(names_differ)) as (out & Hout & H).
  assert (E := Hout). vm_compute in E. injection E as <-.
  eexists _, _. split; [exact Hout|].
  split; [reflexivity|]. split; [reflexivity|]. split; [reflexivity|].
  match goal with
  | |- context [tieBreakInfo ?cur = _] =>
      destruct (H 2 cur eq_refl) as (_ & _ & Htied)
  end.
  destruct Htied as (info & Hinfo & Hsort & _); [vm_compute; lia|].
  exists info. split; [exact Hinfo|]. split; [|exact Hsort].
  simpl in Hinfo. injection Hinfo as <-. reflexivity.
Defined.

Lemma summary_level_in_trail_witness :
  exists out current info,
    calculateRankings exampleData = Some out /\
    out !! 2 = Some current /\
    tieBreakLevel current = Some comparison_all /\
    tieBreakInfo current = Some info /\
    In comparison_all (List.map fst info).
Proof.
  destruct (summary_level_in_trail exampleData) as (out & Hout & H).
  - names_differ.
  - intros s Hs. simpl in Hs.
    repeat (destruct Hs as [<-|Hs]; [split; reflexivity|]). destruct Hs.
  - assert (E := Hout). vm_compute in E. injection E as <-.
    match goal with
    | H : forall current level, In current (_ :: _ :: ?cur :: _) -> _ |- _ =>
        destruct (H cur comparison_all) as (info & Hinfo & Hin);
        [right; right; left; reflexivity|reflexivity|];
        lazymatch type of Hout with _ = Some ?o => exists o, cur, info end
    end.
    split; [exact Hout|]. split; [reflexivity|]. split; [reflexivity|].
    split; [exact Hinfo|exact Hin].
Defined.

Lemma full_ties_keep_input_order_witness :
  exists out rX rY,
    calculateRankings perfectTie = Some out /\
    out !! 0 = Some rX /\ out !! 1 = Some rY /\
    rname rX = "SkaterA" /\ rname rY = "SkaterB" /\
    (0 < 1 <-> precedes (scores rX) (scores rY) perfectTie).
Proof.
  destruct (full_ties_keep_input_order perfectTie) as (out & Hout & H).
  { names_differ. }
  { intros s Hs. simpl in Hs.
    repeat (destruct Hs as [<-|Hs]; [split; reflexivity|]). destruct Hs. }
  assert (E := Hout). vm_compute in E. injection E as <-.
  eexists _, _, _. split; [exact Hout|].
  split; [reflexivity|]. split; [reflexivity|].
  split; [reflexivity|]. split; [reflexivity|].
  apply H; [reflexivity|reflexivity|reflexivity|].
  unfold cascadeTie. vm_compute. repeat split; reflexivity.
Defined.

Lemma nonNegativeMarks_no_NaN_witness :
  let anna := fullyMarked "Anna" [2.3; 3.1; 3.0]%float [2.9; 2.7; 1.9]%float in
  nonNegative (calculateBScoreSum anna) = true /\
  nonNegative (calculateTotalScore anna) = true /\
  nonNegative (roundToOneDecimal (calculateTotalScore anna)) = true /\
  is_nan (calculateBScoreSum anna) = false /\
  is_nan (roundToOneDecimal (calculateTotalScore anna)) = false.
Proof.
  apply (nonNegativeMarks_no_NaN
           (fullyMarked "Anna" [2.3; 3.1; 3.0]%float [2.9; 2.7; 1.9]%float)).
  vm_compute. reflexivity.
Defined.

Lemma buildGraph_links_witness :
  (linked (buildGraph chainResults) "A" "C" <->
   beats chainResults "A" "C" /\
   ~ exists b rs rb rt,
       b <> "C" /\ beats chainResults "A" b /\ beats chainResults b "C" /\
       hasRank chainResults "A" rs /\ hasRank chainResults b rb /\
       hasRank chainResults "C" rt /\ rs < rb /\ rb < rt) /\
  links (buildGraph chainResults) = [mkLink "A" "B"; mkLink "B" "C"].
Proof.
  split; [|reflexivity].
  apply (buildGraph_links chainResults "A" "C"). names_differ.
Defined.

Lemma buildGraph_reaches_witness :
  tc (linked (buildGraph chainResults)) "A" "C" /\
  ~ linked (buildGraph chainResults) "A" "C".
Proof.
  split.
  - apply (buildGraph_reaches chainResults "A" "C"); [names_differ|].
    eexists _, _, (mkH2H "C" true 1 0). split; [left; reflexivity|].
    split; [reflexivity|]. split; [reflexivity|].
    split; [right; left; reflexivity|]. split; reflexivity.
  - unfold linked. vm_compute. intuition discriminate.
Defined.

Lemma ranking_network_witness :
  exists out,
    calculateRankings exampleData = Some out /\
    List.map nodeId (nodes (buildGraph out)) = List.map rname out /\
    length (links (buildGraph out)) = 12.
Proof.
  destruct (ranking_network exampleData ltac:(names_differ))
    as (out & Hout & Hids & _).
  assert (E := Hout). vm_compute in E. injection E as <-.
  eexists. split; [exact Hout|]. split; [exact Hids|].
  vm_compute. reflexivity.
Defined.

Lemma parseInput_shape_witness :
  let skater :=
    mkSkater "Skater 4" [Some 0.5%float; Some 7%float; None] [None; None; None] in
  In skater (parseInput sampleParseFloat typedInput) /\
  (exists numbers : list string,
     1 <= length numbers <= 6 /\
     List.Forall (fun n => isNumberToken n = true
                           /\ is_nan (sampleParseFloat n) = false) numbers /\
     aScores skater ++ bScores skater
       = List.map (fun n => Some (sampleParseFloat n)) numbers
         ++ repeat None (6 - length numbers) /\
     length (aScores skater) = 3 /\ length (bScores skater) = 3) /\
  paddedAtEnd skater = true.
Proof.
  cbv zeta.
  assert (Hin : In (mkSkater "Skater 4" [Some 0.5%float; Some 7%float; None]
                             [None; None; None])
                   (parseInput sampleParseFloat typedInput)).
  { vm_compute. right. right. left. reflexivity. }
  split; [exact Hin|].
  exact (parseInput_shape sampleParseFloat typedInput _ Hin).
Defined.

Lemma no_invalid_numbers_warning_witness :
  warnings (parseLines sampleParseFloat typedInput) = [noNumbersWarning "none"] /\
  List.Forall (fun w => exists line, In line (splitLines (trim typedInput))
                                     /\ w = noNumbersWarning line)
              (warnings (parseLines sampleParseFloat typedInput)) /\
  ~ In (invalidNumbersWarning "none") (warnings (parseLines sampleParseFloat typedInput)).
Proof.
  split; [vm_compute; reflexivity|].
  destruct (no_invalid_numbers_warning sampleParseFloat typedInput) as [H1 H2].
  { intros tok _. apply nonNegative_not_nan, sampleParseFloat_nonNegative. }
  split; [exact H1|apply H2].
Defined.

Lemma generated_names_distinct_witness :
  List.map name (parseInput sampleParseFloat typedInput)
    = ["Skater 1"; "Skater 2"; "Skater 4"] /\
  List.NoDup (List.map name (parseInput sampleParseFloat typedInput)).
Proof.
  split; [vm_compute; reflexivity|].
  apply (generated_names_distinct sampleParseFloat typedInput).
  intros line Hin _. vm_compute in Hin.
  repeat (destruct Hin as [<-|Hin]; [vm_compute; reflexivity|]). destruct Hin.
Defined.

Lemma typed_marks_no_NaN_witness :
  length (fst (useScoreCalculation sampleParseFloat "" typedInput)) = 3 /\
  List.Forall
    (fun r => nonNegativeMarks (scores r) = true /\
              nonNegative (totalScore r) = true /\
              is_nan (totalScore r) = false /\
              nonNegative (calculateBScoreSum (scores r)) = true /\
              is_nan (calculateBScoreSum (scores r)) = false)
    (fst (useScoreCalculation sampleParseFloat "" typedInput)).
Proof.
  split; [vm_compute; reflexivity|].
  apply List.Forall_forall. intros r Hr.
  apply (typed_marks_no_NaN sampleParseFloat "" typedInput r); [|exact Hr].
  intros tok _. apply sampleParseFloat_nonNegative.
Defined.
